(** * Yices 2 core: term occurrences, term table, symbol table, context
      options, clause pool, watch vectors and the SMT-LIB 2 front end.

    A shallow embedding of the C sources (terms.h, context.h,
    new_sat_solver.h, yices_smt2.c) together with the properties the
    specification states about them, followed by further properties of
    these sources and of smt2_hash_tokens.h, projection.c and the test
    driver of the symbol table. *)

From Stdlib Require Import ZArith Lia Bool.
From stdpp Require Import base numbers option list gmap strings.

Local Open Scope Z_scope.

(** ** Machine integers *)

(** [int32_t] and [uint32_t] values are integers of [Z]; the wrap-around of
    the C operations is written out with these two normalisations. *)
Definition uint32 (z : Z) : Z := z mod 2 ^ 32.
Definition sint32 (z : Z) : Z := (z + 2 ^ 31) mod 2 ^ 32 - 2 ^ 31.

Definition is_int32 (z : Z) : Prop := - 2 ^ 31 <= z < 2 ^ 31.
Definition is_uint32 (z : Z) : Prop := 0 <= z < 2 ^ 32.

(** ** Term occurrences (terms.h) *)

Module TermOcc.

(** Predefined terms. *)
Definition bool_const : Z := 1.
Definition true_term : Z := 2.
Definition false_term : Z := 3.

(** Modelled from the spec: yices_types.h is not under src/.  [NULL_TERM]
    is the value that reports "no term" ([find(name) → occ | ⊥]); the test
    driver of the symbol table expects -1 for a name that is not bound. *)
Definition NULL_TERM : Z := -1.

(** [pos_term]: [(i << 1)] on [int32_t]. *)
Definition pos_term (i : Z) : Z := sint32 (Z.shiftl i 1).

(** [neg_term]: [(i << 1) | 1]. *)
Definition neg_term (i : Z) : Z := Z.lor (sint32 (Z.shiftl i 1)) 1.

(** [mk_term]: [(i << 1) | (((int32_t) tt) ^ 1)]. *)
Definition mk_term (i : Z) (tt : bool) : Z :=
  Z.lor (sint32 (Z.shiftl i 1)) (Z.lxor (Z.b2z tt) 1).

(** [index_of]: [x >> 1], an arithmetic shift on [int32_t]. *)
Definition index_of (x : Z) : Z := Z.shiftr x 1.

(** [polarity_of]: [((uint32_t) x) & 1]. *)
Definition polarity_of (x : Z) : Z := Z.land (uint32 x) 1.

Definition is_pos_term (x : Z) : bool := polarity_of x =? 0.
Definition is_neg_term (x : Z) : bool := negb (polarity_of x =? 0).

(** [opposite_term]: [x ^ 1]. *)
Definition opposite_term (x : Z) : Z := Z.lxor x 1.

(** [unsigned_term]: [x & ~1]. *)
Definition unsigned_term (x : Z) : Z := Z.land x (Z.lnot 1).

(** [signed_term]: [x ^ (((int32_t) tt) ^ 1)]. *)
Definition signed_term (x : Z) (tt : bool) : Z :=
  Z.lxor x (Z.lxor (Z.b2z tt) 1).

(** [opposite_bool_terms]: [(x ^ y) == 1]. *)
Definition opposite_bool_terms (x y : Z) : bool := Z.lxor x y =? 1.

Definition bool2term (tt : bool) : Z := mk_term bool_const tt.

(** The layout documented at the head of terms.h: the sign bit (bit 31) of
    an occurrence is 0, bits 30..1 hold the term index and bit 0 is the
    polarity. *)
Definition is_term_occurrence (x : Z) : Prop := 0 <= x < 2 ^ 31.

(** Indices that fit the 30 index bits of an occurrence. *)
Definition is_term_index (i : Z) : Prop := 0 <= i < 2 ^ 30.

End TermOcc.

(** ** Boolean variables and literals (new_sat_solver.h) *)

Module Literal.

Definition UINT32_MAX : Z := 2 ^ 32 - 1.

(** [MAX_VARIABLES]: [(UINT32_MAX >> 2)]; also the maximal clause size. *)
Definition MAX_VARIABLES : Z := Z.shiftr UINT32_MAX 2.
Definition MAX_CLAUSE_SIZE : Z := MAX_VARIABLES.

(** [pos]: [(x << 1)] on [uint32_t]. *)
Definition pos (x : Z) : Z := uint32 (Z.shiftl x 1).

(** [neg]: [(x << 1) + 1]. *)
Definition neg (x : Z) : Z := uint32 (uint32 (Z.shiftl x 1) + 1).

Definition var_of (l : Z) : Z := Z.shiftr l 1.

Definition sign_of (l : Z) : Z := Z.land l 1.

(** [not]: negation of literal [l], [l ^ 1]. *)
Definition not (l : Z) : Z := Z.lxor l 1.

Definition opposite (l1 l2 : Z) : bool := Z.lxor l1 l2 =? 1.

Definition is_pos (l : Z) : bool := Z.land l 1 =? 0.
Definition is_neg (l : Z) : bool := negb (Z.land l 1 =? 0).

(** Literals are the integers between 0 and 2 nvars + 1, and there are at
    most [MAX_VARIABLES] variables. *)
Definition is_literal (l : Z) : Prop := 0 <= l <= 2 * MAX_VARIABLES + 1.

End Literal.

(** ** Symbol table *)

Module SymbolTable.

(** Modelled from the spec: symbol_tables.h and symbol_tables.c are not
    under src/ (only the test driver test_symbol_table.c and the callers
    declared in terms.h are).  "A chained hash table keyed by name
    strings": a record of a chain carries the hash of its name, the value
    bound to it and the name. *)
Record stbl_rec := {
  rec_hash : Z;
  rec_value : Z;
  rec_string : string
}.

(** Modelled from the spec: the table, an array of [stbl_size] chains
    indexed by the low-order bits of the hash. *)
Record stbl_t := {
  stbl_data : gmap Z (list stbl_rec);  (* bucket index -> chain *)
  stbl_size : Z                         (* number of buckets, a power of two *)
}.

Section WithHash.

(** The hash function on strings. *)
Variable hash : string -> Z.

(** Modelled from the spec: [init_stbl]; the table starts without any
    binding. *)
Definition init_stbl (n : Z) : stbl_t :=
  {| stbl_data := ∅; stbl_size := n |}.

Definition bucket_index (tbl : stbl_t) (h : Z) : Z :=
  Z.land h (stbl_size tbl - 1).

Definition chain (tbl : stbl_t) (i : Z) : list stbl_rec :=
  default [] (stbl_data tbl !! i).

Definition rec_matches (h : Z) (name : string) (r : stbl_rec) : bool :=
  (rec_hash r =? h) && bool_decide (rec_string r = name).

Fixpoint find_rec (h : Z) (name : string) (l : list stbl_rec)
  : option stbl_rec :=
  match l with
  | [] => None
  | r :: l' => if rec_matches h name r then Some r else find_rec h name l'
  end.

Fixpoint remove_rec (h : Z) (name : string) (l : list stbl_rec)
  : list stbl_rec :=
  match l with
  | [] => []
  | r :: l' => if rec_matches h name r then l' else r :: remove_rec h name l'
  end.

(** Modelled from the spec: [stbl_find], "find(name) → occ | ⊥": the value
    of the first record of the chain that carries the name, -1 if there is
    none. *)
Definition stbl_find (tbl : stbl_t) (name : string) : Z :=
  let h := hash name in
  match find_rec h name (chain tbl (bucket_index tbl h)) with
  | Some r => rec_value r
  | None => -1
  end.

(** Modelled from the spec: [stbl_add], "set_name(name, occ) pushes a
    binding (previous binding hidden, not lost)": the new record goes to
    the head of the chain. *)
Definition stbl_add (tbl : stbl_t) (name : string) (value : Z) : stbl_t :=
  let h := hash name in
  let i := bucket_index tbl h in
  let r := {| rec_hash := h; rec_value := value; rec_string := name |} in
  {| stbl_data := <[i := r :: chain tbl i]> (stbl_data tbl);
     stbl_size := stbl_size tbl |}.

(** Modelled from the spec: [stbl_remove], "remove(name) pops the most
    recent binding": the first record of the chain that carries the name
    is unlinked; nothing is done if there is none. *)
Definition stbl_remove (tbl : stbl_t) (name : string) : stbl_t :=
  let h := hash name in
  let i := bucket_index tbl h in
  {| stbl_data := <[i := remove_rec h name (chain tbl i)]> (stbl_data tbl);
     stbl_size := stbl_size tbl |}.

(** The stack of values bound to [name], most recent first. *)
Definition bindings (tbl : stbl_t) (name : string) : list Z :=
  let h := hash name in
  rec_value <$>
    List.filter (rec_matches h name) (chain tbl (bucket_index tbl h)).

End WithHash.

End SymbolTable.

(** ** Term table (terms.h) *)

Module TermTable.

Import TermOcc.

(** Term kinds, in the order of [term_kind_t]. *)
Inductive term_kind :=
| UNUSED_TERM
| RESERVED_TERM
| CONSTANT_TERM
| BV64_CONSTANT
| BV_CONSTANT
| UNINTERPRETED_TERM
| ITE_TERM
| EQ_TERM
| DISTINCT_TERM
| OR_TERM
| XOR_TERM
| BV_ARRAY
| BV_DIV
| BV_REM
| BV_SDIV
| BV_SREM
| BV_SMOD
| BV_SHL
| BV_LSHR
| BV_ASHR
| BV_EQ_ATOM
| BV_GE_ATOM
| BV_SGE_ATOM
| BIT_TERM
| POWER_PRODUCT
| BV64_POLY
| BV_POLY.

#[global] Instance term_kind_eq_dec : EqDecision term_kind.
Proof. solve_decision. Defined.

(** Position of a kind in the enumeration ("the enumeration order is
    significant"). *)
Definition kind_code (k : term_kind) : Z :=
  match k with
  | UNUSED_TERM => 0 | RESERVED_TERM => 1 | CONSTANT_TERM => 2
  | BV64_CONSTANT => 3 | BV_CONSTANT => 4 | UNINTERPRETED_TERM => 5
  | ITE_TERM => 6 | EQ_TERM => 7 | DISTINCT_TERM => 8 | OR_TERM => 9
  | XOR_TERM => 10 | BV_ARRAY => 11 | BV_DIV => 12 | BV_REM => 13
  | BV_SDIV => 14 | BV_SREM => 15 | BV_SMOD => 16 | BV_SHL => 17
  | BV_LSHR => 18 | BV_ASHR => 19 | BV_EQ_ATOM => 20 | BV_GE_ATOM => 21
  | BV_SGE_ATOM => 22 | BIT_TERM => 23 | POWER_PRODUCT => 24
  | BV64_POLY => 25 | BV_POLY => 26
  end.

(** Modelled from the spec: types.h is not under src/.  Types are
    hash-consed in their own table, so a type reference stands for the type
    it denotes: Boolean, BitVec(n), and the scalar and uninterpreted types
    that [constant_term] accepts. *)
Inductive type_t :=
| bool_type
| bv_type (n : Z)
| scalar_type (id card : Z)
| uninterpreted_type (id : Z).

#[global] Instance type_t_eq_dec : EqDecision type_t.
Proof. solve_decision. Defined.

Definition is_boolean_type (tau : type_t) : bool :=
  match tau with bool_type => true | _ => false end.

(** Modelled from the spec: pprod_table.h and the arithmetic buffers are
    not under src/.  A power product is an ordered list of pairs (term
    occurrence, exponent); power products are hash-consed separately, so
    equal lists denote the same object.  A polynomial buffer holds a bit
    size and monomials (coefficient, power product). *)
Definition pprod := list (Z * Z).

Record bvarith_buffer := {
  buffer_bitsize : Z;
  buffer_mono : list (Z * pprod)
}.

(** Term descriptors: the union [term_desc_t] and the objects its pointer
    refers to. *)
Inductive term_desc :=
| desc_integer (i : Z)
| desc_composite (arg : list Z)
| desc_select (idx : Z) (arg : Z)
| desc_bvconst64 (bitsize : Z) (value : Z)
| desc_bvconst (bitsize : Z) (data : list Z)
| desc_pprod (r : pprod)
| desc_bvpoly (bitsize : Z) (mono : list (Z * Z)).

#[global] Instance term_desc_eq_dec : EqDecision term_desc.
Proof. unfold pprod. solve_decision. Defined.

(** One slot of the parallel arrays [kind], [type] and [desc]. *)
Record term_entry := {
  kind : term_kind;
  type : type_t;
  desc : term_desc
}.

(** The term table.  [nelems] is the length of [entries]; [free_idx] heads
    the free list, which is chained through the integer descriptors of the
    unused slots and ends with -1.  [stbl] maps names to occurrences and
    [ntbl] maps occurrences to their base name.  The hash-consing table
    [htbl] is represented by the search it implements ([find_term]). *)
Record term_table := {
  entries : list term_entry;
  free_idx : Z;
  stbl : SymbolTable.stbl_t;
  ntbl : gmap Z string
}.

Definition nelems (t : term_table) : Z := Z.of_nat (length (entries t)).

Definition const_idx : Z := 0.

(** Modelled from the spec: [init_term_table] is defined in terms.c, which
    is not under src/.  "Index 0 is reserved; index 1 is the Boolean
    constant true".  [n] is the initial size, passed on to the symbol
    table. *)
Definition init_term_table (n : Z) : term_table :=
  {| entries :=
       [ {| kind := RESERVED_TERM; type := bool_type; desc := desc_integer 0 |};
         {| kind := CONSTANT_TERM; type := bool_type; desc := desc_integer 0 |} ];
     free_idx := -1;
     stbl := SymbolTable.init_stbl n;
     ntbl := ∅ |}.

(** *** Access to terms *)

Definition entry_at (t : term_table) (i : Z) : option term_entry :=
  if 0 <=? i then entries t !! Z.to_nat i else None.

Definition valid_term_idx (t : term_table) (i : Z) : bool :=
  (0 <=? i) && (i <? nelems t).

Definition live_term_idx (t : term_table) (i : Z) : bool :=
  match entry_at t i with
  | Some e => negb (bool_decide (kind e = UNUSED_TERM))
  | None => false
  end.

Definition good_term_idx (t : term_table) (i : Z) : bool :=
  match entry_at t i with
  | Some e => kind_code RESERVED_TERM <? kind_code (kind e)
  | None => false
  end.

Definition type_for_idx (t : term_table) (i : Z) : type_t :=
  match entry_at t i with
  | Some e => type e
  | None => bool_type
  end.

Definition term_type (t : term_table) (x : Z) : type_t :=
  type_for_idx t (index_of x).

Definition is_boolean_term (t : term_table) (x : Z) : bool :=
  is_boolean_type (term_type t x).

(** Modelled from the spec: [good_term] is declared extern in terms.h (its
    definition is not under src/), which documents it as "good_term means
    good_term_index and polarity = 0 (unless t is Boolean)"; "non-Boolean
    occurrences have low bit 0". *)
Definition good_term (t : term_table) (x : Z) : bool :=
  good_term_idx t (index_of x) && (is_pos_term x || is_boolean_term t x).

(** *** Hash consing *)

(** Modelled from the spec: terms.c (the term constructors) is not under
    src/.  "Two terms with equal kind and equal descriptor (structural
    equality) share one index": an entry matches a key when it has the
    kind and the descriptor of the key and, for a constant, its type (a
    constant is made of a type and an index). *)
Definition entry_matches (k : term_kind) (tau : type_t) (d : term_desc)
    (e : term_entry) : bool :=
  bool_decide (kind e = k) && bool_decide (desc e = d) &&
  (negb (bool_decide (k = CONSTANT_TERM)) || bool_decide (type e = tau)).

(** Modelled from the spec: the search in the hash-consing table [htbl],
    which holds the hash-consed live terms: the index and the entry of the
    term that matches the key, if there is one. *)
Definition find_term (k : term_kind) (tau : type_t) (d : term_desc)
    (t : term_table) : option (nat * term_entry) :=
  list_find (fun e => entry_matches k tau d e = true) (entries t).

(** Next link of the free list stored in slot [i]. *)
Definition free_next (t : term_table) (i : Z) : Z :=
  match entry_at t i with
  | Some {| desc := desc_integer j |} => j
  | _ => -1
  end.

(** Modelled from the spec: allocation of a term, "deleted indices form a
    free list chained through the descriptor": the head of the free list
    is reused when there is one, the arrays are extended otherwise.
    Returns the index of the term. *)
Definition new_term (k : term_kind) (tau : type_t) (d : term_desc)
    (t : term_table) : term_table * Z :=
  let e := {| kind := k; type := tau; desc := d |} in
  if 0 <=? free_idx t then
    let i := free_idx t in
    ({| entries := <[Z.to_nat i := e]> (entries t);
        free_idx := free_next t i;
        stbl := stbl t;
        ntbl := ntbl t |}, i)
  else
    ({| entries := entries t ++ [e];
        free_idx := free_idx t;
        stbl := stbl t;
        ntbl := ntbl t |}, nelems t).

(** Modelled from the spec: hash consing, "structural de-duplication at
    constructor time": the term that matches the key is returned if there
    is one, a new term is stored otherwise.  The result is the positive
    occurrence of the term. *)
Definition hash_cons (k : term_kind) (tau : type_t) (d : term_desc)
    (t : term_table) : term_table * Z :=
  match find_term k tau d t with
  | Some (i, _) => (t, pos_term (Z.of_nat i))
  | None => let '(t', i) := new_term k tau d t in (t', pos_term i)
  end.

(** *** Term constructors *)

(** Modelled from the spec: [constant_term], "hash-consed; fails if idx
    out of range for a scalar type". *)
Definition constant_term (t : term_table) (tau : type_t) (index : Z)
  : term_table * Z :=
  match tau with
  | scalar_type _ card =>
      if (0 <=? index) && (index <? card)
      then hash_cons CONSTANT_TERM tau (desc_integer index) t
      else (t, NULL_TERM)
  | _ => hash_cons CONSTANT_TERM tau (desc_integer index) t
  end.

(** Modelled from the spec: [new_uninterpreted_term], "always fresh; never
    hash-consed" (terms.h: "this always creates a fresh term"). *)
Definition new_uninterpreted_term (t : term_table) (tau : type_t)
  : term_table * Z :=
  let '(t', i) := new_term UNINTERPRETED_TERM tau (desc_integer 0) t in
  (t', pos_term i).

(** Modelled from the spec: [not_term], "flips the low bit" (terms.h:
    "just flip the polarity bit"). *)
Definition not_term (t : term_table) (p : Z) : Z := opposite_term p.

(** Modelled from the spec: [ite], [eq], [distinct], [or], [xor] and
    [bit], "structural hash-consing; no simplification"; the constructors
    other than [ite_term] compute the result type. *)
Definition ite_term (t : term_table) (tau : type_t) (cond left right : Z)
  : term_table * Z :=
  hash_cons ITE_TERM tau (desc_composite [cond; left; right]) t.

Definition eq_term (t : term_table) (left right : Z) : term_table * Z :=
  hash_cons EQ_TERM bool_type (desc_composite [left; right]) t.

Definition distinct_term (t : term_table) (arg : list Z) : term_table * Z :=
  hash_cons DISTINCT_TERM bool_type (desc_composite arg) t.

Definition or_term (t : term_table) (arg : list Z) : term_table * Z :=
  hash_cons OR_TERM bool_type (desc_composite arg) t.

Definition xor_term (t : term_table) (arg : list Z) : term_table * Z :=
  hash_cons XOR_TERM bool_type (desc_composite arg) t.

Definition bit_term (t : term_table) (index : Z) (bv : Z) : term_table * Z :=
  hash_cons BIT_TERM bool_type (desc_select index bv) t.

(** Modelled from the spec: [pprod_term]; the result has the type of the
    variables of [r]. *)
Definition pprod_term (t : term_table) (r : pprod) : term_table * Z :=
  let tau := match r with (x, _) :: _ => term_type t x | [] => bool_type end in
  hash_cons POWER_PRODUCT tau (desc_pprod r) t.

(** Modelled from the spec: [bv64_constant] and [bvconst_term], the
    compact form for at most 64 bits and the array of words above; the
    value is stored as it is given (normalized by the caller). *)
Definition bv64_constant (t : term_table) (n : Z) (bv : Z) : term_table * Z :=
  hash_cons BV64_CONSTANT (bv_type n) (desc_bvconst64 n bv) t.

Definition bvconst_term (t : term_table) (n : Z) (bv : list Z)
  : term_table * Z :=
  hash_cons BV_CONSTANT (bv_type n) (desc_bvconst n bv) t.

(** Modelled from the spec: conversion of the power products of a buffer
    to terms ("the power products that occur in b are converted to terms
    (using pprod_term)"): the empty product is [const_idx], a single
    variable is the variable itself, any other product goes through
    [pprod_term]. *)
Definition term_for_pprod (t : term_table) (r : pprod) : term_table * Z :=
  match r with
  | [] => (t, const_idx)
  | [(x, 1)] => (t, x)
  | _ => pprod_term t r
  end.

Fixpoint terms_for_monomials (t : term_table) (ms : list (Z * pprod))
  : term_table * list (Z * Z) :=
  match ms with
  | [] => (t, [])
  | (a, r) :: ms' =>
      let '(t1, x) := term_for_pprod t r in
      let '(t2, rest) := terms_for_monomials t1 ms' in
      (t2, (a, x) :: rest)
  end.

Definition reset_buffer (b : bvarith_buffer) : bvarith_buffer :=
  {| buffer_bitsize := buffer_bitsize b; buffer_mono := [] |}.

(** Modelled from the spec: [bv64_poly] and [bv_poly], "built from a
    normalizing buffer; the buffer is reset as a side effect".  The
    coefficients are represented by their values. *)
Definition bv64_poly (t : term_table) (b : bvarith_buffer)
  : term_table * bvarith_buffer * Z :=
  let '(t1, mono) := terms_for_monomials t (buffer_mono b) in
  let '(t2, x) :=
    hash_cons BV64_POLY (bv_type (buffer_bitsize b))
      (desc_bvpoly (buffer_bitsize b) mono) t1 in
  (t2, reset_buffer b, x).

Definition bv_poly (t : term_table) (b : bvarith_buffer)
  : term_table * bvarith_buffer * Z :=
  let '(t1, mono) := terms_for_monomials t (buffer_mono b) in
  let '(t2, x) :=
    hash_cons BV_POLY (bv_type (buffer_bitsize b))
      (desc_bvpoly (buffer_bitsize b) mono) t1 in
  (t2, reset_buffer b, x).

(** Modelled from the spec: [bvarray_term], the bit-vector formed of the
    Boolean terms [arg]. *)
Definition bvarray_term (t : term_table) (arg : list Z) : term_table * Z :=
  hash_cons BV_ARRAY (bv_type (Z.of_nat (length arg))) (desc_composite arg) t.

(** Modelled from the spec: the division, remainder and shift operators,
    binary composites with the type of their first argument. *)
Inductive bv_binop :=
| Bvdiv | Bvrem | Bvsdiv | Bvsrem | Bvsmod | Bvshl | Bvlshr | Bvashr.

Definition binop_kind (op : bv_binop) : term_kind :=
  match op with
  | Bvdiv => BV_DIV | Bvrem => BV_REM | Bvsdiv => BV_SDIV
  | Bvsrem => BV_SREM | Bvsmod => BV_SMOD | Bvshl => BV_SHL
  | Bvlshr => BV_LSHR | Bvashr => BV_ASHR
  end.

Definition bvterm (op : bv_binop) (t : term_table) (a b : Z)
  : term_table * Z :=
  hash_cons (binop_kind op) (term_type t a) (desc_composite [a; b]) t.

Definition bvdiv_term := bvterm Bvdiv.
Definition bvrem_term := bvterm Bvrem.
Definition bvsdiv_term := bvterm Bvsdiv.
Definition bvsrem_term := bvterm Bvsrem.
Definition bvsmod_term := bvterm Bvsmod.
Definition bvshl_term := bvterm Bvshl.
Definition bvlshr_term := bvterm Bvlshr.
Definition bvashr_term := bvterm Bvashr.

(** Modelled from the spec: the bit-vector atoms, binary composites of
    Boolean type. *)
Inductive bv_atom := Bveq | Bvge | Bvsge.

Definition atom_kind (op : bv_atom) : term_kind :=
  match op with
  | Bveq => BV_EQ_ATOM | Bvge => BV_GE_ATOM | Bvsge => BV_SGE_ATOM
  end.

Definition bvatom (op : bv_atom) (t : term_table) (l r : Z)
  : term_table * Z :=
  hash_cons (atom_kind op) bool_type (desc_composite [l; r]) t.

Definition bveq_atom := bvatom Bveq.
Definition bvge_atom := bvatom Bvge.
Definition bvsge_atom := bvatom Bvsge.

(** A call to one of the constructors declared in terms.h, with its
    arguments. *)
Inductive constructor_call :=
| Constant_term (tau : type_t) (index : Z)
| New_uninterpreted_term (tau : type_t)
| Ite_term (tau : type_t) (cond left right : Z)
| Eq_term (left right : Z)
| Distinct_term (arg : list Z)
| Or_term (arg : list Z)
| Xor_term (arg : list Z)
| Bit_term (index bv : Z)
| Pprod_term (r : pprod)
| Bv64_constant (n bv : Z)
| Bvconst_term (n : Z) (bv : list Z)
| Bv64_poly (b : bvarith_buffer)
| Bv_poly (b : bvarith_buffer)
| Bvarray_term (arg : list Z)
| Bv_binop (op : bv_binop) (a b : Z)
| Bv_atom (op : bv_atom) (l r : Z).

Definition call (c : constructor_call) (t : term_table) : term_table * Z :=
  match c with
  | Constant_term tau index => constant_term t tau index
  | New_uninterpreted_term tau => new_uninterpreted_term t tau
  | Ite_term tau c l r => ite_term t tau c l r
  | Eq_term l r => eq_term t l r
  | Distinct_term arg => distinct_term t arg
  | Or_term arg => or_term t arg
  | Xor_term arg => xor_term t arg
  | Bit_term index bv => bit_term t index bv
  | Pprod_term r => pprod_term t r
  | Bv64_constant n bv => bv64_constant t n bv
  | Bvconst_term n bv => bvconst_term t n bv
  | Bv64_poly b => let '(t', _, x) := bv64_poly t b in (t', x)
  | Bv_poly b => let '(t', _, x) := bv_poly t b in (t', x)
  | Bvarray_term arg => bvarray_term t arg
  | Bv_binop op a b => bvterm op t a b
  | Bv_atom op l r => bvatom op t l r
  end.

(** The constructors that do hash consing: all but
    [new_uninterpreted_term]. *)
Definition hash_consing_call (c : constructor_call) : bool :=
  match c with
  | New_uninterpreted_term _ => false
  | _ => true
  end.

(** *** Garbage collection *)

(** The garbage collector is defined in terms.c, which is not under src/;
    it is modelled from its description in terms.h and in the spec:
    "the predefined terms are marked; if keep_named is true, all terms
    accessible from the symbol table are marked too; the marks are
    propagated to subterms; every term that's not marked is deleted; if
    keep_named is false, all references to dead terms are removed from the
    symbol table; finally all the marks are cleared", and, for deletion,
    "term indices are recycled into a free list". *)

(** The terms that a descriptor refers to. *)
Definition desc_children (d : term_desc) : list Z :=
  match d with
  | desc_integer _ => []
  | desc_composite arg => List.map index_of arg
  | desc_select _ arg => [index_of arg]
  | desc_bvconst64 _ _ => []
  | desc_bvconst _ _ => []
  | desc_pprod r => List.map (fun xe => index_of (fst xe)) r
  | desc_bvpoly _ mono => List.map (fun ax => index_of (snd ax)) mono
  end.

(** The subterms of the term of index [i]; an unused slot has none (its
    integer descriptor is a link of the free list). *)
Definition children (t : term_table) (i : Z) : list Z :=
  match entry_at t i with
  | Some e =>
      if bool_decide (kind e = UNUSED_TERM) then [] else desc_children (desc e)
  | None => []
  end.

(** The array [mark]: one bit for each index.  [marked] is
    [term_idx_is_marked] and [set_mark] is [term_table_set_gc_mark]; both
    assert in the source that the index is in the table, and here an index
    outside the table has no mark. *)
Definition marked (m : list bool) (i : Z) : bool :=
  (0 <=? i) && default false (m !! Z.to_nat i).

Definition set_mark (m : list bool) (i : Z) : list bool :=
  if 0 <=? i then <[Z.to_nat i := true]> m else m.

Definition set_marks (m : list bool) (l : list Z) : list bool :=
  fold_left set_mark l m.

(** The indices of the table, in increasing order. *)
Definition indices (t : term_table) : list Z :=
  List.map Z.of_nat (seq 0 (length (entries t))).

(** "The marks are propagated to subterms": one pass marks the subterms of
    the terms marked so far; as many passes as the table has slots reach
    every term that a marked term refers to, directly or not. *)
Definition mark_pass (t : term_table) (m : list bool) : list bool :=
  fold_left
    (fun acc i => if marked m i then set_marks acc (children t i) else acc)
    (indices t) m.

Definition propagate_marks (t : term_table) (m : list bool) : list bool :=
  Nat.iter (length (entries t)) (mark_pass t) m.

(** The values that the symbol table binds to names. *)
Definition named_terms (tbl : SymbolTable.stbl_t) : list Z :=
  List.map SymbolTable.rec_value
    (concat (List.map snd (map_to_list (SymbolTable.stbl_data tbl)))).

(** The marks when the sweep starts.  [roots] are the indices marked with
    [term_table_set_gc_mark] since the marks were last cleared. *)
Definition gc_marks (t : term_table) (roots : list Z) (keep_named : bool)
  : list bool :=
  propagate_marks t
    (set_marks (replicate (length (entries t)) false)
       ([const_idx; bool_const] ++ roots ++
        (if keep_named then List.map index_of (named_terms (stbl t))
         else []))).

(** Deletion of the term of index [i]: the slot becomes unused and goes to
    the head of the free list. *)
Definition delete_term (t : term_table) (i : Z) : term_table :=
  match entry_at t i with
  | Some e =>
      {| entries :=
           <[Z.to_nat i := {| kind := UNUSED_TERM; type := type e;
                              desc := desc_integer (free_idx t) |}]>
             (entries t);
         free_idx := i;
         stbl := stbl t;
         ntbl := ntbl t |}
  | None => t
  end.

(** "Every term that's not marked is deleted." *)
Definition sweep_terms (m : list bool) (t : term_table) : term_table :=
  fold_left
    (fun t i => if marked m i || negb (live_term_idx t i) then t
                else delete_term t i)
    (indices t) t.

(** "All references to dead terms are removed from the symbol table." *)
Definition purge_stbl (m : list bool) (tbl : SymbolTable.stbl_t)
  : SymbolTable.stbl_t :=
  {| SymbolTable.stbl_data :=
       List.filter (fun r => marked m (index_of (SymbolTable.rec_value r)))
         <$> SymbolTable.stbl_data tbl;
     SymbolTable.stbl_size := SymbolTable.stbl_size tbl |}.

(** [term_table_gc]. *)
Definition term_table_gc (roots : list Z) (keep_named : bool)
    (t : term_table) : term_table :=
  let m := gc_marks t roots keep_named in
  let t' := sweep_terms m t in
  if keep_named then t'
  else {| entries := entries t';
          free_idx := free_idx t';
          stbl := purge_stbl m (stbl t');
          ntbl := ntbl t' |}.

(** *** Histories of a table *)

(** An operation on the table: a call to a constructor, an operation on
    names ([set_term_name], [remove_term_name], [clear_term_name], ...),
    which leaves the terms as they are and is given by the symbol table
    and the name table it produces, or a garbage collection. *)
Inductive table_op :=
| Op_call (c : constructor_call)
| Op_names (s : SymbolTable.stbl_t) (n : gmap Z string)
| Op_gc (roots : list Z) (keep_named : bool).

Definition run_op (o : table_op) (t : term_table) : term_table :=
  match o with
  | Op_call c => fst (call c t)
  | Op_names s n =>
      {| entries := entries t; free_idx := free_idx t; stbl := s; ntbl := n |}
  | Op_gc roots keep_named => term_table_gc roots keep_named t
  end.

Definition run (h : list table_op) (t : term_table) : term_table :=
  fold_left (fun t o => run_op o t) h t.

(** The term of the occurrence [x] is marked in every garbage collection
    of the history [h], run from the table [t]. *)
Fixpoint survives (x : Z) (h : list table_op) (t : term_table) : Prop :=
  match h with
  | [] => True
  | o :: h' =>
      match o with
      | Op_gc roots keep_named =>
          marked (gc_marks t roots keep_named) (index_of x) = true
      | _ => True
      end /\ survives x h' (run_op o t)
  end.

(** The occurrences that the term table hands out: the predefined
    [true_term], the results of the constructors, and the negation of a
    Boolean occurrence ([not_term]: "p must be boolean"); an occurrence
    stays as long as its term is not collected. *)
Inductive produced : term_table -> Z -> Prop :=
| produced_true n h : produced (run h (init_term_table n)) true_term
| produced_call n h c :
    snd (call c (run h (init_term_table n))) <> NULL_TERM ->
    produced (fst (call c (run h (init_term_table n))))
      (snd (call c (run h (init_term_table n))))
| produced_not t x :
    produced t x -> is_boolean_term t x = true ->
    produced t (not_term t x)
| produced_op t x o :
    produced t x ->
    match o with
    | Op_gc roots keep_named =>
        marked (gc_marks t roots keep_named) (index_of x) = true
    | _ => True
    end ->
    produced (run_op o t) x.

(** *** Well-formed free list *)

(** The free list starting at [i] visits the slots [l]: each of them is an
    unused slot whose integer descriptor is the next link, and the last
    link is -1. *)
Inductive free_chain (t : term_table) : Z -> list Z -> Prop :=
| free_chain_nil : free_chain t (-1) []
| free_chain_cons i e l :
    entry_at t i = Some e ->
    kind e = UNUSED_TERM ->
    free_chain t (free_next t i) l ->
    free_chain t i (i :: l).

Definition good_table (t : term_table) : Prop :=
  exists l, free_chain t (free_idx t) l /\ NoDup l.

(** *** Marks *)

(** [m'] has the marks of [m], and maybe more. *)
Definition marks_le (m m' : list bool) : Prop :=
  length m' = length m /\
  forall k, m !! k = Some true -> m' !! k = Some true.

(** Number of marks. *)
Definition nmarks (m : list bool) : nat := count_occ bool_dec m true.

(** *** Hash-consed tables *)

(** Kinds used as hash-consing keys. *)
Definition key_kind (k : term_kind) : Prop :=
  k <> UNUSED_TERM /\ k <> UNINTERPRETED_TERM.

(** No two slots hold terms with the same hash-consing key. *)
Definition hash_consed (t : term_table) : Prop :=
  forall i j e e',
    entries t !! i = Some e -> entries t !! j = Some e' ->
    key_kind (kind e) ->
    entry_matches (kind e) (type e) (desc e) e' = true -> i = j.

Definition wf_table (t : term_table) : Prop :=
  good_table t /\ hash_consed t.

(** The terms of [t] are in [t'], at the same indices. *)
Definition preserves (t t' : term_table) : Prop :=
  forall i e,
    entries t !! i = Some e -> kind e <> UNUSED_TERM ->
    entries t' !! i = Some e.

(** The slots [S] support the result [x] of a constructor: they hold terms
    in [t], and each of them is the term of [x] or one of its subterms. *)
Definition supports (S : list (nat * term_entry)) (t : term_table) (x : Z)
  : Prop :=
  forall i e, In (i, e) S ->
    entries t !! i = Some e /\ kind e <> UNUSED_TERM /\
    (x = pos_term (Z.of_nat i) \/
     exists i0 e0,
       In (i0, e0) S /\ x = pos_term (Z.of_nat i0) /\
       kind e0 <> UNUSED_TERM /\
       In (index_of (pos_term (Z.of_nat i))) (desc_children (desc e0))).

Definition present (S : list (nat * term_entry)) (t : term_table) : Prop :=
  forall i e, In (i, e) S -> entries t !! i = Some e.

(** [f] leaves the terms of the table in place, and as long as the slots
    that support its result are present, running it again changes nothing
    and gives the same result. *)
Definition determined (f : term_table -> term_table * Z) : Prop :=
  forall t, wf_table t ->
    wf_table (fst (f t)) /\ preserves t (fst (f t)) /\
    nelems t <= nelems (fst (f t)) /\
    exists S,
      supports S (fst (f t)) (snd (f t)) /\
      forall t', wf_table t' -> present S t' -> f t' = (t', snd (f t)).

(** *** Names *)

Section Names.

Variable hash : string -> Z.

(** Modelled from the spec: [set_term_name] is defined in terms.c, which
    is not under src/.  The name is pushed on the symbol table and becomes
    the base name of [x] if [x] has none. *)
Definition set_term_name (t : term_table) (x : Z) (name : string)
  : term_table :=
  {| entries := entries t;
     free_idx := free_idx t;
     stbl := SymbolTable.stbl_add hash (stbl t) name x;
     ntbl := match ntbl t !! x with
             | Some _ => ntbl t
             | None => <[x := name]> (ntbl t)
             end |}.

(** Modelled from the spec: [set_term_base_name], which replaces the base
    name of [x]. *)
Definition set_term_base_name (t : term_table) (x : Z) (name : string)
  : term_table :=
  {| entries := entries t;
     free_idx := free_idx t;
     stbl := stbl t;
     ntbl := <[x := name]> (ntbl t) |}.

(** Modelled from the spec: [get_term_by_name], the occurrence with the
    given name or [NULL_TERM]. *)
Definition get_term_by_name (t : term_table) (name : string) : Z :=
  SymbolTable.stbl_find hash (stbl t) name.

(** Modelled from the spec: [remove_term_name], which removes the most
    recent mapping of the name and reveals the previous one; the base names
    are left unchanged. *)
Definition remove_term_name (t : term_table) (name : string) : term_table :=
  {| entries := entries t;
     free_idx := free_idx t;
     stbl := SymbolTable.stbl_remove hash (stbl t) name;
     ntbl := ntbl t |}.

(** Modelled from the spec: [term_name], the base name of [x] if any. *)
Definition term_name (t : term_table) (x : Z) : option string := ntbl t !! x.

(** Modelled from the spec: [clear_term_name], which removes the base name
    of [x] from the symbol table and then erases it. *)
Definition clear_term_name (t : term_table) (x : Z) : term_table :=
  match ntbl t !! x with
  | Some name =>
      let t' := remove_term_name t name in
      {| entries := entries t';
         free_idx := free_idx t';
         stbl := stbl t';
         ntbl := delete x (ntbl t') |}
  | None => t
  end.

(** The names bound to occurrences, most recent binding first. *)
Definition name_bindings (t : term_table) (name : string) : list Z :=
  SymbolTable.bindings hash (stbl t) name.

End Names.

End TermTable.

(** ** Context (context.h) *)

Module Context.

(** *** Option masks *)

Definition MULTICHECKS_OPTION_MASK : Z := 0x1.
Definition PUSHPOP_OPTION_MASK : Z := 0x2.
Definition CLEANINT_OPTION_MASK : Z := 0x4.

Definition VARELIM_OPTION_MASK : Z := 0x10.
Definition FLATTENOR_OPTION_MASK : Z := 0x20.
Definition FLATTENDISEQ_OPTION_MASK : Z := 0x40.
Definition EQABSTRACT_OPTION_MASK : Z := 0x80.
Definition ARITHELIM_OPTION_MASK : Z := 0x100.
Definition KEEP_ITE_OPTION_MASK : Z := 0x200.
Definition BVARITHELIM_OPTION_MASK : Z := 0x400.
Definition BREAKSYM_OPTION_MASK : Z := 0x800.
Definition PSEUDO_INVERSE_OPTION_MASK : Z := 0x1000.

Definition LAX_OPTION_MASK : Z := 0x40000000.
Definition DUMP_OPTION_MASK : Z := 0x80000000.

Inductive context_mode :=
| CTX_MODE_ONECHECK
| CTX_MODE_MULTICHECKS
| CTX_MODE_PUSHPOP
| CTX_MODE_INTERACTIVE.

(** Modelled from the spec: smt_core.h is not under src/.  The check
    status values. *)
Inductive smt_status :=
| STATUS_IDLE
| STATUS_SEARCHING
| STATUS_UNKNOWN
| STATUS_SAT
| STATUS_UNSAT
| STATUS_INTERRUPTED.

(** Modelled from the spec: internalization_table.h is not under src/.
    The internalization table is a union-find over term indices: a
    substitution [x ↦ t] points [x] to [t], and a root is either not yet
    internalized or carries a Boolean literal or a bit-vector theory
    variable. *)
Inductive intern_code :=
| code_literal (l : Z)
| code_thvar (v : Z).

Record intern_tbl := {
  intern_parent : gmap Z Z;
  intern_map : gmap Z intern_code
}.

(** The part of [struct context_s] the assertions and options act on.  The
    status is the status of the core, read by [context_status]. *)
Record context := {
  mode : context_mode;
  theories : Z;
  options : Z;
  base_level : Z;
  status : smt_status;
  intern : intern_tbl;
  top_eqs : list Z;
  top_atoms : list Z;
  top_formulas : list Z;
  top_interns : list Z;
  subst_eqs : list Z
}.

Definition set_options (ctx : context) (o : Z) : context :=
  {| mode := mode ctx; theories := theories ctx; options := o;
     base_level := base_level ctx; status := status ctx;
     intern := intern ctx; top_eqs := top_eqs ctx;
     top_atoms := top_atoms ctx; top_formulas := top_formulas ctx;
     top_interns := top_interns ctx; subst_eqs := subst_eqs ctx |}.

Definition set_status (ctx : context) (s : smt_status) : context :=
  {| mode := mode ctx; theories := theories ctx; options := options ctx;
     base_level := base_level ctx; status := s;
     intern := intern ctx; top_eqs := top_eqs ctx;
     top_atoms := top_atoms ctx; top_formulas := top_formulas ctx;
     top_interns := top_interns ctx; subst_eqs := subst_eqs ctx |}.

(** *** Setting and clearing options *)

(** [ctx->options |= m]. *)
Definition set_mask (ctx : context) (m : Z) : context :=
  set_options ctx (Z.lor (options ctx) m).

(** [ctx->options &= ~m], on [uint32_t]. *)
Definition clear_mask (ctx : context) (m : Z) : context :=
  set_options ctx (Z.land (options ctx) (uint32 (Z.lnot m))).

(** [(ctx->options & m) != 0]. *)
Definition test_mask (ctx : context) (m : Z) : bool :=
  negb (Z.land (options ctx) m =? 0).

Definition enable_variable_elimination ctx := set_mask ctx VARELIM_OPTION_MASK.
Definition disable_variable_elimination ctx :=
  clear_mask ctx VARELIM_OPTION_MASK.

Definition enable_or_flattening ctx := set_mask ctx FLATTENOR_OPTION_MASK.
Definition disable_or_flattening ctx := clear_mask ctx FLATTENOR_OPTION_MASK.

Definition enable_diseq_and_or_flattening ctx :=
  set_mask ctx (Z.lor FLATTENOR_OPTION_MASK FLATTENDISEQ_OPTION_MASK).
Definition disable_diseq_and_or_flattening ctx :=
  clear_mask ctx (Z.lor FLATTENOR_OPTION_MASK FLATTENDISEQ_OPTION_MASK).

Definition enable_eq_abstraction ctx := set_mask ctx EQABSTRACT_OPTION_MASK.
Definition disable_eq_abstraction ctx := clear_mask ctx EQABSTRACT_OPTION_MASK.

Definition enable_arith_elimination ctx := set_mask ctx ARITHELIM_OPTION_MASK.
Definition disable_arith_elimination ctx :=
  clear_mask ctx ARITHELIM_OPTION_MASK.

Definition enable_keep_ite ctx := set_mask ctx KEEP_ITE_OPTION_MASK.
Definition disable_keep_ite ctx := clear_mask ctx KEEP_ITE_OPTION_MASK.

Definition enable_bvarith_elimination ctx :=
  set_mask ctx BVARITHELIM_OPTION_MASK.
Definition disable_bvarith_elimination ctx :=
  clear_mask ctx BVARITHELIM_OPTION_MASK.

Definition enable_symmetry_breaking ctx := set_mask ctx BREAKSYM_OPTION_MASK.
Definition disable_symmetry_breaking ctx :=
  clear_mask ctx BREAKSYM_OPTION_MASK.

Definition enable_pseudo_inverse_simplification ctx :=
  set_mask ctx PSEUDO_INVERSE_OPTION_MASK.
Definition disable_pseudo_inverse_simplification ctx :=
  clear_mask ctx PSEUDO_INVERSE_OPTION_MASK.

Definition enable_dump ctx := set_mask ctx DUMP_OPTION_MASK.
Definition disable_dump ctx := clear_mask ctx DUMP_OPTION_MASK.

Definition enable_lax_mode ctx := set_mask ctx LAX_OPTION_MASK.
Definition disable_lax_mode ctx := clear_mask ctx LAX_OPTION_MASK.

Definition context_var_elim_enabled ctx := test_mask ctx VARELIM_OPTION_MASK.
Definition context_flatten_or_enabled ctx :=
  test_mask ctx FLATTENOR_OPTION_MASK.
Definition context_flatten_diseq_enabled ctx :=
  test_mask ctx FLATTENDISEQ_OPTION_MASK.

(** The option operations of context.h, as a type. *)
Inductive option_op :=
| Enable_variable_elimination | Disable_variable_elimination
| Enable_or_flattening | Disable_or_flattening
| Enable_diseq_and_or_flattening | Disable_diseq_and_or_flattening
| Enable_eq_abstraction | Disable_eq_abstraction
| Enable_arith_elimination | Disable_arith_elimination
| Enable_keep_ite | Disable_keep_ite
| Enable_bvarith_elimination | Disable_bvarith_elimination
| Enable_symmetry_breaking | Disable_symmetry_breaking
| Enable_pseudo_inverse_simplification | Disable_pseudo_inverse_simplification
| Enable_dump | Disable_dump
| Enable_lax_mode | Disable_lax_mode.

Definition apply_option_op (op : option_op) (ctx : context) : context :=
  match op with
  | Enable_variable_elimination => enable_variable_elimination ctx
  | Disable_variable_elimination => disable_variable_elimination ctx
  | Enable_or_flattening => enable_or_flattening ctx
  | Disable_or_flattening => disable_or_flattening ctx
  | Enable_diseq_and_or_flattening => enable_diseq_and_or_flattening ctx
  | Disable_diseq_and_or_flattening => disable_diseq_and_or_flattening ctx
  | Enable_eq_abstraction => enable_eq_abstraction ctx
  | Disable_eq_abstraction => disable_eq_abstraction ctx
  | Enable_arith_elimination => enable_arith_elimination ctx
  | Disable_arith_elimination => disable_arith_elimination ctx
  | Enable_keep_ite => enable_keep_ite ctx
  | Disable_keep_ite => disable_keep_ite ctx
  | Enable_bvarith_elimination => enable_bvarith_elimination ctx
  | Disable_bvarith_elimination => disable_bvarith_elimination ctx
  | Enable_symmetry_breaking => enable_symmetry_breaking ctx
  | Disable_symmetry_breaking => disable_symmetry_breaking ctx
  | Enable_pseudo_inverse_simplification =>
      enable_pseudo_inverse_simplification ctx
  | Disable_pseudo_inverse_simplification =>
      disable_pseudo_inverse_simplification ctx
  | Enable_dump => enable_dump ctx
  | Disable_dump => disable_dump ctx
  | Enable_lax_mode => enable_lax_mode ctx
  | Disable_lax_mode => disable_lax_mode ctx
  end.

(** "FLATTENDISEQ requires FLATTENOR to be enabled". *)
Definition diseq_implies_or (ctx : context) : Prop :=
  context_flatten_diseq_enabled ctx = true ->
  context_flatten_or_enabled ctx = true.

(** *** Internalization codes *)

Definition TRIVIALLY_UNSAT : Z := 1.
Definition CTX_NO_ERROR : Z := 0.

(** The negative codes of the enumeration. *)
Inductive intern_error :=
| INTERNAL_ERROR
| TYPE_ERROR
| FREE_VARIABLE_IN_FORMULA
| LOGIC_NOT_SUPPORTED
| UF_NOT_SUPPORTED
| ARITH_NOT_SUPPORTED
| BV_NOT_SUPPORTED
| FUN_NOT_SUPPORTED
| QUANTIFIERS_NOT_SUPPORTED
| LAMBDAS_NOT_SUPPORTED
| FORMULA_NOT_IDL
| FORMULA_NOT_RDL
| FORMULA_NOT_LINEAR
| TOO_MANY_ARITH_VARS
| TOO_MANY_ARITH_ATOMS
| ARITHSOLVER_EXCEPTION
| BVSOLVER_EXCEPTION.

Definition error_code (e : intern_error) : Z :=
  match e with
  | INTERNAL_ERROR => -1
  | TYPE_ERROR => -2
  | FREE_VARIABLE_IN_FORMULA => -3
  | LOGIC_NOT_SUPPORTED => -4
  | UF_NOT_SUPPORTED => -5
  | ARITH_NOT_SUPPORTED => -6
  | BV_NOT_SUPPORTED => -7
  | FUN_NOT_SUPPORTED => -8
  | QUANTIFIERS_NOT_SUPPORTED => -9
  | LAMBDAS_NOT_SUPPORTED => -10
  | FORMULA_NOT_IDL => -11
  | FORMULA_NOT_RDL => -12
  | FORMULA_NOT_LINEAR => -13
  | TOO_MANY_ARITH_VARS => -14
  | TOO_MANY_ARITH_ATOMS => -15
  | ARITHSOLVER_EXCEPTION => -16
  | BVSOLVER_EXCEPTION => -17
  end.

Definition NUM_INTERNALIZATION_ERRORS : Z := 18.

(** A context for the examples. *)
Definition example_context : context :=
  {| mode := CTX_MODE_ONECHECK; theories := 2; options := 0;
     base_level := 0; status := STATUS_IDLE;
     intern := {| intern_parent := ∅; intern_map := ∅ |};
     top_eqs := []; top_atoms := []; top_formulas := [];
     top_interns := []; subst_eqs := [] |}.

End Context.

(** ** Clause pool (new_sat_solver.h) *)

Module ClausePool.

Import Literal.

(** [MAX_ARRAY32_SIZE]: [SIZE_MAX/4] if that is less than [UINT32_MAX],
    [UINT32_MAX] otherwise; [size_t] has 64 bits here. *)
Definition SIZE_MAX : Z := 2 ^ 64 - 1.

Definition MAX_ARRAY32_SIZE : Z :=
  if SIZE_MAX / 4 <? UINT32_MAX then SIZE_MAX / 4 else UINT32_MAX.

Definition DEF_CLAUSE_POOL_CAPACITY : Z := 262144.
Definition MAX_CLAUSE_POOL_CAPACITY : Z := Z.land MAX_ARRAY32_SIZE (Z.lnot 3).

(** The pool; [data] is the array of 32-bit words (the words past what was
    written are whatever the allocator left there).  The statistics
    counters of the structure carry no invariant and are left out. *)
Record clause_pool := {
  data : Z -> Z;
  learned : Z;
  size : Z;
  capacity : Z;
  available : Z
}.

Definition good_clause_idx (pool : clause_pool) (idx : Z) : bool :=
  (Z.land idx 3 =? 0) && (idx <? size pool).

Definition is_learned_clause_idx (pool : clause_pool) (idx : Z) : bool :=
  learned pool <=? idx.

Definition is_problem_clause_idx (pool : clause_pool) (idx : Z) : bool :=
  idx <? learned pool.

Definition clause_length (pool : clause_pool) (idx : Z) : Z := data pool idx.

(** The fields of the clause at [idx]: [len], [aux] and the literals
    [c[0 .. len-1]]. *)
Definition clause_aux (pool : clause_pool) (idx : Z) : Z :=
  data pool (idx + 1).

Definition clause_lit (pool : clause_pool) (idx : Z) (k : Z) : Z :=
  data pool (idx + 2 + k).

Definition clause_lits (pool : clause_pool) (idx : Z) : list Z :=
  List.map (fun k => clause_lit pool idx (Z.of_nat k))
    (seq 0 (Z.to_nat (clause_length pool idx))).

(** "If a clause starts at index i, the next clause starts at index
    j = ((i + data[i] + 2 + 3) & ~3)." *)
Definition next_clause_idx (i len : Z) : Z :=
  Z.land (i + len + 2 + 3) (Z.lnot 3).

(** Words taken by a clause of [n] literals: header included, rounded up to
    a multiple of four. *)
Definition full_length (n : Z) : Z := Z.land (n + 2 + 3) (Z.lnot 3).

(** The block that follows the block at [i]: a padding block carries its
    length in [data[i+1]]. *)
Definition next_block (pool : clause_pool) (i : Z) : Z :=
  if data pool i =? 0 then i + data pool (i + 1)
  else next_clause_idx i (data pool i).

(** Start indices of the blocks (clauses and padding blocks) of the pool,
    found by walking the array from index 0. *)
Inductive block_start (pool : clause_pool) : Z -> Prop :=
| block_start_first : block_start pool 0
| block_start_next i :
    block_start pool i -> i < size pool ->
    block_start pool (next_block pool i).

Definition is_clause (pool : clause_pool) (idx : Z) : Prop :=
  block_start pool idx /\ idx < size pool /\ data pool idx <> 0.

Definition is_padding (pool : clause_pool) (idx : Z) : Prop :=
  block_start pool idx /\ idx < size pool /\ data pool idx = 0.

(** The operations of the pool are defined in new_sat_solver.c, which is
    not under src/; they are modelled from the spec: "The pool grows by
    doubling up to an implementation-defined cap.  A new clause returns its
    4-aligned offset.  Shortening a clause in place writes a padding block
    in the tail.  Deletion writes a padding block over the whole
    clause." *)

(** [d[i] = v]. *)
Definition store (d : Z -> Z) (i v : Z) : Z -> Z :=
  fun j => if j =? i then v else d j.

(** [d[i .. i + n - 1] = a[0 .. n - 1]]. *)
Fixpoint store_array (d : Z -> Z) (i : Z) (a : list Z) : Z -> Z :=
  match a with
  | [] => d
  | x :: a' => store_array (store d i x) (i + 1) a'
  end.

(** Modelled from the spec: initialization of the pool, empty and with the
    default capacity; [mem] is the content of the array that the allocator
    returns. *)
Definition init_clause_pool (mem : Z -> Z) : clause_pool :=
  {| data := mem;
     learned := 0;
     size := 0;
     capacity := DEF_CLAUSE_POOL_CAPACITY;
     available := DEF_CLAUSE_POOL_CAPACITY |}.

(** Modelled from the spec: the pool of a solver that is reset ("Reset:
    remove all variables and clauses", new_sat_solver.h): the array is
    kept and nothing of it is in use. *)
Definition reset_clause_pool (pool : clause_pool) : clause_pool :=
  {| data := data pool;
     learned := 0;
     size := 0;
     capacity := capacity pool;
     available := capacity pool |}.

(** Modelled from the spec: "the pool grows by doubling up to an
    implementation-defined cap".  The capacity reached from [cap] by
    doubling (capped) until [need] words fit; [None] when the cap is too
    small.  32 doublings reach the cap from any positive capacity. *)
Fixpoint pool_capacity_for (fuel : nat) (cap need : Z) : option Z :=
  if need <=? cap then Some cap
  else
    match fuel with
    | O => None
    | S fuel' =>
        if cap <? MAX_CLAUSE_POOL_CAPACITY
        then pool_capacity_for fuel'
               (Z.min (2 * cap) MAX_CLAUSE_POOL_CAPACITY) need
        else None
    end.

(** Modelled from the spec: make room for [n] more words; [None] is
    out-of-memory. *)
Definition resize_clause_pool (pool : clause_pool) (n : Z)
  : option clause_pool :=
  match pool_capacity_for 32 (capacity pool) (size pool + n) with
  | Some cap =>
      Some {| data := data pool;
              learned := learned pool;
              size := size pool;
              capacity := cap;
              available := cap - size pool |}
  | None => None
  end.

(** Modelled from the spec: allocate an array of [n] words, rounded up to
    a multiple of four, at the end of the used part; returns its index
    ("a new clause returns its 4-aligned offset"). *)
Definition clause_pool_alloc_array (pool : clause_pool) (n : Z)
  : option (clause_pool * Z) :=
  let n := Z.land (n + 3) (Z.lnot 3) in
  match (if n <=? available pool then Some pool
         else resize_clause_pool pool n) with
  | Some p =>
      Some ({| data := data p;
               learned := learned p;
               size := size p + n;
               capacity := capacity p;
               available := available p - n |}, size p)
  | None => None
  end.

(** The clause written at index [i]: length, auxiliary data, literals. *)
Definition init_clause (d : Z -> Z) (i : Z) (aux : Z) (lits : list Z)
  : Z -> Z :=
  store_array
    (store (store d i (Z.of_nat (length lits))) (i + 1) aux) (i + 2) lits.

(** Modelled from the spec: add a problem clause; the problem clauses end
    where the used part ends ("[problem | learned | free]"). *)
Definition clause_pool_add_problem_clause (pool : clause_pool) (aux : Z)
    (lits : list Z) : option (clause_pool * Z) :=
  match clause_pool_alloc_array pool (Z.of_nat (length lits) + 2) with
  | Some (p, i) =>
      Some ({| data := init_clause (data p) i aux lits;
               learned := size p;
               size := size p;
               capacity := capacity p;
               available := available p |}, i)
  | None => None
  end.

(** Modelled from the spec: add a learned clause. *)
Definition clause_pool_add_learned_clause (pool : clause_pool) (aux : Z)
    (lits : list Z) : option (clause_pool * Z) :=
  match clause_pool_alloc_array pool (Z.of_nat (length lits) + 2) with
  | Some (p, i) =>
      Some ({| data := init_clause (data p) i aux lits;
               learned := learned p;
               size := size p;
               capacity := capacity p;
               available := available p |}, i)
  | None => None
  end.

(** Modelled from the spec: padding block of [n] words at index [i],
    "recognized by data[i] = 0, data[i+1] = length". *)
Definition clause_pool_padding (pool : clause_pool) (i n : Z) : clause_pool :=
  {| data := store (store (data pool) i 0) (i + 1) n;
     learned := learned pool;
     size := size pool;
     capacity := capacity pool;
     available := available pool |}.

(** Modelled from the spec: "deletion writes a padding block over the
    whole clause". *)
Definition clause_pool_delete_clause (pool : clause_pool) (idx : Z)
  : clause_pool :=
  clause_pool_padding pool idx (full_length (data pool idx)).

(** Modelled from the spec: shorten the clause at [idx] to its first [n]
    literals; "shortening a clause in place writes a padding block in the
    tail".  In the layout of new_sat_solver.h every block starts at a
    multiple of four and the length of a padding block is a multiple of
    four, so the tail that can be turned into a padding block starts where
    the rounded length of the shortened clause ends: it is empty when the
    rounded length does not change, and the dropped literals below it stay
    in the array, after the last literal of the clause. *)
Definition clause_pool_shrink_clause (pool : clause_pool) (idx n : Z)
  : clause_pool :=
  let old_len := full_length (data pool idx) in
  let new_len := full_length n in
  let p := if new_len <? old_len
           then clause_pool_padding pool (idx + new_len) (old_len - new_len)
           else pool in
  {| data := store (data p) idx n;
     learned := learned p;
     size := size p;
     capacity := capacity p;
     available := available p |}.

(** What a pool holds: the clauses added and not deleted since, each with
    its index, its auxiliary data and its literals. *)
Definition clause_entry : Type := Z * (Z * list Z).

Definition entry_idx (c : clause_entry) : Z := fst c.
Definition entry_aux (c : clause_entry) : Z := fst (snd c).
Definition entry_lits (c : clause_entry) : list Z := snd (snd c).




(** The layout of the block at [i]: a clause with its header and [len]
    literals inside the used part, or a padding block. *)
Definition clause_layout (pool : clause_pool) (i : Z) : Prop :=
  2 <= data pool i /\
  i + 2 + data pool i <= size pool /\
  next_block pool i = i + full_length (data pool i) /\
  next_block pool i <= size pool.

Definition padding_layout (pool : clause_pool) (i : Z) : Prop :=
  data pool i = 0 /\
  4 <= data pool (i + 1) /\
  data pool (i + 1) mod 4 = 0 /\
  next_block pool i = i + data pool (i + 1) /\
  next_block pool i <= size pool.

Definition pool_invariant (pool : clause_pool) : Prop :=
  (0 <= learned pool /\ learned pool <= size pool <= capacity pool) /\
  available pool = capacity pool - size pool /\
  (learned pool mod 4 = 0 /\ size pool mod 4 = 0 /\
   capacity pool mod 4 = 0) /\
  (block_start pool (learned pool) /\ block_start pool (size pool)) /\
  (forall i, block_start pool i -> i < size pool ->
     i mod 4 = 0 /\ 0 <= i /\
     (clause_layout pool i \/ padding_layout pool i)).

(** The pool [pool] holds the clauses [cs]: the clauses found by walking
    the array are those of [cs], each at its index with its length in
    [data[i]], its auxiliary data in [data[i+1]] and its literals in
    [data[i+2 .. i+1+len]]. *)
Definition pool_holds (pool : clause_pool) (cs : list clause_entry) : Prop :=
  NoDup (List.map entry_idx cs) /\
  (forall idx, is_clause pool idx <-> In idx (List.map entry_idx cs)) /\
  (forall c, In c cs ->
     good_clause_idx pool (entry_idx c) = true /\
     2 <= clause_length pool (entry_idx c) /\
     clause_length pool (entry_idx c) = Z.of_nat (length (entry_lits c)) /\
     clause_aux pool (entry_idx c) = entry_aux c /\
     clause_lits pool (entry_idx c) = entry_lits c).

(** What the two ways of adding a clause have in common. *)
Definition added (p : clause_pool) (aux : Z) (lits : list Z)
    (p' : clause_pool) (idx : Z) : Prop :=
  idx = size p /\
  data p' = init_clause (data p) (size p) aux lits /\
  size p' = size p + full_length (Z.of_nat (length lits)) /\
  (learned p' = learned p \/ learned p' = size p') /\
  size p' <= capacity p' /\ capacity p' mod 4 = 0 /\
  available p' = capacity p' - size p'.

(** A pool for the examples: a problem clause of three literals and a
    learned clause of five literals are added, the first is deleted and
    the second is shortened to two literals. *)
Definition example_mem : Z -> Z := fun _ => 0.






End ClausePool.

(** ** Watch vectors and clause addition (new_sat_solver.h) *)

Module SatSolver.

Import Literal ClausePool.

(** The two forms of a watch record: "[cidx] is stored as is.  The two
    low-order bits of cidx are 00"; "[l1] is stored as (l1 << 1)|1
    (lower-order bit = 1)". *)
Definition clause_record (cidx : Z) : Z := cidx.

Definition binary_record (l1 : Z) : Z := Z.lor (uint32 (Z.shiftl l1 1)) 1.

(** "To tell the difference, use the lower-order bit of the integer". *)
Definition is_binary_record (r : Z) : bool := Z.land r 1 =? 1.

Definition record_literal (r : Z) : Z := Z.shiftr r 1.

(** The part of [sat_solver_t] that clause addition acts on; a watch
    vector [watch[l]] is the list of its records. *)
Record sat_solver := {
  nvars : Z;
  nliterals : Z;
  watch : Z -> list Z;
  binaries : Z;
  pool : clause_pool
}.

(** Modelled from the spec: new_sat_solver.c is not under src/.  "Per
    literal ℓ, an append-only array of 32-bit records": the record [k] is
    appended to [watch[l]]. *)
Definition add_watch (w : Z -> list Z) (l : Z) (k : Z) : Z -> list Z :=
  fun l' => if l' =? l then w l' ++ [k] else w l'.

(** Modelled from the spec: [init_nsat_solver]; "the solver is initialized
    with one variable (the reserved variable 0)". *)
Definition init_nsat_solver (mem : Z -> Z) : sat_solver :=
  {| nvars := 1;
     nliterals := 2;
     watch := fun _ => [];
     binaries := 0;
     pool := init_clause_pool mem |}.

(** Modelled from the spec: [reset_nsat_solver], "Reset: remove all
    variables and clauses"; the reserved variable stays. *)
Definition reset_nsat_solver (s : sat_solver) : sat_solver :=
  {| nvars := 1;
     nliterals := 2;
     watch := fun _ => [];
     binaries := 0;
     pool := reset_clause_pool (pool s) |}.

(** Modelled from the spec: [nsat_solver_add_vars] adds [n] fresh
    variables; [None] (out of memory) past [MAX_VARIABLES]. *)
Definition nsat_solver_add_vars (s : sat_solver) (n : Z) : option sat_solver :=
  if nvars s + n <=? MAX_VARIABLES then
    Some {| nvars := nvars s + n;
            nliterals := 2 * (nvars s + n);
            watch := watch s;
            binaries := binaries s;
            pool := pool s |}
  else None.

(** Modelled from the spec: [nsat_solver_add_binary_clause]; "for a binary
    clause {ℓ₁, ℓ₂}, watch[ℓ₁] has an inlined record for ℓ₂ and vice
    versa". *)
Definition nsat_solver_add_binary_clause (s : sat_solver) (l1 l2 : Z)
  : sat_solver :=
  {| nvars := nvars s;
     nliterals := nliterals s;
     watch := add_watch (add_watch (watch s) l1 (binary_record l2))
                l2 (binary_record l1);
     binaries := binaries s + 1;
     pool := pool s |}.

(** Modelled from the spec: a clause with three literals or more is
    stored in the pool (among the learned clauses if [is_learned]), and
    "its first two literals each have one entry in the corresponding watch
    vector".  Shorter clauses are not stored in the pool: the solver is
    left as it is. *)
Definition add_large_clause (s : sat_solver) (is_learned : bool) (aux : Z)
    (lits : list Z) : option sat_solver :=
  match lits with
  | l1 :: l2 :: _ =>
      match (if is_learned
             then clause_pool_add_learned_clause (pool s) aux lits
             else clause_pool_add_problem_clause (pool s) aux lits) with
      | Some (p, cidx) =>
          Some {| nvars := nvars s;
                  nliterals := nliterals s;
                  watch := add_watch (add_watch (watch s) l1
                                        (clause_record cidx))
                             l2 (clause_record cidx);
                  binaries := binaries s;
                  pool := p |}
      | None => None
      end
  | _ => Some s
  end.

(** Modelled from the spec: [nsat_solver_add_ternary_clause], a problem
    clause of three literals. *)
Definition nsat_solver_add_ternary_clause (s : sat_solver) (l1 l2 l3 : Z)
  : option sat_solver :=
  add_large_clause s false 0 [l1; l2; l3].

(** *** Removal, shortening and re-watching of clauses *)

(** The functions that remove clauses, shorten them and move watches are
    static functions of new_sat_solver.c, which is not under src/.  They
    are modelled from the spec: "learned clauses are removed by reduction
    passes; problem clauses may be shortened or removed by simplification"
    and, in propagation, "re-watch (swap into the watched slot, move this
    watch entry to its new literal's vector)".  The truth values of the
    literals are those of the current assignment; the operations take the
    two tests [lit_is_true] and [lit_is_false] of new_sat_solver.h as
    functions of the literal. *)

(** The solver [s] with the watch vectors [w] and the pool [p]. *)
Definition with_clauses (s : sat_solver) (w : Z -> list Z) (p : clause_pool)
  : sat_solver :=
  {| nvars := nvars s;
     nliterals := nliterals s;
     watch := w;
     binaries := binaries s;
     pool := p |}.

(** The record [k] leaves a watch vector: its first occurrence is
    removed and the records after it move down. *)
Fixpoint remove_record (k : Z) (v : list Z) : list Z :=
  match v with
  | [] => []
  | r :: v' => if r =? k then v' else r :: remove_record k v'
  end.

Definition remove_watch (w : Z -> list Z) (l : Z) (k : Z) : Z -> list Z :=
  fun l' => if l' =? l then remove_record k (w l') else w l'.

(** [c[k] = l] in the clause at [cidx]. *)
Definition set_clause_lit (p : clause_pool) (cidx k l : Z) : clause_pool :=
  {| data := store (data p) (cidx + 2 + k) l;
     learned := learned p;
     size := size p;
     capacity := capacity p;
     available := available p |}.

(** [c[0 .. n-1] = a[0 .. n-1]] in the clause at [cidx]. *)
Definition set_clause_lits (p : clause_pool) (cidx : Z) (a : list Z)
  : clause_pool :=
  {| data := store_array (data p) (cidx + 2) a;
     learned := learned p;
     size := size p;
     capacity := capacity p;
     available := available p |}.

(** Modelled from the spec: the clause at [cidx] is removed: "deletion
    writes a padding block over the whole clause", and the clause leaves
    the watch vectors of its two watched literals. *)
Definition remove_clause (s : sat_solver) (cidx : Z) : sat_solver :=
  let l0 := clause_lit (pool s) cidx 0 in
  let l1 := clause_lit (pool s) cidx 1 in
  with_clauses s
    (remove_watch (remove_watch (watch s) l0 cidx) l1 cidx)
    (clause_pool_delete_clause (pool s) cidx).

(** Modelled from the spec: "reduce_learned_clause_set trims the learned
    pool", "by removing low-activity clauses whose literals are not
    currently reasons".  The clauses to remove are chosen from the clause
    activities (floating-point numbers in the auxiliary word) and the
    antecedents; the choice is the parameter [victims]. *)
Definition reduce_learned_clause_set (s : sat_solver) (victims : list Z)
  : sat_solver :=
  fold_left remove_clause victims s.

(** "Scan literals [2..len) for a non-false candidate": the position of
    the first literal of [lits] that is not false, counted from [k]. *)
Fixpoint find_non_false (lit_is_false : Z -> bool) (lits : list Z) (k : Z)
  : option Z :=
  match lits with
  | [] => None
  | l :: rest =>
      if lit_is_false l then find_non_false lit_is_false rest (k + 1)
      else Some k
  end.

(** Modelled from the spec: propagation visits the clause record [cidx]
    of [watch[l]], [l] being the literal that became false: "if the
    non-watched-at-offset-0 literal is true, keep; else scan literals
    [2..len) for a non-false candidate — if found, re-watch (swap into the
    watched slot, move this watch entry to its new literal's vector); if
    not found and the partner watched literal is false, conflict; else
    unit-propagate the partner".  [l] is at the watched slot [w]; the
    literal tested first is read as the partner, the other watched
    literal.  In a conflict and in a unit propagation the clause and the
    watch vectors stay as they are. *)
Definition visit_clause (lit_is_true lit_is_false : Z -> bool)
    (s : sat_solver) (l cidx : Z) : sat_solver :=
  let p := pool s in
  let w := if clause_lit p cidx 0 =? l then 0 else 1 in
  let partner := clause_lit p cidx (1 - w) in
  if lit_is_true partner then s
  else
    match find_non_false lit_is_false (drop 2 (clause_lits p cidx)) 2 with
    | Some k =>
        let l' := clause_lit p cidx k in
        with_clauses s
          (add_watch (remove_watch (watch s) l cidx) l' (clause_record cidx))
          (set_clause_lit (set_clause_lit p cidx w l') cidx k l)
    | None => s
    end.

(** Modelled from the spec: [simplify_clause_database] "runs at level 0
    to delete satisfied clauses and shorten clauses with false literals".
    This is what it does to the clause at [cidx]: a clause with a true
    literal is removed; otherwise the false literals are dropped and the
    literals that remain move down.  Three literals or more stay a clause
    of the pool, shortened, with its first two literals watched; two
    literals become a binary clause ("binary clauses are stored implicitly
    in the watch vectors"); a shorter clause leaves the pool ("unit
    clauses are stored implicitly in the assignment stack"). *)
Definition simplify_clause (lit_is_true lit_is_false : Z -> bool)
    (s : sat_solver) (cidx : Z) : sat_solver :=
  let lits := clause_lits (pool s) cidx in
  if existsb lit_is_true lits then remove_clause s cidx
  else
    let lits' := List.filter (fun l => negb (lit_is_false l)) lits in
    if (length lits' =? length lits)%nat then s
    else
      match lits' with
      | l0 :: l1 :: _ :: _ =>
          let n := Z.of_nat (length lits') in
          let w := remove_watch
                     (remove_watch (watch s) (clause_lit (pool s) cidx 0) cidx)
                     (clause_lit (pool s) cidx 1) cidx in
          with_clauses s
            (add_watch (add_watch w l0 (clause_record cidx))
               l1 (clause_record cidx))
            (clause_pool_shrink_clause
               (set_clause_lits (pool s) cidx lits') cidx n)
      | [l0; l1] =>
          nsat_solver_add_binary_clause (remove_clause s cidx) l0 l1
      | _ => remove_clause s cidx
      end.

(** The pass over the clauses [cs] of the pool. *)
Definition simplify_clause_database (lit_is_true lit_is_false : Z -> bool)
    (s : sat_solver) (cs : list Z) : sat_solver :=
  fold_left (simplify_clause lit_is_true lit_is_false) cs s.

Definition good_literal (s : sat_solver) (l : Z) : Prop :=
  0 <= l < nliterals s.

(** States reached from initialization by adding variables and clauses,
    by removing and simplifying clauses, by visiting clause records in
    propagation and by resetting the solver. *)
Inductive solver_reachable : sat_solver -> Prop :=
| sreach_init mem : solver_reachable (init_nsat_solver mem)
| sreach_add_vars s n s' :
    solver_reachable s -> 0 <= n ->
    nsat_solver_add_vars s n = Some s' ->
    solver_reachable s'
| sreach_add_binary s l1 l2 :
    solver_reachable s -> good_literal s l1 -> good_literal s l2 ->
    solver_reachable (nsat_solver_add_binary_clause s l1 l2)
| sreach_add_clause s is_learned aux lits s' :
    solver_reachable s ->
    (3 <= length lits)%nat ->
    Forall (good_literal s) lits ->
    (is_learned = false -> learned (pool s) = size (pool s)) ->
    add_large_clause s is_learned aux lits = Some s' ->
    solver_reachable s'
| sreach_remove s cidx :
    solver_reachable s ->
    is_clause (pool s) cidx ->
    solver_reachable (remove_clause s cidx)
| sreach_simplify lit_is_true lit_is_false s cidx :
    solver_reachable s ->
    is_clause (pool s) cidx ->
    solver_reachable (simplify_clause lit_is_true lit_is_false s cidx)
| sreach_visit lit_is_true lit_is_false s l cidx :
    solver_reachable s ->
    In cidx (watch s l) ->
    is_binary_record cidx = false ->
    solver_reachable (visit_clause lit_is_true lit_is_false s l cidx)
| sreach_reset s :
    solver_reachable s ->
    solver_reachable (reset_nsat_solver s).

(** What a record [r] of [watch[l]] denotes. *)
Definition denotes_clause (s : sat_solver) (l r : Z) : Prop :=
  Z.land r 3 = 0 /\
  is_clause (pool s) r /\
  3 <= clause_length (pool s) r /\
  (clause_lit (pool s) r 0 = l \/ clause_lit (pool s) r 1 = l).

Definition denotes_binary (s : sat_solver) (l r : Z) : Prop :=
  Z.land r 1 = 1 /\
  exists other_lit,
    good_literal s other_lit /\
    r = binary_record other_lit /\
    record_literal r = other_lit /\
    In (binary_record l) (watch s other_lit).

(** Number of watched slots of the clause at [cidx] that hold [l]. *)
Definition watched_slots (p : clause_pool) (cidx l : Z) : nat :=
  ((if Z.eqb (clause_lit p cidx 0) l then 1 else 0) +
   (if Z.eqb (clause_lit p cidx 1) l then 1 else 0))%nat.

Definition solver_invariant (s : sat_solver) : Prop :=
  ClausePool.pool_invariant (pool s) /\
  (1 <= nvars s <= MAX_VARIABLES /\ nliterals s = 2 * nvars s) /\
  (forall l r, In r (watch s l) ->
     good_literal s l /\
     ((denotes_clause s l r /\ is_binary_record r = false) \/
      (denotes_binary s l r /\ is_binary_record r = true))) /\
  (forall cidx, is_clause (pool s) cidx ->
     3 <= clause_length (pool s) cidx /\
     forall k, 0 <= k < clause_length (pool s) cidx ->
       good_literal s (clause_lit (pool s) cidx k)) /\
  (forall l cidx, is_clause (pool s) cidx ->
     (count_occ Z.eq_dec (watch s l) cidx <=
      watched_slots (pool s) cidx l)%nat).

(** A solver for the examples: four variables, the binary clause {2, 5}
    and the ternary clause {3, 4, 6}. *)
Definition example_solver1 : sat_solver :=
  match nsat_solver_add_vars (init_nsat_solver ClausePool.example_mem) 4 with
  | Some s => s
  | None => init_nsat_solver ClausePool.example_mem
  end.

Definition example_solver2 : sat_solver :=
  nsat_solver_add_binary_clause example_solver1 2 5.

Definition example_solver : sat_solver :=
  match nsat_solver_add_ternary_clause example_solver2 3 4 6 with
  | Some s => s
  | None => example_solver2
  end.

(** The literal 3 becomes false while 4 is not true and 6 is not false:
    the clause at index 0 is re-watched.  Then the clause is removed. *)
Definition example_solver3 : sat_solver :=
  visit_clause (fun _ => false) (fun l => l =? 3) example_solver 3 0.

Definition example_solver4 : sat_solver :=
  remove_clause example_solver3 0.

End SatSolver.

(** ** SMT-LIB 2 front end (yices_smt2.c) *)

Module Frontend.

(** Modelled from the spec: yices_exit_codes.h is not under src/.  "Exit
    codes: success 0, usage error 16, file not found 17, interrupted 40,
    out-of-memory 48". *)
Definition YICES_EXIT_SUCCESS : Z := 0.
Definition YICES_EXIT_USAGE : Z := 16.
Definition YICES_EXIT_FILE_NOT_FOUND : Z := 17.
Definition YICES_EXIT_INTERRUPTED : Z := 40.
Definition YICES_EXIT_OUT_OF_MEMORY : Z := 48.

Inductive optid :=
| show_version_opt
| show_help_opt
| show_stats_opt
| verbosity_opt
| incremental_opt
| interactive_opt.

(** An element produced by [cmdline_parse_element]: its status and, with
    it, the argument or the option key and integer value.  The parser of
    utils/command_line.c is not under src/; the elements it produces are
    the input of [parse_command_line] here. *)
Inductive cmdline_elem :=
| cmdline_done
| cmdline_argument (arg : string)
| cmdline_option (key : optid) (i_value : Z)
| cmdline_error.

(** The global flags set by [parse_command_line]. *)
Record globals := {
  filename : option string;
  incremental : bool;
  interactive : bool;
  show_stats : bool;
  verbosity : Z
}.

(** The program either calls [exit(code)] or the function returns. *)
Inductive outcome (A : Type) :=
| Exit (code : Z)
| Return (a : A).

Arguments Exit {A} code.
Arguments Return {A} a.

Definition set_filename (g : globals) (f : string) : globals :=
  {| filename := Some f; incremental := incremental g;
     interactive := interactive g; show_stats := show_stats g;
     verbosity := verbosity g |}.

Definition set_show_stats (g : globals) : globals :=
  {| filename := filename g; incremental := incremental g;
     interactive := interactive g; show_stats := true;
     verbosity := verbosity g |}.

Definition set_verbosity (g : globals) (v : Z) : globals :=
  {| filename := filename g; incremental := incremental g;
     interactive := interactive g; show_stats := show_stats g;
     verbosity := v |}.

Definition set_incremental (g : globals) : globals :=
  {| filename := filename g; incremental := true;
     interactive := interactive g; show_stats := show_stats g;
     verbosity := verbosity g |}.

Definition set_interactive (g : globals) (b : bool) : globals :=
  {| filename := filename g; incremental := incremental g;
     interactive := b; show_stats := show_stats g;
     verbosity := verbosity g |}.

(** The label [done]: "force interactive to false if there's a
    filename". *)
Definition parse_done (g : globals) : outcome globals :=
  match filename g with
  | Some _ => Return (set_interactive g false)
  | None => Return g
  end.

(** The loop of [parse_command_line]; [elems] are the elements that the
    successive calls to [cmdline_parse_element] produce, followed by
    [cmdline_done] for ever. *)
Fixpoint parse_loop (elems : list cmdline_elem) (g : globals)
  : outcome globals :=
  match elems with
  | [] => parse_done g
  | elem :: rest =>
      match elem with
      | cmdline_done => parse_done g
      | cmdline_argument arg =>
          match filename g with
          | None => parse_loop rest (set_filename g arg)
          | Some _ => Exit YICES_EXIT_USAGE
          end
      | cmdline_option k v =>
          match k with
          | show_version_opt => Exit YICES_EXIT_SUCCESS
          | show_help_opt => Exit YICES_EXIT_SUCCESS
          | show_stats_opt => parse_loop rest (set_show_stats g)
          | verbosity_opt =>
              if v <? 0 then Exit YICES_EXIT_USAGE
              else parse_loop rest (set_verbosity g v)
          | incremental_opt => parse_loop rest (set_incremental g)
          | interactive_opt => parse_loop rest (set_interactive g true)
          end
      | cmdline_error => Exit YICES_EXIT_USAGE
      end
  end.

Definition parse_command_line (elems : list cmdline_elem) : outcome globals :=
  parse_loop elems
    {| filename := None; incremental := false; interactive := false;
       show_stats := false; verbosity := 0 |}.

(** The command loop of [main].  [codes] are the codes returned by the
    successive calls to [parse_smt2_command] while [smt2_active()] holds.
    Returns the number of prompts printed. *)
Fixpoint command_loop (interactive : bool) (codes : list Z) (prompts : nat)
  : nat :=
  match codes with
  | [] => prompts
  | code :: rest =>
      let prompts := if interactive then S prompts else prompts in
      if code <? 0 then
        if interactive then command_loop interactive rest prompts
        else prompts
      else command_loop interactive rest prompts
  end.

(** [main].  [file_opens f] tells whether [init_smt2_file_lexer] succeeds
    on [f]. *)
Definition main (elems : list cmdline_elem) (file_opens : string -> bool)
    (codes : list Z) : outcome Z :=
  match parse_command_line elems with
  | Exit code => Exit code
  | Return g =>
      let opened :=
        match filename g with
        | Some f => file_opens f
        | None => true
        end in
      if opened then
        let _ := command_loop (interactive g) codes 0 in
        Return YICES_EXIT_SUCCESS
      else Exit YICES_EXIT_FILE_NOT_FOUND
  end.

(** Reading of the command line, element by element. *)
Definition is_positional (e : cmdline_elem) : bool :=
  match e with cmdline_argument _ => true | _ => false end.

Definition positional_count (elems : list cmdline_elem) : nat :=
  length (List.filter is_positional elems).

(** Elements at which [parse_command_line] stops whatever came before:
    [--version], [--help], a negative verbosity, a command-line error and
    the end marker. *)
Definition stops (e : cmdline_elem) : bool :=
  match e with
  | cmdline_done => true
  | cmdline_error => true
  | cmdline_option show_version_opt _ => true
  | cmdline_option show_help_opt _ => true
  | cmdline_option verbosity_opt v => v <? 0
  | _ => false
  end.

Definition usage_error (before : list cmdline_elem) (e : cmdline_elem)
  : Prop :=
  match e with
  | cmdline_error => True
  | cmdline_option verbosity_opt v => v < 0
  | cmdline_argument _ => positional_count before = 1%nat
  | _ => False
  end.

(** The elements [before] are read without leaving the loop. *)
Definition passes (before : list cmdline_elem) : Prop :=
  Forall (fun e => stops e = false) before /\
  (positional_count before <= 1)%nat.

(** Number of file names recorded so far (0 or 1). *)
Definition has_filename (g : globals) : nat :=
  match filename g with Some _ => 1 | None => 0 end.

End Frontend.

(** ** Term kinds and access to terms (terms.h) *)

Module TermAccess.

Import TermOcc TermTable.

(** [is_ite_kind]: [tag == ITE_TERM]. *)
Definition is_ite_kind (tag : term_kind) : bool :=
  bool_decide (tag = ITE_TERM).

(** [is_atomic_kind]: [CONSTANT_TERM <= tag && tag <= UNINTERPRETED_TERM],
    a comparison of positions in the enumeration. *)
Definition is_atomic_kind (tag : term_kind) : bool :=
  (kind_code CONSTANT_TERM <=? kind_code tag) &&
  (kind_code tag <=? kind_code UNINTERPRETED_TERM).

(** [is_const_kind]: [CONSTANT_TERM <= tag && tag <= BV_CONSTANT]. *)
Definition is_const_kind (tag : term_kind) : bool :=
  (kind_code CONSTANT_TERM <=? kind_code tag) &&
  (kind_code tag <=? kind_code BV_CONSTANT).

(** [kind_for_idx]: [table->kind[i]].  The source asserts
    [good_term_idx(table, i)], and the results below read the kind under
    that condition only.  Outside the table there is no slot to read; the
    value [UNUSED_TERM] given here for that case carries no information
    about the C function. *)
Definition kind_for_idx (t : term_table) (i : Z) : term_kind :=
  match entry_at t i with
  | Some e => kind e
  | None => UNUSED_TERM
  end.

End TermAccess.

(** ** Truth values of variables and literals (new_sat_solver.h) *)

Module Assignment.

Import Literal.

(** [bval_t]: bit 1 tells whether the variable is assigned, bit 0 is the
    value or the preferred value. *)
Definition BVAL_UNDEF_FALSE : Z := 0.
Definition BVAL_UNDEF_TRUE : Z := 1.
Definition BVAL_FALSE : Z := 2.
Definition BVAL_TRUE : Z := 3.

Definition is_bval (val : Z) : Prop := 0 <= val <= 3.

(** [is_unassigned_val]: [(val & 0x2) == 0]. *)
Definition is_unassigned_val (val : Z) : bool := Z.land val 0x2 =? 0.

(** [true_preferred]: [(val & 0x1) != 0]. *)
Definition true_preferred (val : Z) : bool := negb (Z.land val 0x1 =? 0).

Section Values.

(** The array [solver->value], the only field of the solver that the
    functions below read. *)
Variable value : Z -> Z.

Definition var_value (x : Z) : Z := value x.

Definition var_is_unassigned (x : Z) : bool :=
  is_unassigned_val (var_value x).

Definition var_is_assigned (x : Z) : bool := negb (var_is_unassigned x).

Definition var_prefers_true (x : Z) : bool := true_preferred (var_value x).

Definition var_is_true (x : Z) : bool := var_value x =? BVAL_TRUE.

Definition var_is_false (x : Z) : bool := var_value x =? BVAL_FALSE.

(** [lit_value]: [solver->value[var_of(l)] ^ sign_of(l)]. *)
Definition lit_value (l : Z) : Z := Z.lxor (value (var_of l)) (sign_of l).

Definition lit_is_unassigned (l : Z) : bool :=
  is_unassigned_val (lit_value l).

Definition lit_is_assigned (l : Z) : bool := negb (lit_is_unassigned l).

Definition lit_prefers_true (l : Z) : bool := true_preferred (lit_value l).

Definition lit_is_true (l : Z) : bool := lit_value l =? BVAL_TRUE.

Definition lit_is_false (l : Z) : bool := lit_value l =? BVAL_FALSE.

End Values.

End Assignment.

(** ** Context: option tests, features and theories (context.h) *)

Module ContextOptions.

Import Context.

Definition PREPROCESSING_OPTIONS_MASK : Z :=
  Z.lor (Z.lor (Z.lor (Z.lor (Z.lor (Z.lor (Z.lor (Z.lor
    VARELIM_OPTION_MASK FLATTENOR_OPTION_MASK) FLATTENDISEQ_OPTION_MASK)
    EQABSTRACT_OPTION_MASK) ARITHELIM_OPTION_MASK) KEEP_ITE_OPTION_MASK)
    BVARITHELIM_OPTION_MASK) BREAKSYM_OPTION_MASK)
    PSEUDO_INVERSE_OPTION_MASK.

Definition SPLX_EGRLMAS_OPTION_MASK : Z := 0x10000.
Definition SPLX_ICHECK_OPTION_MASK : Z := 0x20000.
Definition SPLX_EQPROP_OPTION_MASK : Z := 0x40000.

(** *** Which options are enabled *)

Definition context_eq_abstraction_enabled ctx :=
  test_mask ctx EQABSTRACT_OPTION_MASK.
Definition context_arith_elim_enabled ctx :=
  test_mask ctx ARITHELIM_OPTION_MASK.
Definition context_keep_ite_enabled ctx := test_mask ctx KEEP_ITE_OPTION_MASK.
Definition context_bvarith_elim_enabled ctx :=
  test_mask ctx BVARITHELIM_OPTION_MASK.
Definition context_breaksym_enabled ctx := test_mask ctx BREAKSYM_OPTION_MASK.
Definition context_pseudo_inverse_enabled ctx :=
  test_mask ctx PSEUDO_INVERSE_OPTION_MASK.
Definition context_has_preprocess_options ctx :=
  test_mask ctx PREPROCESSING_OPTIONS_MASK.
Definition context_dump_enabled ctx := test_mask ctx DUMP_OPTION_MASK.
Definition splx_eager_lemmas_enabled ctx :=
  test_mask ctx SPLX_EGRLMAS_OPTION_MASK.
Definition splx_periodic_icheck_enabled ctx :=
  test_mask ctx SPLX_ICHECK_OPTION_MASK.
Definition splx_eqprop_enabled ctx := test_mask ctx SPLX_EQPROP_OPTION_MASK.

(** [context_in_strict_mode]: [(ctx->options & LAX_OPTION_MASK) == 0]. *)
Definition context_in_strict_mode (ctx : context) : bool :=
  Z.land (options ctx) LAX_OPTION_MASK =? 0.

(** *** Optional features *)

Definition context_supports_multichecks ctx :=
  test_mask ctx MULTICHECKS_OPTION_MASK.
Definition context_supports_pushpop ctx := test_mask ctx PUSHPOP_OPTION_MASK.
Definition context_supports_cleaninterrupt ctx :=
  test_mask ctx CLEANINT_OPTION_MASK.

Definition context_get_mode (ctx : context) : context_mode := mode ctx.
Definition context_base_level (ctx : context) : Z := base_level ctx.

(** *** Supported theories *)

Definition UF_MASK : Z := 0x1.
Definition BV_MASK : Z := 0x2.
Definition IDL_MASK : Z := 0x4.
Definition RDL_MASK : Z := 0x8.
Definition LIA_MASK : Z := 0x10.
Definition LRA_MASK : Z := 0x20.
Definition LIRA_MASK : Z := 0x40.
Definition NLIRA_MASK : Z := 0x80.
Definition FUN_UPDT_MASK : Z := 0x100.
Definition FUN_EXT_MASK : Z := 0x200.
Definition QUANT_MASK : Z := 0x400.

Definition ARITH_MASK : Z :=
  Z.lor (Z.lor (Z.lor (Z.lor LIRA_MASK LRA_MASK) LIA_MASK) RDL_MASK) IDL_MASK.
Definition NLARITH_MASK : Z := Z.lor NLIRA_MASK ARITH_MASK.
Definition FUN_MASK : Z := Z.lor FUN_UPDT_MASK FUN_EXT_MASK.
Definition ALLTH_MASK : Z :=
  Z.lor (Z.lor (Z.lor UF_MASK BV_MASK) ARITH_MASK) FUN_MASK.

(** [(ctx->theories & m) != 0]. *)
Definition test_theory (ctx : context) (m : Z) : bool :=
  negb (Z.land (theories ctx) m =? 0).

Definition context_allows_uf ctx := test_theory ctx UF_MASK.
Definition context_allows_bv ctx := test_theory ctx BV_MASK.
Definition context_allows_idl ctx := test_theory ctx IDL_MASK.
Definition context_allows_rdl ctx := test_theory ctx RDL_MASK.
Definition context_allows_lia ctx := test_theory ctx LIA_MASK.
Definition context_allows_lra ctx := test_theory ctx LRA_MASK.
Definition context_allows_lira ctx := test_theory ctx LIRA_MASK.
Definition context_allows_nlarith ctx := test_theory ctx NLIRA_MASK.
Definition context_allows_fun_updates ctx := test_theory ctx FUN_UPDT_MASK.
Definition context_allows_extensionality ctx := test_theory ctx FUN_EXT_MASK.
Definition context_allows_quantifiers ctx := test_theory ctx QUANT_MASK.

(** *** The option operations and the option tests, with their masks *)

(** The mask that an option operation sets or clears. *)
Definition op_mask (op : option_op) : Z :=
  match op with
  | Enable_variable_elimination | Disable_variable_elimination =>
      VARELIM_OPTION_MASK
  | Enable_or_flattening | Disable_or_flattening => FLATTENOR_OPTION_MASK
  | Enable_diseq_and_or_flattening | Disable_diseq_and_or_flattening =>
      Z.lor FLATTENOR_OPTION_MASK FLATTENDISEQ_OPTION_MASK
  | Enable_eq_abstraction | Disable_eq_abstraction => EQABSTRACT_OPTION_MASK
  | Enable_arith_elimination | Disable_arith_elimination =>
      ARITHELIM_OPTION_MASK
  | Enable_keep_ite | Disable_keep_ite => KEEP_ITE_OPTION_MASK
  | Enable_bvarith_elimination | Disable_bvarith_elimination =>
      BVARITHELIM_OPTION_MASK
  | Enable_symmetry_breaking | Disable_symmetry_breaking =>
      BREAKSYM_OPTION_MASK
  | Enable_pseudo_inverse_simplification
  | Disable_pseudo_inverse_simplification => PSEUDO_INVERSE_OPTION_MASK
  | Enable_dump | Disable_dump => DUMP_OPTION_MASK
  | Enable_lax_mode | Disable_lax_mode => LAX_OPTION_MASK
  end.

(** The tests of one option bit. *)
Inductive option_test :=
| Var_elim_enabled
| Flatten_or_enabled
| Flatten_diseq_enabled
| Eq_abstraction_enabled
| Arith_elim_enabled
| Keep_ite_enabled
| Bvarith_elim_enabled
| Breaksym_enabled
| Pseudo_inverse_enabled
| Dump_enabled
| Splx_eager_lemmas_enabled
| Splx_periodic_icheck_enabled
| Splx_eqprop_enabled
| In_strict_mode
| Supports_multichecks
| Supports_pushpop
| Supports_cleaninterrupt.

Definition apply_option_test (tst : option_test) (ctx : context) : bool :=
  match tst with
  | Var_elim_enabled => context_var_elim_enabled ctx
  | Flatten_or_enabled => context_flatten_or_enabled ctx
  | Flatten_diseq_enabled => context_flatten_diseq_enabled ctx
  | Eq_abstraction_enabled => context_eq_abstraction_enabled ctx
  | Arith_elim_enabled => context_arith_elim_enabled ctx
  | Keep_ite_enabled => context_keep_ite_enabled ctx
  | Bvarith_elim_enabled => context_bvarith_elim_enabled ctx
  | Breaksym_enabled => context_breaksym_enabled ctx
  | Pseudo_inverse_enabled => context_pseudo_inverse_enabled ctx
  | Dump_enabled => context_dump_enabled ctx
  | Splx_eager_lemmas_enabled => splx_eager_lemmas_enabled ctx
  | Splx_periodic_icheck_enabled => splx_periodic_icheck_enabled ctx
  | Splx_eqprop_enabled => splx_eqprop_enabled ctx
  | In_strict_mode => context_in_strict_mode ctx
  | Supports_multichecks => context_supports_multichecks ctx
  | Supports_pushpop => context_supports_pushpop ctx
  | Supports_cleaninterrupt => context_supports_cleaninterrupt ctx
  end.

(** The mask that a test reads. *)
Definition option_test_mask (tst : option_test) : Z :=
  match tst with
  | Var_elim_enabled => VARELIM_OPTION_MASK
  | Flatten_or_enabled => FLATTENOR_OPTION_MASK
  | Flatten_diseq_enabled => FLATTENDISEQ_OPTION_MASK
  | Eq_abstraction_enabled => EQABSTRACT_OPTION_MASK
  | Arith_elim_enabled => ARITHELIM_OPTION_MASK
  | Keep_ite_enabled => KEEP_ITE_OPTION_MASK
  | Bvarith_elim_enabled => BVARITHELIM_OPTION_MASK
  | Breaksym_enabled => BREAKSYM_OPTION_MASK
  | Pseudo_inverse_enabled => PSEUDO_INVERSE_OPTION_MASK
  | Dump_enabled => DUMP_OPTION_MASK
  | Splx_eager_lemmas_enabled => SPLX_EGRLMAS_OPTION_MASK
  | Splx_periodic_icheck_enabled => SPLX_ICHECK_OPTION_MASK
  | Splx_eqprop_enabled => SPLX_EQPROP_OPTION_MASK
  | In_strict_mode => LAX_OPTION_MASK
  | Supports_multichecks => MULTICHECKS_OPTION_MASK
  | Supports_pushpop => PUSHPOP_OPTION_MASK
  | Supports_cleaninterrupt => CLEANINT_OPTION_MASK
  end.

End ContextOptions.

(** ** Keywords of the SMT-LIB 2 lexer (smt2_hash_tokens.h) *)

Module Smt2Tokens.

(** Modelled from the spec: smt2_lexer.h, which declares [smt2_token_t] and
    [struct keyword_s], is not under src/.  The tokens are those that the
    keyword table names, in the order of smt2_tokens.txt. *)
Inductive smt2_token :=
| SMT2_TK_PAR
| SMT2_TK_NUM
| SMT2_TK_DEC
| SMT2_TK_STR
| SMT2_TK_UNDERSCORE
| SMT2_TK_BANG
| SMT2_TK_AS
| SMT2_TK_LET
| SMT2_TK_EXISTS
| SMT2_TK_FORALL
| SMT2_TK_ASSERT
| SMT2_TK_CHECK_SAT
| SMT2_TK_CHECK_SAT_ASSUMING
| SMT2_TK_CHECK_SAT_ASSUMING_MODEL
| SMT2_TK_DECLARE_SORT
| SMT2_TK_DECLARE_CONST
| SMT2_TK_DECLARE_FUN
| SMT2_TK_DEFINE_SORT
| SMT2_TK_DEFINE_CONST
| SMT2_TK_DEFINE_FUN
| SMT2_TK_EXIT
| SMT2_TK_GET_ASSERTIONS
| SMT2_TK_GET_ASSIGNMENT
| SMT2_TK_GET_INFO
| SMT2_TK_GET_MODEL
| SMT2_TK_GET_OPTION
| SMT2_TK_GET_PROOF
| SMT2_TK_GET_UNSAT_ASSUMPTIONS
| SMT2_TK_GET_UNSAT_CORE
| SMT2_TK_GET_UNSAT_MODEL_INTERPOLANT
| SMT2_TK_GET_VALUE
| SMT2_TK_POP
| SMT2_TK_PUSH
| SMT2_TK_SET_LOGIC
| SMT2_TK_SET_INFO
| SMT2_TK_SET_OPTION
| SMT2_TK_ECHO
| SMT2_TK_RESET
| SMT2_TK_RESET_ASSERTIONS.

#[global] Instance smt2_token_eq_dec : EqDecision smt2_token.
Proof. solve_decision. Defined.

(** An entry of the keyword table: a word and its token.  The slots that
    the perfect hash leaves free hold the empty word and no token. *)
Record keyword := {
  word : string;
  tk : option smt2_token
}.

#[global] Instance keyword_eq_dec : EqDecision keyword.
Proof. solve_decision. Defined.

(** The table [asso_values] of [hash_tk]. *)
Definition asso_values : list Z :=
  [
    85; 85; 85; 85; 85; 85; 85; 85; 85; 85;
    85; 85; 85; 85; 85; 85; 85; 85; 85; 85;
    85; 85; 85; 85; 85; 85; 85; 85; 85; 85;
    85; 85; 85; 15; 85; 85; 85; 85; 85; 85;
    85; 85; 85; 85; 85; 85; 85; 85; 85; 85;
    85; 85; 85; 85; 85; 85; 85; 85; 85; 85;
    85; 85; 85; 85; 85; 85; 85; 10; 5; 85;
    85; 0; 85; 85; 85; 85; 0; 0; 0; 85;
    85; 85; 0; 0; 85; 85; 85; 85; 85; 85;
    85; 85; 85; 85; 85; 0; 85; 10; 85; 0;
    0; 15; 25; 15; 50; 40; 85; 85; 30; 85;
    0; 15; 5; 85; 0; 5; 0; 85; 85; 85;
    85; 85; 85; 85; 85; 85; 85; 85; 85; 85;
    85; 85; 85; 85; 85; 85; 85; 85; 85; 85;
    85; 85; 85; 85; 85; 85; 85; 85; 85; 85;
    85; 85; 85; 85; 85; 85; 85; 85; 85; 85;
    85; 85; 85; 85; 85; 85; 85; 85; 85; 85;
    85; 85; 85; 85; 85; 85; 85; 85; 85; 85;
    85; 85; 85; 85; 85; 85; 85; 85; 85; 85;
    85; 85; 85; 85; 85; 85; 85; 85; 85; 85;
    85; 85; 85; 85; 85; 85; 85; 85; 85; 85;
    85; 85; 85; 85; 85; 85; 85; 85; 85; 85;
    85; 85; 85; 85; 85; 85; 85; 85; 85; 85;
    85; 85; 85; 85; 85; 85; 85; 85; 85; 85;
    85; 85; 85; 85; 85; 85; 85; 85; 85; 85;
    85; 85; 85; 85; 85; 85
  ].

(** [str[i]] as an [unsigned char]; the terminating NUL is read at the
    length of the string. *)
Definition char_at (str : string) (i : Z) : Z :=
  if 0 <=? i then
    match String.get (Z.to_nat i) str with
    | Some c => Z.of_N (Ascii.N_of_ascii c)
    | None => 0
    end
  else 0.

Definition asso (c : Z) : Z := default 0 (asso_values !! Z.to_nat c).

(** [hash_tk]: the length plus the associated values of the third
    character (for words of three characters and more), of the first and
    of the last one, on [unsigned int]. *)
Definition hash_tk (str : string) (len : Z) : Z :=
  let hval := uint32 len in
  let hval :=
    if (hval =? 2) || (hval =? 1) then hval
    else uint32 (hval + asso (char_at str 2)) in
  let hval := uint32 (hval + asso (char_at str 0)) in
  uint32 (hval + asso (char_at str (len - 1))).

Definition TOTAL_KEYWORDS : Z := 39.
Definition MIN_WORD_LENGTH : Z := 1.
Definition MAX_WORD_LENGTH : Z := 27.
Definition MIN_HASH_VALUE : Z := 1.
Definition MAX_HASH_VALUE : Z := 84.

Definition free_slot : keyword := {| word := ""; tk := None |}.

Definition entry (w : string) (t : smt2_token) : keyword :=
  {| word := w; tk := Some t |}.

(** The table [smt2_tk], indexed by hash value. *)
Definition smt2_tk : list keyword :=
  [
    free_slot;
    entry "_" SMT2_TK_UNDERSCORE;
    free_slot;
    free_slot;
    free_slot;
    free_slot;
    entry "STRING" SMT2_TK_STR;
    entry "NUMERAL" SMT2_TK_NUM;
    entry "par" SMT2_TK_PAR;
    free_slot;
    entry "reset" SMT2_TK_RESET;
    entry "declare-fun" SMT2_TK_DECLARE_FUN;
    entry "declare-sort" SMT2_TK_DECLARE_SORT;
    entry "declare-const" SMT2_TK_DECLARE_CONST;
    entry "set-logic" SMT2_TK_SET_LOGIC;
    entry "set-option" SMT2_TK_SET_OPTION;
    free_slot;
    entry "as" SMT2_TK_AS;
    entry "pop" SMT2_TK_POP;
    free_slot;
    free_slot;
    entry "assert" SMT2_TK_ASSERT;
    entry "DECIMAL" SMT2_TK_DEC;
    free_slot;
    entry "check-sat" SMT2_TK_CHECK_SAT;
    entry "get-option" SMT2_TK_GET_OPTION;
    entry "reset-assertions" SMT2_TK_RESET_ASSERTIONS;
    free_slot;
    entry "set-info" SMT2_TK_SET_INFO;
    entry "get-assignment" SMT2_TK_GET_ASSIGNMENT;
    free_slot;
    entry "!" SMT2_TK_BANG;
    free_slot;
    entry "let" SMT2_TK_LET;
    entry "get-assertions" SMT2_TK_GET_ASSERTIONS;
    entry "define-fun" SMT2_TK_DEFINE_FUN;
    entry "define-sort" SMT2_TK_DEFINE_SORT;
    entry "define-const" SMT2_TK_DEFINE_CONST;
    entry "get-info" SMT2_TK_GET_INFO;
    entry "get-value" SMT2_TK_GET_VALUE;
    free_slot;
    entry "get-unsat-assumptions" SMT2_TK_GET_UNSAT_ASSUMPTIONS;
    entry "get-unsat-model-interpolant" SMT2_TK_GET_UNSAT_MODEL_INTERPOLANT;
    free_slot;
    entry "get-unsat-core" SMT2_TK_GET_UNSAT_CORE;
    free_slot;
    free_slot;
    free_slot;
    entry "check-sat-assuming" SMT2_TK_CHECK_SAT_ASSUMING;
    entry "get-proof" SMT2_TK_GET_PROOF;
    free_slot;
    free_slot;
    free_slot;
    free_slot;
    entry "get-model" SMT2_TK_GET_MODEL;
    free_slot;
    free_slot;
    free_slot;
    free_slot;
    entry "exit" SMT2_TK_EXIT;
    free_slot;
    entry "forall" SMT2_TK_FORALL;
    free_slot;
    free_slot;
    entry "push" SMT2_TK_PUSH;
    free_slot;
    entry "exists" SMT2_TK_EXISTS;
    free_slot;
    free_slot;
    entry "check-sat-assuming-model" SMT2_TK_CHECK_SAT_ASSUMING_MODEL;
    free_slot;
    free_slot;
    free_slot;
    free_slot;
    free_slot;
    free_slot;
    free_slot;
    free_slot;
    free_slot;
    free_slot;
    free_slot;
    free_slot;
    free_slot;
    free_slot;
    entry "echo" SMT2_TK_ECHO
  ].

(** [in_smt2_tk]: the entry of the table for the word [str] of length
    [len], if there is one; [None] stands for the null pointer.  The test
    [*str == *s && !strcmp (str + 1, s + 1)] compares the first characters
    and then the rest of the two strings, that is, the two strings. *)
Definition in_smt2_tk (str : string) (len : Z) : option keyword :=
  if (len <=? MAX_WORD_LENGTH) && (MIN_WORD_LENGTH <=? len) then
    let key := hash_tk str len in
    if key <=? MAX_HASH_VALUE then
      match smt2_tk !! Z.to_nat key with
      | Some kw => if String.eqb str (word kw) then Some kw else None
      | None => None
      end
    else None
  else None.

(** [strlen]. *)
Definition strlen (str : string) : Z := Z.of_nat (String.length str).

End Smt2Tokens.

(** ** The test driver of the symbol table (tests/test_symbol_table.c) *)

Module SymbolTableTest.

Import SymbolTable.

Section WithHash.

Variable hash : string -> Z.

(** The loop of [main] that fills the table, from position [i] on: a word
    that the table does not know is bound to its position, and [val[i]]
    records the value that the table gives to [words[i]].  Returns the
    table and the array [val]. *)
Fixpoint build (words : list string) (i : Z) (tbl : stbl_t)
  : stbl_t * list Z :=
  match words with
  | [] => (tbl, [])
  | w :: rest =>
      let x := stbl_find hash tbl w in
      if x <? 0 then
        let '(tbl', val) := build rest (i + 1) (stbl_add hash tbl w (sint32 i)) in
        (tbl', sint32 i :: val)
      else
        let '(tbl', val) := build rest (i + 1) tbl in
        (tbl', x :: val)
  end.

(** The checking loop of [main]: the positions [i] at which the error
    message is printed, that is, where [stbl_find] does not return
    [val[i]]. *)
Fixpoint check_loop (tbl : stbl_t) (words : list string) (val : list Z)
    (i : Z) : list Z :=
  match words, val with
  | w :: ws, v :: vs =>
      if stbl_find hash tbl w =? v then check_loop tbl ws vs (i + 1)
      else i :: check_loop tbl ws vs (i + 1)
  | _, _ => []
  end.

End WithHash.

(** Position of the first occurrence of [name] in [words], counted from
    [i]; -1 if there is none. *)
Fixpoint first_index (name : string) (words : list string) (i : Z) : Z :=
  match words with
  | [] => -1
  | w :: rest =>
      if String.eqb w name then i else first_index name rest (i + 1)
  end.

End SymbolTableTest.

(** ** Model-based projection: errors and substitution of literals
       (model/projection.c) *)

Module Projection.

Import TermOcc.

(** Modelled from the spec: model/projection.h, which declares
    [proj_flag_t] and [projector_t], is not under src/.  The flags are
    those that projection.c names. *)
Inductive proj_flag :=
| PROJ_NO_ERROR
| PROJ_ERROR_NON_LINEAR
| PROJ_ERROR_IN_EVAL
| PROJ_ERROR_IN_CONVERT
| PROJ_ERROR_IN_SUBST
| PROJ_ERROR_BAD_ARITH_LITERAL.

#[global] Instance proj_flag_eq_dec : EqDecision proj_flag.
Proof. solve_decision. Defined.

(** The fields of [projector_t] that error reporting, the elimination of
    variables by substitution and the substitution of literals act on; a
    vector [ivector_t] is the list of its [size] elements, and [evars] is
    the list of the first [num_evars] elements of the array [evars]. *)
Record projector := {
  evars : list Z;
  gen_literals : list Z;
  arith_literals : list Z;
  flag : proj_flag;
  error_code : Z
}.

(** [proj_error]: "set flag/code unless they already contain an error
    status". *)
Definition proj_error (proj : projector) (f : proj_flag) (code : Z)
  : projector :=
  if bool_decide (flag proj = PROJ_NO_ERROR) then
    {| evars := evars proj;
       gen_literals := gen_literals proj;
       arith_literals := arith_literals proj;
       flag := f; error_code := code |}
  else proj.

Section Elim.

(** The substitution [proj->elim_subst] once it is built from the generic
    literals ([elim_subst_try_cheap_map], [elim_subst_remove_cycles]):
    [elim_subst_get_map] gives the term that a variable is mapped to, a
    negative value if there is none, and [elim_subst_apply] applies the
    substitution to a term.  The functions are defined in
    elim_substitution.c, which is not under src/. *)
Variable elim_subst_get_map : Z -> Z.
Variable elim_subst_apply : Z -> Z.

(** The loop of [proj_elim_by_substitution] that removes from
    [proj->evars] the variables mapped by the substitution, with
    [fuel = n - i] iterations left.  Returns the array and [j]. *)
Fixpoint evars_loop (fuel i j : nat) (data : list Z) : list Z * nat :=
  match fuel with
  | O => (data, j)
  | S fuel' =>
      match data !! i with
      | Some x =>
          let t := elim_subst_get_map x in
          if t <? 0 then evars_loop fuel' (S i) (S j) (<[j := x]> data)
          else evars_loop fuel' (S i) j data
      | None => (data, j)
      end
  end.

(** The loop of [proj_elim_by_substitution] that applies the substitution
    to the generic literals.  Returns the array and [j]. *)
Fixpoint literals_loop (fuel i j : nat) (data : list Z) : list Z * nat :=
  match fuel with
  | O => (data, j)
  | S fuel' =>
      match data !! i with
      | Some a =>
          let t := elim_subst_apply a in
          if negb (t =? true_term) then
            literals_loop fuel' (S i) (S j) (<[j := t]> data)
          else literals_loop fuel' (S i) j data
      | None => (data, j)
      end
  end.

(** Modelled from the spec: [ivector_shrink] is defined in int_vectors.h,
    which is not under src/; [ivector_shrink(v, j)] cuts the vector to its
    first [j] elements.  [proj_elim_by_substitution], once the substitution
    is built: the variables that it maps are removed from [evars] and, if
    there is one, it is applied to the generic literals. *)
Definition proj_elim_by_substitution (proj : projector) : projector :=
  let n := length (evars proj) in
  let '(data, j) := evars_loop n 0 0 (evars proj) in
  let gen :=
    if (j <? n)%nat then
      let '(lits, k) :=
        literals_loop (length (gen_literals proj)) 0 0 (gen_literals proj) in
      take k lits
    else gen_literals proj in
  {| evars := take j data;
     gen_literals := gen;
     arith_literals := arith_literals proj;
     flag := flag proj; error_code := error_code proj |}.

End Elim.

Section Subst.

(** [apply_term_subst (subst, t)] for the substitution [proj->val_subst]:
    the term that replaces [t], or a negative error code.  The function is
    defined in term_substitution.c, which is not under src/. *)
Variable apply_term_subst : Z -> Z.

(** Modelled from the spec: [ivector_shrink] is defined in int_vectors.h,
    which is not under src/; [ivector_shrink(v, j)] cuts the vector to its
    first [j] elements.  The loop of [proj_subst_vector], with
    [fuel = n - i] iterations left: [data] is the array [v->data], read at
    [i] and written at [j].  Returns the vector and, when the loop is left
    by [return], the error code. *)
Fixpoint subst_loop (fuel i j : nat) (data : list Z)
  : list Z * option Z :=
  match fuel with
  | O => (take j data, None)
  | S fuel' =>
      match data !! i with
      | Some a =>
          let t := apply_term_subst a in
          if t <? 0 then (data, Some t)
          else if negb (t =? true_term) then
            subst_loop fuel' (S i) (S j) (<[j := t]> data)
          else subst_loop fuel' (S i) j data
      | None => (take j data, None)
      end
  end.

(** [proj_subst_vector]: the projector and the vector [v] afterwards. *)
Definition proj_subst_vector (proj : projector) (v : list Z)
  : projector * list Z :=
  match subst_loop (length v) 0 0 v with
  | (v', Some t) => (proj_error proj PROJ_ERROR_IN_SUBST t, v')
  | (v', None) => (proj, v')
  end.

End Subst.

End Projection.

(** * Properties *)

(** ** Machine integers and bit operations *)

Lemma sint32_id z : is_int32 z -> sint32 z = z.
Proof.
  unfold is_int32, sint32. intros H.
  rewrite Z.mod_small by lia. lia.
Qed.

Lemma uint32_id z : is_uint32 z -> uint32 z = z.
Proof. unfold is_uint32, uint32. intros H. apply Z.mod_small. lia. Qed.

Lemma sint32_range z : is_int32 (sint32 z).
Proof.
  unfold is_int32, sint32.
  pose proof (Z.mod_pos_bound (z + 2 ^ 31) (2 ^ 32) ltac:(lia)). lia.
Qed.

Lemma uint32_range z : is_uint32 (uint32 z).
Proof. unfold is_uint32, uint32. apply Z.mod_pos_bound. lia. Qed.

(** Bit-level facts shared by the term and literal encodings. *)

Lemma shiftl1_double z : Z.shiftl z 1 = 2 * z.
Proof. rewrite Z.shiftl_mul_pow2 by lia. lia. Qed.

Lemma shiftr1_half z : Z.shiftr z 1 = z / 2.
Proof. rewrite Z.shiftr_div_pow2 by lia. reflexivity. Qed.

Lemma lor_double_1 z : Z.lor (2 * z) 1 = 2 * z + 1.
Proof.
  symmetry. apply Z.add_nocarry_lor.
  apply Z.bits_inj'. intros n Hn.
  rewrite Z.land_spec, Z.bits_0.
  destruct (Z.eq_dec n 0) as [->|Hne].
  - rewrite Z.testbit_even_0. reflexivity.
  - replace 1 with (2 ^ 0) by reflexivity.
    rewrite Z.pow2_bits_eqb by lia.
    destruct (Z.eqb_spec 0 n); [lia|]. apply andb_false_r.
Qed.

Lemma land_1_mod2 z : Z.land z 1 = z mod 2.
Proof. change 1 with (Z.ones 1). rewrite Z.land_ones by lia. reflexivity. Qed.

Lemma lxor_1_involutive z : Z.lxor (Z.lxor z 1) 1 = z.
Proof. rewrite Z.lxor_assoc, Z.lxor_nilpotent, Z.lxor_0_r. reflexivity. Qed.

Lemma lxor_1_even z : Z.lxor (2 * z) 1 = 2 * z + 1.
Proof.
  rewrite <- lor_double_1.
  apply Z.bits_inj'. intros n Hn.
  rewrite Z.lxor_spec, Z.lor_spec.
  destruct (Z.eq_dec n 0) as [->|Hne].
  - rewrite Z.testbit_even_0. reflexivity.
  - replace 1 with (2 ^ 0) by reflexivity.
    rewrite Z.pow2_bits_eqb by lia.
    destruct (Z.eqb_spec 0 n); [lia|].
    rewrite xorb_false_r, orb_false_r. reflexivity.
Qed.

Lemma lxor_1_odd z : Z.lxor (2 * z + 1) 1 = 2 * z.
Proof. rewrite <- lxor_1_even. apply lxor_1_involutive. Qed.

Lemma land_lnot_3 z : Z.land z (Z.lnot 3) = 4 * (z / 4).
Proof.
  rewrite <- Z.ldiff_land. change 3 with (Z.ones 2).
  rewrite Z.ldiff_ones_r by lia.
  rewrite Z.shiftr_div_pow2, Z.shiftl_mul_pow2 by lia.
  change (2 ^ 2) with 4. lia.
Qed.

Lemma land_3_mod4 z : Z.land z 3 = z mod 4.
Proof. change 3 with (Z.ones 2). rewrite Z.land_ones by lia. reflexivity. Qed.

Lemma mod2_of_uint32 z : uint32 z mod 2 = z mod 2.
Proof.
  unfold uint32.
  pose proof (Z.div_mod z (2 ^ 32) ltac:(lia)) as Hz.
  replace (z mod 2 ^ 32) with (z + (- 2 ^ 31 * (z / 2 ^ 32)) * 2) by lia.
  apply Z.mod_add. lia.
Qed.

(** ** Term occurrences *)

Module TermOccFacts.

Import TermOcc.

Lemma pos_term_eq i : is_term_index i -> pos_term i = 2 * i.
Proof.
  unfold is_term_index, pos_term. intros H.
  rewrite shiftl1_double. apply sint32_id. unfold is_int32. lia.
Qed.

Lemma neg_term_eq i : is_term_index i -> neg_term i = 2 * i + 1.
Proof.
  intros H. unfold neg_term. fold (pos_term i).
  rewrite pos_term_eq by exact H. apply lor_double_1.
Qed.

Lemma index_of_eq x : index_of x = x / 2.
Proof. apply shiftr1_half. Qed.

Lemma polarity_of_eq x : polarity_of x = x mod 2.
Proof. unfold polarity_of. rewrite land_1_mod2. apply mod2_of_uint32. Qed.

Lemma index_of_cases i x : index_of x = i <-> x = 2 * i \/ x = 2 * i + 1.
Proof.
  rewrite index_of_eq. split.
  - intros <-.
    pose proof (Z.div_mod x 2 ltac:(lia)).
    pose proof (Z.mod_pos_bound x 2 ltac:(lia)). lia.
  - intros [-> | ->].
    + rewrite Z.mul_comm. apply Z.div_mul. lia.
    + rewrite Z.mul_comm. rewrite Z.div_add_l by lia.
      change (1 / 2) with 0. lia.
Qed.

Lemma opposite_term_involutive x : opposite_term (opposite_term x) = x.
Proof. apply lxor_1_involutive. Qed.

Lemma not_involutive l : Literal.not (Literal.not l) = l.
Proof. apply lxor_1_involutive. Qed.

Lemma index_of_pos_neg i :
  is_term_index i -> index_of (pos_term i) = i /\ index_of (neg_term i) = i.
Proof.
  intros Hi. rewrite (pos_term_eq i Hi), (neg_term_eq i Hi).
  split; apply index_of_cases; lia.
Qed.

Lemma polarity_of_pos_neg i :
  is_term_index i ->
  polarity_of (pos_term i) = 0 /\ polarity_of (neg_term i) = 1.
Proof.
  intros Hi. rewrite (pos_term_eq i Hi), (neg_term_eq i Hi).
  rewrite !polarity_of_eq. split.
  - rewrite Z.mul_comm. apply Z.mod_mul. lia.
  - rewrite Z.mul_comm, Z.add_comm, Z.mod_add by lia. reflexivity.
Qed.

(** C7 (as amended).  A term occurrence packs a 30-bit term index (bits
    30..1), a sign bit that is 0 and a polarity bit: for every index [i]
    with [0 <= i < 2^30], [pos_term i] and [neg_term i] are valid
    occurrences, and [index_of] and [polarity_of] recover [i] and the
    polarity bit from them. *)
Theorem occurrence_packing (i : Z) :
  is_term_index i ->
  is_term_occurrence (pos_term i) /\
  is_term_occurrence (neg_term i) /\
  index_of (pos_term i) = i /\
  index_of (neg_term i) = i /\
  polarity_of (pos_term i) = 0 /\
  polarity_of (neg_term i) = 1.
Proof.
  intros Hi.
  destruct (index_of_pos_neg i Hi) as [Hip Hin].
  destruct (polarity_of_pos_neg i Hi) as [Hpp Hpn].
  assert (Hpos : is_term_occurrence (pos_term i)).
  { rewrite (pos_term_eq i Hi).
    unfold is_term_index in Hi. unfold is_term_occurrence. lia. }
  assert (Hneg : is_term_occurrence (neg_term i)).
  { rewrite (neg_term_eq i Hi).
    unfold is_term_index in Hi. unfold is_term_occurrence. lia. }
  split; [exact Hpos|]. split; [exact Hneg|].
  split; [exact Hip|]. split; [exact Hin|].
  split; [exact Hpp | exact Hpn].
Qed.

Lemma occurrence_packing_witness :
  is_term_index 5 /\
  index_of (pos_term 5) = 5 /\ polarity_of (neg_term 5) = 1.
Proof.
  assert (H : is_term_index 5) by (unfold is_term_index; lia).
  split; [exact H|].
  destruct (occurrence_packing 5 H) as (_ & _ & Hp & _ & _ & Hn).
  split; [exact Hp | exact Hn].
Defined.

(** C7 (as stated) fails at the 31-bit index [2^30]: [pos_term] overflows
    into the sign bit, the result is not an occurrence and [index_of] does
    not give the index back. *)
Lemma occurrence_packing_31_bits_fails :
  0 <= 2 ^ 30 < 2 ^ 31 /\
  ~ is_term_occurrence (pos_term (2 ^ 30)) /\
  index_of (pos_term (2 ^ 30)) <> 2 ^ 30 /\
  index_of (neg_term (2 ^ 30)) <> 2 ^ 30.
Proof.
  split; [lia|].
  unfold is_term_occurrence.
  replace (pos_term (2 ^ 30)) with (- 2 ^ 31) by (vm_compute; reflexivity).
  replace (neg_term (2 ^ 30)) with (- 2 ^ 31 + 1) by (vm_compute; reflexivity).
  repeat split.
  - lia.
  - vm_compute. discriminate.
  - vm_compute. discriminate.
Qed.

End TermOccFacts.

(** ** Symbol table *)

Module SymbolTableFacts.

Import SymbolTable.

Section WithHash.

Variable hash : string -> Z.

Lemma rec_matches_string h name r :
  rec_matches h name r = true -> rec_string r = name.
Proof.
  unfold rec_matches. intros H.
  apply andb_prop in H as [_ H]. apply bool_decide_eq_true in H. exact H.
Qed.

Lemma rec_matches_self name v :
  rec_matches (hash name) name
    {| rec_hash := hash name; rec_value := v; rec_string := name |} = true.
Proof.
  unfold rec_matches. cbn. rewrite Z.eqb_refl. cbn.
  apply bool_decide_eq_true. reflexivity.
Qed.

Lemma find_rec_filter h name l :
  find_rec h name l = List.hd_error (List.filter (rec_matches h name) l).
Proof.
  induction l as [|r l IH]; cbn; [reflexivity|].
  destruct (rec_matches h name r); cbn; [reflexivity | exact IH].
Qed.

Lemma filter_remove_rec h name l :
  List.filter (rec_matches h name) (remove_rec h name l) =
  List.tl (List.filter (rec_matches h name) l).
Proof.
  induction l as [|r l IH]; cbn; [reflexivity|].
  destruct (rec_matches h name r) eqn:E; cbn.
  - reflexivity.
  - rewrite E. exact IH.
Qed.

Lemma filter_remove_rec_other h name h' name' l :
  name' <> name ->
  List.filter (rec_matches h' name') (remove_rec h name l) =
  List.filter (rec_matches h' name') l.
Proof.
  intros Hne. induction l as [|r l IH]; cbn; [reflexivity|].
  destruct (rec_matches h name r) eqn:E; cbn.
  - destruct (rec_matches h' name' r) eqn:E'; [|reflexivity].
    apply rec_matches_string in E. apply rec_matches_string in E'.
    congruence.
  - rewrite IH. reflexivity.
Qed.

Lemma chain_insert_eq tbl i l :
  default [] (<[i := l]> (stbl_data tbl) !! i) = l.
Proof. rewrite lookup_insert_eq. reflexivity. Qed.

Lemma chain_insert_ne tbl i j l :
  i <> j ->
  default [] (<[i := l]> (stbl_data tbl) !! j) = chain tbl j.
Proof. intros H. rewrite lookup_insert_ne by exact H. reflexivity. Qed.

Lemma stbl_find_bindings tbl name :
  stbl_find hash tbl name = List.hd (-1) (bindings hash tbl name).
Proof.
  unfold stbl_find, bindings. rewrite find_rec_filter.
  destruct (List.filter _ _) as [|r l]; reflexivity.
Qed.

Lemma bindings_add tbl name v :
  bindings hash (stbl_add hash tbl name v) name = v :: bindings hash tbl name.
Proof.
  unfold bindings, stbl_add, chain, bucket_index. cbn.
  rewrite chain_insert_eq. cbn.
  rewrite rec_matches_self. reflexivity.
Qed.

Lemma bindings_add_other tbl name v other :
  other <> name ->
  bindings hash (stbl_add hash tbl name v) other = bindings hash tbl other.
Proof.
  intros Hne. unfold bindings, stbl_add, chain, bucket_index. cbn.
  destruct (Z.eq_dec (Z.land (hash name) (stbl_size tbl - 1))
              (Z.land (hash other) (stbl_size tbl - 1))) as [E|E].
  - rewrite <- E, chain_insert_eq. cbn.
    destruct (rec_matches (hash other) other _) eqn:M; [|reflexivity].
    apply rec_matches_string in M. cbn in M. congruence.
  - rewrite chain_insert_ne by exact E. reflexivity.
Qed.

Lemma bindings_remove tbl name :
  bindings hash (stbl_remove hash tbl name) name =
  List.tl (bindings hash tbl name).
Proof.
  unfold bindings, stbl_remove, chain, bucket_index. cbn.
  rewrite chain_insert_eq, filter_remove_rec.
  destruct (List.filter _ _); reflexivity.
Qed.

Lemma bindings_remove_other tbl name other :
  other <> name ->
  bindings hash (stbl_remove hash tbl name) other = bindings hash tbl other.
Proof.
  intros Hne. unfold bindings, stbl_remove, chain, bucket_index. cbn.
  destruct (Z.eq_dec (Z.land (hash name) (stbl_size tbl - 1))
              (Z.land (hash other) (stbl_size tbl - 1))) as [E|E].
  - rewrite <- E, chain_insert_eq.
    rewrite filter_remove_rec_other by exact Hne.
    unfold chain. rewrite E. reflexivity.
  - rewrite chain_insert_ne by exact E. reflexivity.
Qed.

End WithHash.

End SymbolTableFacts.

(** ** Term table: names *)

Module TermNameFacts.

Import TermOcc TermTable SymbolTableFacts.

Section WithHash.

Variable hash : string -> Z.

Lemma get_term_by_name_bindings t name :
  get_term_by_name hash t name =
  List.hd NULL_TERM (name_bindings hash t name).
Proof. apply stbl_find_bindings. Qed.

Lemma name_bindings_set t x name :
  name_bindings hash (set_term_name hash t x name) name =
  x :: name_bindings hash t name.
Proof. apply bindings_add. Qed.

Lemma name_bindings_remove t name :
  name_bindings hash (remove_term_name hash t name) name =
  List.tl (name_bindings hash t name).
Proof. apply bindings_remove. Qed.

(** C8.  Rebinding a name hides the previous binding and removal reveals
    it: after [set_term_name] of [name] to [t1] and then to [t2],
    [get_term_by_name] returns [t2]; after [remove_term_name] it returns
    [t1] again.  In any table, [remove_term_name] pops exactly the most
    recent binding of [name]: the older bindings of [name] and the bindings
    of every other name stay as they are, and [get_term_by_name] reads the
    most recent binding. *)
Theorem rebinding_hides_removal_reveals
    (t : term_table) (name : string) (t1 t2 : Z) :
  let t' := set_term_name hash (set_term_name hash t t1 name) t2 name in
  get_term_by_name hash t' name = t2 /\
  get_term_by_name hash (remove_term_name hash t' name) name = t1 /\
  name_bindings hash t' name = t2 :: t1 :: name_bindings hash t name /\
  name_bindings hash (remove_term_name hash t' name) name =
    t1 :: name_bindings hash t name /\
  (forall (u : term_table) (other : string),
     name_bindings hash (remove_term_name hash u name) name =
       List.tl (name_bindings hash u name) /\
     (other <> name ->
      name_bindings hash (remove_term_name hash u name) other =
        name_bindings hash u other) /\
     get_term_by_name hash u other =
       List.hd NULL_TERM (name_bindings hash u other)).
Proof.
  cbn zeta.
  assert (Hb : name_bindings hash
                 (set_term_name hash (set_term_name hash t t1 name) t2 name)
                 name = t2 :: t1 :: name_bindings hash t name).
  { rewrite !name_bindings_set. reflexivity. }
  repeat split.
  - rewrite get_term_by_name_bindings, Hb. reflexivity.
  - rewrite get_term_by_name_bindings, name_bindings_remove, Hb. reflexivity.
  - exact Hb.
  - rewrite name_bindings_remove, Hb. reflexivity.
  - apply name_bindings_remove.
  - intros Hne. apply bindings_remove_other. exact Hne.
  - apply get_term_by_name_bindings.
Qed.

End WithHash.

Lemma rebinding_hides_removal_reveals_witness :
  let hash := fun s : string => Z.of_nat (String.length s) in
  let t := TermTable.init_term_table 8 in
  let t' := set_term_name hash (set_term_name hash t 4 "x") 6 "x" in
  get_term_by_name hash t' "x" = 6 /\
  get_term_by_name hash (remove_term_name hash t' "x") "x" = 4 /\
  name_bindings hash (remove_term_name hash t' "x") "y" =
    name_bindings hash t' "y".
Proof.
  cbn zeta.
  pose proof (rebinding_hides_removal_reveals
                (fun s : string => Z.of_nat (String.length s))
                (TermTable.init_term_table 8) "x" 4 6)
    as (H1 & H2 & _ & _ & H5).
  split; [exact H1|]. split; [exact H2|].
  apply (H5 _ "y"%string). discriminate.
Defined.

End TermNameFacts.

(** ** Term table: hash consing *)

Module TermTableFacts.

Import TermOcc TermTable.

Lemma entry_matches_kind k tau d e :
  entry_matches k tau d e = true -> kind e = k.
Proof.
  unfold entry_matches. intros H.
  apply andb_prop in H as [H _]. apply andb_prop in H as [H _].
  apply bool_decide_eq_true in H. exact H.
Qed.

Lemma entry_matches_self k tau d :
  entry_matches k tau d {| kind := k; type := tau; desc := d |} = true.
Proof.
  unfold entry_matches. cbn.
  rewrite (bool_decide_eq_true_2 (k = k)) by reflexivity.
  rewrite (bool_decide_eq_true_2 (d = d)) by reflexivity.
  rewrite (bool_decide_eq_true_2 (tau = tau)) by reflexivity.
  cbn. apply orb_true_r.
Qed.

(** The type is part of the key for constants only. *)
Lemma entry_matches_type k tau tau' d e :
  k <> CONSTANT_TERM ->
  entry_matches k tau d e = entry_matches k tau' d e.
Proof.
  intros Hk. unfold entry_matches.
  rewrite (bool_decide_eq_false_2 (k = CONSTANT_TERM)) by exact Hk.
  reflexivity.
Qed.

(** Two keys matched by one entry match the same entries. *)
Lemma entry_matches_trans k tau d k' tau' d' e :
  entry_matches k tau d {| kind := k'; type := tau'; desc := d' |} = true ->
  entry_matches k tau d e = true ->
  entry_matches k' tau' d' e = true.
Proof.
  unfold entry_matches. cbn. intros H1 H2.
  apply andb_prop in H1 as [H1 H1t]. apply andb_prop in H1 as [H1k H1d].
  apply andb_prop in H2 as [H2 H2t]. apply andb_prop in H2 as [H2k H2d].
  apply bool_decide_eq_true in H1k, H1d, H2k, H2d. subst k' d'.
  rewrite !bool_decide_eq_true_2 by congruence. cbn.
  destruct (bool_decide (k = CONSTANT_TERM)); cbn in *; [|reflexivity].
  apply bool_decide_eq_true in H1t, H2t.
  apply bool_decide_eq_true. congruence.
Qed.

Lemma find_term_type k tau tau' d t :
  k <> CONSTANT_TERM -> find_term k tau d t = find_term k tau' d t.
Proof.
  intros Hk. unfold find_term.
  apply list_find_ext. intros e.
  rewrite (entry_matches_type k tau tau' d e Hk). reflexivity.
Qed.

Lemma entry_at_Some t i e :
  entry_at t i = Some e -> 0 <= i /\ entries t !! Z.to_nat i = Some e.
Proof.
  unfold entry_at. destruct (Z.leb_spec 0 i) as [Hi|Hi]; [|discriminate].
  intros H. split; [lia | exact H].
Qed.

(** *** The free list survives the allocation of a term *)

Lemma free_chain_insert t t' j e i l :
  0 <= j ->
  entries t' = <[Z.to_nat j := e]> (entries t) ->
  free_chain t i l -> j ∉ l -> free_chain t' i l.
Proof.
  intros Hj Ht' Hc. induction Hc as [|i e0 l He0 Hk Hc IH]; intros Hn.
  - constructor.
  - apply not_elem_of_cons in Hn as [Hij Hl].
    apply entry_at_Some in He0 as He0'. destruct He0' as [Hi He0'].
    assert (Hat : entry_at t' i = entry_at t i).
    { unfold entry_at. rewrite Ht'.
      destruct (0 <=? i); [|reflexivity].
      apply list_lookup_insert_ne. lia. }
    assert (Hnext : free_next t' i = free_next t i).
    { unfold free_next. rewrite Hat. reflexivity. }
    econstructor.
    + rewrite Hat. exact He0.
    + exact Hk.
    + rewrite Hnext. apply IH. exact Hl.
Qed.

Lemma free_chain_app t t' e i l :
  entries t' = entries t ++ [e] ->
  free_chain t i l -> free_chain t' i l.
Proof.
  intros Ht' Hc. induction Hc as [|i e0 l He0 Hk Hc IH].
  - constructor.
  - apply entry_at_Some in He0 as He0'. destruct He0' as [Hi He0'].
    assert (Hat : entry_at t' i = entry_at t i).
    { unfold entry_at. rewrite Ht'.
      destruct (0 <=? i); [|reflexivity].
      rewrite He0'. apply lookup_app_l_Some. exact He0'. }
    assert (Hnext : free_next t' i = free_next t i).
    { unfold free_next. rewrite Hat. reflexivity. }
    econstructor.
    + rewrite Hat. exact He0.
    + exact Hk.
    + rewrite Hnext. exact IH.
Qed.

(** With a non-negative [free_idx], the head of the free list is an unused
    slot. *)
Lemma good_table_free_head t :
  good_table t -> 0 <= free_idx t ->
  exists e l,
    entry_at t (free_idx t) = Some e /\ kind e = UNUSED_TERM /\
    free_chain t (free_next t (free_idx t)) l /\
    (free_idx t ∉ l) /\ NoDup l.
Proof.
  intros (l & Hc & Hnd) Hpos.
  inversion Hc as [Hm | i e l' He Hk Hc' Hi]; subst.
  - lia.
  - apply NoDup_cons in Hnd as [Hn Hnd].
    exists e, l'. repeat split; assumption.
Qed.

Lemma good_table_new_term k tau d t :
  good_table t -> good_table (fst (new_term k tau d t)).
Proof.
  intros Hg. unfold new_term.
  destruct (Z.leb_spec 0 (free_idx t)) as [Hpos|Hneg]; cbn.
  - destruct (good_table_free_head t Hg Hpos) as (e & l & He & Hk & Hc & Hn & Hnd).
    exists l. split; [|exact Hnd]. cbn.
    eapply free_chain_insert; [exact Hpos | reflexivity | exact Hc | exact Hn].
  - destruct Hg as (l & Hc & Hnd).
    exists l. split; [|exact Hnd]. cbn.
    eapply free_chain_app; [reflexivity | exact Hc].
Qed.

(** *** Terms of a hash-consed table *)

Lemma entry_matches_same k tau d e y :
  entry_matches k tau d e = true -> entry_matches k tau d y = true ->
  entry_matches (kind e) (type e) (desc e) y = true.
Proof.
  destruct e as [ke te de]. cbn. intros H1 H2.
  apply (entry_matches_trans k tau d ke te de y H1 H2).
Qed.

Lemma entry_matches_desc k tau d e :
  entry_matches k tau d e = true -> desc e = d.
Proof.
  unfold entry_matches. intros H.
  apply andb_prop in H as [H _]. apply andb_prop in H as [_ H].
  apply bool_decide_eq_true in H. exact H.
Qed.

(** In a hash-consed table the search finds a term wherever it is. *)
Lemma find_present k tau d t i e :
  hash_consed t -> key_kind k ->
  entries t !! i = Some e -> entry_matches k tau d e = true ->
  find_term k tau d t = Some (i, e).
Proof.
  intros Hu Hk Hi Hm. unfold find_term. apply list_find_Some.
  split; [exact Hi|]. split; [exact Hm|].
  intros j y Hj Hlt Hy.
  assert (E : i = j); [|lia].
  apply (Hu i j e y Hi Hj).
  - rewrite (entry_matches_kind _ _ _ _ Hm). exact Hk.
  - apply (entry_matches_same k tau d); assumption.
Qed.

Lemma live_term_idx_false t i :
  live_term_idx t i = false ->
  forall e, entries t !! Z.to_nat i = Some e -> 0 <= i ->
            kind e = UNUSED_TERM.
Proof.
  unfold live_term_idx, entry_at. intros H e He Hi.
  destruct (Z.leb_spec 0 i); [|lia]. rewrite He in H.
  apply negb_false_iff, bool_decide_eq_true in H. exact H.
Qed.

(** The slot that [new_term] takes held no term, and the other slots are
    left as they are. *)
Lemma new_term_spec k tau d t :
  good_table t ->
  let t' := fst (new_term k tau d t) in
  let i := snd (new_term k tau d t) in
  0 <= i < nelems t' /\
  entries t' !! Z.to_nat i = Some {| kind := k; type := tau; desc := d |} /\
  live_term_idx t i = false /\
  (forall j, j <> Z.to_nat i -> entries t' !! j = entries t !! j) /\
  nelems t <= nelems t' <= nelems t + 1.
Proof.
  intros Hg. unfold new_term, nelems.
  destruct (Z.leb_spec 0 (free_idx t)) as [Hpos|Hneg]; cbn.
  - destruct (good_table_free_head t Hg Hpos) as (e0 & l & He0 & Hk0 & _).
    pose proof He0 as He0'. apply entry_at_Some in He0' as [_ He0'].
    pose proof (lookup_lt_Some _ _ _ He0') as Hlt.
    rewrite length_insert.
    split; [lia|]. split; [apply list_lookup_insert_eq; exact Hlt|].
    split.
    { unfold live_term_idx. rewrite He0, Hk0.
      rewrite bool_decide_eq_true_2 by reflexivity. reflexivity. }
    split; [|lia].
    intros j Hj. apply list_lookup_insert_ne. congruence.
  - rewrite length_app. cbn [length]. rewrite Nat2Z.id.
    split; [lia|].
    split; [rewrite lookup_app_r by lia; rewrite Nat.sub_diag; reflexivity|].
    split.
    { unfold live_term_idx, entry_at.
      destruct (0 <=? Z.of_nat (length (entries t))); [|reflexivity].
      rewrite Nat2Z.id, lookup_ge_None_2 by lia. reflexivity. }
    split; [|lia].
    intros j Hj.
    destruct (Nat.lt_ge_cases j (length (entries t))) as [Hlt|Hge].
    + apply lookup_app_l. exact Hlt.
    + rewrite !lookup_ge_None_2; [reflexivity | lia |].
      rewrite length_app. cbn [length]. lia.
Qed.

Lemma new_term_preserves k tau d t :
  good_table t -> preserves t (fst (new_term k tau d t)).
Proof.
  intros Hg i e Hi Hk.
  destruct (new_term_spec k tau d t Hg) as ((H0 & _) & _ & Hl & Hother & _).
  rewrite Hother; [exact Hi|].
  intros ->. apply Hk.
  apply (live_term_idx_false t _ Hl e Hi H0).
Qed.

(** A new term whose key is not in the table keeps the table
    hash-consed. *)
Lemma new_term_hash_consed k tau d t :
  wf_table t ->
  (key_kind k -> find_term k tau d t = None) ->
  hash_consed (fst (new_term k tau d t)).
Proof.
  intros [Hg Hu] Hnone.
  destruct (new_term_spec k tau d t Hg) as ((H0 & _) & Hnew & Hl & Hother & _).
  set (t' := fst (new_term k tau d t)) in *.
  set (n := Z.to_nat (snd (new_term k tau d t))) in *.
  assert (Hfresh : forall j y, entries t !! j = Some y ->
            key_kind k -> entry_matches k tau d y = false).
  { intros j y Hj Hk. specialize (Hnone Hk). unfold find_term in Hnone.
    apply list_find_None in Hnone.
    eapply Forall_lookup_1 in Hnone; [|exact Hj].
    destruct (entry_matches k tau d y); [contradiction | reflexivity]. }
  intros i j e e' Hi Hj Hk Hm.
  destruct (decide (i = n)) as [->|Hin]; destruct (decide (j = n)) as [->|Hjn].
  - reflexivity.
  - rewrite Hnew in Hi. injection Hi as <-. cbn in Hk, Hm.
    rewrite (Hother j Hjn) in Hj.
    rewrite (Hfresh j e' Hj Hk) in Hm. discriminate.
  - rewrite Hnew in Hj. injection Hj as <-.
    rewrite (Hother i Hin) in Hi.
    assert (Hkk : kind e = k).
    { apply entry_matches_kind in Hm. cbn in Hm. congruence. }
    assert (Hme : entry_matches k tau d e = true).
    { destruct e as [ke te de]. cbn in *. subst ke.
      apply (entry_matches_trans k te de k tau d); [exact Hm|].
      apply entry_matches_self. }
    rewrite (Hfresh i e Hi) in Hme by (rewrite <- Hkk; exact Hk).
    discriminate.
  - rewrite (Hother i Hin) in Hi. rewrite (Hother j Hjn) in Hj.
    apply (Hu i j e e' Hi Hj Hk Hm).
Qed.

Lemma new_term_wf k tau d t :
  wf_table t ->
  (key_kind k -> find_term k tau d t = None) ->
  wf_table (fst (new_term k tau d t)).
Proof.
  intros Hwf Hnone. split.
  - apply good_table_new_term. apply Hwf.
  - apply new_term_hash_consed; assumption.
Qed.

(** Hash consing: the term of the result is in the table, and wherever it
    is still there the same call finds it. *)
Lemma hash_cons_replay k tau d t :
  wf_table t -> key_kind k ->
  let t1 := fst (hash_cons k tau d t) in
  let x := snd (hash_cons k tau d t) in
  wf_table t1 /\ preserves t t1 /\ nelems t <= nelems t1 /\
  exists i e,
    entries t1 !! i = Some e /\ entry_matches k tau d e = true /\
    x = pos_term (Z.of_nat i) /\
    forall t' tau', wf_table t' -> entries t' !! i = Some e ->
      (k = CONSTANT_TERM -> tau' = tau) ->
      hash_cons k tau' d t' = (t', x).
Proof.
  intros Hwf Hk.
  assert (Hreplay : forall i e, entry_matches k tau d e = true ->
            forall t' tau', wf_table t' -> entries t' !! i = Some e ->
              (k = CONSTANT_TERM -> tau' = tau) ->
              hash_cons k tau' d t' = (t', pos_term (Z.of_nat i))).
  { intros i e Hm t' tau' [_ Hu'] Hi Htau.
    assert (Hf : find_term k tau' d t' = Some (i, e)).
    { destruct (decide (k = CONSTANT_TERM)) as [E|E].
      - rewrite (Htau E). apply find_present; assumption.
      - rewrite (find_term_type k tau' tau d t' E).
        apply find_present; assumption. }
    unfold hash_cons. rewrite Hf. reflexivity. }
  unfold hash_cons.
  destruct (find_term k tau d t) as [[i e]|] eqn:Hf; cbn.
  - unfold find_term in Hf. apply list_find_Some in Hf as (Hi & Hm & _).
    split; [exact Hwf|]. split; [intros j y Hj _; exact Hj|].
    split; [lia|]. exists i, e.
    split; [exact Hi|]. split; [exact Hm|]. split; [reflexivity|].
    apply Hreplay. exact Hm.
  - destruct Hwf as [Hg Hu].
    pose proof (new_term_wf k tau d t (conj Hg Hu) (fun _ => Hf)) as Hwf'.
    pose proof (new_term_preserves k tau d t Hg) as Hpres.
    destruct (new_term_spec k tau d t Hg) as ((H0 & _) & Hnew & _ & _ & Hn).
    destruct (new_term k tau d t) as [t' j] eqn:Hnt. cbn in *.
    split; [exact Hwf'|]. split; [exact Hpres|]. split; [lia|].
    exists (Z.to_nat j), {| kind := k; type := tau; desc := d |}.
    split; [exact Hnew|]. split; [apply entry_matches_self|].
    rewrite Z2Nat.id by lia. split; [reflexivity|].
    intros t'' tau' Hwf'' Hi Htau.
    replace (pos_term j) with (pos_term (Z.of_nat (Z.to_nat j)))
      by (rewrite Z2Nat.id by lia; reflexivity).
    apply (Hreplay (Z.to_nat j) _ (entry_matches_self k tau d));
      assumption.
Qed.

(** *** Constructors whose result is determined by the terms present *)

Lemma preserves_refl t : preserves t t.
Proof. intros i e Hi _. exact Hi. Qed.

Lemma preserves_trans t1 t2 t3 :
  preserves t1 t2 -> preserves t2 t3 -> preserves t1 t3.
Proof.
  intros H12 H23 i e Hi Hk. apply H23; [|exact Hk].
  apply H12; assumption.
Qed.

Lemma key_kind_used k : key_kind k -> k <> UNUSED_TERM.
Proof. intros [H _]. exact H. Qed.

Lemma determined_ext (f g : term_table -> term_table * Z) :
  (forall t, f t = g t) -> determined f -> determined g.
Proof.
  intros E Hf t Hwf. destruct (Hf t Hwf) as (H1 & H2 & H3 & S & H4 & H5).
  rewrite <- E. split; [exact H1|]. split; [exact H2|]. split; [exact H3|].
  exists S. split; [exact H4|].
  intros t' Hwf' Hp. rewrite <- E. apply H5; assumption.
Qed.

Lemma determined_ret x : determined (fun t => (t, x)).
Proof.
  intros t Hwf. cbn. split; [exact Hwf|]. split; [apply preserves_refl|].
  split; [lia|]. exists []. split; [intros i e []|]. reflexivity.
Qed.

Lemma determined_hash_cons k (tau_of : term_table -> type_t) d :
  key_kind k ->
  (k = CONSTANT_TERM -> forall t t', tau_of t = tau_of t') ->
  determined (fun t => hash_cons k (tau_of t) d t).
Proof.
  intros Hk Htau t Hwf.
  destruct (hash_cons_replay k (tau_of t) d t Hwf Hk)
    as (H1 & H2 & H3 & i & e & Hi & Hm & Hx & Hr).
  split; [exact H1|]. split; [exact H2|]. split; [exact H3|].
  exists [(i, e)]. split.
  - intros j y [[= <- <-] | []]. split; [exact Hi|]. split.
    + rewrite (entry_matches_kind _ _ _ _ Hm). apply key_kind_used, Hk.
    + left. exact Hx.
  - intros t' Hwf' Hp. apply Hr; [exact Hwf'| |].
    + apply Hp. left. reflexivity.
    + intros E. apply (Htau E).
Qed.

Ltac key_kind_tac := split; discriminate.

Lemma determined_hash_cons_const k tau d :
  key_kind k -> determined (fun t => hash_cons k tau d t).
Proof.
  intros Hk.
  apply (determined_hash_cons k (fun _ => tau) d Hk). reflexivity.
Qed.

Lemma determined_constant_term tau index :
  determined (fun t => constant_term t tau index).
Proof.
  unfold constant_term.
  destruct tau as [|n|id card|id];
    try (apply determined_hash_cons_const; key_kind_tac).
  destruct ((0 <=? index) && (index <? card)).
  - apply determined_hash_cons_const; key_kind_tac.
  - apply determined_ret.
Qed.

Lemma determined_pprod_term r : determined (fun t => pprod_term t r).
Proof.
  unfold pprod_term.
  apply (determined_hash_cons POWER_PRODUCT
           (fun t => match r with
                     | (x, _) :: _ => term_type t x
                     | [] => bool_type
                     end) (desc_pprod r)).
  - key_kind_tac.
  - discriminate.
Qed.

(** The terms made for the power products of a buffer: each of them is
    the variable of a monomial of the result. *)
Lemma term_for_pprod_replay r t :
  wf_table t ->
  wf_table (fst (term_for_pprod t r)) /\
  preserves t (fst (term_for_pprod t r)) /\
  nelems t <= nelems (fst (term_for_pprod t r)) /\
  exists S,
    (forall i e, In (i, e) S ->
       entries (fst (term_for_pprod t r)) !! i = Some e /\
       kind e <> UNUSED_TERM /\
       snd (term_for_pprod t r) = pos_term (Z.of_nat i)) /\
    forall t', wf_table t' -> present S t' ->
      term_for_pprod t' r = (t', snd (term_for_pprod t r)).
Proof.
  intros Hwf.
  assert (Htriv : forall x,
            wf_table (fst (t, x)) /\ preserves t (fst (t, x)) /\
            nelems t <= nelems (fst (t, x)) /\
            exists S : list (nat * term_entry),
              (forall i e, In (i, e) S ->
                 entries (fst (t, x)) !! i = Some e /\
                 kind e <> UNUSED_TERM /\
                 snd (t, x) = pos_term (Z.of_nat i)) /\
              forall t' : term_table, wf_table t' -> present S t' ->
                (t', x) = (t', snd (t, x))).
  { intros x. cbn. split; [exact Hwf|]. split; [apply preserves_refl|].
    split; [lia|]. exists []. split; [intros i e []|]. reflexivity. }
  assert (Hpp : wf_table (fst (pprod_term t r)) /\
                preserves t (fst (pprod_term t r)) /\
                nelems t <= nelems (fst (pprod_term t r)) /\
                exists S,
                  (forall i e, In (i, e) S ->
                     entries (fst (pprod_term t r)) !! i = Some e /\
                     kind e <> UNUSED_TERM /\
                     snd (pprod_term t r) = pos_term (Z.of_nat i)) /\
                  forall t', wf_table t' -> present S t' ->
                    pprod_term t' r = (t', snd (pprod_term t r))).
  { unfold pprod_term.
    set (tau_of := fun t : term_table =>
                     match r with
                     | (x, _) :: _ => term_type t x
                     | [] => bool_type
                     end).
    assert (Hk : key_kind POWER_PRODUCT) by key_kind_tac.
    destruct (hash_cons_replay POWER_PRODUCT (tau_of t) (desc_pprod r) t
                Hwf Hk) as (H1 & H2 & H3 & i & e & Hi & Hm & Hx & Hr).
    fold (tau_of t).
    split; [exact H1|]. split; [exact H2|]. split; [exact H3|].
    exists [(i, e)]. split.
    - intros j y [[= <- <-] | []]. split; [exact Hi|]. split; [|exact Hx].
      rewrite (entry_matches_kind _ _ _ _ Hm). discriminate.
    - intros t' Hwf' Hp. fold (tau_of t').
      apply Hr; [exact Hwf'| |discriminate].
      apply Hp. left. reflexivity. }
  unfold term_for_pprod.
  destruct r as [|[x n] r']; [apply Htriv|].
  destruct n as [|p|p]; try exact Hpp.
  destruct p; try exact Hpp.
  destruct r'; [apply Htriv | exact Hpp].
Qed.

Lemma terms_for_monomials_replay ms : forall t,
  wf_table t ->
  wf_table (fst (terms_for_monomials t ms)) /\
  preserves t (fst (terms_for_monomials t ms)) /\
  nelems t <= nelems (fst (terms_for_monomials t ms)) /\
  exists S,
    (forall i e, In (i, e) S ->
       entries (fst (terms_for_monomials t ms)) !! i = Some e /\
       kind e <> UNUSED_TERM /\
       exists a, In (a, pos_term (Z.of_nat i))
                   (snd (terms_for_monomials t ms))) /\
    forall t', wf_table t' -> present S t' ->
      terms_for_monomials t' ms = (t', snd (terms_for_monomials t ms)).
Proof.
  induction ms as [|[a r] ms' IH]; intros t Hwf.
  - cbn. split; [exact Hwf|]. split; [apply preserves_refl|].
    split; [lia|]. exists []. split; [intros i e []|]. reflexivity.
  - cbn [terms_for_monomials].
    destruct (term_for_pprod_replay r t Hwf)
      as (W1 & P1 & N1 & S1 & HS1 & R1).
    destruct (term_for_pprod t r) as [t1 x] eqn:E1. cbn [fst snd] in *.
    destruct (IH t1 W1) as (W2 & P2 & N2 & S2 & HS2 & R2).
    destruct (terms_for_monomials t1 ms') as [t2 rest] eqn:E2.
    cbn [fst snd] in *.
    split; [exact W2|]. split; [eapply preserves_trans; eassumption|].
    split; [lia|]. exists (S1 ++ S2). split.
    + intros i e Hin. apply in_app_iff in Hin as [Hin | Hin].
      * destruct (HS1 i e Hin) as (Hi & Hk & Hx).
        split; [apply P2; assumption|]. split; [exact Hk|].
        exists a. left. rewrite Hx. reflexivity.
      * destruct (HS2 i e Hin) as (Hi & Hk & a' & Ha').
        split; [exact Hi|]. split; [exact Hk|].
        exists a'. right. exact Ha'.
    + intros t' Hwf' Hp.
      rewrite (R1 t' Hwf') by (intros i e Hin; apply Hp, in_app_iff; auto).
      rewrite (R2 t' Hwf') by (intros i e Hin; apply Hp, in_app_iff; auto).
      reflexivity.
Qed.

Lemma determined_poly k (b : bvarith_buffer) :
  key_kind k ->
  determined (fun t =>
    hash_cons k (bv_type (buffer_bitsize b))
      (desc_bvpoly (buffer_bitsize b)
         (snd (terms_for_monomials t (buffer_mono b))))
      (fst (terms_for_monomials t (buffer_mono b)))).
Proof.
  intros Hk t Hwf.
  destruct (terms_for_monomials_replay (buffer_mono b) t Hwf)
    as (W1 & P1 & N1 & S1 & HS1 & R1).
  destruct (terms_for_monomials t (buffer_mono b)) as [t1 mono] eqn:E1.
  cbn [fst snd] in *.
  destruct (hash_cons_replay k (bv_type (buffer_bitsize b))
              (desc_bvpoly (buffer_bitsize b) mono) t1 W1 Hk)
    as (W2 & P2 & N2 & i0 & e0 & Hi0 & Hm0 & Hx & R2).
  assert (Hk0 : kind e0 <> UNUSED_TERM).
  { rewrite (entry_matches_kind _ _ _ _ Hm0). apply key_kind_used, Hk. }
  split; [exact W2|]. split; [eapply preserves_trans; eassumption|].
  split; [lia|]. exists ((i0, e0) :: S1). split.
  - intros i e [[= <- <-] | Hin].
    + split; [exact Hi0|]. split; [exact Hk0|]. left. exact Hx.
    + destruct (HS1 i e Hin) as (Hi & Hke & a & Ha).
      split; [apply P2; assumption|]. split; [exact Hke|].
      right. exists i0, e0. split; [left; reflexivity|].
      split; [exact Hx|]. split; [exact Hk0|].
      rewrite (entry_matches_desc _ _ _ _ Hm0). cbn.
      apply in_map_iff. exists (a, pos_term (Z.of_nat i)).
      split; [reflexivity | exact Ha].
  - intros t' Hwf' Hp.
    rewrite (R1 t' Hwf') by (intros i e Hin; apply Hp; right; exact Hin).
    cbn [fst snd]. apply R2; [exact Hwf'| |reflexivity].
    apply Hp. left. reflexivity.
Qed.

Lemma determined_call c :
  hash_consing_call c = true -> determined (call c).
Proof.
  destruct c; cbn [hash_consing_call call]; intros Hc; try discriminate.
  - apply determined_constant_term.
  - apply determined_hash_cons_const; key_kind_tac.
  - apply determined_hash_cons_const; key_kind_tac.
  - apply determined_hash_cons_const; key_kind_tac.
  - apply determined_hash_cons_const; key_kind_tac.
  - apply determined_hash_cons_const; key_kind_tac.
  - apply determined_hash_cons_const; key_kind_tac.
  - apply determined_pprod_term.
  - apply determined_hash_cons_const; key_kind_tac.
  - apply determined_hash_cons_const; key_kind_tac.
  - eapply determined_ext; [|apply (determined_poly BV64_POLY b); key_kind_tac].
    intros t. cbn [call]. unfold bv64_poly.
    destruct (terms_for_monomials t (buffer_mono b)) as [t1 mono]. cbn.
    destruct (hash_cons _ _ _ t1); reflexivity.
  - eapply determined_ext; [|apply (determined_poly BV_POLY b); key_kind_tac].
    intros t. cbn [call]. unfold bv_poly.
    destruct (terms_for_monomials t (buffer_mono b)) as [t1 mono]. cbn.
    destruct (hash_cons _ _ _ t1); reflexivity.
  - apply determined_hash_cons_const; key_kind_tac.
  - unfold bvterm.
    apply (determined_hash_cons (binop_kind op) (fun t => term_type t a)
             (desc_composite [a; b])).
    + destruct op; key_kind_tac.
    + destruct op; discriminate.
  - unfold bvatom. apply determined_hash_cons_const.
    destruct op; key_kind_tac.
Qed.

(** [new_uninterpreted_term] makes a term in a slot that held none. *)
Lemma new_uninterpreted_term_spec tau t :
  wf_table t ->
  let t1 := fst (new_uninterpreted_term t tau) in
  let x := snd (new_uninterpreted_term t tau) in
  wf_table t1 /\ preserves t t1 /\ nelems t <= nelems t1 <= nelems t + 1 /\
  exists i,
    x = pos_term i /\ 0 <= i < nelems t1 /\
    live_term_idx t i = false /\
    entry_at t1 i =
      Some {| kind := UNINTERPRETED_TERM; type := tau;
              desc := desc_integer 0 |}.
Proof.
  intros Hwf. unfold new_uninterpreted_term.
  assert (Hnk : key_kind UNINTERPRETED_TERM ->
                find_term UNINTERPRETED_TERM tau (desc_integer 0) t = None).
  { intros [_ H]. contradiction. }
  pose proof (new_term_wf _ tau (desc_integer 0) t Hwf Hnk) as Hwf'.
  pose proof (new_term_preserves UNINTERPRETED_TERM tau (desc_integer 0) t
                (proj1 Hwf)) as Hp.
  destruct (new_term_spec UNINTERPRETED_TERM tau (desc_integer 0) t
              (proj1 Hwf)) as (H0 & Hnew & Hl & _ & Hn).
  destruct (new_term UNINTERPRETED_TERM tau (desc_integer 0) t) as [t1 i].
  cbn [fst snd] in *.
  split; [exact Hwf'|]. split; [exact Hp|]. split; [exact Hn|].
  exists i. split; [reflexivity|]. split; [exact H0|]. split; [exact Hl|].
  unfold entry_at. destruct (Z.leb_spec 0 i); [exact Hnew | lia].
Qed.

(** Every constructor call keeps the table well formed and its terms in
    place. *)
Lemma call_wf c t :
  wf_table t ->
  wf_table (fst (call c t)) /\ preserves t (fst (call c t)) /\
  nelems t <= nelems (fst (call c t)).
Proof.
  intros Hwf.
  destruct (hash_consing_call c) eqn:Hc.
  - destruct (determined_call c Hc t Hwf) as (H1 & H2 & H3 & _).
    split; [exact H1 | split; assumption].
  - destruct c; try discriminate. cbn [call].
    destruct (new_uninterpreted_term_spec tau t Hwf) as (H1 & H2 & H3 & _).
    split; [exact H1|]. split; [exact H2 | lia].
Qed.

Lemma wf_table_init n : wf_table (init_term_table n).
Proof.
  split; [exists []; split; constructor|].
  intros i j e e' Hi Hj Hk Hm.
  destruct i as [|[|i]]; destruct j as [|[|j]]; cbn in Hi, Hj;
    try discriminate; try reflexivity;
    injection Hi as <-; injection Hj as <-; cbn in Hm; discriminate.
Qed.

(** *** Marks *)

Lemma marked_true m i :
  marked m i = true <-> 0 <= i /\ m !! Z.to_nat i = Some true.
Proof.
  unfold marked. destruct (Z.leb_spec 0 i) as [Hi|Hi]; cbn.
  - destruct (m !! Z.to_nat i) as [[|]|]; cbn; split;
      try discriminate; try tauto; intros [_ H]; discriminate.
  - split; [discriminate | lia].
Qed.

Lemma marks_le_refl m : marks_le m m.
Proof. split; [reflexivity | auto]. Qed.

Lemma marks_le_trans m1 m2 m3 :
  marks_le m1 m2 -> marks_le m2 m3 -> marks_le m1 m3.
Proof. intros [L1 H1] [L2 H2]. split; [congruence | auto]. Qed.

Lemma marked_le m m' i :
  marks_le m m' -> marked m i = true -> marked m' i = true.
Proof.
  intros [_ H]. rewrite !marked_true. intros [Hi Hm]. split; [exact Hi|].
  apply H. exact Hm.
Qed.

Lemma set_mark_le m i : marks_le m (set_mark m i).
Proof.
  unfold set_mark. destruct (0 <=? i); [|apply marks_le_refl].
  split; [apply length_insert|].
  intros k Hk. destruct (decide (k = Z.to_nat i)) as [->|Hne].
  - apply list_lookup_insert_eq. eapply lookup_lt_Some. exact Hk.
  - rewrite list_lookup_insert_ne by congruence. exact Hk.
Qed.

Lemma set_mark_marked m i :
  0 <= i < Z.of_nat (length m) -> marked (set_mark m i) i = true.
Proof.
  intros Hi. apply marked_true. split; [lia|].
  unfold set_mark. destruct (Z.leb_spec 0 i); [|lia].
  apply list_lookup_insert_eq. lia.
Qed.

Lemma set_marks_le l : forall m, marks_le m (set_marks m l).
Proof.
  induction l as [|i l IH]; intros m; [apply marks_le_refl|].
  cbn. eapply marks_le_trans; [apply set_mark_le | apply IH].
Qed.

Lemma set_marks_marked l : forall m i,
  In i l -> 0 <= i < Z.of_nat (length m) ->
  marked (set_marks m l) i = true.
Proof.
  induction l as [|j l IH]; intros m i Hin Hi; [destruct Hin|].
  cbn. destruct Hin as [-> | Hin].
  - apply (marked_le _ _ _ (set_marks_le l _)).
    apply set_mark_marked. exact Hi.
  - apply IH; [exact Hin|].
    destruct (set_mark_le m j) as [-> _]. exact Hi.
Qed.

Lemma mark_fold_le t m0 l : forall acc,
  marks_le acc
    (fold_left
       (fun acc i =>
          if marked m0 i then set_marks acc (children t i) else acc) l acc).
Proof.
  induction l as [|i l IH]; intros acc; [apply marks_le_refl|].
  cbn. eapply marks_le_trans; [|apply IH].
  destruct (marked m0 i); [apply set_marks_le | apply marks_le_refl].
Qed.

Lemma mark_pass_le t m : marks_le m (mark_pass t m).
Proof. apply mark_fold_le. Qed.

Lemma in_indices t i :
  0 <= i < Z.of_nat (length (entries t)) -> In i (indices t).
Proof.
  intros Hi. unfold indices. apply in_map_iff. exists (Z.to_nat i).
  split; [lia|]. apply in_seq. lia.
Qed.

(** One pass marks the subterms of the marked terms. *)
Lemma mark_pass_children t m i j :
  length m = length (entries t) ->
  marked m i = true -> In j (children t i) ->
  0 <= j < Z.of_nat (length m) ->
  marked (mark_pass t m) j = true.
Proof.
  intros Hlen Hm Hj Hjv.
  pose proof Hm as Hm'. apply marked_true in Hm' as [Hi0 Hi].
  apply lookup_lt_Some in Hi.
  assert (Hin : In i (indices t)) by (apply in_indices; lia).
  apply in_split in Hin as (l1 & l2 & E).
  unfold mark_pass. rewrite E, fold_left_app. cbn [fold_left].
  rewrite Hm.
  apply (marked_le _ _ _ (mark_fold_le t m l2 _)).
  apply set_marks_marked; [exact Hj|].
  destruct (mark_fold_le t m l1 m) as [-> _]. exact Hjv.
Qed.

Lemma marks_le_cons b m b' m' :
  marks_le (b :: m) (b' :: m') <->
  (b = true -> b' = true) /\ marks_le m m'.
Proof.
  split.
  - intros [Hl H]. split.
    + intros ->. specialize (H 0%nat eq_refl). cbn in H. congruence.
    + split; [cbn in Hl; lia|]. intros k Hk. apply (H (S k)). exact Hk.
  - intros [Hb [Hl H]]. split; [cbn; lia|].
    intros [|k] Hk; cbn in *.
    + injection Hk as ->. rewrite Hb; reflexivity.
    + apply H. exact Hk.
Qed.

Lemma nmarks_cons b m :
  nmarks (b :: m) = ((if b then 1 else 0) + nmarks m)%nat.
Proof.
  unfold nmarks. destruct b.
  - rewrite count_occ_cons_eq by reflexivity. reflexivity.
  - rewrite count_occ_cons_neq by discriminate. reflexivity.
Qed.

Lemma nmarks_le m : forall m',
  marks_le m m' ->
  (nmarks m <= nmarks m')%nat /\ ((nmarks m' <= nmarks m)%nat -> m' = m).
Proof.
  induction m as [|b m IH]; intros m' Hle.
  - destruct m' as [|b' m']; [split; [lia | reflexivity]|].
    destruct Hle as [Hl _]. discriminate Hl.
  - destruct m' as [|b' m']; [destruct Hle as [Hl _]; discriminate Hl|].
    apply marks_le_cons in Hle as [Hb Hle].
    destruct (IH m' Hle) as [H1 H2].
    rewrite !nmarks_cons.
    destruct b, b'; try (specialize (Hb eq_refl); discriminate).
    + split; [lia|]. intros H. f_equal. apply H2. lia.
    + split; [lia|]. intros H. lia.
    + split; [lia|]. intros H. f_equal. apply H2. lia.
Qed.

Lemma nmarks_bound m : (nmarks m <= length m)%nat.
Proof. apply count_occ_bound. Qed.

Lemma iter_fixed (f : list bool -> list bool) m k :
  f m = m -> Nat.iter k f m = m.
Proof.
  intros E. induction k as [|k IH]; [reflexivity|].
  rewrite Nat.iter_succ, IH. exact E.
Qed.

(** After as many passes as there are slots, one more pass changes
    nothing. *)
Lemma propagate_reaches_fixpoint t k : forall m,
  (length m <= nmarks m + k)%nat ->
  mark_pass t (Nat.iter k (mark_pass t) m) = Nat.iter k (mark_pass t) m.
Proof.
  induction k as [|k IH]; intros m Hk.
  - cbn. pose proof (mark_pass_le t m) as Hle.
    destruct (nmarks_le m _ Hle) as [H1 H2]. apply H2.
    pose proof (nmarks_bound (mark_pass t m)).
    destruct Hle as [Hl _]. lia.
  - rewrite Nat.iter_succ_r.
    destruct (decide (mark_pass t m = m)) as [E|E].
    + rewrite E, (iter_fixed _ m k E). exact E.
    + apply IH.
      pose proof (mark_pass_le t m) as Hle.
      destruct (nmarks_le m _ Hle) as [H1 H2].
      destruct Hle as [Hl _]. rewrite Hl.
      destruct (Nat.le_gt_cases (nmarks (mark_pass t m)) (nmarks m));
        [destruct (E (H2 ltac:(assumption)))|lia].
Qed.

Lemma iter_mark_pass_le t k : forall m,
  marks_le m (Nat.iter k (mark_pass t) m).
Proof.
  induction k as [|k IH]; intros m; [apply marks_le_refl|].
  rewrite Nat.iter_succ.
  eapply marks_le_trans; [apply IH | apply mark_pass_le].
Qed.

Lemma propagate_marks_le t m : marks_le m (propagate_marks t m).
Proof. apply iter_mark_pass_le. Qed.

(** The marks that the sweep reads are closed under subterms. *)
Lemma propagate_marks_closed t m i j :
  length m = length (entries t) ->
  marked (propagate_marks t m) i = true -> In j (children t i) ->
  0 <= j < nelems t ->
  marked (propagate_marks t m) j = true.
Proof.
  intros Hlen Hi Hj Hjv.
  assert (Hfix : mark_pass t (propagate_marks t m) = propagate_marks t m).
  { unfold propagate_marks. apply propagate_reaches_fixpoint.
    rewrite Hlen. lia. }
  rewrite <- Hfix.
  destruct (propagate_marks_le t m) as [Hl _].
  apply (mark_pass_children t _ i j); try assumption.
  - rewrite Hl. exact Hlen.
  - rewrite Hl, Hlen. exact Hjv.
Qed.

Lemma gc_marks_length t roots keep_named :
  length (gc_marks t roots keep_named) = length (entries t).
Proof.
  unfold gc_marks.
  destruct (propagate_marks_le t
              (set_marks (replicate (length (entries t)) false)
                 ([const_idx; bool_const] ++ roots ++
                  (if keep_named
                   then List.map index_of (named_terms (stbl t))
                   else [])))) as [-> _].
  destruct (set_marks_le
              ([const_idx; bool_const] ++ roots ++
               (if keep_named
                then List.map index_of (named_terms (stbl t))
                else []))
              (replicate (length (entries t)) false)) as [-> _].
  apply length_replicate.
Qed.

Lemma gc_marks_closed t roots keep_named i j :
  marked (gc_marks t roots keep_named) i = true -> In j (children t i) ->
  0 <= j < nelems t ->
  marked (gc_marks t roots keep_named) j = true.
Proof.
  unfold gc_marks. apply propagate_marks_closed.
  destruct (set_marks_le
              ([const_idx; bool_const] ++ roots ++
               (if keep_named
                then List.map index_of (named_terms (stbl t))
                else []))
              (replicate (length (entries t)) false)) as [-> _].
  apply length_replicate.
Qed.

(** A root that is an index of the table is marked. *)
Lemma gc_marks_root t roots keep_named i :
  In i roots -> 0 <= i < nelems t ->
  marked (gc_marks t roots keep_named) i = true.
Proof.
  intros Hin Hi. unfold gc_marks.
  apply (marked_le _ _ _ (propagate_marks_le t _)).
  apply set_marks_marked.
  - apply in_app_iff. right. apply in_app_iff. left. exact Hin.
  - rewrite length_replicate. exact Hi.
Qed.

(** *** Deletion and sweep *)

Lemma free_chain_unused t a l :
  free_chain t a l ->
  forall x, x ∈ l -> exists e, entry_at t x = Some e /\ kind e = UNUSED_TERM.
Proof.
  induction 1 as [|i e l He Hk Hc IH]; intros x Hx.
  - apply elem_of_nil in Hx. destruct Hx.
  - apply elem_of_cons in Hx as [-> | Hx]; [exists e; auto | apply IH, Hx].
Qed.

Lemma live_entry t i :
  live_term_idx t i = true <->
  exists e, entry_at t i = Some e /\ kind e <> UNUSED_TERM.
Proof.
  unfold live_term_idx. destruct (entry_at t i) as [e|]; split.
  - intros H. exists e. split; [reflexivity|].
    apply negb_true_iff, bool_decide_eq_false in H. exact H.
  - intros (e' & [= <-] & Hk). apply negb_true_iff, bool_decide_eq_false.
    exact Hk.
  - discriminate.
  - intros (e' & H & _). discriminate.
Qed.

Lemma free_chain_ext t t' a l :
  entries t' = entries t -> free_chain t a l -> free_chain t' a l.
Proof.
  intros E Hc. induction Hc as [|i e l He Hk Hc IH]; [constructor|].
  assert (Hat : entry_at t' i = entry_at t i)
    by (unfold entry_at; rewrite E; reflexivity).
  econstructor; [rewrite Hat; exact He | exact Hk|].
  unfold free_next in *. rewrite Hat. exact IH.
Qed.

Lemma wf_table_ext t t' :
  entries t' = entries t -> free_idx t' = free_idx t ->
  wf_table t -> wf_table t'.
Proof.
  intros E F [(l & Hc & Hnd) Hu]. split.
  - exists l. split; [|exact Hnd]. rewrite F.
    apply (free_chain_ext t t' _ l E Hc).
  - unfold hash_consed. rewrite E. exact Hu.
Qed.

Lemma delete_term_spec t i :
  wf_table t -> live_term_idx t i = true ->
  wf_table (delete_term t i) /\
  length (entries (delete_term t i)) = length (entries t) /\
  (forall j, j <> Z.to_nat i ->
     entries (delete_term t i) !! j = entries t !! j).
Proof.
  intros [(l & Hc & Hnd) Hu] Hlive.
  apply live_entry in Hlive as (e & He & Hk).
  pose proof He as He'. apply entry_at_Some in He' as [Hi He'].
  pose proof (lookup_lt_Some _ _ _ He') as Hlt.
  unfold delete_term. rewrite He.
  set (e' := {| kind := UNUSED_TERM; type := type e;
                desc := desc_integer (free_idx t) |}).
  set (t' := {| entries := <[Z.to_nat i := e']> (entries t);
                free_idx := i; stbl := stbl t; ntbl := ntbl t |}).
  assert (Hat : entry_at t' i = Some e').
  { unfold entry_at. destruct (Z.leb_spec 0 i); [|lia].
    cbn. apply list_lookup_insert_eq. exact Hlt. }
  assert (Hnl : i ∉ l).
  { intros Hin. destruct (free_chain_unused t _ l Hc i Hin) as (e0 & H0 & K0).
    congruence. }
  split; [split|split].
  - exists (i :: l). split; [|apply NoDup_cons; split; assumption].
    econstructor; [exact Hat | reflexivity|].
    unfold free_next. rewrite Hat. cbn.
    apply (free_chain_insert t t' i e' (free_idx t) l Hi eq_refl Hc Hnl).
  - intros a b x y Ha Hb Hkx Hm. cbn in Ha, Hb.
    destruct (decide (a = Z.to_nat i)) as [->|Hna].
    { rewrite list_lookup_insert_eq in Ha by exact Hlt.
      injection Ha as <-. destruct Hkx as [Hkx _]. cbn in Hkx.
      contradiction. }
    destruct (decide (b = Z.to_nat i)) as [->|Hnb].
    { rewrite list_lookup_insert_eq in Hb by exact Hlt.
      injection Hb as <-. apply entry_matches_kind in Hm. cbn in Hm.
      destruct Hkx as [Hkx _]. congruence. }
    rewrite list_lookup_insert_ne in Ha by congruence.
    rewrite list_lookup_insert_ne in Hb by congruence.
    apply (Hu a b x y Ha Hb Hkx Hm).
  - cbn. apply length_insert.
  - intros j Hj. cbn. apply list_lookup_insert_ne. congruence.
Qed.

Lemma sweep_fold m l : forall t,
  wf_table t ->
  let t' := fold_left
              (fun t i => if marked m i || negb (live_term_idx t i) then t
                          else delete_term t i) l t in
  wf_table t' /\ length (entries t') = length (entries t) /\
  (forall j e, entries t !! j = Some e ->
               marked m (Z.of_nat j) = true -> entries t' !! j = Some e).
Proof.
  induction l as [|i l IH]; intros t Hwf; cbn.
  - split; [exact Hwf|]. split; [reflexivity | auto].
  - destruct (marked m i) eqn:Hm; cbn [orb]; [apply IH; exact Hwf|].
    destruct (live_term_idx t i) eqn:Hl; cbn [negb]; [|apply IH; exact Hwf].
    destruct (delete_term_spec t i Hwf Hl) as (Hwf' & Hlen & Hother).
    destruct (IH _ Hwf') as (H1 & H2 & H3).
    split; [exact H1|]. split; [congruence|].
    intros j e Hj Hmj. apply H3; [|exact Hmj].
    rewrite Hother; [exact Hj|].
    intros ->. apply live_entry in Hl as (e0 & He0 & _).
    apply entry_at_Some in He0 as [Hi _].
    rewrite Z2Nat.id in Hmj by exact Hi. congruence.
Qed.

(** The garbage collector keeps the table well formed and the marked
    terms in place. *)
Lemma term_table_gc_spec roots keep_named t :
  wf_table t ->
  wf_table (term_table_gc roots keep_named t) /\
  nelems (term_table_gc roots keep_named t) = nelems t /\
  (forall j e, entries t !! j = Some e ->
     marked (gc_marks t roots keep_named) (Z.of_nat j) = true ->
     entries (term_table_gc roots keep_named t) !! j = Some e).
Proof.
  intros Hwf. unfold term_table_gc, sweep_terms.
  destruct (sweep_fold (gc_marks t roots keep_named) (indices t) t Hwf)
    as (H1 & H2 & H3).
  destruct keep_named.
  - split; [exact H1|]. split; [unfold nelems; rewrite H2; reflexivity|].
    exact H3.
  - split; [|split].
    + eapply wf_table_ext; [| |exact H1]; reflexivity.
    + unfold nelems. cbn. rewrite H2. reflexivity.
    + exact H3.
Qed.

(** *** Histories *)

Lemma run_op_wf o t :
  wf_table t -> wf_table (run_op o t) /\ nelems t <= nelems (run_op o t).
Proof.
  intros Hwf. destruct o as [c|s n|roots k]; cbn [run_op].
  - destruct (call_wf c t Hwf) as (H1 & _ & H3). split; assumption.
  - split; [|unfold nelems; cbn; lia].
    eapply wf_table_ext; [| |exact Hwf]; reflexivity.
  - destruct (term_table_gc_spec roots k t Hwf) as (H1 & H2 & _).
    split; [exact H1 | lia].
Qed.

Lemma run_wf h : forall t,
  wf_table t -> wf_table (run h t) /\ nelems t <= nelems (run h t).
Proof.
  induction h as [|o h IH]; intros t Hwf.
  - cbn. split; [exact Hwf | lia].
  - change (run (o :: h) t) with (run h (run_op o t)).
    destruct (run_op_wf o t Hwf) as [H1 H2].
    destruct (IH _ H1) as [H3 H4]. split; [exact H3 | lia].
Qed.

Lemma index_of_pos_nat i :
  Z.of_nat i < 2 ^ 30 -> index_of (pos_term (Z.of_nat i)) = Z.of_nat i.
Proof.
  intros Hi. apply TermOccFacts.index_of_pos_neg. unfold is_term_index. lia.
Qed.

(** The slots that support a result hold marked terms when the term of
    the result is marked. *)
Lemma supports_marked S t x roots keep_named :
  nelems t <= 2 ^ 30 -> supports S t x ->
  marked (gc_marks t roots keep_named) (index_of x) = true ->
  forall i e, In (i, e) S ->
    marked (gc_marks t roots keep_named) (Z.of_nat i) = true.
Proof.
  intros Hn Hs Hm i e Hin.
  assert (Hlt : forall j y, In (j, y) S -> Z.of_nat j < 2 ^ 30).
  { intros j y Hj. destruct (Hs j y Hj) as (Hy & _).
    apply lookup_lt_Some in Hy. unfold nelems in Hn. lia. }
  destruct (Hs i e Hin) as (Hi & Hk & [Hx | (i0 & e0 & Hin0 & Hx & Hk0 & Hc)]).
  - rewrite Hx, index_of_pos_nat in Hm by (apply (Hlt i e Hin)). exact Hm.
  - rewrite Hx, index_of_pos_nat in Hm by (apply (Hlt i0 e0 Hin0)).
    rewrite index_of_pos_nat in Hc by (apply (Hlt i e Hin)).
    destruct (Hs i0 e0 Hin0) as (Hi0 & _).
    apply (gc_marks_closed t roots keep_named (Z.of_nat i0)); [exact Hm| |].
    + unfold children, entry_at.
      destruct (Z.leb_spec 0 (Z.of_nat i0)); [|lia].
      rewrite Nat2Z.id, Hi0.
      rewrite bool_decide_eq_false_2 by exact Hk0. exact Hc.
    + apply lookup_lt_Some in Hi. unfold nelems. lia.
Qed.

Lemma run_op_supports S x o t :
  wf_table t -> nelems t <= 2 ^ 30 -> supports S t x ->
  match o with
  | Op_gc roots keep_named =>
      marked (gc_marks t roots keep_named) (index_of x) = true
  | _ => True
  end ->
  supports S (run_op o t) x.
Proof.
  intros Hwf Hn Hs Ho.
  assert (Hkeep : (forall i e, In (i, e) S ->
                     entries (run_op o t) !! i = Some e) ->
                  supports S (run_op o t) x).
  { intros Hk i e Hin. destruct (Hs i e Hin) as (_ & H2 & H3).
    split; [apply Hk; exact Hin|]. split; assumption. }
  apply Hkeep. intros i e Hin. destruct (Hs i e Hin) as (Hi & Hk & _).
  destruct o as [c|s n|roots k]; cbn [run_op].
  - destruct (call_wf c t Hwf) as (_ & Hp & _). apply Hp; assumption.
  - exact Hi.
  - destruct (term_table_gc_spec roots k t Hwf) as (_ & _ & H3).
    apply H3; [exact Hi|].
    apply (supports_marked S t x roots k Hn Hs Ho i e Hin).
Qed.

Lemma run_supports S x h : forall t,
  wf_table t -> nelems (run h t) <= 2 ^ 30 -> supports S t x ->
  survives x h t -> supports S (run h t) x.
Proof.
  induction h as [|o h IH]; intros t Hwf Hn Hs Hsv; [exact Hs|].
  change (run (o :: h) t) with (run h (run_op o t)) in *.
  destruct Hsv as [Ho Hsv].
  destruct (run_op_wf o t Hwf) as [Hwf' Hn'].
  destruct (run_wf h _ Hwf') as [_ Hn''].
  apply IH; [exact Hwf' | exact Hn| |exact Hsv].
  apply run_op_supports; [exact Hwf | lia | exact Hs | exact Ho].
Qed.

(** *** Two calls to the same constructor *)

Lemma reachable_wf n h : wf_table (run h (init_term_table n)).
Proof. apply run_wf. apply wf_table_init. Qed.

(** C1 (as amended).  Take a table reached from initialization by
    constructor calls, operations on names and garbage collections.  For
    two calls to the same hash-consing constructor (every constructor
    except [new_uninterpreted_term]) with equal arguments, whatever is done
    to the table in between, the second call returns the occurrence and the
    index of the first and leaves the table as it is, provided the term of
    the first call is marked in every garbage collection in between (a
    term that is collected frees its index for another term).
    [new_uninterpreted_term] is not hash-consed: each call returns the
    positive occurrence of a new term, at an index that held no term
    before the call, and a later call never returns the index of a term
    that is still there. *)
Theorem hash_consing_same_index
    (n : Z) (h1 : list table_op) (c : constructor_call)
    (h2 : list table_op) :
  let t := run h1 (init_term_table n) in
  let t1 := fst (call c t) in
  let x := snd (call c t) in
  let t2 := run h2 t1 in
  nelems t2 < 2 ^ 30 ->
  (hash_consing_call c = true -> survives x h2 t1 ->
   snd (call c t2) = x /\
   index_of (snd (call c t2)) = index_of x /\
   fst (call c t2) = t2) /\
  (forall tau, c = New_uninterpreted_term tau ->
     live_term_idx t (index_of x) = false /\
     entry_at t1 (index_of x) =
       Some {| kind := UNINTERPRETED_TERM; type := tau;
               desc := desc_integer 0 |} /\
     is_pos_term x = true /\
     forall tau',
       live_term_idx t2 (index_of x) = true ->
       live_term_idx t2
         (index_of (snd (new_uninterpreted_term t2 tau'))) = false /\
       index_of (snd (new_uninterpreted_term t2 tau')) <> index_of x).
Proof.
  intros t t1 x t2 Hn.
  pose proof (reachable_wf n h1) as Hwf. fold t in Hwf.
  destruct (call_wf c t Hwf) as (Hwf1 & _ & Hn1). fold t1 in Hwf1, Hn1.
  destruct (run_wf h2 t1 Hwf1) as [Hwf2 Hn2]. fold t2 in Hwf2, Hn2.
  split.
  - intros Hc Hsv.
    destruct (determined_call c Hc t Hwf) as (_ & _ & _ & S & Hs & Hr).
    fold t1 x in Hs, Hr.
    assert (Hs2 : supports S t2 x).
    { apply run_supports; [exact Hwf1 | fold t2; lia | exact Hs | exact Hsv]. }
    assert (Hp : present S t2).
    { intros i e Hin. apply (Hs2 i e Hin). }
    rewrite (Hr t2 Hwf2 Hp). cbn. repeat split; reflexivity.
  - intros tau ->. cbn [call] in t1, x.
    destruct (new_uninterpreted_term_spec tau t Hwf)
      as (_ & _ & _ & i & Hx & Hi & Hl & He).
    fold t1 x in Hx, Hi, He.
    assert (Hix : index_of x = i).
    { rewrite Hx. apply TermOccFacts.index_of_pos_neg.
      unfold is_term_index. lia. }
    rewrite Hix. split; [exact Hl|]. split; [exact He|]. split.
    { rewrite Hx. unfold is_pos_term.
      rewrite (proj1 (TermOccFacts.polarity_of_pos_neg i
                        ltac:(unfold is_term_index; lia))).
      reflexivity. }
    intros tau' Hlive.
    destruct (new_uninterpreted_term_spec tau' t2 Hwf2)
      as (_ & _ & Hn3 & j & Hy & Hj & Hlj & _).
    assert (Hjy : index_of (snd (new_uninterpreted_term t2 tau')) = j).
    { rewrite Hy. apply TermOccFacts.index_of_pos_neg.
      unfold is_term_index. lia. }
    rewrite Hjy. split; [exact Hlj|]. intros ->. congruence.
Qed.

Lemma hash_consing_same_index_witness :
  let h1 := [Op_call (New_uninterpreted_term bool_type);
             Op_call (New_uninterpreted_term bool_type)] in
  let c := Eq_term 4 6 in
  let h2 := [Op_call (Or_term [4; 6]); Op_gc [4] false;
             Op_call (New_uninterpreted_term (bv_type 8))] in
  let t1 := fst (call c (run h1 (init_term_table 0))) in
  let t2 := run h2 t1 in
  nelems t2 < 2 ^ 30 /\
  hash_consing_call c = true /\
  survives (snd (call c (run h1 (init_term_table 0)))) h2 t1 /\
  live_term_idx t1 5 = false /\
  index_of (snd (call (Or_term [4; 6]) t1)) = 5 /\
  kind <$> entry_at t2 5 = Some UNINTERPRETED_TERM /\
  index_of (snd (call c t2)) = 4.
Proof.
  cbn zeta.
  assert (Hn : nelems (run [Op_call (Or_term [4; 6]); Op_gc [4] false;
                            Op_call (New_uninterpreted_term (bv_type 8))]
                         (fst (call (Eq_term 4 6)
                                 (run [Op_call (New_uninterpreted_term bool_type);
                                       Op_call (New_uninterpreted_term bool_type)]
                                    (init_term_table 0))))) < 2 ^ 30)
    by (vm_compute; reflexivity).
  assert (Hsv : survives
                  (snd (call (Eq_term 4 6)
                          (run [Op_call (New_uninterpreted_term bool_type);
                                Op_call (New_uninterpreted_term bool_type)]
                             (init_term_table 0))))
                  [Op_call (Or_term [4; 6]); Op_gc [4] false;
                   Op_call (New_uninterpreted_term (bv_type 8))]
                  (fst (call (Eq_term 4 6)
                          (run [Op_call (New_uninterpreted_term bool_type);
                                Op_call (New_uninterpreted_term bool_type)]
                             (init_term_table 0)))))
    by (cbn [survives]; repeat split; vm_compute; reflexivity).
  split; [exact Hn|]. split; [reflexivity|]. split; [exact Hsv|].
  split; [vm_compute; reflexivity|]. split; [vm_compute; reflexivity|].
  split; [vm_compute; reflexivity|].
  destruct (hash_consing_same_index 0
              [Op_call (New_uninterpreted_term bool_type);
               Op_call (New_uninterpreted_term bool_type)]
              (Eq_term 4 6)
              [Op_call (Or_term [4; 6]); Op_gc [4] false;
               Op_call (New_uninterpreted_term (bv_type 8))] Hn)
    as [H _].
  destruct (H eq_refl Hsv) as (_ & Hi & _).
  rewrite Hi. vm_compute. reflexivity.
Defined.

(** C1 (as stated) fails in two ways.  [new_uninterpreted_term] called
    twice with the same type on the initial table returns the indices 2
    and 3.  And the hash-consing constructor [eq_term] returns the index 4
    for the equality of two uninterpreted terms; a garbage collection that
    marks the two uninterpreted terms only sweeps the equality, the next
    term created takes the index 4, and the same call to [eq_term] then
    returns the index 5. *)
Lemma same_call_new_index :
  (let t := init_term_table 0 in
   let c := New_uninterpreted_term bool_type in
   index_of (snd (call c t)) = 2 /\
   index_of (snd (call c (fst (call c t)))) = 3) /\
  (let h1 := [Op_call (New_uninterpreted_term bool_type);
              Op_call (New_uninterpreted_term bool_type)] in
   let t := run h1 (init_term_table 0) in
   let c := Eq_term 4 6 in
   let h2 := [Op_gc [2; 3] false;
              Op_call (New_uninterpreted_term bool_type)] in
   let t2 := run h2 (fst (call c t)) in
   hash_consing_call c = true /\
   index_of (snd (call c t)) = 4 /\
   kind <$> entry_at (fst (call c t)) 4 = Some EQ_TERM /\
   kind <$> entry_at t2 4 = Some UNINTERPRETED_TERM /\
   index_of (snd (call c t2)) = 5).
Proof.
  cbn zeta. split; [split|repeat split]; vm_compute; reflexivity.
Qed.

End TermTableFacts.

(** ** Polarity of term occurrences *)

Module PolarityFacts.

Import TermOcc TermTable TermOccFacts TermTableFacts.

Lemma is_pos_term_polarity x : is_pos_term x = true <-> polarity_of x = 0.
Proof. unfold is_pos_term. apply Z.eqb_eq. Qed.

Lemma good_term_pos t i :
  is_term_index i -> good_term_idx t i = true ->
  good_term t (pos_term i) = true.
Proof.
  intros Hi Hg.
  destruct (index_of_pos_neg i Hi) as [Hidx _].
  destruct (polarity_of_pos_neg i Hi) as [Hpol _].
  unfold good_term. rewrite Hidx, Hg. cbn.
  apply orb_true_iff. left. apply is_pos_term_polarity. exact Hpol.
Qed.

Lemma good_term_neg t i :
  is_term_index i -> good_term_idx t i = true ->
  good_term t (neg_term i) = is_boolean_type (type_for_idx t i).
Proof.
  intros Hi Hg.
  destruct (index_of_pos_neg i Hi) as [_ Hidx].
  destruct (polarity_of_pos_neg i Hi) as [_ Hpol].
  unfold good_term, is_boolean_term, term_type, is_pos_term.
  rewrite Hidx, Hg, Hpol. reflexivity.
Qed.

Lemma good_term_non_boolean t x :
  good_term t x = true -> is_boolean_term t x = false -> polarity_of x = 0.
Proof.
  unfold good_term. intros Hg Hb. rewrite Hb, orb_false_r in Hg.
  apply andb_prop in Hg as [_ Hg]. apply is_pos_term_polarity. exact Hg.
Qed.

(** *** The occurrences that the table hands out *)

Lemma index_of_opposite_term x : index_of (opposite_term x) = index_of x.
Proof.
  rewrite !index_of_eq. unfold opposite_term.
  pose proof (Z.div_mod x 2 ltac:(lia)) as Hx.
  pose proof (Z.mod_pos_bound x 2 ltac:(lia)) as Hm.
  assert (E : x = 2 * (x / 2) \/ x = 2 * (x / 2) + 1) by lia.
  destruct E as [E | E]; rewrite E at 1.
  - rewrite lxor_1_even.
    rewrite Z.mul_comm, Z.div_add_l by lia. change (1 / 2) with 0. lia.
  - rewrite lxor_1_odd. rewrite Z.mul_comm. apply Z.div_mul. lia.
Qed.

Lemma hash_cons_result k tau d t :
  wf_table t -> key_kind k ->
  exists i e,
    snd (hash_cons k tau d t) = pos_term (Z.of_nat i) /\
    entries (fst (hash_cons k tau d t)) !! i = Some e /\ kind e = k.
Proof.
  intros Hwf Hk.
  destruct (hash_cons_replay k tau d t Hwf Hk)
    as (_ & _ & _ & i & e & Hi & Hm & Hx & _).
  exists i, e. split; [exact Hx|]. split; [exact Hi|].
  apply (entry_matches_kind _ _ _ _ Hm).
Qed.

Ltac hash_cons_case Hwf :=
  match goal with
  | |- context [hash_cons ?k ?tau ?d ?t] =>
      let i := fresh "i" in
      let e := fresh "e" in
      let Hx := fresh "Hx" in
      let Hi := fresh "Hi" in
      let Hk := fresh "Hk" in
      destruct (hash_cons_result k tau d t Hwf ltac:(split; discriminate))
        as (i & e & Hx & Hi & Hk);
      exists i, e; rewrite Hk;
      split; [exact Hx|]; split; [exact Hi | cbn; lia]
  end.

(** The result of a constructor is the positive occurrence of a term of
    the table. *)
Lemma call_result c t :
  wf_table t -> snd (call c t) <> NULL_TERM ->
  exists i e,
    snd (call c t) = pos_term (Z.of_nat i) /\
    entries (fst (call c t)) !! i = Some e /\
    kind_code RESERVED_TERM < kind_code (kind e).
Proof.
  intros Hwf Hx0.
  destruct c; cbn [call] in *;
    unfold ite_term, eq_term, distinct_term, or_term, xor_term, bit_term,
           pprod_term, bv64_constant, bvconst_term, bvarray_term;
    try (hash_cons_case Hwf).
  - unfold constant_term in *.
    destruct tau as [|n|id card|id]; try (hash_cons_case Hwf).
    destruct ((0 <=? index) && (index <? card)); [hash_cons_case Hwf|].
    destruct Hx0. reflexivity.
  - destruct (new_uninterpreted_term_spec tau t Hwf)
      as (_ & _ & _ & i & Hx & Hi & _ & He).
    exists (Z.to_nat i),
      {| kind := UNINTERPRETED_TERM; type := tau; desc := desc_integer 0 |}.
    rewrite Z2Nat.id by lia. split; [exact Hx|]. split; [|cbn; lia].
    apply entry_at_Some in He as [_ He]. exact He.
  - unfold bv64_poly.
    destruct (terms_for_monomials_replay (buffer_mono b) t Hwf) as (W1 & _).
    destruct (terms_for_monomials t (buffer_mono b)) as [t1 mono].
    cbn [fst] in W1.
    destruct (hash_cons_result BV64_POLY (bv_type (buffer_bitsize b))
                (desc_bvpoly (buffer_bitsize b) mono) t1 W1
                ltac:(split; discriminate)) as (i & e & Hx & Hi & Hk).
    destruct (hash_cons _ _ _ t1) as [t2 y]. cbn [fst snd] in *.
    exists i, e. rewrite Hk. split; [exact Hx|]. split; [exact Hi|cbn; lia].
  - unfold bv_poly.
    destruct (terms_for_monomials_replay (buffer_mono b) t Hwf) as (W1 & _).
    destruct (terms_for_monomials t (buffer_mono b)) as [t1 mono].
    cbn [fst] in W1.
    destruct (hash_cons_result BV_POLY (bv_type (buffer_bitsize b))
                (desc_bvpoly (buffer_bitsize b) mono) t1 W1
                ltac:(split; discriminate)) as (i & e & Hx & Hi & Hk).
    destruct (hash_cons _ _ _ t1) as [t2 y]. cbn [fst snd] in *.
    exists i, e. rewrite Hk. split; [exact Hx|]. split; [exact Hi|cbn; lia].
  - unfold bvterm.
    destruct (hash_cons_result (binop_kind op) (term_type t a)
                (desc_composite [a; b]) t Hwf
                ltac:(destruct op; split; discriminate))
      as (i & e & Hx & Hi & Hk).
    exists i, e. rewrite Hk. split; [exact Hx|]. split; [exact Hi|].
    destruct op; cbn; lia.
  - unfold bvatom.
    destruct (hash_cons_result (atom_kind op) bool_type
                (desc_composite [l; r]) t Hwf
                ltac:(destruct op; split; discriminate))
      as (i & e & Hx & Hi & Hk).
    exists i, e. rewrite Hk. split; [exact Hx|]. split; [exact Hi|].
    destruct op; cbn; lia.
Qed.

Lemma gc_marks_bool_const t roots keep_named :
  (2 <= length (entries t))%nat ->
  marked (gc_marks t roots keep_named) bool_const = true.
Proof.
  intros Hlen. unfold gc_marks.
  apply (marked_le _ _ _ (propagate_marks_le t _)).
  apply set_marks_marked.
  - right. left. reflexivity.
  - rewrite length_replicate. unfold bool_const. lia.
Qed.

(** The Boolean constant is never collected. *)
Lemma run_bool_const e h : forall t,
  wf_table t -> kind e <> UNUSED_TERM ->
  entries t !! 1%nat = Some e -> entries (run h t) !! 1%nat = Some e.
Proof.
  induction h as [|o h IH]; intros t Hwf Hk He; [exact He|].
  change (run (o :: h) t) with (run h (run_op o t)).
  destruct (run_op_wf o t Hwf) as [Hwf' _].
  apply IH; [exact Hwf' | exact Hk|].
  destruct o as [c|s n|roots k]; cbn [run_op].
  - destruct (call_wf c t Hwf) as (_ & Hp & _). apply Hp; assumption.
  - exact He.
  - destruct (term_table_gc_spec roots k t Hwf) as (_ & _ & H3).
    apply H3; [exact He|].
    apply gc_marks_bool_const. apply lookup_lt_Some in He. lia.
Qed.

(** Every occurrence that the table hands out is the occurrence of a term
    of the table, and it is positive unless the term is Boolean. *)
Lemma produced_entry t x :
  produced t x ->
  wf_table t /\
  (nelems t <= 2 ^ 30 ->
   exists e,
     entry_at t (index_of x) = Some e /\
     kind_code RESERVED_TERM < kind_code (kind e) /\
     (is_pos_term x = true \/ is_boolean_type (type e) = true)).
Proof.
  intros Hp.
  induction Hp as [n h | n h c Hx | t x Hp [IHw IH] Hb
                  | t x o Hp [IHw IH] Ho].
  - split; [apply reachable_wf|]. intros _.
    exists {| kind := CONSTANT_TERM; type := bool_type;
              desc := desc_integer 0 |}.
    split; [|split; [cbn; lia | left; reflexivity]].
    change (index_of true_term) with 1. unfold entry_at. cbn [Z.leb].
    change (Z.to_nat 1) with 1%nat.
    apply run_bool_const; [apply wf_table_init | discriminate | reflexivity].
  - pose proof (reachable_wf n h) as Hwf.
    destruct (call_wf c _ Hwf) as (Hwf1 & _).
    split; [exact Hwf1|]. intros Hn.
    destruct (call_result c _ Hwf Hx) as (i & e & Ex & Hi & Hk).
    assert (Hlt : Z.of_nat i < 2 ^ 30).
    { apply lookup_lt_Some in Hi. unfold nelems in Hn. lia. }
    exists e. rewrite Ex, (index_of_pos_nat i Hlt).
    split; [|split; [exact Hk|]].
    + unfold entry_at. destruct (Z.leb_spec 0 (Z.of_nat i)); [|lia].
      rewrite Nat2Z.id. exact Hi.
    + left. apply is_pos_term_polarity.
      apply (polarity_of_pos_neg (Z.of_nat i)). unfold is_term_index. lia.
  - split; [exact IHw|]. intros Hn.
    destruct (IH Hn) as (e & He & Hk & _).
    exists e. unfold not_term. rewrite index_of_opposite_term.
    split; [exact He|]. split; [exact Hk|]. right.
    unfold is_boolean_term, term_type, type_for_idx in Hb.
    rewrite He in Hb. exact Hb.
  - destruct (run_op_wf o t IHw) as [Hwf' Hmono].
    split; [exact Hwf'|]. intros Hn.
    destruct (IH ltac:(lia)) as (e & He & Hk & Hpol).
    exists e. split; [|split; assumption].
    pose proof He as He'. apply entry_at_Some in He' as [Hi0 He'].
    assert (Hlive : kind e <> UNUSED_TERM).
    { intros E. rewrite E in Hk. cbn in Hk. lia. }
    assert (Hkeep : entries (run_op o t) !! Z.to_nat (index_of x) = Some e).
    { destruct o as [c|s n|roots k]; cbn [run_op].
      - destruct (call_wf c t IHw) as (_ & Hpr & _). apply Hpr; assumption.
      - exact He'.
      - destruct (term_table_gc_spec roots k t IHw) as (_ & _ & H3).
        apply H3; [exact He'|]. rewrite Z2Nat.id by exact Hi0. exact Ho. }
    unfold entry_at. destruct (Z.leb_spec 0 (index_of x)); [|lia].
    exact Hkeep.
Qed.

Lemma produced_good t x :
  produced t x -> nelems t <= 2 ^ 30 ->
  good_term t x = true /\
  (is_boolean_term t x = false -> polarity_of x = 0).
Proof.
  intros Hp Hn.
  destruct (produced_entry t x Hp) as [_ H].
  destruct (H Hn) as (e & He & Hk & Hpol).
  assert (Hg : good_term t x = true).
  { unfold good_term, good_term_idx, is_boolean_term, term_type,
      type_for_idx. rewrite He.
    apply andb_true_intro. split; [apply Z.ltb_lt; exact Hk|].
    apply orb_true_iff. exact Hpol. }
  split; [exact Hg|]. apply good_term_non_boolean. exact Hg.
Qed.

(** C5.  Negation of a term occurrence (and of a literal) is an
    involution.  For every Boolean term index [i] the good occurrences of
    [i] are exactly [pos_term i] (low bit 0) and [neg_term i] (low bit 1),
    which are each other's negation; a term that is not Boolean has the
    single good occurrence [pos_term i].  Every occurrence that the table
    hands out (the predefined Boolean constants, the results of the
    constructors and the negations of Boolean occurrences) is a good
    occurrence, so every such occurrence of a non-Boolean term has low
    bit 0. *)
Theorem polarity_encoding :
  (forall x, opposite_term (opposite_term x) = x) /\
  (forall l, Literal.not (Literal.not l) = l) /\
  (forall t x, not_term t (not_term t x) = x) /\
  (forall t i x,
     is_term_index i -> good_term_idx t i = true ->
     (is_boolean_type (type_for_idx t i) = true ->
      (good_term t x = true /\ index_of x = i <->
       x = pos_term i \/ x = neg_term i)) /\
     (is_boolean_type (type_for_idx t i) = false ->
      (good_term t x = true /\ index_of x = i <-> x = pos_term i)) /\
     pos_term i <> neg_term i /\
     polarity_of (pos_term i) = 0 /\
     polarity_of (neg_term i) = 1 /\
     opposite_term (pos_term i) = neg_term i /\
     opposite_term (neg_term i) = pos_term i) /\
  (forall t x,
     produced t x -> nelems t <= 2 ^ 30 ->
     good_term t x = true /\
     (is_boolean_term t x = false -> polarity_of x = 0)) /\
  (forall t x,
     good_term t x = true -> is_boolean_term t x = false ->
     polarity_of x = 0).
Proof.
  split; [exact opposite_term_involutive|].
  split; [exact not_involutive|].
  split; [intros t x; apply opposite_term_involutive|].
  split; [|split; [exact produced_good | exact good_term_non_boolean]].
  intros t i x Hi Hg.
  destruct (index_of_pos_neg i Hi) as [Hip Hin].
  destruct (polarity_of_pos_neg i Hi) as [Hpp Hpn].
  pose proof (pos_term_eq i Hi) as Ep.
  pose proof (neg_term_eq i Hi) as En.
  pose proof (good_term_pos t i Hi Hg) as Gp.
  pose proof (good_term_neg t i Hi Hg) as Gn.
  split; [|split; [|split; [|split; [|split; [|split]]]]].
  - intros Hb. split.
    + intros [_ Hx]. apply index_of_cases in Hx. rewrite Ep, En. exact Hx.
    + intros [-> | ->]; (split; [|assumption]).
      * exact Gp.
      * rewrite Gn. exact Hb.
  - intros Hb. split.
    + intros [Hgx Hx].
      assert (Hbx : is_boolean_term t x = false).
      { unfold is_boolean_term, term_type. rewrite Hx. exact Hb. }
      pose proof (good_term_non_boolean t x Hgx Hbx) as Hp.
      rewrite polarity_of_eq in Hp.
      apply index_of_cases in Hx. rewrite Ep.
      destruct Hx as [-> | ->]; [reflexivity|].
      exfalso. rewrite Z.mul_comm, Z.add_comm, Z.mod_add in Hp by lia.
      discriminate.
    + intros ->. split; [exact Gp | exact Hip].
  - rewrite Ep, En. lia.
  - exact Hpp.
  - exact Hpn.
  - unfold opposite_term. rewrite Ep, En. apply lxor_1_even.
  - unfold opposite_term. rewrite Ep, En. apply lxor_1_odd.
Qed.

Lemma polarity_encoding_witness :
  let t := init_term_table 0 in
  let t1 := fst (call (New_uninterpreted_term (bv_type 8)) t) in
  let x := snd (call (New_uninterpreted_term (bv_type 8)) t) in
  is_term_index 1 /\ good_term_idx t 1 = true /\
  is_boolean_type (type_for_idx t 1) = true /\
  (good_term t 3 = true /\ index_of 3 = 1 <->
   3 = pos_term 1 \/ 3 = neg_term 1) /\
  opposite_term (opposite_term 3) = 3 /\
  produced t1 x /\ nelems t1 <= 2 ^ 30 /\
  is_boolean_term t1 x = false /\
  good_term t1 x = true /\ polarity_of x = 0 /\
  good_term t1 (opposite_term x) = false.
Proof.
  cbn zeta.
  assert (Hi : is_term_index 1) by (unfold is_term_index; lia).
  assert (Hg : good_term_idx (init_term_table 0) 1 = true) by reflexivity.
  assert (Hb : is_boolean_type (type_for_idx (init_term_table 0) 1) = true)
    by reflexivity.
  assert (Hp : produced
                 (fst (call (New_uninterpreted_term (bv_type 8))
                         (init_term_table 0)))
                 (snd (call (New_uninterpreted_term (bv_type 8))
                         (init_term_table 0)))).
  { apply (produced_call 0 [] (New_uninterpreted_term (bv_type 8))).
    vm_compute. discriminate. }
  assert (Hn : nelems (fst (call (New_uninterpreted_term (bv_type 8))
                              (init_term_table 0))) <= 2 ^ 30)
    by (vm_compute; discriminate).
  assert (Hnb : is_boolean_term
                  (fst (call (New_uninterpreted_term (bv_type 8))
                          (init_term_table 0)))
                  (snd (call (New_uninterpreted_term (bv_type 8))
                          (init_term_table 0))) = false)
    by (vm_compute; reflexivity).
  destruct polarity_encoding as (Hinv & _ & _ & Hocc & Hprod & _).
  destruct (Hocc (init_term_table 0) 1 3 Hi Hg) as (Hbool & _).
  destruct (Hprod _ _ Hp Hn) as [Hgood Hpol].
  split; [exact Hi|]. split; [exact Hg|]. split; [exact Hb|].
  split; [exact (Hbool Hb)|]. split; [apply Hinv|].
  split; [exact Hp|]. split; [exact Hn|]. split; [exact Hnb|].
  split; [exact Hgood|]. split; [exact (Hpol Hnb)|].
  vm_compute. reflexivity.
Defined.

End PolarityFacts.

(** ** Context: options *)

Module ContextFacts.

Import Context.

Lemma land_pow2_testbit o k :
  0 <= k -> (Z.land o (2 ^ k) =? 0) = negb (Z.testbit o k).
Proof.
  intros Hk. destruct (Z.testbit o k) eqn:Hb; cbn.
  - apply Z.eqb_neq. intros E.
    assert (Ht : Z.testbit (Z.land o (2 ^ k)) k = true).
    { rewrite Z.land_spec, Hb, Z.pow2_bits_true by exact Hk. reflexivity. }
    rewrite E, Z.bits_0 in Ht. discriminate.
  - apply Z.eqb_eq. apply Z.bits_inj'. intros n Hn.
    rewrite Z.land_spec, Z.bits_0, Z.pow2_bits_eqb by exact Hk.
    destruct (Z.eqb_spec k n) as [->|Hne].
    + rewrite Hb. reflexivity.
    + apply andb_false_r.
Qed.

Lemma test_mask_pow2 ctx k :
  0 <= k -> test_mask ctx (2 ^ k) = Z.testbit (options ctx) k.
Proof.
  intros Hk. unfold test_mask.
  rewrite land_pow2_testbit by exact Hk. apply negb_involutive.
Qed.

Lemma testbit_set_mask ctx m k :
  Z.testbit (options (set_mask ctx m)) k =
  Z.testbit (options ctx) k || Z.testbit m k.
Proof. unfold set_mask. cbn. apply Z.lor_spec. Qed.

Lemma testbit_clear_mask ctx m k :
  0 <= k < 32 ->
  Z.testbit (options (clear_mask ctx m)) k =
  Z.testbit (options ctx) k && negb (Z.testbit m k).
Proof.
  intros Hk. unfold clear_mask, uint32. cbn.
  rewrite Z.land_spec, Z.mod_pow2_bits_low, Z.lnot_spec by lia.
  reflexivity.
Qed.

Lemma flatten_or_bit ctx :
  context_flatten_or_enabled ctx = Z.testbit (options ctx) 5.
Proof. apply (test_mask_pow2 ctx 5). lia. Qed.

Lemma flatten_diseq_bit ctx :
  context_flatten_diseq_enabled ctx = Z.testbit (options ctx) 6.
Proof. apply (test_mask_pow2 ctx 6). lia. Qed.

(** [enable_diseq_and_or_flattening] establishes the implication. *)
Lemma enable_diseq_and_or_flattening_ok ctx :
  diseq_implies_or (enable_diseq_and_or_flattening ctx).
Proof.
  unfold diseq_implies_or. intros _.
  rewrite flatten_or_bit. unfold enable_diseq_and_or_flattening.
  rewrite testbit_set_mask. apply orb_true_r.
Qed.

(** Every operation other than [disable_or_flattening] preserves it. *)
Lemma option_op_preserves_diseq_implies_or op ctx :
  op <> Disable_or_flattening ->
  diseq_implies_or ctx -> diseq_implies_or (apply_option_op op ctx).
Proof.
  unfold diseq_implies_or.
  rewrite !flatten_or_bit, !flatten_diseq_bit.
  intros Hop H.
  destruct op; try congruence; cbn [apply_option_op];
    unfold enable_variable_elimination, disable_variable_elimination,
      enable_or_flattening, enable_diseq_and_or_flattening,
      disable_diseq_and_or_flattening, enable_eq_abstraction,
      disable_eq_abstraction, enable_arith_elimination,
      disable_arith_elimination, enable_keep_ite, disable_keep_ite,
      enable_bvarith_elimination, disable_bvarith_elimination,
      enable_symmetry_breaking, disable_symmetry_breaking,
      enable_pseudo_inverse_simplification,
      disable_pseudo_inverse_simplification, enable_dump, disable_dump,
      enable_lax_mode, disable_lax_mode;
    rewrite ?testbit_set_mask, ?testbit_clear_mask by lia;
    revert H;
    generalize (Z.testbit (options ctx) 5), (Z.testbit (options ctx) 6);
    intros b5 b6; cbn; destruct b5, b6; cbn; auto.
Qed.

(** C6 (the code at the failing input).  In any context,
    [enable_diseq_and_or_flattening] followed by [disable_or_flattening]
    leaves the diseq-flattening bit set and the or-flattening bit clear:
    [disable_or_flattening] does not preserve "diseq-flattening implies
    or-flattening". *)
Theorem disable_or_flattening_keeps_diseq (ctx : context) :
  let ctx1 := enable_diseq_and_or_flattening ctx in
  let ctx2 := disable_or_flattening ctx1 in
  diseq_implies_or ctx1 /\
  context_flatten_diseq_enabled ctx2 = true /\
  context_flatten_or_enabled ctx2 = false /\
  ~ diseq_implies_or ctx2.
Proof.
  cbn zeta.
  assert (Hd : context_flatten_diseq_enabled
                 (disable_or_flattening (enable_diseq_and_or_flattening ctx))
               = true).
  { rewrite flatten_diseq_bit.
    unfold disable_or_flattening, enable_diseq_and_or_flattening.
    rewrite testbit_clear_mask, testbit_set_mask by lia.
    cbn. rewrite orb_true_r. reflexivity. }
  assert (Ho : context_flatten_or_enabled
                 (disable_or_flattening (enable_diseq_and_or_flattening ctx))
               = false).
  { rewrite flatten_or_bit.
    unfold disable_or_flattening.
    rewrite testbit_clear_mask by lia.
    cbn. apply andb_false_r. }
  split; [apply enable_diseq_and_or_flattening_ok|].
  split; [exact Hd|]. split; [exact Ho|].
  unfold diseq_implies_or. rewrite Hd, Ho. intros H.
  specialize (H eq_refl). discriminate.
Qed.

(** ** Context: return codes *)

Lemma error_code_negative e : error_code e < 0.
Proof. destruct e; cbn; lia. Qed.

Lemma error_code_range e :
  - NUM_INTERNALIZATION_ERRORS < error_code e < 0.
Proof. destruct e; cbn; unfold NUM_INTERNALIZATION_ERRORS; lia. Qed.

End ContextFacts.

(** ** Clause pool *)

Module ClausePoolFacts.

Import Literal ClausePool.

(** *** Lengths and alignment *)

Lemma full_length_eq n : full_length n = 4 * ((n + 5) / 4).
Proof.
  unfold full_length. rewrite land_lnot_3.
  replace (n + 2 + 3) with (n + 5) by lia. reflexivity.
Qed.

Lemma full_length_bounds n :
  n + 2 <= full_length n <= n + 5 /\ full_length n mod 4 = 0.
Proof.
  rewrite full_length_eq.
  pose proof (Z.div_mod (n + 5) 4 ltac:(lia)).
  pose proof (Z.mod_pos_bound (n + 5) 4 ltac:(lia)).
  split; [lia|].
  rewrite Z.mul_comm. apply Z.mod_mul. lia.
Qed.

Lemma full_length_mono n m : n <= m -> full_length n <= full_length m.
Proof.
  intros H. rewrite !full_length_eq.
  assert ((n + 5) / 4 <= (m + 5) / 4) by (apply Z.div_le_mono; lia). lia.
Qed.

Lemma next_clause_idx_eq i len :
  i mod 4 = 0 -> next_clause_idx i len = i + full_length len.
Proof.
  intros Hi. unfold next_clause_idx. rewrite land_lnot_3, full_length_eq.
  pose proof (Z.div_mod i 4 ltac:(lia)) as Hd.
  replace (i + len + 2 + 3) with ((len + 5) + (i / 4) * 4) by lia.
  rewrite Z.div_add by lia. lia.
Qed.

Lemma round_up_eq n : Z.land (n + 2 + 3) (Z.lnot 3) = full_length n.
Proof. reflexivity. Qed.

Lemma aligned_succ i j : i mod 4 = 0 -> j mod 4 = 0 -> i < j -> i + 4 <= j.
Proof.
  intros Hi Hj Hlt.
  pose proof (Z.div_mod i 4 ltac:(lia)).
  pose proof (Z.div_mod j 4 ltac:(lia)). lia.
Qed.

Lemma mod4_add i n : i mod 4 = 0 -> n mod 4 = 0 -> (i + n) mod 4 = 0.
Proof.
  intros Hi Hn.
  pose proof (Z.div_mod i 4 ltac:(lia)).
  pose proof (Z.div_mod n 4 ltac:(lia)).
  replace (i + n) with ((i / 4 + n / 4) * 4) by lia.
  apply Z.mod_mul. lia.
Qed.

Lemma mod4_sub i n : i mod 4 = 0 -> n mod 4 = 0 -> (i - n) mod 4 = 0.
Proof.
  intros Hi Hn.
  pose proof (Z.div_mod i 4 ltac:(lia)).
  pose proof (Z.div_mod n 4 ltac:(lia)).
  replace (i - n) with ((i / 4 - n / 4) * 4) by lia.
  apply Z.mod_mul. lia.
Qed.

Lemma max_capacity_aligned :
  MAX_CLAUSE_POOL_CAPACITY mod 4 = 0 /\ 0 <= MAX_CLAUSE_POOL_CAPACITY.
Proof. split; [reflexivity | discriminate]. Qed.

(** *** Growth of the capacity *)

Lemma pool_capacity_for_spec fuel cap need c :
  cap mod 4 = 0 ->
  pool_capacity_for fuel cap need = Some c ->
  need <= c /\ c mod 4 = 0 /\ cap <= c.
Proof.
  revert cap. induction fuel as [|fuel IH]; intros cap Hcap; cbn.
  - destruct (Z.leb_spec need cap) as [Hle|Hgt]; [|discriminate].
    intros [= <-]. repeat split; [exact Hle | exact Hcap | lia].
  - destruct (Z.leb_spec need cap) as [Hle|Hgt].
    + intros [= <-]. repeat split; [exact Hle | exact Hcap | lia].
    + destruct (Z.ltb_spec cap MAX_CLAUSE_POOL_CAPACITY) as [Hlt|Hge];
        [|discriminate].
      intros H. apply IH in H.
      * destruct H as (H1 & H2 & H3). repeat split; [exact H1 | exact H2 |].
        destruct (Z.min_spec (2 * cap) MAX_CLAUSE_POOL_CAPACITY)
          as [[_ E]|[_ E]]; rewrite E in H3; lia.
      * destruct (Z.min_spec (2 * cap) MAX_CLAUSE_POOL_CAPACITY)
          as [[_ E]|[_ E]]; rewrite E.
        -- replace (2 * cap) with (cap + cap) by lia.
           apply mod4_add; exact Hcap.
        -- apply max_capacity_aligned.
Qed.

(** The fuel never runs out: from a positive capacity, growth fails only
    when the cap is too small for the request. *)
Lemma pool_capacity_for_total fuel cap need :
  0 < cap -> need <= MAX_CLAUSE_POOL_CAPACITY ->
  MAX_CLAUSE_POOL_CAPACITY <= cap * 2 ^ Z.of_nat fuel ->
  exists c, pool_capacity_for fuel cap need = Some c.
Proof.
  revert cap. induction fuel as [|fuel IH]; intros cap Hpos Hneed Hfuel; cbn.
  - destruct (Z.leb_spec need cap) as [Hle|Hgt]; [eauto|].
    cbn in Hfuel. lia.
  - destruct (Z.leb_spec need cap) as [Hle|Hgt]; [eauto|].
    destruct (Z.ltb_spec cap MAX_CLAUSE_POOL_CAPACITY) as [Hlt|Hge]; [|lia].
    apply IH; [lia | exact Hneed |].
    rewrite Nat2Z.inj_succ, Z.pow_succ_r in Hfuel by lia.
    destruct (Z.min_spec (2 * cap) MAX_CLAUSE_POOL_CAPACITY)
      as [[_ E]|[_ E]]; rewrite E.
    + lia.
    + assert (0 < 2 ^ Z.of_nat fuel) by (apply Z.pow_pos_nonneg; lia).
      pose proof (proj2 max_capacity_aligned). nia.
Qed.

(** *** Stores *)

Lemma store_eq d i v : store d i v i = v.
Proof. unfold store. rewrite Z.eqb_refl. reflexivity. Qed.

Lemma store_ne d i v j : j <> i -> store d i v j = d j.
Proof.
  intros H. unfold store. destruct (Z.eqb_spec j i); [contradiction|].
  reflexivity.
Qed.

Lemma store_array_outside a : forall d i j,
  j < i \/ i + Z.of_nat (length a) <= j -> store_array d i a j = d j.
Proof.
  induction a as [|x a IH]; intros d i j H; cbn; [reflexivity|].
  rewrite IH by (cbn [length] in H; lia).
  apply store_ne. cbn [length] in H. lia.
Qed.

Lemma store_array_inside a : forall d i (k : nat),
  (k < length a)%nat ->
  store_array d i a (i + Z.of_nat k) = nth k a 0.
Proof.
  induction a as [|x a IH]; intros d i k Hk; cbn in Hk; [lia|].
  destruct k as [|k]; cbn [store_array nth].
  - rewrite store_array_outside by lia.
    replace (i + Z.of_nat 0) with i by lia. apply store_eq.
  - replace (i + Z.of_nat (S k)) with (i + 1 + Z.of_nat k) by lia.
    apply IH. lia.
Qed.

Lemma init_clause_below d i aux lits j :
  j < i -> init_clause d i aux lits j = d j.
Proof.
  intros H. unfold init_clause.
  rewrite store_array_outside by lia.
  rewrite !store_ne by lia. reflexivity.
Qed.

Lemma init_clause_len d i aux lits :
  init_clause d i aux lits i = Z.of_nat (length lits).
Proof.
  unfold init_clause. rewrite store_array_outside by lia.
  rewrite store_ne by lia. apply store_eq.
Qed.

Lemma init_clause_aux d i aux lits :
  init_clause d i aux lits (i + 1) = aux.
Proof.
  unfold init_clause. rewrite store_array_outside by lia. apply store_eq.
Qed.

Lemma init_clause_lit d i aux lits (k : nat) :
  (k < length lits)%nat ->
  init_clause d i aux lits (i + 2 + Z.of_nat k) = nth k lits 0.
Proof. intros H. unfold init_clause. apply store_array_inside. exact H. Qed.

(** *** Blocks of a pool that satisfies the invariant *)

Section Blocks.

Variable p : clause_pool.
Hypothesis Hinv : pool_invariant p.

Lemma inv_size_nonneg : 0 <= size p.
Proof. destruct Hinv as ((H0 & H1 & _) & _). lia. Qed.

Lemma inv_size_aligned : size p mod 4 = 0.
Proof. destruct Hinv as (_ & _ & (_ & H & _) & _). exact H. Qed.

Lemma inv_block i :
  block_start p i -> i < size p ->
  i mod 4 = 0 /\ 0 <= i /\ (clause_layout p i \/ padding_layout p i).
Proof. destruct Hinv as (_ & _ & _ & _ & H). apply H. Qed.

Lemma block_next_bounds i :
  block_start p i -> i < size p ->
  i + 4 <= next_block p i <= size p /\ next_block p i mod 4 = 0.
Proof.
  intros Hb Hlt.
  destruct (inv_block i Hb Hlt) as (Hm & Hpos & [Hc | Hp]).
  - destruct Hc as (Hlen & _ & Hnext & Hle).
    pose proof (full_length_bounds (data p i)) as [Hfl Hfm].
    rewrite Hnext in *. split; [lia|]. apply mod4_add; assumption.
  - destruct Hp as (_ & Hlen & Hlm & Hnext & Hle).
    rewrite Hnext in *. split; [lia|]. apply mod4_add; assumption.
Qed.

Lemma block_start_bounds i :
  block_start p i -> 0 <= i <= size p /\ i mod 4 = 0.
Proof.
  intros Hb. induction Hb as [|i Hb IH Hlt].
  - split; [pose proof inv_size_nonneg; lia | reflexivity].
  - destruct (block_next_bounds i Hb Hlt) as [H1 H2].
    split; [lia | exact H2].
Qed.

Lemma block_header_inside i :
  block_start p i -> i < size p -> i + 4 <= size p.
Proof.
  intros Hb Hlt.
  destruct (block_start_bounds i Hb) as [_ Hm].
  apply aligned_succ; [exact Hm | exact inv_size_aligned | exact Hlt].
Qed.

(** No block starts inside another block. *)
Lemma block_no_overlap j :
  0 <= j -> block_start p j ->
  forall i, block_start p i -> i < j -> next_block p i <= j.
Proof.
  intros _. pattern j.
  apply (well_founded_induction (Z.lt_wf 0)).
  clear j. intros j IH Hbj i Hbi Hij.
  destruct (block_start_bounds i Hbi) as [[Hi0 _] _].
  inversion Hbj as [E | k Hbk Hk E].
  - lia.
  - destruct (block_next_bounds k Hbk Hk) as [[Hk1 Hk2] _].
    destruct (block_start_bounds k Hbk) as [[Hk0 _] _].
    destruct (Z.lt_trichotomy i k) as [Hlt | [-> | Hgt]].
    + specialize (IH k ltac:(lia) Hbk i Hbi Hlt). lia.
    + lia.
    + specialize (IH i ltac:(lia) Hbi k Hbk Hgt). lia.
Qed.

Lemma block_not_inside i j :
  block_start p i -> i < size p -> block_start p j ->
  j <= i \/ next_block p i <= j.
Proof.
  intros Hbi Hi Hbj.
  destruct (Z.le_gt_cases j i) as [Hle|Hgt]; [left; exact Hle|].
  right. destruct (block_start_bounds j Hbj) as [[Hj0 _] _].
  apply (block_no_overlap j Hj0 Hbj i Hbi Hgt).
Qed.

End Blocks.

Lemma next_block_ext p p' i :
  data p' i = data p i -> data p' (i + 1) = data p (i + 1) ->
  next_block p' i = next_block p i.
Proof. intros H0 H1. unfold next_block. rewrite H0, H1. reflexivity. Qed.

Lemma layout_ext p p' i :
  data p' i = data p i -> data p' (i + 1) = data p (i + 1) ->
  size p <= size p' ->
  clause_layout p i \/ padding_layout p i ->
  clause_layout p' i \/ padding_layout p' i.
Proof.
  intros H0 H1 Hs.
  pose proof (next_block_ext p p' i H0 H1) as Hn.
  unfold clause_layout, padding_layout. rewrite Hn, H0, H1.
  intros [(A & B & C & D) | (A & B & C & D & E)]; [left | right];
    repeat split; try assumption; lia.
Qed.

Lemma next_block_clause p i :
  i mod 4 = 0 -> data p i <> 0 ->
  next_block p i = i + full_length (data p i).
Proof.
  intros Hm Hd. unfold next_block.
  destruct (Z.eqb_spec (data p i) 0); [contradiction|].
  apply next_clause_idx_eq. exact Hm.
Qed.

Lemma next_block_padding p i :
  data p i = 0 -> next_block p i = i + data p (i + 1).
Proof. intros Hd. unfold next_block. rewrite Hd. reflexivity. Qed.

(** *** Initialization *)

Lemma init_block_start mem i :
  block_start (init_clause_pool mem) i -> i = 0.
Proof.
  intros Hb. induction Hb as [|i Hb IH Hlt]; [reflexivity|].
  cbn in Hlt. lia.
Qed.

Lemma init_invariant mem : pool_invariant (init_clause_pool mem).
Proof.
  unfold pool_invariant. cbn.
  split; [unfold DEF_CLAUSE_POOL_CAPACITY; lia|].
  split; [lia|].
  split; [repeat split|].
  split; [split; constructor|].
  intros i Hb Hlt. apply init_block_start in Hb. lia.
Qed.

Lemma reset_block_start p i :
  block_start (reset_clause_pool p) i -> i = 0.
Proof.
  intros Hb. induction Hb as [|i Hb IH Hlt]; [reflexivity|].
  cbn in Hlt. lia.
Qed.

Lemma reset_invariant p :
  pool_invariant p -> pool_invariant (reset_clause_pool p).
Proof.
  intros ((H0 & H1 & H2) & _ & (_ & _ & Hcm) & _).
  unfold pool_invariant. cbn.
  split; [lia|]. split; [lia|].
  split; [repeat split; exact Hcm|].
  split; [split; constructor|].
  intros i Hb Hlt. apply reset_block_start in Hb. lia.
Qed.

(** *** Allocation *)

Lemma alloc_array_spec p n p1 i :
  pool_invariant p -> 0 <= n ->
  clause_pool_alloc_array p (n + 2) = Some (p1, i) ->
  i = size p /\ data p1 = data p /\ learned p1 = learned p /\
  size p1 = size p + full_length n /\
  size p1 <= capacity p1 /\ capacity p1 mod 4 = 0 /\
  available p1 = capacity p1 - size p1.
Proof.
  intros Hinv Hn. unfold clause_pool_alloc_array.
  rewrite round_up_eq.
  destruct Hinv as ((H0 & H1 & H2) & Hav & (_ & Hsm & Hcm) & _).
  destruct (Z.leb_spec (full_length n) (available p)) as [Hle|Hgt].
  - intros [= <- <-]. cbn. repeat split; try assumption; lia.
  - unfold resize_clause_pool.
    destruct (pool_capacity_for 32 (capacity p) (size p + full_length n))
      as [c|] eqn:Hc; [|discriminate].
    apply pool_capacity_for_spec in Hc as (Hc1 & Hc2 & Hc3); [|exact Hcm].
    intros [= <- <-]. cbn. repeat split; try assumption; lia.
Qed.

(** A clause appended at the end of the used part. *)
Lemma extend_invariant p p' aux lits :
  pool_invariant p ->
  (2 <= length lits)%nat ->
  data p' = init_clause (data p) (size p) aux lits ->
  size p' = size p + full_length (Z.of_nat (length lits)) ->
  learned p' = learned p \/ learned p' = size p' ->
  size p' <= capacity p' -> capacity p' mod 4 = 0 ->
  available p' = capacity p' - size p' ->
  pool_invariant p' /\
  (forall i, block_start p i -> block_start p' i) /\
  is_clause p' (size p) /\
  (forall i, block_start p' i ->
     (block_start p i /\ i <= size p) \/ i = size p').
Proof.
  intros Hinv Hlen Hdata Hsize Hlearned Hcap Hcapm Hav.
  set (n := Z.of_nat (length lits)) in *.
  assert (Hn : 2 <= n) by (unfold n; lia).
  pose proof (full_length_bounds n) as [Hfl Hfm].
  pose proof (inv_size_nonneg p Hinv) as Hs0.
  pose proof (inv_size_aligned p Hinv) as Hsm.
  pose proof Hinv as Hinv'.
  destruct Hinv' as ((H0 & H1 & H2) & Hav0 & (Hlm & _ & _) & (Hbl & Hbs) & Hall).
  (* headers below the old size are unchanged *)
  assert (Hold : forall i, block_start p i -> i < size p ->
            data p' i = data p i /\ data p' (i + 1) = data p (i + 1)).
  { intros i Hb Hlt.
    pose proof (block_header_inside p Hinv i Hb Hlt).
    rewrite Hdata. split; apply init_clause_below; lia. }
  assert (Hnew : data p' (size p) = n).
  { rewrite Hdata. apply init_clause_len. }
  assert (Hnext_new : next_block p' (size p) = size p').
  { rewrite next_block_clause by (rewrite ?Hnew; lia || exact Hsm).
    rewrite Hnew. lia. }
  assert (HA : forall i, block_start p i -> block_start p' i).
  { intros i Hb. induction Hb as [|i Hb IH Hlt]; [constructor|].
    destruct (Hold i Hb Hlt) as [E0 E1].
    rewrite <- (next_block_ext p p' i E0 E1).
    constructor; [exact IH | lia]. }
  assert (Hend : block_start p' (size p')).
  { rewrite <- Hnext_new. constructor; [apply HA; exact Hbs | lia]. }
  assert (HB : forall i, block_start p' i ->
            (block_start p i /\ i <= size p) \/ i = size p').
  { intros i Hb. induction Hb as [|i Hb IH Hlt].
    - left. split; [constructor | exact Hs0].
    - destruct IH as [[Hbp Hle] | ->]; [|lia].
      destruct (Z.eq_dec i (size p)) as [->|Hne].
      + right. exact Hnext_new.
      + assert (Hlt' : i < size p) by lia.
        destruct (Hold i Hbp Hlt') as [E0 E1].
        rewrite (next_block_ext p p' i E0 E1).
        left. split; [constructor; assumption|].
        apply (block_next_bounds p Hinv i Hbp Hlt'). }
  split; [|split; [exact HA|split; [|exact HB]]].
  - unfold pool_invariant.
    split; [destruct Hlearned as [-> | ->]; lia|].
    split; [exact Hav|].
    split.
    { split; [|split; [|exact Hcapm]].
      - destruct Hlearned as [-> | ->]; [exact Hlm|].
        rewrite Hsize. apply mod4_add; assumption.
      - rewrite Hsize. apply mod4_add; assumption. }
    split.
    { split; [|exact Hend].
      destruct Hlearned as [-> | ->]; [apply HA; exact Hbl | exact Hend]. }
    intros i Hb Hlt.
    destruct (HB i Hb) as [[Hbp Hle] | ->]; [|lia].
    destruct (Z.eq_dec i (size p)) as [->|Hne].
    + split; [exact Hsm|]. split; [exact Hs0|]. left.
      unfold clause_layout. rewrite Hnext_new, Hnew. repeat split; lia.
    + assert (Hlt' : i < size p) by lia.
      destruct (Hall i Hbp Hlt') as (Hm & Hi0 & Hlay).
      destruct (Hold i Hbp Hlt') as [E0 E1].
      split; [exact Hm|]. split; [exact Hi0|].
      apply (layout_ext p p' i E0 E1); [lia | exact Hlay].
  - split; [apply HA; exact Hbs|]. split; [lia|]. rewrite Hnew. lia.
Qed.

(** *** Deletion and shortening *)

Lemma aligned_ne i j :
  i mod 4 = 0 -> j mod 4 = 0 -> i <> j + 1 /\ i + 1 <> j.
Proof.
  intros Hi Hj.
  pose proof (Z.div_mod i 4 ltac:(lia)).
  pose proof (Z.div_mod j 4 ltac:(lia)). lia.
Qed.

Lemma is_clause_layout p idx :
  pool_invariant p -> is_clause p idx ->
  idx mod 4 = 0 /\ 0 <= idx /\ clause_layout p idx.
Proof.
  intros Hinv (Hb & Hlt & Hd).
  destruct (inv_block p Hinv idx Hb Hlt) as (Hm & H0 & [Hc | Hp]).
  - split; [exact Hm | split; [exact H0 | exact Hc]].
  - destruct Hp as (E & _). contradiction.
Qed.

(** Blocks are transferred back from a pool whose blocks have the same
    successors. *)
Lemma block_start_same_next p p' :
  size p' = size p ->
  (forall i, block_start p i -> i < size p ->
     next_block p' i = next_block p i) ->
  forall i, block_start p i <-> block_start p' i.
Proof.
  intros Hs Hnext i. split; intros Hb.
  - induction Hb as [|i Hb IH Hlt]; [constructor|].
    rewrite <- (Hnext i Hb Hlt). constructor; [exact IH | lia].
  - induction Hb as [|i Hb IH Hlt]; [constructor|].
    rewrite (Hnext i IH) by lia. constructor; [exact IH | lia].
Qed.

Lemma delete_invariant p idx :
  pool_invariant p -> is_clause p idx ->
  let p' := clause_pool_delete_clause p idx in
  pool_invariant p' /\
  (forall i, block_start p i <-> block_start p' i) /\
  is_padding p' idx /\
  data p' (idx + 1) = full_length (data p idx) /\
  next_block p' idx = next_block p idx.
Proof.
  intros Hinv Hcl p'.
  destruct (is_clause_layout p idx Hinv Hcl) as (Hm & H0 & Hlen & Hin & Hnx & Hle).
  destruct Hcl as (Hb & Hlt & Hd).
  pose proof (full_length_bounds (data p idx)) as [Hfl Hfm].
  assert (Hd0 : data p' idx = 0).
  { cbn. rewrite store_ne by lia. apply store_eq. }
  assert (Hd1 : data p' (idx + 1) = full_length (data p idx)).
  { cbn. apply store_eq. }
  assert (Hnx' : next_block p' idx = next_block p idx).
  { rewrite next_block_padding by exact Hd0. rewrite Hd1, Hnx. reflexivity. }
  assert (Hother : forall i, block_start p i -> i <> idx ->
            data p' i = data p i /\ data p' (i + 1) = data p (i + 1)).
  { intros i Hbi Hne.
    destruct (block_start_bounds p Hinv i Hbi) as [_ Hmi].
    destruct (aligned_ne i idx Hmi Hm) as [N1 N2].
    cbn. rewrite !store_ne by lia. split; reflexivity. }
  assert (Hnext : forall i, block_start p i -> i < size p ->
            next_block p' i = next_block p i).
  { intros i Hbi Hi. destruct (Z.eq_dec i idx) as [->|Hne]; [exact Hnx'|].
    destruct (Hother i Hbi Hne) as [E0 E1].
    apply next_block_ext; assumption. }
  pose proof (block_start_same_next p p' eq_refl Hnext) as Hsame.
  pose proof Hinv as Hinv'.
  destruct Hinv' as (Hsz & Hav & Hmods & (Hbl & Hbs) & Hall).
  split; [|split; [exact Hsame|split; [|split; assumption]]].
  - unfold pool_invariant.
    split; [exact Hsz|]. split; [exact Hav|]. split; [exact Hmods|].
    split; [split; apply Hsame; assumption|].
    intros i Hbi Hi. apply Hsame in Hbi.
    destruct (Z.eq_dec i idx) as [->|Hne].
    + split; [exact Hm|]. split; [exact H0|]. right.
      unfold padding_layout. rewrite Hnx', Hd0, Hd1.
      repeat split; try assumption; lia.
    + destruct (Hall i Hbi Hi) as (Hmi & Hi0 & Hlay).
      destruct (Hother i Hbi Hne) as [E0 E1].
      split; [exact Hmi|]. split; [exact Hi0|].
      apply (layout_ext p p' i E0 E1); [cbn; lia | exact Hlay].
  - split; [apply Hsame; exact Hb|]. split; [exact Hlt | exact Hd0].
Qed.

Lemma shrink_invariant p idx n :
  pool_invariant p -> is_clause p idx -> 2 <= n <= data p idx ->
  let p' := clause_pool_shrink_clause p idx n in
  pool_invariant p' /\
  (forall i, block_start p i -> block_start p' i) /\
  is_clause p' idx /\
  data p' idx = n /\
  (full_length n < full_length (data p idx) ->
   is_padding p' (idx + full_length n) /\
   data p' (idx + full_length n + 1) =
     full_length (data p idx) - full_length n) /\
  (forall i, block_start p' i ->
     block_start p i \/
     (i = idx + full_length n /\
      full_length n < full_length (data p idx))).
Proof.
  intros Hinv Hcl Hn p'.
  destruct (is_clause_layout p idx Hinv Hcl) as (Hm & H0 & Hlen & Hin & Hnx & Hle).
  destruct Hcl as (Hb & Hlt & Hd).
  pose proof (full_length_bounds (data p idx)) as [Hfl Hfm].
  pose proof (full_length_bounds n) as [Hnl Hnm].
  pose proof (full_length_mono n (data p idx) ltac:(lia)) as Hmono.
  pose proof Hinv as Hinv'.
  destruct Hinv' as (Hsz & Hav & Hmods & (Hbl & Hbs) & Hall).
  unfold clause_pool_shrink_clause in p'.
  destruct (Z.ltb_spec (full_length n) (full_length (data p idx))) as [Hshort|Hsame].
  - (* a padding block is written in the tail *)
    set (m := idx + full_length n) in *.
    set (k := full_length (data p idx) - full_length n) in *.
    assert (Hmm : m mod 4 = 0) by (apply mod4_add; assumption).
    assert (Hkm : k mod 4 = 0) by (apply mod4_sub; assumption).
    assert (Hk4 : 4 <= k).
    { assert (0 + 4 <= k); [|lia].
      apply aligned_succ; [reflexivity | exact Hkm | unfold k; lia]. }
    destruct (aligned_ne m idx Hmm Hm) as [M1 M2].
    assert (Hdi : data p' idx = n) by (cbn; apply store_eq).
    assert (Hdm : data p' m = 0).
    { cbn. rewrite store_ne by (unfold m; lia).
      rewrite store_ne by lia. apply store_eq. }
    assert (Hdm1 : data p' (m + 1) = k).
    { cbn. rewrite store_ne by (unfold m; lia). apply store_eq. }
    assert (Hni : next_block p' idx = m).
    { rewrite next_block_clause by (rewrite ?Hdi; lia || exact Hm).
      rewrite Hdi. reflexivity. }
    assert (Hnm' : next_block p' m = next_block p idx).
    { rewrite next_block_padding by exact Hdm.
      rewrite Hdm1, Hnx. unfold m, k. lia. }
    assert (Hother : forall i, block_start p i -> i < size p -> i <> idx ->
              data p' i = data p i /\ data p' (i + 1) = data p (i + 1)).
    { intros i Hbi Hi Hne.
      destruct (block_start_bounds p Hinv i Hbi) as [_ Hmi].
      destruct (aligned_ne i idx Hmi Hm) as [N1 N2].
      destruct (aligned_ne i m Hmi Hmm) as [N3 N4].
      assert (i <> m).
      { destruct (block_not_inside p Hinv idx i Hb Hlt Hbi) as [L|R];
          unfold m; lia. }
      cbn. rewrite !store_ne by lia. split; reflexivity. }
    assert (HA : forall i, block_start p i -> block_start p' i).
    { intros i Hbi. induction Hbi as [|i Hbi IH Hi]; [constructor|].
      destruct (Z.eq_dec i idx) as [->|Hne].
      - rewrite <- Hnm'. constructor; [|cbn; unfold m; lia].
        rewrite <- Hni. constructor; [exact IH | exact Hi].
      - destruct (Hother i Hbi Hi Hne) as [E0 E1].
        rewrite <- (next_block_ext p p' i E0 E1).
        constructor; [exact IH | exact Hi]. }
    assert (Hbm : block_start p' m).
    { rewrite <- Hni. constructor; [apply HA; exact Hb | exact Hlt]. }
    assert (HB : forall i, block_start p' i -> block_start p i \/ i = m).
    { intros i Hbi. induction Hbi as [|i Hbi IH Hi]; [left; constructor|].
      cbn in Hi.
      destruct IH as [Hbp | ->].
      - destruct (Z.eq_dec i idx) as [->|Hne]; [right; exact Hni|].
        destruct (Hother i Hbp Hi Hne) as [E0 E1].
        rewrite (next_block_ext p p' i E0 E1).
        left. constructor; assumption.
      - rewrite Hnm'. left. constructor; assumption. }
    split; [|split; [exact HA|split; [|split; [exact Hdi|split]]]].
    + unfold pool_invariant.
      split; [exact Hsz|]. split; [exact Hav|]. split; [exact Hmods|].
      split; [split; apply HA; assumption|].
      intros i Hbi Hi. cbn in Hi.
      destruct (HB i Hbi) as [Hbp | ->].
      * destruct (Z.eq_dec i idx) as [->|Hne].
        -- split; [exact Hm|]. split; [exact H0|]. left.
           unfold clause_layout. rewrite Hni, Hdi.
           repeat split; cbn; unfold m; lia.
        -- destruct (Hall i Hbp Hi) as (Hmi & Hi0 & Hlay).
           destruct (Hother i Hbp Hi Hne) as [E0 E1].
           split; [exact Hmi|]. split; [exact Hi0|].
           apply (layout_ext p p' i E0 E1); [cbn; lia | exact Hlay].
      * split; [exact Hmm|]. split; [unfold m; lia|]. right.
        unfold padding_layout. rewrite Hnm', Hdm, Hdm1.
        repeat split; try assumption. rewrite Hnx. unfold m, k. lia.
    + split; [apply HA; exact Hb|]. split; [exact Hlt|]. rewrite Hdi. lia.
    + intros _. split; [|exact Hdm1].
      split; [exact Hbm|]. split; [cbn; unfold m; lia | exact Hdm].
    + intros i Hbi. destruct (HB i Hbi) as [Hbp | ->];
        [left; exact Hbp | right; split; [reflexivity | exact Hshort]].
  - (* the clause keeps its block *)
    assert (Hfeq : full_length n = full_length (data p idx)) by lia.
    assert (Hdi : data p' idx = n) by (cbn; apply store_eq).
    assert (Hni : next_block p' idx = next_block p idx).
    { rewrite next_block_clause by (rewrite ?Hdi; lia || exact Hm).
      rewrite Hdi, Hnx, Hfeq. reflexivity. }
    assert (Hother : forall i, block_start p i -> i <> idx ->
              data p' i = data p i /\ data p' (i + 1) = data p (i + 1)).
    { intros i Hbi Hne.
      destruct (block_start_bounds p Hinv i Hbi) as [_ Hmi].
      destruct (aligned_ne i idx Hmi Hm) as [N1 N2].
      cbn. rewrite !store_ne by lia. split; reflexivity. }
    assert (Hnext : forall i, block_start p i -> i < size p ->
              next_block p' i = next_block p i).
    { intros i Hbi Hi. destruct (Z.eq_dec i idx) as [->|Hne]; [exact Hni|].
      destruct (Hother i Hbi Hne) as [E0 E1].
      apply next_block_ext; assumption. }
    pose proof (block_start_same_next p p' eq_refl Hnext) as Hsame'.
    split; [|split; [intros i; apply Hsame'|
                     split; [|split; [exact Hdi|split; [lia|]]]]].
    + unfold pool_invariant.
      split; [exact Hsz|]. split; [exact Hav|]. split; [exact Hmods|].
      split; [split; apply Hsame'; assumption|].
      intros i Hbi Hi. apply Hsame' in Hbi. cbn in Hi.
      destruct (Z.eq_dec i idx) as [->|Hne].
      * split; [exact Hm|]. split; [exact H0|]. left.
        unfold clause_layout. rewrite Hni, Hdi.
        repeat split; cbn; lia.
      * destruct (Hall i Hbi Hi) as (Hmi & Hi0 & Hlay).
        destruct (Hother i Hbi Hne) as [E0 E1].
        split; [exact Hmi|]. split; [exact Hi0|].
        apply (layout_ext p p' i E0 E1); [cbn; lia | exact Hlay].
    + split; [apply Hsame'; exact Hb|]. split; [exact Hlt|]. rewrite Hdi. lia.
    + intros i Hbi. left. apply Hsame'. exact Hbi.
Qed.

(** *** Addition of a clause *)

Lemma map_nth_seq (l : list Z) :
  List.map (fun k => nth k l 0) (seq 0 (length l)) = l.
Proof.
  induction l as [|x l IH]; [reflexivity|].
  cbn [length seq List.map nth]. f_equal.
  rewrite <- seq_shift, List.map_map. exact IH.
Qed.

Lemma clause_lits_init p idx lits :
  data p idx = Z.of_nat (length lits) ->
  (forall k : nat, (k < length lits)%nat ->
     data p (idx + 2 + Z.of_nat k) = nth k lits 0) ->
  clause_lits p idx = lits.
Proof.
  intros Hlen Hlits. unfold clause_lits, clause_length, clause_lit.
  rewrite Hlen, Nat2Z.id.
  rewrite <- (map_nth_seq lits) at 2.
  apply List.map_ext_in. intros k Hk.
  apply in_seq in Hk. apply Hlits. lia.
Qed.

Lemma add_problem_clause_added p aux lits p' idx :
  pool_invariant p ->
  clause_pool_add_problem_clause p aux lits = Some (p', idx) ->
  added p aux lits p' idx.
Proof.
  intros Hinv. unfold clause_pool_add_problem_clause.
  destruct (clause_pool_alloc_array p (Z.of_nat (length lits) + 2))
    as [[p1 i]|] eqn:Ha; [|discriminate].
  apply alloc_array_spec in Ha as (-> & E1 & E2 & E3 & E4 & E5 & E6);
    [|exact Hinv|lia].
  intros [= <- <-]. unfold added. cbn. rewrite E1.
  pose proof (full_length_bounds (Z.of_nat (length lits))) as [Hfl _].
  replace (size p1 - full_length (Z.of_nat (length lits))) with (size p) by lia.
  repeat split; try assumption. right. reflexivity.
Qed.

Lemma add_learned_clause_added p aux lits p' idx :
  pool_invariant p ->
  clause_pool_add_learned_clause p aux lits = Some (p', idx) ->
  added p aux lits p' idx.
Proof.
  intros Hinv. unfold clause_pool_add_learned_clause.
  destruct (clause_pool_alloc_array p (Z.of_nat (length lits) + 2))
    as [[p1 i]|] eqn:Ha; [|discriminate].
  apply alloc_array_spec in Ha as (-> & E1 & E2 & E3 & E4 & E5 & E6);
    [|exact Hinv|lia].
  intros [= <- <-]. unfold added. cbn. rewrite E1.
  repeat split; try assumption. left. exact E2.
Qed.

Lemma added_invariant p aux lits p' idx :
  pool_invariant p -> (2 <= length lits)%nat ->
  added p aux lits p' idx ->
  pool_invariant p' /\
  (forall i, block_start p i -> block_start p' i) /\
  (forall j, j < size p -> data p' j = data p j) /\
  size p <= size p' /\
  good_clause_idx p' idx = true /\
  is_clause p' idx /\
  clause_length p' idx = Z.of_nat (length lits) /\
  clause_aux p' idx = aux /\
  clause_lits p' idx = lits /\
  (forall k : nat, (k < length lits)%nat ->
     clause_lit p' idx (Z.of_nat k) = nth k lits 0).
Proof.
  intros Hinv Hlen (-> & Hd & Hs & Hl & Hc & Hcm & Hav).
  destruct (extend_invariant p p' aux lits Hinv Hlen Hd Hs Hl Hc Hcm Hav)
    as (Hinv' & HA & Hcl & _).
  pose proof (full_length_bounds (Z.of_nat (length lits))) as [Hfl _].
  pose proof (inv_size_aligned p Hinv) as Hsm.
  split; [exact Hinv'|]. split; [exact HA|].
  split; [intros j Hj; rewrite Hd; apply init_clause_below; exact Hj|].
  split; [lia|].
  split.
  { unfold good_clause_idx. rewrite land_3_mod4, Hsm. cbn.
    apply Z.ltb_lt. lia. }
  split; [exact Hcl|].
  unfold clause_length, clause_aux. rewrite Hd.
  split; [apply init_clause_len|]. split; [apply init_clause_aux|].
  split.
  - apply clause_lits_init.
    + rewrite Hd. apply init_clause_len.
    + intros k Hk. rewrite Hd. apply init_clause_lit. exact Hk.
  - intros k Hk. unfold clause_lit. rewrite Hd.
    apply init_clause_lit. exact Hk.
Qed.

(** *** The clauses of a pool *)

(** The fields of a clause depend on its words only. *)
Lemma clause_fields_ext p p' i :
  0 <= data p i ->
  (forall j, i <= j < i + 2 + data p i -> data p' j = data p j) ->
  clause_length p' i = clause_length p i /\
  clause_aux p' i = clause_aux p i /\
  clause_lits p' i = clause_lits p i.
Proof.
  intros Hlen H.
  unfold clause_aux, clause_lits, clause_lit, clause_length.
  rewrite (H i) by lia. rewrite (H (i + 1)) by lia.
  split; [reflexivity|]. split; [reflexivity|].
  apply List.map_ext_in. intros k Hk. apply in_seq in Hk. apply H. lia.
Qed.

(** The words of a clause lie in its block, and no other block starts
    there. *)
Lemma clause_words_apart p i j :
  pool_invariant p -> is_clause p i -> block_start p j -> j <> i ->
  j + 4 <= i \/ i + full_length (data p i) <= j.
Proof.
  intros Hinv Hcl Hbj Hne.
  destruct (is_clause_layout p i Hinv Hcl) as (Hm & H0 & _ & _ & Hnx & _).
  destruct Hcl as (Hb & Hlt & Hd).
  destruct (block_start_bounds p Hinv j Hbj) as [_ Hmj].
  destruct (block_not_inside p Hinv i j Hb Hlt Hbj) as [Hle | Hge].
  - left. apply aligned_succ; [exact Hmj | exact Hm | lia].
  - right. rewrite <- Hnx. exact Hge.
Qed.

Lemma good_clause_idx_intro p i :
  i mod 4 = 0 -> i < size p -> good_clause_idx p i = true.
Proof.
  intros Hm Hlt. unfold good_clause_idx. rewrite land_3_mod4, Hm. cbn.
  apply Z.ltb_lt. exact Hlt.
Qed.

Lemma added_clauses p aux lits p' idx :
  pool_invariant p -> (2 <= length lits)%nat ->
  added p aux lits p' idx ->
  (forall i, is_clause p' i <-> is_clause p i \/ i = idx) /\
  (forall i, is_clause p i ->
     i <> idx /\
     clause_length p' i = clause_length p i /\
     clause_aux p' i = clause_aux p i /\
     clause_lits p' i = clause_lits p i).
Proof.
  intros Hinv Hlen Hadd.
  destruct (added_invariant p aux lits p' idx Hinv Hlen Hadd)
    as (Hinv' & HA & Hsame & Hsz & _ & Hcl & _).
  destruct Hadd as (-> & Hd & Hs & Hl & Hc & Hcm & Hav).
  destruct (extend_invariant p p' aux lits Hinv Hlen Hd Hs Hl Hc Hcm Hav)
    as (_ & _ & _ & HB).
  split.
  - intros i. split.
    + intros (Hb & Hlt & Hne).
      destruct (HB i Hb) as [[Hbp Hle] | ->]; [|lia].
      destruct (Z.eq_dec i (size p)) as [->|Hn]; [right; reflexivity|].
      left. split; [exact Hbp|]. split; [lia|].
      rewrite <- Hsame by lia. exact Hne.
    + intros [(Hb & Hlt & Hne) | ->]; [|exact Hcl].
      split; [apply HA; exact Hb|]. split; [lia|].
      rewrite Hsame by lia. exact Hne.
  - intros i Hcli.
    destruct (is_clause_layout p i Hinv Hcli) as (_ & _ & Hlen2 & Hin & _).
    destruct Hcli as (_ & Hlt & _).
    split; [lia|].
    apply clause_fields_ext; [lia|].
    intros j Hj. apply Hsame. lia.
Qed.

Lemma delete_clauses p idx :
  pool_invariant p -> is_clause p idx ->
  let p' := clause_pool_delete_clause p idx in
  (forall j, j <> idx -> j <> idx + 1 -> data p' j = data p j) /\
  (forall i, is_clause p' i <-> is_clause p i /\ i <> idx) /\
  (forall i, is_clause p i -> i <> idx ->
     clause_length p' i = clause_length p i /\
     clause_aux p' i = clause_aux p i /\
     clause_lits p' i = clause_lits p i).
Proof.
  intros Hinv Hcl p'.
  destruct (delete_invariant p idx Hinv Hcl) as (_ & Hsame & Hpad & _).
  destruct (is_clause_layout p idx Hinv Hcl) as (Hm & _ & Hlen & _).
  pose proof (full_length_bounds (data p idx)) as [Hfl _].
  assert (Hdata : forall j, j <> idx -> j <> idx + 1 -> data p' j = data p j).
  { intros j H1 H2. cbn. rewrite !store_ne by lia. reflexivity. }
  assert (Hhead : forall i, block_start p i -> i <> idx ->
            data p' i = data p i).
  { intros i Hb Hne. apply Hdata; [exact Hne|].
    destruct (block_start_bounds p Hinv i Hb) as [_ Hmi].
    apply (aligned_ne i idx Hmi Hm). }
  split; [exact Hdata|]. split.
  - intros i. split.
    + intros (Hb & Hlt & Hne).
      assert (Hni : i <> idx).
      { intros ->. destruct Hpad as (_ & _ & E). contradiction. }
      apply Hsame in Hb.
      split; [|exact Hni]. split; [exact Hb|]. split; [exact Hlt|].
      rewrite <- (Hhead i Hb Hni). exact Hne.
    + intros [(Hb & Hlt & Hne) Hni].
      split; [apply Hsame; exact Hb|]. split; [exact Hlt|].
      rewrite (Hhead i Hb Hni). exact Hne.
  - intros i Hcli Hni.
    destruct (is_clause_layout p i Hinv Hcli) as (_ & _ & Hlen2 & _).
    pose proof (full_length_bounds (data p i)) as [Hfi _].
    destruct Hcl as (Hb & _).
    destruct (clause_words_apart p i idx Hinv Hcli Hb ltac:(congruence))
      as [Hlo | Hhi].
    + apply clause_fields_ext; [lia|]. intros j Hj. apply Hdata; lia.
    + apply clause_fields_ext; [lia|]. intros j Hj. apply Hdata; lia.
Qed.

Lemma take_map_seq (f : nat -> Z) (n len : nat) :
  (n <= len)%nat ->
  take n (List.map f (seq 0 len)) = List.map f (seq 0 n).
Proof.
  intros Hn. rewrite firstn_map. f_equal. rewrite take_seq.
  f_equal. lia.
Qed.

Lemma shrink_clauses p idx n :
  pool_invariant p -> is_clause p idx -> 2 <= n <= data p idx ->
  let p' := clause_pool_shrink_clause p idx n in
  (forall j, j <> idx ->
     j < idx + full_length n \/ idx + full_length (data p idx) <= j ->
     data p' j = data p j) /\
  (full_length n = full_length (data p idx) ->
   (forall j, j <> idx -> data p' j = data p j) /\
   (forall i, block_start p' i <-> block_start p i)) /\
  (forall i, is_clause p' i <-> is_clause p i) /\
  (forall i, is_clause p i -> i <> idx ->
     clause_length p' i = clause_length p i /\
     clause_aux p' i = clause_aux p i /\
     clause_lits p' i = clause_lits p i) /\
  clause_aux p' idx = clause_aux p idx /\
  clause_lits p' idx = take (Z.to_nat n) (clause_lits p idx).
Proof.
  intros Hinv Hcl Hn p'.
  destruct (shrink_invariant p idx n Hinv Hcl Hn)
    as (Hinv' & HA & Hcl' & Hdi & Hpad & HB).
  destruct (is_clause_layout p idx Hinv Hcl) as (Hm & H0 & Hlen & _ & Hnx & _).
  pose proof (full_length_bounds (data p idx)) as [Hfl Hfm].
  pose proof (full_length_bounds n) as [Hnl Hnm].
  pose proof (full_length_mono n (data p idx) ltac:(lia)) as Hmono.
  assert (Hgap : full_length n < full_length (data p idx) ->
            full_length n + 4 <= full_length (data p idx)).
  { intros Hlt. apply aligned_succ; assumption. }
  assert (Hdata : forall j, j <> idx ->
            j < idx + full_length n \/ idx + full_length (data p idx) <= j ->
            data p' j = data p j).
  { intros j Hj Hout. unfold p', clause_pool_shrink_clause.
    destruct (Z.ltb_spec (full_length n) (full_length (data p idx))) as [Hlt|];
      [specialize (Hgap Hlt)|];
      cbn; rewrite !store_ne by lia; reflexivity. }
  assert (Hsame : full_length n = full_length (data p idx) ->
            forall j, j <> idx -> data p' j = data p j).
  { intros E j Hj. unfold p', clause_pool_shrink_clause.
    destruct (Z.ltb_spec (full_length n) (full_length (data p idx))); [lia|].
    cbn. rewrite store_ne by lia. reflexivity. }
  assert (Hhead : forall i, block_start p i -> i <> idx ->
            data p' i = data p i).
  { intros i Hb Hne. apply Hdata; [exact Hne|].
    destruct (clause_words_apart p idx i Hinv Hcl Hb Hne) as [Hlo | Hhi];
      [left; lia | right; exact Hhi]. }
  assert (Hsz : size p' = size p).
  { unfold p', clause_pool_shrink_clause.
    destruct (full_length n <? full_length (data p idx)); reflexivity. }
  split; [exact Hdata|]. split; [|split; [|split; [|split]]].
  - intros E. split; [apply Hsame; exact E|].
    intros i. split; [|apply HA].
    intros Hb. destruct (HB i Hb) as [Hbp | [_ Hlt]]; [exact Hbp | lia].
  - intros i. split.
    + intros (Hb & Hlt & Hne).
      destruct (HB i Hb) as [Hbp | [-> Hshort]].
      * destruct (Z.eq_dec i idx) as [->|Hni]; [exact Hcl|].
        split; [exact Hbp|]. split; [rewrite <- Hsz; exact Hlt|].
        rewrite <- (Hhead i Hbp Hni). exact Hne.
      * destruct (Hpad Hshort) as [(_ & _ & E) _]. contradiction.
    + intros Hcli.
      destruct (Z.eq_dec i idx) as [->|Hni]; [exact Hcl'|].
      destruct Hcli as (Hb & Hlt & Hne).
      split; [apply HA; exact Hb|]. split; [rewrite Hsz; exact Hlt|].
      rewrite (Hhead i Hb Hni). exact Hne.
  - intros i Hcli Hni.
    destruct (is_clause_layout p i Hinv Hcli) as (_ & _ & Hlen2 & _).
    pose proof (full_length_bounds (data p i)) as [Hfi _].
    pose proof (clause_words_apart p i idx Hinv Hcli (proj1 Hcl)
                  ltac:(congruence)) as Hi.
    pose proof (clause_words_apart p idx i Hinv Hcl (proj1 Hcli) Hni) as Hx.
    apply clause_fields_ext; [lia|]. intros j Hj. apply Hdata; lia.
  - unfold clause_aux. apply Hdata; lia.
  - fold p' in Hdi. unfold clause_lits, clause_length. rewrite Hdi.
    rewrite take_map_seq by lia.
    apply List.map_ext_in. intros k Hk. apply in_seq in Hk.
    unfold clause_lit. apply Hdata; lia.
Qed.

(** *** Writes to the literals of a clause *)

Lemma nth_map_seq (f : nat -> Z) (n k : nat) (d : Z) :
  (k < n)%nat -> nth k (List.map f (seq 0 n)) d = f k.
Proof.
  intros Hk.
  rewrite (nth_indep _ d (f 0%nat)) by (rewrite length_map, length_seq; lia).
  rewrite map_nth, seq_nth by lia. reflexivity.
Qed.

Lemma clause_lit_nth p i k :
  0 <= k < clause_length p i ->
  nth (Z.to_nat k) (clause_lits p i) 0 = clause_lit p i k.
Proof.
  intros Hk. unfold clause_lits. rewrite nth_map_seq by lia.
  rewrite Z2Nat.id by lia. reflexivity.
Qed.

Lemma clause_lits_length p i :
  length (clause_lits p i) = Z.to_nat (clause_length p i).
Proof. unfold clause_lits. rewrite length_map, length_seq. reflexivity. Qed.

Lemma clause_lit_in p i k :
  0 <= k < clause_length p i -> In (clause_lit p i k) (clause_lits p i).
Proof.
  intros Hk. rewrite <- clause_lit_nth by exact Hk.
  apply nth_In. rewrite clause_lits_length. lia.
Qed.

Lemma in_clause_lits p i l :
  In l (clause_lits p i) ->
  exists k, 0 <= k < clause_length p i /\ clause_lit p i k = l.
Proof.
  unfold clause_lits. intros Hin. apply in_map_iff in Hin as (k & E & Hk).
  apply in_seq in Hk. exists (Z.of_nat k). split; [lia | exact E].
Qed.

(** Clauses with the same length and the same literals have the same
    literal at each position. *)
Lemma clause_lit_same p p' i i' k :
  clause_length p' i' = clause_length p i ->
  clause_lits p' i' = clause_lits p i ->
  0 <= k < clause_length p i ->
  clause_lit p' i' k = clause_lit p i k.
Proof.
  intros Hlen Hlits Hk.
  rewrite <- (clause_lit_nth p i k Hk).
  rewrite <- (clause_lit_nth p' i' k) by (rewrite Hlen; exact Hk).
  rewrite Hlits. reflexivity.
Qed.

(** Writes to the literals of the clause at [cidx] leave the blocks and
    the other clauses as they are. *)
Lemma literal_writes p p' cidx :
  pool_invariant p -> is_clause p cidx ->
  learned p' = learned p -> size p' = size p ->
  capacity p' = capacity p -> available p' = available p ->
  (forall j, j < cidx + 2 \/ cidx + 2 + data p cidx <= j ->
     data p' j = data p j) ->
  pool_invariant p' /\
  (forall i, block_start p i <-> block_start p' i) /\
  (forall i, is_clause p' i <-> is_clause p i) /\
  (forall i, is_clause p i -> i <> cidx ->
     clause_length p' i = clause_length p i /\
     clause_aux p' i = clause_aux p i /\
     clause_lits p' i = clause_lits p i) /\
  data p' cidx = data p cidx /\
  data p' (cidx + 1) = data p (cidx + 1).
Proof.
  intros Hinv Hcl Hl Hs Hc Ha Hdata.
  destruct (is_clause_layout p cidx Hinv Hcl) as (Hm & H0 & Hlen & _).
  pose proof (full_length_bounds (data p cidx)) as [Hfl _].
  assert (Hhead : forall i, block_start p i ->
            data p' i = data p i /\ data p' (i + 1) = data p (i + 1)).
  { intros i Hb. destruct (Z.eq_dec i cidx) as [->|Hne].
    - split; apply Hdata; lia.
    - destruct (clause_words_apart p cidx i Hinv Hcl Hb Hne) as [Hlo | Hhi];
        split; apply Hdata; lia. }
  assert (Hnext : forall i, block_start p i -> i < size p ->
            next_block p' i = next_block p i).
  { intros i Hb _. destruct (Hhead i Hb) as [E0 E1].
    apply next_block_ext; assumption. }
  pose proof (block_start_same_next p p' Hs Hnext) as Hsame.
  pose proof Hinv as Hinv'.
  destruct Hinv' as (Hsz & Hav & Hmods & (Hbl & Hbs) & Hall).
  split; [|split; [exact Hsame|split; [|split]]].
  - unfold pool_invariant. rewrite Hl, Hs, Hc, Ha.
    split; [exact Hsz|]. split; [exact Hav|]. split; [exact Hmods|].
    split; [split; apply Hsame; assumption|].
    intros i Hbi Hi. apply Hsame in Hbi.
    destruct (Hall i Hbi Hi) as (Hmi & Hi0 & Hlay).
    destruct (Hhead i Hbi) as [E0 E1].
    split; [exact Hmi|]. split; [exact Hi0|].
    apply (layout_ext p p' i E0 E1); [lia | exact Hlay].
  - intros i. unfold is_clause. rewrite Hs. split.
    + intros (Hb & Hlt & Hne). apply Hsame in Hb.
      destruct (Hhead i Hb) as [E0 _]. rewrite <- E0. auto.
    + intros (Hb & Hlt & Hne).
      destruct (Hhead i Hb) as [E0 _]. rewrite E0.
      split; [apply Hsame; exact Hb | auto].
  - intros i Hcli Hni.
    destruct (is_clause_layout p i Hinv Hcli) as (_ & _ & Hlen2 & _).
    pose proof (full_length_bounds (data p i)) as [Hfi _].
    pose proof (clause_words_apart p i cidx Hinv Hcli (proj1 Hcl)
                  ltac:(congruence)) as Hi.
    pose proof (clause_words_apart p cidx i Hinv Hcl (proj1 Hcli) Hni) as Hx.
    apply clause_fields_ext; [lia|]. intros j Hj. apply Hdata; lia.
  - apply (Hhead cidx (proj1 Hcl)).
Qed.

Lemma is_clause_aligned p cidx :
  pool_invariant p -> is_clause p cidx -> Z.land cidx 3 = 0.
Proof.
  intros Hinv Hcl.
  destruct (is_clause_layout p cidx Hinv Hcl) as (Hm & _).
  rewrite land_3_mod4. exact Hm.
Qed.

(** *** Reachable pools *)



Lemma holds_idx_clause p cs c :
  pool_holds p cs -> In c cs -> is_clause p (entry_idx c).
Proof.
  intros (_ & Hcl & _) Hin. apply Hcl. apply in_map. exact Hin.
Qed.
















End ClausePoolFacts.

(** ** Watch vectors *)

Module SatSolverFacts.

Import Literal ClausePool SatSolver ClausePoolFacts.

Lemma max_variables_eq : MAX_VARIABLES = 2 ^ 30 - 1.
Proof. reflexivity. Qed.

Lemma binary_record_eq l : 0 <= l < 2 ^ 31 -> binary_record l = 2 * l + 1.
Proof.
  intros H. unfold binary_record.
  rewrite shiftl1_double, uint32_id by (unfold is_uint32; lia).
  apply lor_double_1.
Qed.

Lemma binary_record_spec l :
  0 <= l < 2 ^ 31 ->
  Z.land (binary_record l) 1 = 1 /\
  is_binary_record (binary_record l) = true /\
  record_literal (binary_record l) = l.
Proof.
  intros H. unfold is_binary_record, record_literal.
  rewrite (binary_record_eq l H), land_1_mod2, shiftr1_half.
  replace ((2 * l + 1) mod 2) with 1
    by (rewrite Z.mul_comm, Z.add_comm, Z.mod_add by lia; reflexivity).
  repeat split.
  rewrite Z.mul_comm, Z.div_add_l by lia. change (1 / 2) with 0. lia.
Qed.

Lemma clause_record_spec cidx :
  Z.land cidx 3 = 0 -> is_binary_record (clause_record cidx) = false.
Proof.
  intros H. unfold is_binary_record, clause_record.
  rewrite land_3_mod4 in H. rewrite land_1_mod2.
  pose proof (Z.div_mod cidx 4 ltac:(lia)) as Hd.
  replace cidx with (0 + (2 * (cidx / 4)) * 2) by lia.
  rewrite Z.mod_add by lia. reflexivity.
Qed.


Lemma in_add_watch w l k l' r :
  In r (add_watch w l k l') <-> In r (w l') \/ (l' = l /\ r = k).
Proof.
  unfold add_watch. destruct (Z.eqb_spec l' l) as [->|Hne].
  - rewrite in_app_iff. cbn. intuition.
  - intuition.
Qed.

Lemma good_literal_bound s l :
  solver_invariant s -> good_literal s l -> 0 <= l < 2 ^ 31.
Proof.
  intros (_ & ((Hv1 & Hv2) & Hn) & _) Hl. unfold good_literal in Hl.
  rewrite max_variables_eq in Hv2. lia.
Qed.

(** *** Records of a watch vector *)

Lemma in_remove_record k v r : In r (remove_record k v) -> In r v.
Proof.
  induction v as [|x v IH]; cbn; [tauto|].
  destruct (Z.eqb_spec x k); cbn; intuition.
Qed.

Lemma count_remove_record k v r :
  count_occ Z.eq_dec (remove_record k v) r =
  if r =? k then Nat.pred (count_occ Z.eq_dec v k)
  else count_occ Z.eq_dec v r.
Proof.
  induction v as [|x v IH].
  - cbn. destruct (r =? k); reflexivity.
  - cbn [remove_record]. destruct (Z.eqb_spec x k) as [Ex|Hx].
    + rewrite (count_occ_cons_eq Z.eq_dec v Ex).
      destruct (Z.eqb_spec r k) as [Er|Hr]; [rewrite Er; reflexivity|].
      rewrite count_occ_cons_neq by congruence. reflexivity.
    + rewrite (count_occ_cons_neq Z.eq_dec v Hx).
      destruct (Z.eq_dec x r) as [Exr|Hxr].
      * rewrite !(count_occ_cons_eq Z.eq_dec _ Exr), IH.
        destruct (Z.eqb_spec r k); [congruence | reflexivity].
      * rewrite !(count_occ_cons_neq Z.eq_dec _ Hxr), IH.
        reflexivity.
Qed.

Lemma count_add_watch w l k l' r :
  count_occ Z.eq_dec (add_watch w l k l') r =
  (count_occ Z.eq_dec (w l') r +
   (if Z.eqb l' l && Z.eqb k r then 1 else 0))%nat.
Proof.
  unfold add_watch. destruct (Z.eqb_spec l' l) as [->|Hl]; cbn [andb].
  - rewrite count_occ_app. cbn.
    destruct (Z.eq_dec k r) as [->|Hk].
    + rewrite Z.eqb_refl. reflexivity.
    + destruct (Z.eqb_spec k r); [contradiction | reflexivity].
  - lia.
Qed.

Lemma count_remove_watch w l k l' r :
  count_occ Z.eq_dec (remove_watch w l k l') r =
  if (l' =? l) && (r =? k) then Nat.pred (count_occ Z.eq_dec (w l') r)
  else count_occ Z.eq_dec (w l') r.
Proof.
  unfold remove_watch. destruct (Z.eqb_spec l' l) as [->|Hl]; cbn [andb].
  - rewrite count_remove_record.
    destruct (Z.eqb_spec r k) as [->|]; reflexivity.
  - reflexivity.
Qed.

Lemma count_pos_in (v : list Z) r :
  In r v <-> (0 < count_occ Z.eq_dec v r)%nat.
Proof. apply count_occ_In. Qed.

Lemma binary_ne_clause l cidx :
  0 <= l < 2 ^ 31 -> Z.land cidx 3 = 0 -> binary_record l <> cidx.
Proof.
  intros Hl Hc E.
  destruct (binary_record_spec l Hl) as (_ & B & _).
  pose proof (clause_record_spec cidx Hc) as C.
  unfold clause_record in C. rewrite E in B. congruence.
Qed.

Lemma watched_slots_pos p cidx l :
  (0 < watched_slots p cidx l)%nat ->
  clause_lit p cidx 0 = l \/ clause_lit p cidx 1 = l.
Proof.
  unfold watched_slots.
  destruct (Z.eqb_spec (clause_lit p cidx 0) l); [left; assumption|].
  destruct (Z.eqb_spec (clause_lit p cidx 1) l); [right; assumption|].
  cbn. lia.
Qed.

Lemma watched_slots_same p p' i i' l :
  clause_length p' i' = clause_length p i ->
  clause_lits p' i' = clause_lits p i ->
  2 <= clause_length p i ->
  watched_slots p' i' l = watched_slots p i l.
Proof.
  intros Hlen Hlits H2. unfold watched_slots.
  rewrite (clause_lit_same p p' i i' 0 Hlen Hlits) by lia.
  rewrite (clause_lit_same p p' i i' 1 Hlen Hlits) by lia.
  reflexivity.
Qed.

(** *** Preservation of the invariant *)

(** A state that differs from [s] in the clause at [cidx] and in the
    records for this clause. *)
Lemma clause_update_invariant s s' cidx :
  solver_invariant s -> is_clause (pool s) cidx ->
  nvars s' = nvars s -> nliterals s' = nliterals s ->
  pool_invariant (pool s') ->
  (forall i, i <> cidx ->
     (is_clause (pool s') i <-> is_clause (pool s) i)) ->
  (forall i, i <> cidx -> is_clause (pool s) i ->
     clause_length (pool s') i = clause_length (pool s) i /\
     clause_lits (pool s') i = clause_lits (pool s) i) ->
  (forall l r, r <> cidx ->
     count_occ Z.eq_dec (watch s' l) r = count_occ Z.eq_dec (watch s l) r) ->
  ((~ is_clause (pool s') cidx /\
    forall l, count_occ Z.eq_dec (watch s' l) cidx = 0%nat) \/
   (is_clause (pool s') cidx /\
    3 <= clause_length (pool s') cidx /\
    (forall k, 0 <= k < clause_length (pool s') cidx ->
       good_literal s (clause_lit (pool s') cidx k)) /\
    forall l, (count_occ Z.eq_dec (watch s' l) cidx <=
               watched_slots (pool s') cidx l)%nat)) ->
  solver_invariant s'.
Proof.
  intros Hinv Hcl Hnv Hnl Hp' Hiff Hsame Hcount Hc.
  pose proof Hinv as (Hp & Hvars & Hw & Hlits & Hslots).
  pose proof (is_clause_aligned (pool s) cidx Hp Hcl) as Hal.
  assert (Hgood : forall l, good_literal s l -> good_literal s' l).
  { intros l. unfold good_literal. rewrite Hnl. auto. }
  assert (Hin : forall l r, r <> cidx ->
            (In r (watch s' l) <-> In r (watch s l))).
  { intros l r Hr. rewrite !count_pos_in, (Hcount l r Hr). reflexivity. }
  unfold solver_invariant.
  split; [exact Hp'|]. split; [rewrite Hnv, Hnl; exact Hvars|].
  split; [|split].
  - intros l r Hr. destruct (Z.eq_dec r cidx) as [->|Hne].
    + destruct Hc as [[_ H0] | (Hc1 & Hc3 & Hcg & Hcs)].
      { apply count_pos_in in Hr. rewrite H0 in Hr. lia. }
      apply count_pos_in in Hr.
      assert (Hsl : (0 < watched_slots (pool s') cidx l)%nat)
        by (specialize (Hcs l); lia).
      apply watched_slots_pos in Hsl.
      split.
      * apply Hgood. destruct Hsl as [<- | <-]; apply Hcg; lia.
      * left. split; [|apply clause_record_spec; exact Hal].
        split; [exact Hal|]. split; [exact Hc1|].
        split; [exact Hc3 | exact Hsl].
    + apply (Hin l r Hne) in Hr.
      destruct (Hw l r Hr) as [Hg Hd]. split; [apply Hgood; exact Hg|].
      destruct Hd as [[(Hd3 & Hdc & Hdl & Hdw) Hb] | [Hd Hb]];
        [left | right]; (split; [|exact Hb]).
      * destruct (Hsame r Hne Hdc) as [E1 E2].
        split; [exact Hd3|]. split; [apply (Hiff r Hne); exact Hdc|].
        split; [rewrite E1; exact Hdl|].
        rewrite (clause_lit_same (pool s) (pool s') r r 0 E1 E2) by lia.
        rewrite (clause_lit_same (pool s) (pool s') r r 1 E1 E2) by lia.
        exact Hdw.
      * destruct Hd as (H1 & o & Ho & Hro & Hrec & Hino).
        split; [exact H1|]. exists o.
        split; [apply Hgood; exact Ho|]. split; [exact Hro|].
        split; [exact Hrec|].
        apply Hin; [|exact Hino].
        apply binary_ne_clause; [|exact Hal].
        apply (good_literal_bound s l Hinv Hg).
  - intros i Hi. destruct (Z.eq_dec i cidx) as [->|Hne].
    + destruct Hc as [[Hn _] | (_ & Hc3 & Hcg & _)]; [contradiction|].
      split; [exact Hc3|]. intros k Hk. apply Hgood. apply Hcg. exact Hk.
    + apply (Hiff i Hne) in Hi.
      destruct (Hsame i Hne Hi) as [E1 E2].
      destruct (Hlits i Hi) as [H3 Hg].
      rewrite E1. split; [exact H3|]. intros k Hk.
      rewrite (clause_lit_same (pool s) (pool s') i i k E1 E2 Hk).
      apply Hgood. apply Hg. exact Hk.
  - intros l i Hi. destruct (Z.eq_dec i cidx) as [->|Hne].
    + destruct Hc as [[Hn _] | (_ & _ & _ & Hcs)]; [contradiction|].
      apply Hcs.
    + apply (Hiff i Hne) in Hi.
      destruct (Hsame i Hne Hi) as [E1 E2].
      destruct (Hlits i Hi) as [H3 _].
      rewrite (Hcount l i Hne).
      rewrite (watched_slots_same (pool s) (pool s') i i l E1 E2) by lia.
      apply Hslots. exact Hi.
Qed.

Lemma init_no_clause mem c : ~ is_clause (init_clause_pool mem) c.
Proof.
  intros (Hb & Hlt & _). apply init_block_start in Hb. cbn in Hlt. lia.
Qed.

Lemma init_solver_invariant mem : solver_invariant (init_nsat_solver mem).
Proof.
  unfold solver_invariant. cbn.
  split; [apply init_invariant|].
  split; [rewrite max_variables_eq; lia|].
  split; [intros l r []|].
  split; [intros c Hc | intros l c Hc]; destruct (init_no_clause _ _ Hc).
Qed.

Lemma reset_no_clause p c : ~ is_clause (reset_clause_pool p) c.
Proof.
  intros (Hb & Hlt & _). apply reset_block_start in Hb. cbn in Hlt. lia.
Qed.

Lemma reset_solver_invariant s :
  solver_invariant s -> solver_invariant (reset_nsat_solver s).
Proof.
  intros (Hp & _). unfold solver_invariant. cbn.
  split; [apply reset_invariant; exact Hp|].
  split; [rewrite max_variables_eq; lia|].
  split; [intros l r []|].
  split; [intros c Hc | intros l c Hc]; destruct (reset_no_clause _ _ Hc).
Qed.

Lemma denotes_binary_mono s s' l r :
  nliterals s <= nliterals s' ->
  (forall l' r', In r' (watch s l') -> In r' (watch s' l')) ->
  denotes_binary s l r -> denotes_binary s' l r.
Proof.
  intros Hn Hw (H1 & o & Ho & Hr & Hrec & Hin).
  split; [exact H1|]. exists o.
  split; [unfold good_literal in *; lia|].
  split; [exact Hr|]. split; [exact Hrec|]. apply Hw. exact Hin.
Qed.

Lemma add_vars_invariant s n s' :
  solver_invariant s -> 0 <= n ->
  nsat_solver_add_vars s n = Some s' -> solver_invariant s'.
Proof.
  intros (Hp & ((Hv1 & Hv2) & Hn) & Hw & Hlits & Hslots) Hn0.
  unfold nsat_solver_add_vars.
  destruct (Z.leb_spec (nvars s + n) MAX_VARIABLES) as [Hle|]; [|discriminate].
  intros [= <-]. unfold solver_invariant. cbn.
  split; [exact Hp|]. split; [lia|]. split; [|split; [|exact Hslots]].
  - intros l r Hin. destruct (Hw l r Hin) as [Hg Hd].
    split; [unfold good_literal in *; cbn; lia|].
    destruct Hd as [[Hc Hb] | [Hc Hb]]; [left | right]; (split; [|exact Hb]).
    + exact Hc.
    + eapply denotes_binary_mono; [| |exact Hc]; cbn; [lia | auto].
  - intros c Hc. destruct (Hlits c Hc) as [H3 Hg].
    split; [exact H3|]. intros k Hk. specialize (Hg k Hk).
    unfold good_literal in *. cbn. lia.
Qed.

Lemma add_binary_invariant s l1 l2 :
  solver_invariant s -> good_literal s l1 -> good_literal s l2 ->
  solver_invariant (nsat_solver_add_binary_clause s l1 l2).
Proof.
  intros Hinv Hl1 Hl2.
  pose proof (good_literal_bound s l1 Hinv Hl1) as Hb1.
  pose proof (good_literal_bound s l2 Hinv Hl2) as Hb2.
  destruct Hinv as (Hp & Hvars & Hw & Hlits & Hslots).
  set (s' := nsat_solver_add_binary_clause s l1 l2).
  assert (Hmono : forall l r, In r (watch s l) -> In r (watch s' l)).
  { intros l r Hin. cbn. apply in_add_watch. left.
    apply in_add_watch. left. exact Hin. }
  assert (Hin1 : In (binary_record l2) (watch s' l1)).
  { cbn. apply in_add_watch.
    destruct (Z.eq_dec l1 l2) as [E|E].
    - right. split; [exact E | rewrite E; reflexivity].
    - left. apply in_add_watch. right. split; reflexivity. }
  assert (Hin2 : In (binary_record l1) (watch s' l2)).
  { cbn. apply in_add_watch. right. split; reflexivity. }
  unfold solver_invariant.
  split; [exact Hp|]. split; [exact Hvars|]. split; [|split; [exact Hlits|]].
  - intros l r Hin. cbn in Hin.
    apply in_add_watch in Hin as [Hin | [-> ->]].
    + apply in_add_watch in Hin as [Hin | [-> ->]].
      * destruct (Hw l r Hin) as [Hg Hd]. split; [exact Hg|].
        destruct Hd as [[Hc Hb] | [Hc Hb]]; [left | right];
          (split; [|exact Hb]).
        -- exact Hc.
        -- eapply denotes_binary_mono; [| exact Hmono | exact Hc]. cbn. lia.
      * split; [exact Hl1|]. right.
        destruct (binary_record_spec l2 Hb2) as (B1 & B2 & B3).
        split; [|exact B2]. split; [exact B1|]. exists l2.
        split; [exact Hl2|]. split; [reflexivity|].
        split; [exact B3 | exact Hin2].
    + split; [exact Hl2|]. right.
      destruct (binary_record_spec l1 Hb1) as (B1 & B2 & B3).
      split; [|exact B2]. split; [exact B1|]. exists l1.
      split; [exact Hl1|]. split; [reflexivity|].
      split; [exact B3 | exact Hin1].
  - intros l c Hc. cbn [watch pool s' nsat_solver_add_binary_clause].
    pose proof (is_clause_aligned (pool s) c Hp Hc) as Hal.
    rewrite !count_add_watch.
    destruct (Z.eqb_spec (binary_record l1) c) as [E|_];
      [destruct (binary_ne_clause l1 c Hb1 Hal E)|].
    destruct (Z.eqb_spec (binary_record l2) c) as [E|_];
      [destruct (binary_ne_clause l2 c Hb2 Hal E)|].
    rewrite !andb_false_r. specialize (Hslots l c Hc). lia.
Qed.

Lemma denotes_clause_added s p' l r aux lits idx :
  pool_invariant (pool s) -> (2 <= length lits)%nat ->
  added (pool s) aux lits p' idx ->
  denotes_clause s l r ->
  Z.land r 3 = 0 /\ is_clause p' r /\ 3 <= clause_length p' r /\
  (clause_lit p' r 0 = l \/ clause_lit p' r 1 = l).
Proof.
  intros Hinv Hlen Hadd (H3 & Hcl & Hl3 & Hlit).
  destruct (added_invariant (pool s) aux lits p' idx Hinv Hlen Hadd)
    as (_ & HA & Hsame & Hsz & _).
  destruct (is_clause_layout (pool s) r Hinv Hcl) as (Hm & H0 & _ & Hin & _).
  destruct Hcl as (Hb & Hlt & Hd).
  unfold clause_length, clause_lit in *.
  rewrite !Hsame by lia.
  split; [exact H3|]. split; [|split; [exact Hl3 | exact Hlit]].
  split; [apply HA; exact Hb|].
  split; [lia | rewrite Hsame by lia; exact Hd].
Qed.

Lemma add_large_clause_invariant s is_learned aux lits s' :
  solver_invariant s ->
  (3 <= length lits)%nat ->
  Forall (good_literal s) lits ->
  add_large_clause s is_learned aux lits = Some s' ->
  solver_invariant s'.
Proof.
  intros Hinv Hlen Hgood.
  pose proof Hinv as (Hp & Hvars & Hw & Hlits & Hslots).
  unfold add_large_clause.
  destruct lits as [|l1 [|l2 rest]]; try (cbn in Hlen; lia).
  set (lits := l1 :: l2 :: rest) in *.
  destruct (if is_learned
            then clause_pool_add_learned_clause (pool s) aux lits
            else clause_pool_add_problem_clause (pool s) aux lits)
    as [[p' cidx]|] eqn:Hadd; [|discriminate].
  intros [= <-].
  assert (Ha : added (pool s) aux lits p' cidx).
  { destruct is_learned.
    - apply add_learned_clause_added; assumption.
    - apply add_problem_clause_added; assumption. }
  assert (Hlen2 : (2 <= length lits)%nat) by lia.
  destruct (added_invariant (pool s) aux lits p' cidx Hp Hlen2 Ha)
    as (Hp' & _ & _ & _ & Hgi & Hcl & Hcl3 & _ & _ & Hlitk).
  destruct (added_clauses (pool s) aux lits p' cidx Hp Hlen2 Ha)
    as [Hiff Hold].
  assert (Hnew : forall l, l = l1 \/ l = l2 ->
            Z.land cidx 3 = 0 /\ is_clause p' cidx /\
            3 <= clause_length p' cidx /\
            (clause_lit p' cidx 0 = l \/ clause_lit p' cidx 1 = l)).
  { intros l Hl.
    unfold good_clause_idx in Hgi. apply andb_prop in Hgi as [Hgi _].
    apply Z.eqb_eq in Hgi.
    split; [exact Hgi|]. split; [exact Hcl|]. split; [lia|].
    pose proof (Hlitk 0%nat ltac:(lia)) as E0.
    pose proof (Hlitk 1%nat ltac:(lia)) as E1.
    cbn in E0, E1. destruct Hl as [-> | ->]; [left | right]; assumption. }
  pose proof Hgood as Hgood'.
  apply Forall_cons in Hgood' as [Hg1 Hgood'].
  apply Forall_cons in Hgood' as [Hg2 _].
  unfold solver_invariant. cbn.
  split; [exact Hp'|]. split; [exact Hvars|].
  assert (Hmono : forall l r, In r (watch s l) ->
            In r (add_watch (add_watch (watch s) l1 (clause_record cidx))
                    l2 (clause_record cidx) l)).
  { intros l r Hin. apply in_add_watch. left.
    apply in_add_watch. left. exact Hin. }
  assert (Hrec : is_binary_record (clause_record cidx) = false).
  { apply clause_record_spec. apply (Hnew l1). left. reflexivity. }
  assert (Hfresh : forall l, count_occ Z.eq_dec (watch s l) cidx = 0%nat).
  { intros l. apply count_occ_not_In. intros Hin.
    destruct (Hw l cidx Hin) as [_ [[(_ & Hc & _) _] | [_ Hb]]].
    - destruct (Hold cidx Hc) as [Hne _]. apply Hne. reflexivity.
    - unfold clause_record in Hrec. congruence. }
  split; [|split].
  - intros l r Hin.
    apply in_add_watch in Hin as [Hin | [-> ->]].
    + apply in_add_watch in Hin as [Hin | [-> ->]].
      * destruct (Hw l r Hin) as [Hg Hd]. split; [exact Hg|].
        destruct Hd as [[Hc Hb] | [Hc Hb]]; [left | right];
          (split; [|exact Hb]).
        -- apply (denotes_clause_added s p' l r aux lits cidx); assumption.
        -- eapply denotes_binary_mono; [| exact Hmono | exact Hc]. cbn. lia.
      * split; [exact Hg1|]. left. split; [|exact Hrec].
        apply Hnew. left. reflexivity.
    + split; [exact Hg2|]. left. split; [|exact Hrec].
      apply Hnew. right. reflexivity.
  - intros c Hc. apply Hiff in Hc as [Hc | ->].
    + destruct (Hold c Hc) as (_ & E1 & _ & E3).
      destruct (Hlits c Hc) as [H3 Hg].
      rewrite E1. split; [exact H3|]. intros k Hk.
      rewrite (clause_lit_same (pool s) p' c c k E1 E3 Hk).
      apply Hg. exact Hk.
    + rewrite Hcl3. split; [lia|]. intros k Hk.
      rewrite <- (Z2Nat.id k) by lia.
      rewrite Hlitk by lia.
      apply (proj1 (List.Forall_forall _ _) Hgood).
      apply nth_In. lia.
  - intros l c Hc. rewrite !count_add_watch. unfold clause_record.
    apply Hiff in Hc as [Hc | ->].
    + destruct (Hold c Hc) as (Hne & E1 & _ & E3).
      destruct (Hlits c Hc) as [H3 _].
      destruct (Z.eqb_spec cidx c) as [E|_]; [congruence|].
      rewrite !andb_false_r.
      rewrite (watched_slots_same (pool s) p' c c l E1 E3) by lia.
      specialize (Hslots l c Hc). lia.
    + rewrite Hfresh, Z.eqb_refl, !andb_true_r. unfold watched_slots.
      pose proof (Hlitk 0%nat ltac:(lia)) as E0.
      pose proof (Hlitk 1%nat ltac:(lia)) as E1.
      change (clause_lit p' cidx 0 = l1) in E0.
      change (clause_lit p' cidx 1 = l2) in E1. rewrite E0, E1.
      rewrite (Z.eqb_sym l l1), (Z.eqb_sym l l2). cbn. lia.
Qed.

(** *** Removal of a clause *)

Ltac eqb_cases :=
  repeat match goal with
         | |- context [Z.eqb ?a ?b] => destruct (Z.eqb_spec a b)
         end.

(** Once a clause is taken out of the watch vectors of its two watched
    literals, no watch vector holds a record for it. *)
Lemma count_unwatched s cidx l :
  solver_invariant s -> is_clause (pool s) cidx ->
  count_occ Z.eq_dec
    (remove_watch
       (remove_watch (watch s) (clause_lit (pool s) cidx 0) cidx)
       (clause_lit (pool s) cidx 1) cidx l) cidx = 0%nat.
Proof.
  intros (_ & _ & _ & _ & Hslots) Hcl.
  specialize (Hslots l cidx Hcl). unfold watched_slots in Hslots.
  rewrite !count_remove_watch, Z.eqb_refl, !andb_true_r.
  revert Hslots. eqb_cases; intros; try congruence; lia.
Qed.

Lemma count_unwatched_other s cidx l r :
  r <> cidx ->
  count_occ Z.eq_dec
    (remove_watch
       (remove_watch (watch s) (clause_lit (pool s) cidx 0) cidx)
       (clause_lit (pool s) cidx 1) cidx l) r =
  count_occ Z.eq_dec (watch s l) r.
Proof.
  intros Hr. rewrite !count_remove_watch.
  destruct (Z.eqb_spec r cidx); [contradiction|].
  rewrite !andb_false_r. reflexivity.
Qed.

Lemma remove_clause_invariant s cidx :
  solver_invariant s -> is_clause (pool s) cidx ->
  solver_invariant (remove_clause s cidx).
Proof.
  intros Hinv Hcl. pose proof Hinv as (Hp & _).
  destruct (delete_invariant (pool s) cidx Hp Hcl) as (Hp' & _).
  destruct (delete_clauses (pool s) cidx Hp Hcl) as (_ & Hiff & Hold).
  apply (clause_update_invariant s (remove_clause s cidx) cidx Hinv Hcl);
    try reflexivity.
  - exact Hp'.
  - intros i Hne. cbn. rewrite Hiff. tauto.
  - intros i Hne Hi. destruct (Hold i Hi Hne) as (E1 & _ & E3).
    split; assumption.
  - intros l r Hr. cbn. apply count_unwatched_other. exact Hr.
  - left. split.
    + cbn. rewrite Hiff. tauto.
    + intros l. cbn. apply count_unwatched; assumption.
Qed.

Lemma remove_clause_clauses s cidx i :
  solver_invariant s -> is_clause (pool s) cidx ->
  (is_clause (pool (remove_clause s cidx)) i <->
   is_clause (pool s) i /\ i <> cidx).
Proof.
  intros (Hp & _) Hcl.
  destruct (delete_clauses (pool s) cidx Hp Hcl) as (_ & Hiff & _).
  cbn. apply Hiff.
Qed.

(** *** Visit of a clause record in propagation *)

Lemma find_non_false_spec lit_is_false lits : forall k0 k,
  find_non_false lit_is_false lits k0 = Some k ->
  k0 <= k < k0 + Z.of_nat (length lits).
Proof.
  induction lits as [|l lits IH]; intros k0 k; cbn [find_non_false length].
  - discriminate.
  - destruct (lit_is_false l).
    + intros H. apply IH in H. lia.
    + intros [= <-]. lia.
Qed.

Lemma set_two_lits_outside p cidx a x b y j :
  j <> cidx + 2 + a -> j <> cidx + 2 + b ->
  data (set_clause_lit (set_clause_lit p cidx a x) cidx b y) j = data p j.
Proof. intros H1 H2. cbn. rewrite !store_ne by lia. reflexivity. Qed.

Lemma visit_clause_invariant lit_is_true lit_is_false s l cidx :
  solver_invariant s ->
  In cidx (watch s l) -> is_binary_record cidx = false ->
  solver_invariant (visit_clause lit_is_true lit_is_false s l cidx).
Proof.
  intros Hinv Hin Hrec.
  pose proof Hinv as (Hp & Hvars & Hw & Hlits & Hslots).
  destruct (Hw l cidx Hin) as [Hgl [[(_ & Hcl & Hlen & Hwl) _] | [_ Hb]]];
    [|congruence].
  unfold visit_clause.
  set (w := if clause_lit (pool s) cidx 0 =? l then 0 else 1).
  destruct (lit_is_true (clause_lit (pool s) cidx (1 - w))); [exact Hinv|].
  destruct (find_non_false lit_is_false (drop 2 (clause_lits (pool s) cidx)) 2)
    as [k|] eqn:Hk; [|exact Hinv].
  apply find_non_false_spec in Hk.
  rewrite length_drop, clause_lits_length in Hk.
  assert (Hk' : 2 <= k < clause_length (pool s) cidx) by lia.
  clear Hk.
  assert (Hw01 : (w = 0 /\ clause_lit (pool s) cidx 0 = l) \/
                 (w = 1 /\ clause_lit (pool s) cidx 0 <> l /\
                  clause_lit (pool s) cidx 1 = l)).
  { unfold w. destruct (Z.eqb_spec (clause_lit (pool s) cidx 0) l) as [E|E].
    - left. auto.
    - right. destruct Hwl as [E'|E']; [contradiction | auto]. }
  set (l' := clause_lit (pool s) cidx k).
  set (p' := set_clause_lit (set_clause_lit (pool s) cidx w l') cidx k l).
  assert (Hlit' : forall j,
            clause_lit p' cidx j =
            if j =? k then l else if j =? w then l'
            else clause_lit (pool s) cidx j).
  { intros j. unfold clause_lit, p'. cbn. unfold store.
    destruct (Z.eqb_spec j k) as [Ejk|Hjk].
    - rewrite Ejk, Z.eqb_refl. reflexivity.
    - destruct (Z.eqb_spec (cidx + 2 + j) (cidx + 2 + k)); [lia|].
      destruct (Z.eqb_spec j w) as [Ejw|Hjw].
      + rewrite Ejw, Z.eqb_refl. reflexivity.
      + destruct (Z.eqb_spec (cidx + 2 + j) (cidx + 2 + w)); [lia|].
        reflexivity. }
  unfold clause_length in Hk', Hlen.
  assert (Hout : forall j,
            j < cidx + 2 \/ cidx + 2 + data (pool s) cidx <= j ->
            data p' j = data (pool s) j).
  { intros j Hj. apply set_two_lits_outside;
      destruct Hw01 as [[-> _] | [-> _]]; lia. }
  destruct (literal_writes (pool s) p' cidx Hp Hcl eq_refl eq_refl eq_refl
              eq_refl Hout) as (Hp' & _ & Hiff & Hold & Hd0 & _).
  apply (clause_update_invariant s _ cidx Hinv Hcl); try reflexivity.
  - exact Hp'.
  - intros i _. apply Hiff.
  - intros i Hne Hi. destruct (Hold i Hi Hne) as (E1 & _ & E3).
    split; assumption.
  - intros l0 r Hr. cbn [watch with_clauses].
    rewrite count_add_watch, count_remove_watch. unfold clause_record.
    destruct (Z.eqb_spec r cidx); [contradiction|].
    destruct (Z.eqb_spec cidx r); [congruence|].
    rewrite !andb_false_r. lia.
  - right. cbn [pool with_clauses]. fold p'.
    split; [apply Hiff; exact Hcl|].
    unfold clause_length. rewrite Hd0.
    split; [exact Hlen|]. split.
    + intros j Hj. rewrite Hlit'.
      destruct (Z.eqb_spec j k); [exact Hgl|].
      destruct (Z.eqb_spec j w);
        [apply Hlits; [exact Hcl | unfold clause_length; lia]|].
      apply Hlits; [exact Hcl | exact Hj].
    + intros l0. cbn [watch with_clauses].
      rewrite count_add_watch, count_remove_watch. unfold clause_record.
      rewrite Z.eqb_refl, !andb_true_r.
      specialize (Hslots l0 cidx Hcl). unfold watched_slots in *.
      rewrite !Hlit'.
      destruct Hw01 as [[-> E0] | (-> & N0 & E1)].
      * rewrite E0 in Hslots.
        replace (0 =? k) with false by (symmetry; apply Z.eqb_neq; lia).
        replace (1 =? k) with false by (symmetry; apply Z.eqb_neq; lia).
        change (0 =? 0) with true. change (1 =? 0) with false.
        cbv iota. revert Hslots. rewrite (Z.eqb_sym l' l0).
        eqb_cases; intros; try congruence; lia.
      * rewrite E1 in Hslots.
        replace (0 =? k) with false by (symmetry; apply Z.eqb_neq; lia).
        replace (1 =? k) with false by (symmetry; apply Z.eqb_neq; lia).
        change (0 =? 1) with false. change (1 =? 1) with true.
        cbv iota. revert Hslots. rewrite (Z.eqb_sym l' l0).
        eqb_cases; intros; try congruence; lia.
Qed.

(** *** Simplification of a clause *)

(** The pool after the literals [a] are written over the first literals
    of the clause at [cidx] and the clause is shortened to them. *)
Lemma rewrite_clause_spec p cidx a :
  pool_invariant p -> is_clause p cidx ->
  (2 <= length a)%nat -> Z.of_nat (length a) <= data p cidx ->
  let p' := clause_pool_shrink_clause (set_clause_lits p cidx a) cidx
              (Z.of_nat (length a)) in
  pool_invariant p' /\
  (forall i, is_clause p' i <-> is_clause p i) /\
  (forall i, is_clause p i -> i <> cidx ->
     clause_length p' i = clause_length p i /\
     clause_lits p' i = clause_lits p i) /\
  clause_length p' cidx = Z.of_nat (length a) /\
  clause_lits p' cidx = a.
Proof.
  intros Hinv Hcl Ha Hle p'.
  set (p1 := set_clause_lits p cidx a).
  assert (Hout : forall j,
            j < cidx + 2 \/ cidx + 2 + data p cidx <= j ->
            data p1 j = data p j).
  { intros j Hj. cbn. apply store_array_outside. lia. }
  destruct (literal_writes p p1 cidx Hinv Hcl eq_refl eq_refl eq_refl
              eq_refl Hout) as (Hp1 & _ & Hiff1 & Hold1 & Hd0 & _).
  assert (Hcl1 : is_clause p1 cidx) by (apply Hiff1; exact Hcl).
  assert (Hn : 2 <= Z.of_nat (length a) <= data p1 cidx)
    by (rewrite Hd0; lia).
  destruct (shrink_invariant p1 cidx _ Hp1 Hcl1 Hn)
    as (Hp' & _ & _ & Hdi & _).
  destruct (shrink_clauses p1 cidx _ Hp1 Hcl1 Hn)
    as (_ & _ & Hiff2 & Hold2 & _ & Hl2).
  subst p' p1.
  split; [exact Hp'|]. split; [|split; [|split]].
  - intros i. rewrite Hiff2. apply Hiff1.
  - intros i Hi Hne.
    destruct (Hold1 i Hi Hne) as (E1 & _ & E3).
    destruct (Hold2 i (proj2 (Hiff1 i) Hi) Hne) as (F1 & _ & F3).
    rewrite F1, F3. split; assumption.
  - exact Hdi.
  - rewrite Hl2. unfold clause_lits, clause_length.
    rewrite take_map_seq by (rewrite Hd0; lia).
    rewrite Nat2Z.id. rewrite <- (map_nth_seq a) at 2.
    apply List.map_ext_in. intros k Hk. apply in_seq in Hk.
    unfold clause_lit. cbn.
    replace (cidx + 2 + Z.of_nat k) with (cidx + 2 + Z.of_nat k) by lia.
    apply store_array_inside. lia.
Qed.

Lemma simplify_clause_spec lit_is_true lit_is_false s cidx :
  solver_invariant s -> is_clause (pool s) cidx ->
  let s' := simplify_clause lit_is_true lit_is_false s cidx in
  solver_invariant s' /\
  (forall i, i <> cidx ->
     (is_clause (pool s') i <-> is_clause (pool s) i)).
Proof.
  intros Hinv Hcl.
  pose proof Hinv as (Hp & Hvars & Hw & Hlits & Hslots).
  destruct (Hlits cidx Hcl) as [Hlen Hgood].
  pose proof (remove_clause_invariant s cidx Hinv Hcl) as Hrem.
  assert (Hremc : forall i, i <> cidx ->
            (is_clause (pool (remove_clause s cidx)) i <->
             is_clause (pool s) i)).
  { intros i Hne. rewrite (remove_clause_clauses s cidx i Hinv Hcl). tauto. }
  unfold simplify_clause.
  destruct (existsb lit_is_true (clause_lits (pool s) cidx));
    [split; assumption|].
  assert (Hsub : forall l,
            In l (List.filter (fun l => negb (lit_is_false l))
                    (clause_lits (pool s) cidx)) ->
            good_literal s l).
  { intros l Hl. apply filter_In in Hl as [Hl _].
    apply in_clause_lits in Hl as (k & Hk & <-). apply Hgood. exact Hk. }
  pose proof (filter_length_le (fun l => negb (lit_is_false l))
                (clause_lits (pool s) cidx)) as Hle.
  rewrite clause_lits_length in Hle.
  destruct (Nat.eqb_spec
              (length (List.filter (fun l => negb (lit_is_false l))
                         (clause_lits (pool s) cidx)))
              (length (clause_lits (pool s) cidx))) as [_|_];
    [split; [exact Hinv | tauto]|].
  destruct (List.filter (fun l => negb (lit_is_false l))
              (clause_lits (pool s) cidx))
    as [|l0 [|l1 [|l2 rest]]] eqn:E.
  - split; assumption.
  - split; assumption.
  - split; [|exact Hremc].
    apply add_binary_invariant; [exact Hrem| |].
    + apply (Hsub l0). left. reflexivity.
    + apply (Hsub l1). right. left. reflexivity.
  - set (a := l0 :: l1 :: l2 :: rest) in *.
    assert (Ha : (3 <= length a)%nat) by (cbn; lia).
    unfold clause_length in Hlen, Hle, Hgood.
    destruct (rewrite_clause_spec (pool s) cidx a Hp Hcl ltac:(lia)
                ltac:(lia)) as (Hp' & Hiff & Hold & Hl' & Hls').
    set (p' := clause_pool_shrink_clause
                 (set_clause_lits (pool s) cidx a) cidx
                 (Z.of_nat (length a))) in *.
    assert (Hnth : forall k, 0 <= k < Z.of_nat (length a) ->
              clause_lit p' cidx k = nth (Z.to_nat k) a 0).
    { intros k Hk. rewrite <- clause_lit_nth by (rewrite Hl'; exact Hk).
      rewrite Hls'. reflexivity. }
    split; [|intros i _; apply Hiff].
    apply (clause_update_invariant s _ cidx Hinv Hcl); try reflexivity.
    + exact Hp'.
    + intros i _. apply Hiff.
    + intros i Hne Hi. apply (Hold i Hi Hne).
    + intros l r Hr. cbn [watch with_clauses].
      rewrite !count_add_watch, count_unwatched_other by exact Hr.
      unfold clause_record.
      destruct (Z.eqb_spec cidx r); [congruence|].
      rewrite !andb_false_r. lia.
    + right. cbn [pool with_clauses]. fold p'.
      split; [apply Hiff; exact Hcl|]. rewrite Hl'.
      split; [lia|]. split.
      * intros k Hk. rewrite (Hnth k Hk). apply Hsub.
        apply nth_In. lia.
      * intros l. cbn [watch with_clauses].
        rewrite !count_add_watch, count_unwatched by assumption.
        unfold clause_record, watched_slots.
        rewrite (Hnth 0) by lia. rewrite (Hnth 1) by lia.
        change (nth (Z.to_nat 0) a 0) with l0.
        change (nth (Z.to_nat 1) a 0) with l1.
        rewrite Z.eqb_refl, !andb_true_r.
        rewrite (Z.eqb_sym l l0), (Z.eqb_sym l l1). lia.
Qed.

(** *** Reachable states *)

Lemma solver_reachable_invariant s : solver_reachable s -> solver_invariant s.
Proof.
  intros Hr.
  induction Hr as [mem
                  | s n s' Hr IH Hn Hadd
                  | s l1 l2 Hr IH H1 H2
                  | s is_learned aux lits s' Hr IH Hlen Hgood Hl Hadd
                  | s cidx Hr IH Hcl
                  | lt lf s cidx Hr IH Hcl
                  | lt lf s l cidx Hr IH Hin Hrec
                  | s Hr IH].
  - apply init_solver_invariant.
  - eapply add_vars_invariant; eassumption.
  - apply add_binary_invariant; assumption.
  - eapply add_large_clause_invariant; eassumption.
  - apply remove_clause_invariant; assumption.
  - apply (simplify_clause_spec lt lf s cidx IH Hcl).
  - apply visit_clause_invariant; assumption.
  - apply reset_solver_invariant; exact IH.
Qed.

(** A reduction of the learned clauses and a pass of the simplification
    over clauses of the pool lead to reachable states. *)
Lemma reduce_learned_clause_set_reachable victims : forall s,
  solver_reachable s -> NoDup victims ->
  Forall (is_clause (pool s)) victims ->
  solver_reachable (reduce_learned_clause_set s victims).
Proof.
  induction victims as [|v vs IH]; intros s Hr Hnd Hall; [exact Hr|].
  apply NoDup_cons in Hnd as [Hv Hnd].
  apply Forall_cons in Hall as [Hcl Hall].
  pose proof (solver_reachable_invariant s Hr) as Hinv.
  cbn. apply IH; [apply sreach_remove; assumption | exact Hnd|].
  apply Forall_forall. intros i Hi.
  apply (remove_clause_clauses s v i Hinv Hcl). split.
  - apply (proj1 (Forall_forall _ _) Hall i Hi).
  - intros ->. contradiction.
Qed.

Lemma simplify_clause_database_reachable lit_is_true lit_is_false cs :
  forall s,
  solver_reachable s -> NoDup cs ->
  Forall (is_clause (pool s)) cs ->
  solver_reachable (simplify_clause_database lit_is_true lit_is_false s cs).
Proof.
  induction cs as [|c cs IH]; intros s Hr Hnd Hall; [exact Hr|].
  apply NoDup_cons in Hnd as [Hc Hnd].
  apply Forall_cons in Hall as [Hcl Hall].
  pose proof (solver_reachable_invariant s Hr) as Hinv.
  destruct (simplify_clause_spec lit_is_true lit_is_false s c Hinv Hcl)
    as [_ Hiff].
  cbn. apply IH; [apply sreach_simplify; assumption | exact Hnd|].
  apply Forall_forall. intros i Hi. apply Hiff.
  - intros ->. contradiction.
  - apply (proj1 (Forall_forall _ _) Hall i Hi).
Qed.


Lemma example_solver_reachable : solver_reachable example_solver.
Proof.
  assert (H1 : solver_reachable example_solver1).
  { apply (sreach_add_vars (init_nsat_solver example_mem) 4).
    - apply sreach_init.
    - lia.
    - reflexivity. }
  assert (H2 : solver_reachable example_solver2).
  { apply sreach_add_binary; [exact H1| |]; vm_compute; split; congruence. }
  apply (sreach_add_clause example_solver2 false 0 [3; 4; 6]).
  - exact H2.
  - cbn. lia.
  - repeat constructor; vm_compute; congruence.
  - intros _. reflexivity.
  - vm_compute. reflexivity.
Qed.

Lemma example_solver3_reachable : solver_reachable example_solver3.
Proof.
  apply sreach_visit.
  - exact example_solver_reachable.
  - left. reflexivity.
  - reflexivity.
Qed.


(** After the clause is removed no watch vector holds a record for it. *)
Lemma example_solver4_watch :
  solver_reachable example_solver4 /\
  watch example_solver4 6 = [] /\ watch example_solver4 4 = [] /\
  watch example_solver4 2 = [11] /\
  data (pool example_solver4) 0 = 0 /\ data (pool example_solver4) 1 = 8.
Proof.
  split; [|repeat split].
  apply sreach_remove; [exact example_solver3_reachable|].
  split; [constructor|]. split; [vm_compute; reflexivity|].
  vm_compute. discriminate.
Qed.

End SatSolverFacts.

(** ** Front end *)

Module FrontendFacts.

Import Frontend.

Lemma parse_done_spec g g' :
  parse_done g = Return g' ->
  filename g' = filename g /\
  (is_Some (filename g') -> interactive g' = false).
Proof.
  unfold parse_done. destruct (filename g) as [f|] eqn:Hf;
    intros [= <-]; cbn; rewrite ?Hf.
  - split; reflexivity.
  - split; [reflexivity|]. intros [x Hx]. discriminate.
Qed.

Lemma parse_loop_interactive elems : forall g g',
  parse_loop elems g = Return g' ->
  is_Some (filename g') -> interactive g' = false.
Proof.
  induction elems as [|e rest IH]; intros g g' H; cbn in H.
  - apply parse_done_spec in H. apply H.
  - destruct e as [|arg|k v|].
    + apply parse_done_spec in H. apply H.
    + destruct (filename g); [discriminate|]. apply (IH _ _ H).
    + destruct k; try discriminate; try apply (IH _ _ H).
      destruct (v <? 0); [discriminate|]. apply (IH _ _ H).
    + discriminate.
Qed.

(** C10.  When [parse_command_line] returns with a filename, the
    interactive flag is false, whatever options were given. *)
Theorem filename_disables_interactive
    (elems : list cmdline_elem) (g : globals) :
  parse_command_line elems = Return g ->
  is_Some (filename g) ->
  interactive g = false.
Proof.
  unfold parse_command_line. intros Hparse Hfile.
  eapply parse_loop_interactive.
  - exact Hparse.
  - exact Hfile.
Qed.

Lemma filename_disables_interactive_witness :
  let elems := [cmdline_option interactive_opt 0;
                cmdline_argument "bench.smt2"] in
  exists g,
    parse_command_line elems = Return g /\
    filename g = Some "bench.smt2"%string /\
    interactive g = false.
Proof.
  cbn zeta. eexists. split; [reflexivity|]. split; [reflexivity|].
  apply (filename_disables_interactive
           [cmdline_option interactive_opt 0; cmdline_argument "bench.smt2"]).
  - reflexivity.
  - cbn. eexists. reflexivity.
Defined.

(** *** Reading a prefix of the command line *)

Lemma parse_loop_passes before : forall g,
  Forall (fun e => stops e = false) before ->
  (positional_count before + has_filename g <= 1)%nat ->
  exists g',
    (forall rest, parse_loop (before ++ rest) g = parse_loop rest g') /\
    has_filename g' = (positional_count before + has_filename g)%nat.
Proof.
  induction before as [|e before IH]; intros g Hst Hcount.
  - exists g. split; [reflexivity|]. reflexivity.
  - apply Forall_cons in Hst as [He Hst].
    destruct e as [|arg|k v|]; cbn in He; try discriminate.
    + (* positional argument *)
      unfold positional_count in *. cbn in Hcount |- *.
      unfold has_filename in Hcount at 1.
      destruct (filename g) eqn:Hf; [lia|].
      destruct (IH (set_filename g arg) Hst) as (g' & Hg' & Hn).
      { unfold has_filename. cbn. lia. }
      exists g'. split.
      * intros rest. cbn. rewrite ?Hf. apply Hg'.
      * rewrite Hn. unfold has_filename. cbn. rewrite ?Hf. lia.
    + (* option *)
      unfold positional_count in *. cbn in Hcount |- *.
      destruct k; try discriminate.
      * destruct (IH (set_show_stats g) Hst Hcount) as (g' & Hg' & Hn).
        exists g'. split; [intros rest; cbn; apply Hg' | exact Hn].
      * destruct (IH (set_verbosity g v) Hst Hcount) as (g' & Hg' & Hn).
        exists g'. split; [intros rest; cbn; rewrite He; apply Hg' | exact Hn].
      * destruct (IH (set_incremental g) Hst Hcount) as (g' & Hg' & Hn).
        exists g'. split; [intros rest; cbn; apply Hg' | exact Hn].
      * destruct (IH (set_interactive g true) Hst Hcount) as (g' & Hg' & Hn).
        exists g'. split; [intros rest; cbn; apply Hg' | exact Hn].
Qed.

Lemma parse_command_line_passes before :
  passes before ->
  exists g',
    (forall rest,
       parse_command_line (before ++ rest) = parse_loop rest g') /\
    has_filename g' = positional_count before.
Proof.
  intros [Hst Hcount]. unfold parse_command_line.
  destruct (parse_loop_passes before
              {| filename := None; incremental := false;
                 interactive := false; show_stats := false;
                 verbosity := 0 |} Hst) as (g' & Hg' & Hn).
  { cbn. lia. }
  exists g'. split; [exact Hg'|]. rewrite Hn. cbn. lia.
Qed.

(** C9 (as amended).  The command line is read from left to right.  When
    the elements [before] are read without leaving the loop (no
    [--version], [--help], negative verbosity or unrecognized option among
    them, and at most one positional argument), then: if the next element
    is a second positional argument, a negative verbosity or an
    unrecognized option, the program exits with code 16; if it is
    [--version] or [--help], the program exits with code 0; and if [before]
    is the whole command line, the program exits with code 17 when it names
    a file that cannot be opened and [main] returns 0 otherwise. *)
Theorem main_exit_codes
    (before after : list cmdline_elem) (e : cmdline_elem)
    (file_opens : string -> bool) (codes : list Z) :
  passes before ->
  (usage_error before e ->
   main (before ++ e :: after) file_opens codes = Exit YICES_EXIT_USAGE) /\
  ((exists v, e = cmdline_option show_version_opt v \/
              e = cmdline_option show_help_opt v) ->
   main (before ++ e :: after) file_opens codes = Exit YICES_EXIT_SUCCESS) /\
  (exists g,
     parse_command_line before = Return g /\
     (forall f, filename g = Some f -> file_opens f = false ->
        main before file_opens codes = Exit YICES_EXIT_FILE_NOT_FOUND) /\
     ((forall f, filename g = Some f -> file_opens f = true) ->
        main before file_opens codes = Return YICES_EXIT_SUCCESS)).
Proof.
  intros Hp.
  destruct (parse_command_line_passes before Hp) as (g' & Hg' & Hn).
  split; [|split].
  - intros Hu. unfold main. rewrite Hg'. cbn.
    destruct e as [|arg|k v|]; cbn in Hu; try contradiction.
    + rewrite Hu in Hn. unfold has_filename in Hn.
      destruct (filename g'); [reflexivity | discriminate].
    + destruct k; try contradiction.
      destruct (Z.ltb_spec v 0); [reflexivity | lia].
    + reflexivity.
  - intros (v & [-> | ->]); unfold main; rewrite Hg'; reflexivity.
  - pose proof (Hg' []) as Hend. rewrite app_nil_r in Hend. cbn in Hend.
    destruct (parse_done g') as [c|g] eqn:Hd.
    { unfold parse_done in Hd. destruct (filename g'); discriminate. }
    exists g. split; [exact Hend|]. split.
    + intros f Hf Ho. unfold main. rewrite Hend, Hf, Ho. reflexivity.
    + intros Ho. unfold main. rewrite Hend.
      destruct (filename g) as [f|] eqn:Hf; [rewrite (Ho f eq_refl)|];
        reflexivity.
Qed.

Lemma main_exit_codes_witness :
  let before := [cmdline_option verbosity_opt 2; cmdline_argument "a.smt2"] in
  passes before /\
  usage_error before (cmdline_argument "b.smt2") /\
  main (before ++ [cmdline_argument "b.smt2"]) (fun _ => true) [] =
    Exit YICES_EXIT_USAGE.
Proof.
  cbn zeta.
  assert (Hp : passes [cmdline_option verbosity_opt 2;
                       cmdline_argument "a.smt2"]).
  { split; [repeat constructor | cbn; lia]. }
  assert (Hu : usage_error [cmdline_option verbosity_opt 2;
                            cmdline_argument "a.smt2"]
                 (cmdline_argument "b.smt2")) by reflexivity.
  split; [exact Hp|]. split; [exact Hu|].
  apply (main_exit_codes _ [] _ (fun _ => true) [] Hp). exact Hu.
Defined.

(** C9 (as stated) fails when [--help] or [--version] comes first: a
    command line with two positional arguments, and one with a negative
    verbosity, exit with code 0 and not with code 16. *)
Lemma help_first_exits_with_success :
  let elems1 := [cmdline_option show_help_opt 0;
                 cmdline_argument "a.smt2"; cmdline_argument "b.smt2"] in
  let elems2 := [cmdline_option show_version_opt 0;
                 cmdline_option verbosity_opt (-1)] in
  positional_count elems1 = 2%nat /\
  main elems1 (fun _ => true) [] = Exit YICES_EXIT_SUCCESS /\
  main elems1 (fun _ => true) [] <> Exit YICES_EXIT_USAGE /\
  In (cmdline_option verbosity_opt (-1)) elems2 /\
  main elems2 (fun _ => true) [] = Exit YICES_EXIT_SUCCESS /\
  main elems2 (fun _ => true) [] <> Exit YICES_EXIT_USAGE.
Proof.
  cbn zeta. split; [reflexivity|]. split; [reflexivity|].
  split; [discriminate|]. split; [cbn; tauto|].
  split; [reflexivity | discriminate].
Qed.

End FrontendFacts.

(** ** Term occurrences: construction, negation and decomposition *)

Module OccurrenceFacts.

Import TermOcc.

Lemma land_lnot_1 z : Z.land z (Z.lnot 1) = 2 * (z / 2).
Proof.
  rewrite <- Z.ldiff_land. change 1 with (Z.ones 1).
  rewrite Z.ldiff_ones_r by lia.
  rewrite Z.shiftr_div_pow2, Z.shiftl_mul_pow2 by lia.
  change (2 ^ 1) with 2. lia.
Qed.

Lemma parity_cases z : z = 2 * (z / 2) \/ z = 2 * (z / 2) + 1.
Proof.
  pose proof (Z.div_mod z 2 ltac:(lia)).
  pose proof (Z.mod_pos_bound z 2 ltac:(lia)). lia.
Qed.

Lemma half_even q : (2 * q) / 2 = q.
Proof. rewrite Z.mul_comm. apply Z.div_mul. lia. Qed.

Lemma half_odd q : (2 * q + 1) / 2 = q.
Proof.
  rewrite Z.mul_comm, Z.div_add_l by lia. change (1 / 2) with 0. lia.
Qed.

Lemma mod2_even q : (2 * q) mod 2 = 0.
Proof. rewrite Z.mul_comm. apply Z.mod_mul. lia. Qed.

Lemma mod2_odd q : (2 * q + 1) mod 2 = 1.
Proof. rewrite Z.mul_comm, Z.add_comm, Z.mod_add by lia. reflexivity. Qed.

Lemma is_pos_term_even q : is_pos_term (2 * q) = true.
Proof.
  unfold is_pos_term. rewrite TermOccFacts.polarity_of_eq, mod2_even.
  reflexivity.
Qed.

Lemma is_pos_term_odd q : is_pos_term (2 * q + 1) = false.
Proof.
  unfold is_pos_term. rewrite TermOccFacts.polarity_of_eq, mod2_odd.
  reflexivity.
Qed.

Lemma is_neg_term_negb x : is_neg_term x = negb (is_pos_term x).
Proof. reflexivity. Qed.

Lemma mk_term_cases i tt :
  mk_term i tt = if tt then pos_term i else neg_term i.
Proof.
  unfold mk_term, pos_term, neg_term. destruct tt; cbn [Z.b2z].
  - change (Z.lxor 1 1) with 0. apply Z.lor_0_r.
  - reflexivity.
Qed.

Lemma index_of_occurrence x :
  is_term_occurrence x -> is_term_index (index_of x).
Proof.
  unfold is_term_occurrence, is_term_index. intros Hx.
  rewrite TermOccFacts.index_of_eq.
  destruct (parity_cases x); lia.
Qed.

(** X1.  [mk_term i tt] builds the occurrence of index [i] with positive
    polarity when [tt] is true and negative polarity otherwise, and
    [index_of] and [is_pos_term] give [i] and [tt] back. *)
Theorem mk_term_round_trip (i : Z) (tt : bool) :
  is_term_index i ->
  is_term_occurrence (mk_term i tt) /\
  mk_term i tt = (if tt then pos_term i else neg_term i) /\
  index_of (mk_term i tt) = i /\
  is_pos_term (mk_term i tt) = tt.
Proof.
  intros Hi. rewrite mk_term_cases.
  pose proof (TermOccFacts.pos_term_eq i Hi) as Hp.
  pose proof (TermOccFacts.neg_term_eq i Hi) as Hn.
  unfold is_term_index in Hi.
  destruct tt.
  - rewrite Hp. split; [unfold is_term_occurrence; lia|].
    split; [reflexivity|].
    split; [rewrite TermOccFacts.index_of_eq; apply half_even|].
    apply is_pos_term_even.
  - rewrite Hn. split; [unfold is_term_occurrence; lia|].
    split; [reflexivity|].
    split; [rewrite TermOccFacts.index_of_eq; apply half_odd|].
    apply is_pos_term_odd.
Qed.

Lemma mk_term_round_trip_witness :
  is_term_index 7 /\
  index_of (mk_term 7 false) = 7 /\ is_pos_term (mk_term 7 false) = false.
Proof.
  assert (H : is_term_index 7) by (unfold is_term_index; lia).
  split; [exact H|].
  destruct (mk_term_round_trip 7 false H) as (_ & _ & Hi & Hp).
  split; [exact Hi | exact Hp].
Defined.

(** X2.  Every term occurrence is rebuilt from its index and its polarity:
    [mk_term (index_of x) (is_pos_term x)] is [x], and so is
    [signed_term (unsigned_term x) (is_pos_term x)]; the index fits in 30
    bits. *)
Theorem occurrence_decomposition (x : Z) :
  is_term_occurrence x ->
  is_term_index (index_of x) /\
  mk_term (index_of x) (is_pos_term x) = x /\
  signed_term (unsigned_term x) (is_pos_term x) = x.
Proof.
  intros Hx. pose proof (index_of_occurrence x Hx) as Hi.
  split; [exact Hi|].
  rewrite mk_term_cases.
  rewrite (TermOccFacts.pos_term_eq _ Hi), (TermOccFacts.neg_term_eq _ Hi).
  unfold signed_term, unsigned_term. rewrite land_lnot_1.
  rewrite TermOccFacts.index_of_eq.
  destruct (parity_cases x) as [E|E].
  - assert (Hp : is_pos_term x = true).
    { rewrite E. apply is_pos_term_even. }
    rewrite Hp. cbn [Z.b2z]. change (Z.lxor 1 1) with 0.
    rewrite Z.lxor_0_r. split; symmetry; exact E.
  - assert (Hp : is_pos_term x = false).
    { rewrite E. apply is_pos_term_odd. }
    rewrite Hp. cbn [Z.b2z]. change (Z.lxor 0 1) with 1.
    rewrite lxor_1_even. split; symmetry; exact E.
Qed.

Lemma occurrence_decomposition_witness :
  is_term_occurrence 11 /\ mk_term (index_of 11) (is_pos_term 11) = 11.
Proof.
  assert (H : is_term_occurrence 11) by (unfold is_term_occurrence; lia).
  split; [exact H|].
  destruct (occurrence_decomposition 11 H) as (_ & Hm & _). exact Hm.
Defined.

Lemma opposite_term_cases x :
  (x = 2 * (x / 2) /\ opposite_term x = 2 * (x / 2) + 1) \/
  (x = 2 * (x / 2) + 1 /\ opposite_term x = 2 * (x / 2)).
Proof.
  unfold opposite_term. destruct (parity_cases x) as [E|E].
  - left. split; [exact E|]. rewrite E at 1. apply lxor_1_even.
  - right. split; [exact E|]. rewrite E at 1. apply lxor_1_odd.
Qed.

Lemma lxor_eq_1 x y : Z.lxor x y = 1 <-> y = Z.lxor x 1.
Proof.
  split.
  - intros H. rewrite <- H, <- Z.lxor_assoc, Z.lxor_nilpotent.
    symmetry. apply Z.lxor_0_l.
  - intros ->. rewrite <- Z.lxor_assoc, Z.lxor_nilpotent.
    apply Z.lxor_0_l.
Qed.

Lemma index_of_opposite x : index_of (opposite_term x) = index_of x.
Proof.
  rewrite !TermOccFacts.index_of_eq.
  destruct (opposite_term_cases x) as [[_ ->] | [_ ->]].
  - apply half_odd.
  - apply half_even.
Qed.

Lemma is_pos_term_opposite x :
  is_pos_term (opposite_term x) = negb (is_pos_term x).
Proof.
  destruct (opposite_term_cases x) as [[E ->] | [E ->]]; rewrite E at 2.
  - rewrite is_pos_term_odd, is_pos_term_even. reflexivity.
  - rewrite is_pos_term_odd, is_pos_term_even. reflexivity.
Qed.

(** X3.  [opposite_term] flips the polarity of an occurrence and keeps its
    index, and [opposite_bool_terms x y] holds exactly when [y] is
    [opposite_term x]. *)
Theorem opposite_term_spec (x : Z) :
  is_term_occurrence x ->
  is_term_occurrence (opposite_term x) /\
  index_of (opposite_term x) = index_of x /\
  is_pos_term (opposite_term x) = is_neg_term x /\
  opposite_term x <> x /\
  (forall y, opposite_bool_terms x y = true <-> y = opposite_term x).
Proof.
  unfold is_term_occurrence. intros Hx.
  rewrite !TermOccFacts.index_of_eq, is_neg_term_negb.
  assert (Hy : forall y, opposite_bool_terms x y = true <->
                         y = opposite_term x).
  { intros y. unfold opposite_bool_terms, opposite_term.
    rewrite Z.eqb_eq. apply lxor_eq_1. }
  destruct (opposite_term_cases x) as [[E Ho] | [E Ho]].
  - split; [lia|]. split; [rewrite Ho; apply half_odd|].
    split; [rewrite Ho, E, is_pos_term_odd, is_pos_term_even; reflexivity|].
    split; [lia | exact Hy].
  - split; [lia|]. split; [rewrite Ho; apply half_even|].
    split; [rewrite Ho, E, is_pos_term_odd, is_pos_term_even; reflexivity|].
    split; [lia | exact Hy].
Qed.

Lemma opposite_term_spec_witness :
  is_term_occurrence 10 /\
  opposite_term 10 = 11 /\ index_of (opposite_term 10) = index_of 10.
Proof.
  assert (H : is_term_occurrence 10) by (unfold is_term_occurrence; lia).
  split; [exact H|]. split; [reflexivity|].
  destruct (opposite_term_spec 10 H) as (_ & Hi & _). exact Hi.
Defined.

(** X4.  [unsigned_term] forgets the polarity: it returns the positive
    occurrence of the same index, gives the same result on an occurrence
    and on its opposite, and is idempotent. *)
Theorem unsigned_term_spec (x : Z) :
  is_term_occurrence x ->
  unsigned_term x = pos_term (index_of x) /\
  is_pos_term (unsigned_term x) = true /\
  unsigned_term (opposite_term x) = unsigned_term x /\
  unsigned_term (unsigned_term x) = unsigned_term x.
Proof.
  intros Hx. pose proof (index_of_occurrence x Hx) as Hi.
  rewrite (TermOccFacts.pos_term_eq _ Hi).
  unfold unsigned_term. rewrite !land_lnot_1, TermOccFacts.index_of_eq.
  split; [reflexivity|]. split; [apply is_pos_term_even|].
  split.
  - destruct (opposite_term_cases x) as [[_ ->] | [_ ->]].
    + rewrite half_odd. reflexivity.
    + rewrite half_even. reflexivity.
  - rewrite half_even. reflexivity.
Qed.

Lemma unsigned_term_spec_witness :
  is_term_occurrence 11 /\ unsigned_term 11 = pos_term (index_of 11).
Proof.
  assert (H : is_term_occurrence 11) by (unfold is_term_occurrence; lia).
  split; [exact H|].
  destruct (unsigned_term_spec 11 H) as (Hu & _). exact Hu.
Defined.

(** X5.  [signed_term x tt] is [x] when [tt] is true and the opposite of
    [x] otherwise: the index is kept, the polarity is kept exactly when
    [tt] is true, and on a positive occurrence it agrees with
    [mk_term]. *)
Theorem signed_term_spec (x : Z) (tt : bool) :
  is_term_occurrence x ->
  signed_term x tt = (if tt then x else opposite_term x) /\
  index_of (signed_term x tt) = index_of x /\
  is_pos_term (signed_term x tt) = Bool.eqb (is_pos_term x) tt /\
  signed_term (pos_term (index_of x)) tt = mk_term (index_of x) tt.
Proof.
  intros Hx. pose proof (index_of_occurrence x Hx) as Hi.
  assert (Hs : forall y, signed_term y tt =
                         if tt then y else opposite_term y).
  { intros y. unfold signed_term, opposite_term.
    destruct tt; cbn [Z.b2z]; [|reflexivity].
    change (Z.lxor 1 1) with 0. apply Z.lxor_0_r. }
  pose proof (index_of_opposite x) as Hio.
  pose proof (is_pos_term_opposite x) as Hpo.
  rewrite !Hs, mk_term_cases.
  split; [reflexivity|].
  destruct tt.
  - split; [reflexivity|]. split; [|reflexivity].
    destruct (is_pos_term x); reflexivity.
  - split; [exact Hio|]. split.
    + rewrite Hpo. destruct (is_pos_term x); reflexivity.
    + rewrite (TermOccFacts.pos_term_eq _ Hi), (TermOccFacts.neg_term_eq _ Hi).
      unfold opposite_term. apply lxor_1_even.
Qed.

Lemma signed_term_spec_witness :
  is_term_occurrence 10 /\ signed_term 10 false = opposite_term 10.
Proof.
  assert (H : is_term_occurrence 10) by (unfold is_term_occurrence; lia).
  split; [exact H|].
  destruct (signed_term_spec 10 false H) as (Hs & _). exact Hs.
Defined.

(** X6.  [bool2term] maps [true] to [true_term] and [false] to
    [false_term], both occurrences of [bool_const], and it turns Boolean
    negation into [opposite_term]. *)
Theorem bool2term_spec (tt : bool) :
  bool2term tt = (if tt then true_term else false_term) /\
  index_of (bool2term tt) = bool_const /\
  is_pos_term (bool2term tt) = tt /\
  bool2term (negb tt) = opposite_term (bool2term tt).
Proof. destruct tt; repeat split; reflexivity. Qed.

End OccurrenceFacts.

(** ** Term indices and term kinds *)

Module TermAccessFacts.

Import TermOcc TermTable TermAccess.

Lemma entry_at_valid t i e :
  entry_at t i = Some e -> valid_term_idx t i = true.
Proof.
  unfold entry_at, valid_term_idx, nelems.
  destruct (Z.leb_spec 0 i) as [Hi|Hi]; [|discriminate].
  intros He. apply lookup_lt_Some in He.
  cbn. apply Z.ltb_lt. lia.
Qed.

Lemma valid_entry_at t i :
  valid_term_idx t i = true -> exists e, entry_at t i = Some e.
Proof.
  unfold entry_at, valid_term_idx, nelems. intros H.
  apply andb_prop in H as [H0 H1].
  rewrite H0. apply Z.leb_le in H0. apply Z.ltb_lt in H1.
  apply lookup_lt_is_Some_2. lia.
Qed.

(** [live_term_idx] and [good_term_idx] in the form of the source: a valid
    index whose kind is not [UNUSED_TERM], respectively whose kind comes
    after [RESERVED_TERM]. *)
Lemma live_term_idx_eq t i :
  live_term_idx t i =
  valid_term_idx t i && negb (bool_decide (kind_for_idx t i = UNUSED_TERM)).
Proof.
  unfold live_term_idx, kind_for_idx.
  destruct (entry_at t i) as [e|] eqn:He.
  - rewrite (entry_at_valid t i e He). reflexivity.
  - destruct (valid_term_idx t i) eqn:Hv; [|reflexivity].
    destruct (valid_entry_at t i Hv) as [e He']. congruence.
Qed.

Lemma good_term_idx_eq t i :
  good_term_idx t i =
  valid_term_idx t i &&
  (kind_code RESERVED_TERM <? kind_code (kind_for_idx t i)).
Proof.
  unfold good_term_idx, kind_for_idx.
  destruct (entry_at t i) as [e|] eqn:He.
  - rewrite (entry_at_valid t i e He). reflexivity.
  - destruct (valid_term_idx t i) eqn:Hv; [|reflexivity].
    destruct (valid_entry_at t i Hv) as [e He']. congruence.
Qed.

Lemma good_idx_is_live t i :
  good_term_idx t i = true -> live_term_idx t i = true.
Proof.
  unfold good_term_idx, live_term_idx.
  destruct (entry_at t i) as [e|]; [|discriminate].
  destruct (kind e); try discriminate; reflexivity.
Qed.

(** X7.  A good term index is live and valid: it lies in [0, nelems) and
    its kind is neither [UNUSED_TERM] nor [RESERVED_TERM]. *)
Theorem good_live_valid (t : term_table) (i : Z) :
  good_term_idx t i = true ->
  live_term_idx t i = true /\
  valid_term_idx t i = true /\
  0 <= i < nelems t /\
  kind_for_idx t i <> UNUSED_TERM /\
  kind_for_idx t i <> RESERVED_TERM.
Proof.
  rewrite good_term_idx_eq, live_term_idx_eq. intros H.
  apply andb_prop in H as [Hv Hk]. rewrite Hv.
  apply Z.ltb_lt in Hk.
  assert (Hu : kind_for_idx t i <> UNUSED_TERM).
  { intros E. rewrite E in Hk. cbn in Hk. lia. }
  assert (Hr : kind_for_idx t i <> RESERVED_TERM).
  { intros E. rewrite E in Hk. cbn in Hk. lia. }
  split; [rewrite (bool_decide_eq_false_2 _ Hu); reflexivity|].
  split; [reflexivity|].
  split; [|split; assumption].
  unfold valid_term_idx in Hv. apply andb_prop in Hv as [H0 H1].
  apply Z.leb_le in H0. apply Z.ltb_lt in H1. lia.
Qed.

Lemma good_live_valid_witness :
  good_term_idx (init_term_table 0) 1 = true /\
  live_term_idx (init_term_table 0) 1 = true.
Proof.
  assert (H : good_term_idx (init_term_table 0) 1 = true) by reflexivity.
  split; [exact H|].
  destruct (good_live_valid (init_term_table 0) 1 H) as (Hl & _). exact Hl.
Defined.

(** X8.  The order of the kinds makes the cheap tests right: the constant
    kinds are [CONSTANT_TERM], [BV64_CONSTANT] and [BV_CONSTANT]; the
    atomic kinds are the constant kinds and [UNINTERPRETED_TERM]; an
    atomic kind is neither a special mark nor [ITE_TERM]. *)
Theorem atomic_kinds (k : term_kind) :
  (is_const_kind k = true <->
   k = CONSTANT_TERM \/ k = BV64_CONSTANT \/ k = BV_CONSTANT) /\
  (is_atomic_kind k = true <->
   is_const_kind k = true \/ k = UNINTERPRETED_TERM) /\
  (is_atomic_kind k = true ->
   k <> UNUSED_TERM /\ k <> RESERVED_TERM /\ is_ite_kind k = false).
Proof.
  destruct k; cbn; (split; [|split]); try (intros; intuition congruence).
Qed.

Lemma atomic_kinds_witness :
  is_atomic_kind UNINTERPRETED_TERM = true /\
  is_ite_kind UNINTERPRETED_TERM = false.
Proof.
  destruct (atomic_kinds UNINTERPRETED_TERM) as (_ & _ & H).
  destruct (H eq_refl) as (_ & _ & Hi).
  split; [reflexivity | exact Hi].
Defined.

End TermAccessFacts.

(** ** Literals and truth values *)

Module LiteralFacts.

Import Literal Assignment.

Lemma pos_eq x : 0 <= x < 2 ^ 31 -> pos x = 2 * x.
Proof.
  intros H. unfold pos. rewrite shiftl1_double.
  apply uint32_id. unfold is_uint32. lia.
Qed.

Lemma neg_eq x : 0 <= x < 2 ^ 31 -> neg x = 2 * x + 1.
Proof.
  intros H. unfold neg. fold (pos x). rewrite (pos_eq x H).
  apply uint32_id. unfold is_uint32. lia.
Qed.

Lemma var_of_eq l : var_of l = l / 2.
Proof. apply shiftr1_half. Qed.

Lemma sign_of_eq l : sign_of l = l mod 2.
Proof. apply land_1_mod2. Qed.

Lemma not_cases l :
  (l = 2 * (l / 2) /\ not l = 2 * (l / 2) + 1) \/
  (l = 2 * (l / 2) + 1 /\ not l = 2 * (l / 2)).
Proof. apply OccurrenceFacts.opposite_term_cases. Qed.

Lemma var_of_not l : var_of (not l) = var_of l.
Proof.
  rewrite !var_of_eq. destruct (not_cases l) as [[_ ->] | [_ ->]].
  - apply OccurrenceFacts.half_odd.
  - apply OccurrenceFacts.half_even.
Qed.

Lemma sign_of_not l : sign_of (not l) = 1 - sign_of l.
Proof.
  rewrite !sign_of_eq. destruct (not_cases l) as [[E ->] | [E ->]].
  - rewrite E at 2.
    rewrite OccurrenceFacts.mod2_odd, OccurrenceFacts.mod2_even. reflexivity.
  - rewrite E at 2.
    rewrite OccurrenceFacts.mod2_odd, OccurrenceFacts.mod2_even. reflexivity.
Qed.

Lemma sign_of_cases l : sign_of l = 0 \/ sign_of l = 1.
Proof.
  rewrite sign_of_eq. pose proof (Z.mod_pos_bound l 2 ltac:(lia)). lia.
Qed.

(** X10.  For a variable [x] not above [MAX_VARIABLES], [pos x] and [neg x]
    are literals, [var_of] and [sign_of] give [x] and the sign back, and
    [neg x] is the negation of [pos x]. *)
Theorem literal_round_trip (x : Z) :
  0 <= x <= MAX_VARIABLES ->
  is_literal (pos x) /\ is_literal (neg x) /\
  var_of (pos x) = x /\ var_of (neg x) = x /\
  sign_of (pos x) = 0 /\ sign_of (neg x) = 1 /\
  is_pos (pos x) = true /\ is_neg (neg x) = true /\
  neg x = not (pos x).
Proof.
  intros Hx.
  assert (Hb : 0 <= x < 2 ^ 31).
  { change MAX_VARIABLES with (2 ^ 30 - 1) in Hx. lia. }
  unfold is_literal, is_pos, is_neg. fold (sign_of (pos x)) (sign_of (neg x)).
  rewrite (pos_eq x Hb), (neg_eq x Hb), !var_of_eq, !sign_of_eq.
  rewrite OccurrenceFacts.half_even, OccurrenceFacts.half_odd,
    OccurrenceFacts.mod2_even, OccurrenceFacts.mod2_odd.
  split; [lia|]. split; [lia|].
  split; [reflexivity|]. split; [reflexivity|].
  split; [reflexivity|]. split; [reflexivity|].
  split; [reflexivity|]. split; [reflexivity|].
  unfold not. symmetry. apply lxor_1_even.
Qed.

Lemma literal_round_trip_witness :
  0 <= 5 <= MAX_VARIABLES /\ var_of (neg 5) = 5 /\ sign_of (neg 5) = 1.
Proof.
  assert (H : 0 <= 5 <= MAX_VARIABLES) by (vm_compute; split; discriminate).
  split; [exact H|].
  destruct (literal_round_trip 5 H) as (_ & _ & _ & Hv & _ & Hs & _).
  split; [exact Hv | exact Hs].
Defined.

(** X11.  Every literal is [pos] or [neg] of its variable, according to
    its sign, and its variable is at most [MAX_VARIABLES]. *)
Theorem literal_decomposition (l : Z) :
  is_literal l ->
  0 <= var_of l <= MAX_VARIABLES /\
  l = (if is_pos l then pos (var_of l) else neg (var_of l)) /\
  sign_of l = (if is_pos l then 0 else 1).
Proof.
  unfold is_literal. change MAX_VARIABLES with (2 ^ 30 - 1). intros Hl.
  unfold is_pos. fold (sign_of l).
  assert (Hv : 0 <= var_of l < 2 ^ 31).
  { rewrite var_of_eq. destruct (OccurrenceFacts.parity_cases l); lia. }
  rewrite (pos_eq _ Hv), (neg_eq _ Hv).
  rewrite var_of_eq in *. rewrite sign_of_eq.
  pose proof (Z.div_mod l 2 ltac:(lia)) as Hd.
  pose proof (Z.mod_pos_bound l 2 ltac:(lia)) as Hm.
  split; [lia|].
  destruct (Z.eqb_spec (l mod 2) 0) as [E|E]; split; lia.
Qed.

Lemma literal_decomposition_witness :
  is_literal 13 /\ 13 = neg (var_of 13).
Proof.
  assert (H : is_literal 13) by (vm_compute; split; discriminate).
  split; [exact H|].
  destruct (literal_decomposition 13 H) as (_ & Hl & _). exact Hl.
Defined.

(** X12.  [not] maps a literal to the literal of the same variable and of
    the other sign, and [opposite l1 l2] holds exactly when [l2] is
    [not l1]. *)
Theorem not_spec (l : Z) :
  is_literal l ->
  is_literal (not l) /\
  var_of (not l) = var_of l /\
  sign_of (not l) = 1 - sign_of l /\
  is_pos (not l) = is_neg l /\
  (forall l2, opposite l l2 = true <-> l2 = not l).
Proof.
  unfold is_literal. change MAX_VARIABLES with (2 ^ 30 - 1). intros Hl.
  split; [destruct (not_cases l) as [[E ->] | [E ->]]; lia|].
  split; [apply var_of_not|].
  split; [apply sign_of_not|].
  split.
  - unfold is_pos, is_neg. fold (sign_of (not l)) (sign_of l).
    rewrite sign_of_not. destruct (sign_of_cases l) as [-> | ->]; reflexivity.
  - intros l2. unfold opposite, not. rewrite Z.eqb_eq.
    apply OccurrenceFacts.lxor_eq_1.
Qed.

Lemma not_spec_witness :
  is_literal 12 /\ not 12 = 13 /\ var_of (not 12) = var_of 12.
Proof.
  assert (H : is_literal 12) by (vm_compute; split; discriminate).
  split; [exact H|]. split; [reflexivity|].
  destruct (not_spec 12 H) as (_ & Hv & _). exact Hv.
Defined.

(** *** Truth values *)

Lemma lxor_1_eq a b : Z.lxor a 1 = b <-> a = Z.lxor b 1.
Proof.
  split.
  - intros <-. symmetry. apply lxor_1_involutive.
  - intros ->. apply lxor_1_involutive.
Qed.

Lemma land_2_lxor_1 w : Z.land (Z.lxor w 1) 2 = Z.land w 2.
Proof.
  apply Z.bits_inj'. intros n Hn.
  rewrite !Z.land_spec, Z.lxor_spec.
  change 2 with (2 ^ 1). change 1 with (2 ^ 0) at 1.
  rewrite !Z.pow2_bits_eqb by lia.
  destruct (Z.eqb_spec 1 n) as [<-|Hne].
  - cbn. rewrite xorb_false_r. reflexivity.
  - rewrite !andb_false_r. reflexivity.
Qed.

Lemma is_unassigned_val_lxor_1 w :
  is_unassigned_val (Z.lxor w 1) = is_unassigned_val w.
Proof. unfold is_unassigned_val. rewrite land_2_lxor_1. reflexivity. Qed.

Lemma true_preferred_lxor_1 w :
  true_preferred (Z.lxor w 1) = negb (true_preferred w).
Proof.
  unfold true_preferred. rewrite !land_1_mod2.
  destruct (OccurrenceFacts.opposite_term_cases w) as [[E H] | [E H]];
    unfold TermOcc.opposite_term in H; rewrite H; rewrite E at 2.
  - rewrite OccurrenceFacts.mod2_odd, OccurrenceFacts.mod2_even. reflexivity.
  - rewrite OccurrenceFacts.mod2_odd, OccurrenceFacts.mod2_even. reflexivity.
Qed.

Section Values.

Variable value : Z -> Z.

Lemma lit_value_not l :
  lit_value value (not l) = Z.lxor (lit_value value l) 1.
Proof.
  unfold lit_value. rewrite var_of_not.
  replace (sign_of (not l)) with (Z.lxor (sign_of l) 1).
  - symmetry. apply Z.lxor_assoc.
  - rewrite sign_of_not.
    destruct (sign_of_cases l) as [-> | ->]; reflexivity.
Qed.

(** X13.  The value of a negated literal is the complement of the value of
    the literal: [not l] is true exactly when [l] is false and false
    exactly when [l] is true, both are assigned or unassigned together, and
    their preferred values differ. *)
Theorem negated_literal_value (l : Z) :
  lit_is_true value (not l) = lit_is_false value l /\
  lit_is_false value (not l) = lit_is_true value l /\
  lit_is_unassigned value (not l) = lit_is_unassigned value l /\
  lit_is_assigned value (not l) = lit_is_assigned value l /\
  lit_prefers_true value (not l) = negb (lit_prefers_true value l).
Proof.
  unfold lit_is_true, lit_is_false, lit_is_assigned, lit_is_unassigned,
    lit_prefers_true.
  rewrite lit_value_not, is_unassigned_val_lxor_1, true_preferred_lxor_1.
  assert (Hx : forall a b, (Z.lxor a 1 =? b) = (a =? Z.lxor b 1)).
  { intros a b. destruct (Z.eqb_spec (Z.lxor a 1) b) as [E|E];
      destruct (Z.eqb_spec a (Z.lxor b 1)) as [E'|E']; try reflexivity.
    - apply lxor_1_eq in E. contradiction.
    - apply lxor_1_eq in E'. contradiction. }
  rewrite !Hx.
  split; [reflexivity|]. split; [reflexivity|].
  split; [reflexivity|]. split; reflexivity.
Qed.

(** X14.  The positive literal of a variable has the value of the
    variable and the negative literal has the complementary value. *)
Theorem literal_value_of_variable (x : Z) :
  0 <= x <= MAX_VARIABLES ->
  lit_value value (pos x) = var_value value x /\
  lit_is_true value (pos x) = var_is_true value x /\
  lit_is_false value (pos x) = var_is_false value x /\
  lit_is_true value (neg x) = var_is_false value x /\
  lit_is_false value (neg x) = var_is_true value x /\
  lit_is_unassigned value (pos x) = var_is_unassigned value x /\
  lit_is_unassigned value (neg x) = var_is_unassigned value x.
Proof.
  intros Hx.
  assert (Hb : 0 <= x < 2 ^ 31).
  { change MAX_VARIABLES with (2 ^ 30 - 1) in Hx. lia. }
  assert (Hp : lit_value value (pos x) = value x).
  { unfold lit_value.
    rewrite (pos_eq x Hb), var_of_eq, sign_of_eq,
      OccurrenceFacts.half_even, OccurrenceFacts.mod2_even.
    apply Z.lxor_0_r. }
  assert (Hn : lit_value value (neg x) = Z.lxor (value x) 1).
  { unfold lit_value.
    rewrite (neg_eq x Hb), var_of_eq, sign_of_eq,
      OccurrenceFacts.half_odd, OccurrenceFacts.mod2_odd.
    reflexivity. }
  unfold lit_is_true, lit_is_false, lit_is_unassigned, var_is_true,
    var_is_false, var_is_unassigned, var_value.
  rewrite Hp, Hn, is_unassigned_val_lxor_1.
  assert (Hx' : forall a b, (Z.lxor a 1 =? b) = (a =? Z.lxor b 1)).
  { intros a b. destruct (Z.eqb_spec (Z.lxor a 1) b) as [E|E];
      destruct (Z.eqb_spec a (Z.lxor b 1)) as [E'|E']; try reflexivity.
    - apply lxor_1_eq in E. contradiction.
    - apply lxor_1_eq in E'. contradiction. }
  rewrite !Hx'.
  split; [reflexivity|]. split; [reflexivity|]. split; [reflexivity|].
  split; [reflexivity|]. split; [reflexivity|].
  split; reflexivity.
Qed.

(** X15.  The four values of [bval_t] decode as documented: a variable is
    assigned exactly when it is true or false, never both, and its
    preferred value then is its value. *)
Theorem assigned_value_cases (x : Z) :
  is_bval (value x) ->
  var_is_assigned value x = var_is_true value x || var_is_false value x /\
  var_is_true value x && var_is_false value x = false /\
  (var_is_true value x = true -> var_prefers_true value x = true) /\
  (var_is_false value x = true -> var_prefers_true value x = false) /\
  (var_is_unassigned value x = true <->
   value x = BVAL_UNDEF_FALSE \/ value x = BVAL_UNDEF_TRUE).
Proof.
  unfold is_bval, var_is_assigned, var_is_unassigned, var_is_true,
    var_is_false, var_prefers_true, var_value,
    BVAL_UNDEF_FALSE, BVAL_UNDEF_TRUE, BVAL_TRUE, BVAL_FALSE.
  intros Hv.
  assert (E : value x = 0 \/ value x = 1 \/ value x = 2 \/ value x = 3)
    by lia.
  destruct E as [-> | [-> | [-> | ->]]];
    unfold true_preferred, is_unassigned_val; vm_compute;
    (split; [reflexivity|]); (split; [reflexivity|]);
    (split; [intros; congruence|]); (split; [intros; congruence|]);
    split; intros; try lia; try congruence.
Qed.

End Values.

Lemma literal_value_of_variable_witness :
  let value := fun x => if x =? 4 then BVAL_FALSE else BVAL_UNDEF_TRUE in
  0 <= 4 <= MAX_VARIABLES /\
  lit_is_true value (neg 4) = true.
Proof.
  cbn zeta.
  assert (H : 0 <= 4 <= MAX_VARIABLES) by (vm_compute; split; discriminate).
  split; [exact H|].
  destruct (literal_value_of_variable
              (fun x => if x =? 4 then BVAL_FALSE else BVAL_UNDEF_TRUE) 4 H)
    as (_ & _ & _ & Ht & _).
  rewrite Ht. reflexivity.
Defined.

Lemma assigned_value_cases_witness :
  let value := fun x => if x =? 4 then BVAL_FALSE else BVAL_UNDEF_TRUE in
  is_bval (value 4) /\
  var_is_assigned value 4 = var_is_true value 4 || var_is_false value 4.
Proof.
  cbn zeta.
  assert (H : is_bval
                ((fun x => if x =? 4 then BVAL_FALSE else BVAL_UNDEF_TRUE) 4))
    by (vm_compute; split; discriminate).
  split; [exact H|].
  destruct (assigned_value_cases
              (fun x => if x =? 4 then BVAL_FALSE else BVAL_UNDEF_TRUE) 4 H)
    as (Ha & _).
  exact Ha.
Defined.

End LiteralFacts.

(** ** Context: option tests *)

Module ContextOptionFacts.

Import Context ContextOptions.

Lemma testbit_uint32 z n :
  0 <= n -> Z.testbit (uint32 z) n = (n <? 32) && Z.testbit z n.
Proof.
  intros Hn. unfold uint32.
  destruct (Z.ltb_spec n 32) as [H|H].
  - rewrite Z.mod_pow2_bits_low by lia. reflexivity.
  - rewrite Z.mod_pow2_bits_high by lia. reflexivity.
Qed.

Lemma testbit_small m n :
  0 <= m < 2 ^ 32 -> 0 <= n -> Z.testbit m n = true -> n < 32.
Proof.
  intros Hm Hn Hb.
  destruct (Z.ltb_spec n 32) as [H|H]; [exact H|].
  rewrite <- (Z.mod_small m (2 ^ 32)) in Hb by lia.
  rewrite Z.mod_pow2_bits_high in Hb by lia. discriminate.
Qed.

Lemma land_disjoint_bit m m' n :
  Z.land m m' = 0 -> Z.testbit m' n = true -> Z.testbit m n = false.
Proof.
  intros H Hb.
  assert (E : Z.testbit (Z.land m m') n = false)
    by (rewrite H; apply Z.bits_0).
  rewrite Z.land_spec, Hb, andb_true_r in E. exact E.
Qed.

(** Setting a mask, then testing one that overlaps it; clearing a mask,
    then testing one that it covers. *)
Lemma test_mask_set_overlap ctx m m' :
  Z.land m m' <> 0 -> test_mask (set_mask ctx m) m' = true.
Proof.
  intros Hm. unfold test_mask, set_mask. cbn.
  rewrite Z.land_lor_distr_l.
  destruct (Z.eqb_spec (Z.lor (Z.land (options ctx) m') (Z.land m m')) 0)
    as [E|E]; [|reflexivity].
  apply Z.lor_eq_0_iff in E. tauto.
Qed.

Lemma test_mask_clear_within ctx m m' :
  Z.land (uint32 (Z.lnot m)) m' = 0 ->
  test_mask (clear_mask ctx m) m' = false.
Proof.
  intros Hm. unfold test_mask, clear_mask. cbn.
  rewrite <- Z.land_assoc, Hm, Z.land_0_r. reflexivity.
Qed.

(** Setting or clearing a mask, then testing a disjoint one. *)
Lemma test_mask_set_frame ctx m m' :
  Z.land m m' = 0 -> test_mask (set_mask ctx m) m' = test_mask ctx m'.
Proof.
  intros H. unfold test_mask, set_mask. cbn.
  rewrite Z.land_lor_distr_l, H, Z.lor_0_r. reflexivity.
Qed.

Lemma test_mask_clear_frame ctx m m' :
  Z.land m m' = 0 -> 0 <= m' < 2 ^ 32 ->
  test_mask (clear_mask ctx m) m' = test_mask ctx m'.
Proof.
  intros H Hm'. unfold test_mask, clear_mask. cbn.
  replace (Z.land (Z.land (options ctx) (uint32 (Z.lnot m))) m')
    with (Z.land (options ctx) m'); [reflexivity|].
  apply Z.bits_inj'. intros n Hn.
  rewrite !Z.land_spec, testbit_uint32, Z.lnot_spec by exact Hn.
  destruct (Z.testbit m' n) eqn:Hb; [|rewrite !andb_false_r; reflexivity].
  rewrite (land_disjoint_bit m m' n H Hb).
  pose proof (testbit_small m' n Hm' Hn Hb) as Hlt.
  destruct (Z.ltb_spec n 32); [|lia]. cbn.
  rewrite !andb_true_r. reflexivity.
Qed.

Lemma test_mask_lor ctx a b :
  test_mask ctx (Z.lor a b) = test_mask ctx a || test_mask ctx b.
Proof.
  unfold test_mask. rewrite Z.land_lor_distr_r.
  destruct (Z.eqb_spec (Z.land (options ctx) a) 0) as [Ea|Ea];
    destruct (Z.eqb_spec (Z.land (options ctx) b) 0) as [Eb|Eb]; cbn.
  - rewrite Ea, Eb. reflexivity.
  - rewrite Ea, Z.lor_0_l.
    destruct (Z.eqb_spec (Z.land (options ctx) b) 0); [contradiction|].
    reflexivity.
  - destruct (Z.eqb_spec (Z.lor (Z.land (options ctx) a)
                            (Z.land (options ctx) b)) 0) as [E|E];
      [|reflexivity].
    apply Z.lor_eq_0_iff in E. tauto.
  - destruct (Z.eqb_spec (Z.lor (Z.land (options ctx) a)
                            (Z.land (options ctx) b)) 0) as [E|E];
      [|reflexivity].
    apply Z.lor_eq_0_iff in E. tauto.
Qed.

Lemma strict_mode_test ctx :
  context_in_strict_mode ctx = negb (test_mask ctx LAX_OPTION_MASK).
Proof.
  unfold context_in_strict_mode, test_mask.
  rewrite negb_involutive. reflexivity.
Qed.

(** X16.  Each option is read back as it was last set: after the enable
    function the matching test is true and after the disable function it
    is false.  The flattening pair is set and cleared together by
    [enable_diseq_and_or_flattening] and
    [disable_diseq_and_or_flattening], and lax mode is the negation of
    strict mode. *)
Theorem option_round_trip (ctx : context) :
  (context_var_elim_enabled (enable_variable_elimination ctx) = true /\
   context_var_elim_enabled (disable_variable_elimination ctx) = false) /\
  (context_flatten_or_enabled (enable_or_flattening ctx) = true /\
   context_flatten_or_enabled (disable_or_flattening ctx) = false) /\
  (context_flatten_or_enabled (enable_diseq_and_or_flattening ctx) = true /\
   context_flatten_diseq_enabled (enable_diseq_and_or_flattening ctx)
     = true /\
   context_flatten_or_enabled (disable_diseq_and_or_flattening ctx)
     = false /\
   context_flatten_diseq_enabled (disable_diseq_and_or_flattening ctx)
     = false) /\
  (context_eq_abstraction_enabled (enable_eq_abstraction ctx) = true /\
   context_eq_abstraction_enabled (disable_eq_abstraction ctx) = false) /\
  (context_arith_elim_enabled (enable_arith_elimination ctx) = true /\
   context_arith_elim_enabled (disable_arith_elimination ctx) = false) /\
  (context_keep_ite_enabled (enable_keep_ite ctx) = true /\
   context_keep_ite_enabled (disable_keep_ite ctx) = false) /\
  (context_bvarith_elim_enabled (enable_bvarith_elimination ctx) = true /\
   context_bvarith_elim_enabled (disable_bvarith_elimination ctx) = false) /\
  (context_breaksym_enabled (enable_symmetry_breaking ctx) = true /\
   context_breaksym_enabled (disable_symmetry_breaking ctx) = false) /\
  (context_pseudo_inverse_enabled
     (enable_pseudo_inverse_simplification ctx) = true /\
   context_pseudo_inverse_enabled
     (disable_pseudo_inverse_simplification ctx) = false) /\
  (context_dump_enabled (enable_dump ctx) = true /\
   context_dump_enabled (disable_dump ctx) = false) /\
  (context_in_strict_mode (enable_lax_mode ctx) = false /\
   context_in_strict_mode (disable_lax_mode ctx) = true).
Proof.
  rewrite !strict_mode_test.
  unfold enable_lax_mode, disable_lax_mode.
  rewrite (test_mask_set_overlap ctx LAX_OPTION_MASK LAX_OPTION_MASK)
    by discriminate.
  rewrite (test_mask_clear_within ctx LAX_OPTION_MASK LAX_OPTION_MASK)
    by reflexivity.
  repeat match goal with |- _ /\ _ => split end;
    try reflexivity;
    first [ apply test_mask_set_overlap; discriminate
          | apply test_mask_clear_within; reflexivity ].
Qed.

Lemma option_test_mask_range tst : 0 <= option_test_mask tst < 2 ^ 32.
Proof.
  destruct tst; (vm_compute; split; [discriminate | reflexivity]).
Qed.

Lemma apply_option_test_mask tst :
  exists f : bool -> bool,
  forall ctx, apply_option_test tst ctx =
              f (test_mask ctx (option_test_mask tst)).
Proof.
  destruct tst;
    first [ exists (fun b => b); intros ctx; reflexivity
          | exists negb; intros ctx; apply strict_mode_test ].
Qed.

Lemma apply_option_op_mask op ctx :
  apply_option_op op ctx = set_mask ctx (op_mask op) \/
  apply_option_op op ctx = clear_mask ctx (op_mask op).
Proof. destruct op; cbn; auto. Qed.

(** X17.  An option operation changes the options word only, and in it
    only the bits of its own mask: the mode, the theories, the base level
    and the status are kept, and every test that reads a bit outside the
    mask of the operation gives the same answer before and after. *)
Theorem option_op_frame (op : option_op) (tst : option_test) (ctx : context) :
  Z.land (op_mask op) (option_test_mask tst) = 0 ->
  apply_option_test tst (apply_option_op op ctx) = apply_option_test tst ctx /\
  mode (apply_option_op op ctx) = mode ctx /\
  theories (apply_option_op op ctx) = theories ctx /\
  base_level (apply_option_op op ctx) = base_level ctx /\
  status (apply_option_op op ctx) = status ctx.
Proof.
  intros H. destruct (apply_option_test_mask tst) as [f Hf].
  rewrite !Hf.
  pose proof (option_test_mask_range tst) as Hr.
  destruct (apply_option_op_mask op ctx) as [-> | ->].
  - rewrite (test_mask_set_frame ctx _ _ H).
    split; [reflexivity|]. split; [reflexivity|]. split; [reflexivity|].
    split; reflexivity.
  - rewrite (test_mask_clear_frame ctx _ _ H Hr).
    split; [reflexivity|]. split; [reflexivity|]. split; [reflexivity|].
    split; reflexivity.
Qed.

Lemma option_op_frame_witness :
  let ctx := enable_keep_ite example_context in
  Z.land (op_mask Disable_or_flattening)
    (option_test_mask Keep_ite_enabled) = 0 /\
  context_keep_ite_enabled (disable_or_flattening ctx) = true.
Proof.
  cbn zeta.
  assert (H : Z.land (op_mask Disable_or_flattening)
                (option_test_mask Keep_ite_enabled) = 0) by reflexivity.
  split; [exact H|].
  destruct (option_op_frame Disable_or_flattening Keep_ite_enabled
              (enable_keep_ite example_context) H) as (Ht & _).
  cbn [apply_option_test apply_option_op] in Ht. rewrite Ht.
  apply test_mask_set_overlap. discriminate.
Defined.

(** X18.  [context_has_preprocess_options] holds exactly when one of the
    nine preprocessing options is enabled; the dump and lax bits, the
    simplex options and the feature bits do not count. *)
Theorem has_preprocess_options_spec (ctx : context) :
  context_has_preprocess_options ctx =
  context_var_elim_enabled ctx || context_flatten_or_enabled ctx ||
  context_flatten_diseq_enabled ctx || context_eq_abstraction_enabled ctx ||
  context_arith_elim_enabled ctx || context_keep_ite_enabled ctx ||
  context_bvarith_elim_enabled ctx || context_breaksym_enabled ctx ||
  context_pseudo_inverse_enabled ctx.
Proof.
  unfold context_has_preprocess_options, PREPROCESSING_OPTIONS_MASK.
  rewrite !test_mask_lor. reflexivity.
Qed.

Lemma test_theory_pow2 ctx k :
  0 <= k -> test_theory ctx (2 ^ k) = Z.testbit (theories ctx) k.
Proof.
  intros Hk. unfold test_theory.
  rewrite ContextFacts.land_pow2_testbit by exact Hk.
  apply negb_involutive.
Qed.

Lemma land_pow2_set o k :
  0 <= k -> Z.testbit o k = true -> Z.land o (2 ^ k) = 2 ^ k.
Proof.
  intros Hk Hb. apply Z.bits_inj'. intros n Hn.
  rewrite Z.land_spec, Z.pow2_bits_eqb by exact Hk.
  destruct (Z.eqb_spec k n) as [<-|Hne].
  - rewrite Hb. reflexivity.
  - apply andb_false_r.
Qed.

(** X19.  [ALLTH_MASK] stands for every theory except non-linear
    arithmetic and quantifiers: the theories word of a context covers
    [ALLTH_MASK] exactly when uninterpreted functions, bit vectors, the
    five variants of linear arithmetic, function updates and
    extensionality are all allowed. *)
Theorem allth_mask_theories (ctx : context) :
  Z.land (theories ctx) ALLTH_MASK = ALLTH_MASK <->
  context_allows_uf ctx = true /\ context_allows_bv ctx = true /\
  context_allows_idl ctx = true /\ context_allows_rdl ctx = true /\
  context_allows_lia ctx = true /\ context_allows_lra ctx = true /\
  context_allows_lira ctx = true /\
  context_allows_fun_updates ctx = true /\
  context_allows_extensionality ctx = true.
Proof.
  unfold context_allows_uf, context_allows_bv, context_allows_idl,
    context_allows_rdl, context_allows_lia, context_allows_lra,
    context_allows_lira, context_allows_fun_updates,
    context_allows_extensionality.
  change UF_MASK with (2 ^ 0). change BV_MASK with (2 ^ 1).
  change IDL_MASK with (2 ^ 2). change RDL_MASK with (2 ^ 3).
  change LIA_MASK with (2 ^ 4). change LRA_MASK with (2 ^ 5).
  change LIRA_MASK with (2 ^ 6). change FUN_UPDT_MASK with (2 ^ 8).
  change FUN_EXT_MASK with (2 ^ 9).
  rewrite (test_theory_pow2 ctx 0), (test_theory_pow2 ctx 1),
    (test_theory_pow2 ctx 2), (test_theory_pow2 ctx 3),
    (test_theory_pow2 ctx 4), (test_theory_pow2 ctx 5),
    (test_theory_pow2 ctx 6), (test_theory_pow2 ctx 8),
    (test_theory_pow2 ctx 9) by lia.
  split.
  - intros H.
    assert (Hb : forall n, Z.testbit ALLTH_MASK n = true ->
                           Z.testbit (theories ctx) n = true).
    { intros n Hn.
      assert (E : Z.testbit (Z.land (theories ctx) ALLTH_MASK) n = true)
        by (rewrite H; exact Hn).
      rewrite Z.land_spec in E. apply andb_prop in E. apply E. }
    repeat match goal with |- _ /\ _ => split end;
      apply Hb; reflexivity.
  - intros (H0 & H1 & H2 & H3 & H4 & H5 & H6 & H8 & H9).
    unfold ALLTH_MASK, ARITH_MASK, FUN_MASK.
    change UF_MASK with (2 ^ 0). change BV_MASK with (2 ^ 1).
    change IDL_MASK with (2 ^ 2). change RDL_MASK with (2 ^ 3).
    change LIA_MASK with (2 ^ 4). change LRA_MASK with (2 ^ 5).
    change LIRA_MASK with (2 ^ 6). change FUN_UPDT_MASK with (2 ^ 8).
    change FUN_EXT_MASK with (2 ^ 9).
    rewrite !Z.land_lor_distr_r.
    rewrite (land_pow2_set _ 0), (land_pow2_set _ 1), (land_pow2_set _ 2),
      (land_pow2_set _ 3), (land_pow2_set _ 4), (land_pow2_set _ 5),
      (land_pow2_set _ 6), (land_pow2_set _ 8), (land_pow2_set _ 9)
      by (assumption || lia).
    reflexivity.
Qed.

Lemma op_mask_range op : 0 <= op_mask op < 2 ^ 32.
Proof.
  destruct op; (vm_compute; split; [discriminate | reflexivity]).
Qed.

Lemma testbit_above o n :
  is_uint32 o -> 32 <= n -> Z.testbit o n = false.
Proof.
  unfold is_uint32. intros Ho Hn.
  destruct (Z.testbit o n) eqn:Hb; [|reflexivity].
  pose proof (testbit_small o n Ho ltac:(lia) Hb). lia.
Qed.

Lemma is_uint32_bits z :
  0 <= z -> (forall n, 32 <= n -> Z.testbit z n = false) -> is_uint32 z.
Proof.
  intros Hz Hb.
  assert (E : z = z mod 2 ^ 32).
  { apply Z.bits_inj'. intros n Hn.
    destruct (Z.ltb_spec n 32) as [H|H].
    - rewrite Z.mod_pow2_bits_low by lia. reflexivity.
    - rewrite Z.mod_pow2_bits_high by lia. apply Hb. exact H. }
  rewrite E. apply uint32_range.
Qed.

(** Every option operation sets or clears its mask, in every context. *)
Lemma apply_option_op_cases op :
  (forall ctx, apply_option_op op ctx = set_mask ctx (op_mask op)) \/
  (forall ctx, apply_option_op op ctx = clear_mask ctx (op_mask op)).
Proof. destruct op; (left; reflexivity) || (right; reflexivity). Qed.

Lemma set_mask_range ctx m :
  is_uint32 (options ctx) -> 0 <= m < 2 ^ 32 ->
  is_uint32 (options (set_mask ctx m)).
Proof.
  intros Ho Hm. unfold set_mask. cbn. apply is_uint32_bits.
  - apply Z.lor_nonneg. unfold is_uint32 in Ho. lia.
  - intros n Hn. rewrite Z.lor_spec.
    rewrite (testbit_above _ n Ho Hn), (testbit_above m n Hm Hn).
    reflexivity.
Qed.

Lemma clear_mask_range ctx m :
  is_uint32 (options ctx) -> is_uint32 (options (clear_mask ctx m)).
Proof.
  intros Ho. unfold clear_mask. cbn. apply is_uint32_bits.
  - apply Z.land_nonneg. unfold is_uint32 in Ho. lia.
  - intros n Hn. rewrite Z.land_spec, (testbit_above _ n Ho Hn).
    reflexivity.
Qed.

Ltac option_bits :=
  let n := fresh "n" in
  let Hn := fresh "Hn" in
  unfold set_mask, clear_mask, set_options; cbn; f_equal;
  apply Z.bits_inj'; intros n Hn;
  repeat first [ rewrite Z.lor_spec | rewrite Z.land_spec
               | rewrite testbit_uint32 by exact Hn
               | rewrite Z.lnot_spec by exact Hn ].

Lemma set_set_mask ctx m : set_mask (set_mask ctx m) m = set_mask ctx m.
Proof. option_bits. destruct (Z.testbit (options ctx) n), (Z.testbit m n); reflexivity. Qed.

Lemma clear_set_mask ctx m :
  clear_mask (set_mask ctx m) m = clear_mask ctx m.
Proof.
  option_bits.
  destruct (Z.testbit (options ctx) n), (Z.testbit m n), (n <? 32); reflexivity.
Qed.

Lemma clear_clear_mask ctx m :
  clear_mask (clear_mask ctx m) m = clear_mask ctx m.
Proof.
  option_bits.
  destruct (Z.testbit (options ctx) n), (Z.testbit m n), (n <? 32); reflexivity.
Qed.

Lemma set_clear_mask ctx m :
  is_uint32 (options ctx) ->
  set_mask (clear_mask ctx m) m = set_mask ctx m.
Proof.
  intros Ho. option_bits.
  destruct (Z.ltb_spec n 32) as [H|H].
  - destruct (Z.testbit (options ctx) n), (Z.testbit m n); reflexivity.
  - rewrite (testbit_above _ n Ho H). reflexivity.
Qed.

Lemma set_set_comm ctx m1 m2 :
  set_mask (set_mask ctx m1) m2 = set_mask (set_mask ctx m2) m1.
Proof.
  option_bits.
  destruct (Z.testbit (options ctx) n), (Z.testbit m1 n), (Z.testbit m2 n); reflexivity.
Qed.

Lemma clear_clear_comm ctx m1 m2 :
  clear_mask (clear_mask ctx m1) m2 = clear_mask (clear_mask ctx m2) m1.
Proof.
  option_bits.
  destruct (Z.testbit (options ctx) n), (Z.testbit m1 n), (Z.testbit m2 n), (n <? 32);
    reflexivity.
Qed.

Lemma set_clear_comm ctx m1 m2 :
  0 <= m1 < 2 ^ 32 -> Z.land m1 m2 = 0 ->
  clear_mask (set_mask ctx m1) m2 = set_mask (clear_mask ctx m2) m1.
Proof.
  intros Hm Hd. option_bits.
  destruct (Z.testbit m1 n) eqn:H1.
  - rewrite Z.land_comm in Hd.
    rewrite (land_disjoint_bit m2 m1 n Hd H1).
    pose proof (testbit_small m1 n Hm Hn H1) as Hlt.
    destruct (Z.ltb_spec n 32); [|lia].
    rewrite !orb_true_r. reflexivity.
  - rewrite !orb_false_r. reflexivity.
Qed.

(** X20.  On a 32-bit options word, the option operations compose as
    assignments to their bits: the word stays within 32 bits, an
    operation overrides an earlier operation on the same mask, and two
    operations on disjoint masks commute. *)
Theorem option_ops_compose (op1 op2 : option_op) (ctx : context) :
  is_uint32 (options ctx) ->
  is_uint32 (options (apply_option_op op1 ctx)) /\
  (op_mask op1 = op_mask op2 ->
   apply_option_op op2 (apply_option_op op1 ctx) = apply_option_op op2 ctx) /\
  (Z.land (op_mask op1) (op_mask op2) = 0 ->
   apply_option_op op2 (apply_option_op op1 ctx) =
   apply_option_op op1 (apply_option_op op2 ctx)).
Proof.
  intros Ho.
  pose proof (op_mask_range op1) as Hr1.
  pose proof (op_mask_range op2) as Hr2.
  destruct (apply_option_op_cases op1) as [H1|H1];
    destruct (apply_option_op_cases op2) as [H2|H2];
    rewrite ?H1, ?H2.
  - split; [apply set_mask_range; assumption|]. split.
    + intros <-. apply set_set_mask.
    + intros _. apply set_set_comm.
  - split; [apply set_mask_range; assumption|]. split.
    + intros <-. apply clear_set_mask.
    + intros Hd. apply set_clear_comm; assumption.
  - split; [apply clear_mask_range; assumption|]. split.
    + intros <-. apply set_clear_mask. exact Ho.
    + intros Hd. symmetry. apply set_clear_comm; [exact Hr2|].
      rewrite Z.land_comm. exact Hd.
  - split; [apply clear_mask_range; assumption|]. split.
    + intros <-. apply clear_clear_mask.
    + intros _. apply clear_clear_comm.
Qed.

Lemma option_ops_compose_witness :
  is_uint32 (options example_context) /\
  enable_keep_ite (disable_keep_ite example_context) =
  enable_keep_ite example_context.
Proof.
  assert (H : is_uint32 (options example_context))
    by (vm_compute; split; [discriminate | reflexivity]).
  split; [exact H|].
  destruct (option_ops_compose Disable_keep_ite Enable_keep_ite
              example_context H) as (_ & Hs & _).
  apply Hs. reflexivity.
Defined.

End ContextOptionFacts.

(** ** Front end: what the command line leaves in the global flags *)

Module CommandLineFacts.

Import Frontend.

Local Abbreviation not_done :=
  (Forall (fun e : cmdline_elem => e <> cmdline_done)).

(** One step of the loop: when [parse_loop] returns on [e :: rest], and [e]
    is not the end marker, [e] was read and the loop went on with
    [rest]. *)
Lemma parse_loop_cons e rest g g' :
  e <> cmdline_done ->
  parse_loop (e :: rest) g = Return g' ->
  exists g1,
    parse_loop rest g1 = Return g' /\
    match e with
    | cmdline_argument arg => filename g = None /\ g1 = set_filename g arg
    | cmdline_option show_stats_opt _ => g1 = set_show_stats g
    | cmdline_option verbosity_opt v => 0 <= v /\ g1 = set_verbosity g v
    | cmdline_option incremental_opt _ => g1 = set_incremental g
    | cmdline_option interactive_opt _ => g1 = set_interactive g true
    | _ => False
    end.
Proof.
  intros Hd H. cbn in H.
  destruct e as [|arg|k v|]; [congruence| | |discriminate].
  - destruct (filename g) eqn:Hf; [discriminate|].
    exists (set_filename g arg). split; [exact H|]. split; reflexivity.
  - destruct k; try discriminate.
    + exists (set_show_stats g). split; [exact H | reflexivity].
    + destruct (Z.ltb_spec v 0) as [Hv|Hv]; [discriminate|].
      exists (set_verbosity g v). split; [exact H|]. split; [lia|reflexivity].
    + exists (set_incremental g). split; [exact H | reflexivity].
    + exists (set_interactive g true). split; [exact H | reflexivity].
Qed.

Lemma parse_done_fields g g' :
  parse_done g = Return g' ->
  filename g' = filename g /\ incremental g' = incremental g /\
  show_stats g' = show_stats g /\ verbosity g' = verbosity g /\
  interactive g' =
    match filename g with Some _ => false | None => interactive g end.
Proof.
  unfold parse_done. destruct (filename g) eqn:Hf; intros [= <-]; cbn;
    rewrite ?Hf; repeat split; reflexivity.
Qed.

Ltac flag_cases :=
  repeat match goal with
         | H : _ \/ _ |- _ => destruct H
         | H : exists _, _ |- _ => destruct H
         | H : _ /\ _ |- _ => destruct H
         | H : False |- _ => destruct H
         | H : In _ [] |- _ => destruct H
         | H : Some _ = Some _ |- _ => injection H as H
         | H : cmdline_argument _ = cmdline_argument _ |- _ =>
             injection H as H
         end;
  try discriminate; subst; try congruence; eauto 8.

Ltac flag_iff := split; intros; flag_cases.

Lemma parse_loop_flags elems : forall g g',
  not_done elems -> parse_loop elems g = Return g' ->
  (incremental g' = true <->
   incremental g = true \/
   exists v, In (cmdline_option incremental_opt v) elems) /\
  (show_stats g' = true <->
   show_stats g = true \/
   exists v, In (cmdline_option show_stats_opt v) elems) /\
  (forall f, filename g' = Some f <->
             filename g = Some f \/ In (cmdline_argument f) elems) /\
  (interactive g' = true <->
   (interactive g = true \/
    exists v, In (cmdline_option interactive_opt v) elems) /\
   filename g' = None) /\
  (0 <= verbosity g -> 0 <= verbosity g').
Proof.
  induction elems as [|e rest IH]; intros g g' Hnd H.
  - apply parse_done_fields in H as (Hf & Hi & Hs & Hv & Hin).
    rewrite Hf, Hi, Hs, Hv, Hin. cbn.
    destruct (filename g);
      (split; [flag_iff|]); (split; [flag_iff|]);
      (split; [intros f; flag_iff|]); (split; [flag_iff | auto]).
  - apply Forall_cons in Hnd as [He Hnd].
    destruct (parse_loop_cons e rest g g' He H) as (g1 & H1 & Hs).
    destruct (IH g1 g' Hnd H1) as (I1 & I2 & I3 & I4 & I5).
    rewrite I1, I2, I4. clear I1 I2 I4.
    destruct e as [|arg|k v|]; try contradiction.
    + destruct Hs as [Hf ->]. cbn in *.
      split; [flag_iff|]. split; [flag_iff|].
      split; [|split; [flag_iff | exact I5]].
      intros f. rewrite I3, Hf. flag_iff.
    + destruct k; try contradiction.
      * subst g1. cbn in *.
        split; [flag_iff|]. split; [flag_iff|].
        split; [|split; [flag_iff | exact I5]].
        intros f. rewrite I3. flag_iff.
      * destruct Hs as [Hv ->]. cbn in *.
        split; [flag_iff|]. split; [flag_iff|].
        split; [|split; [flag_iff | intros _; exact (I5 Hv)]].
        intros f. rewrite I3. flag_iff.
      * subst g1. cbn in *.
        split; [flag_iff|]. split; [flag_iff|].
        split; [|split; [flag_iff | exact I5]].
        intros f. rewrite I3. flag_iff.
      * subst g1. cbn in *.
        split; [flag_iff|]. split; [flag_iff|].
        split; [|split; [flag_iff | exact I5]].
        intros f. rewrite I3. flag_iff.
Qed.

Lemma parse_loop_verbosity_none elems : forall g g',
  not_done elems -> parse_loop elems g = Return g' ->
  (forall w, ~ In (cmdline_option verbosity_opt w) elems) ->
  verbosity g' = verbosity g.
Proof.
  induction elems as [|e rest IH]; intros g g' Hnd H Hno.
  - apply parse_done_fields in H as (_ & _ & _ & Hv & _). exact Hv.
  - apply Forall_cons in Hnd as [He Hnd].
    destruct (parse_loop_cons e rest g g' He H) as (g1 & H1 & Hs).
    assert (Hno' : forall w, ~ In (cmdline_option verbosity_opt w) rest).
    { intros w Hw. apply (Hno w). right. exact Hw. }
    rewrite (IH g1 g' Hnd H1 Hno').
    destruct e as [|arg|k v|]; try contradiction.
    + destruct Hs as [_ ->]. reflexivity.
    + destruct k; try contradiction; try (subst g1; reflexivity).
      exfalso. apply (Hno v). left. reflexivity.
Qed.

Lemma parse_loop_verbosity_last pre : forall v post g g',
  not_done (pre ++ cmdline_option verbosity_opt v :: post) ->
  parse_loop (pre ++ cmdline_option verbosity_opt v :: post) g = Return g' ->
  (forall w, ~ In (cmdline_option verbosity_opt w) post) ->
  verbosity g' = v.
Proof.
  induction pre as [|e pre IH]; intros v post g g' Hnd H Hno.
  - cbn [app] in *. apply Forall_cons in Hnd as [He Hnd].
    destruct (parse_loop_cons _ _ g g' He H) as (g1 & H1 & Hv & ->).
    rewrite (parse_loop_verbosity_none post _ g' Hnd H1 Hno). reflexivity.
  - cbn [app] in *. apply Forall_cons in Hnd as [He Hnd].
    destruct (parse_loop_cons _ _ g g' He H) as (g1 & H1 & _).
    apply (IH v post g1 g' Hnd H1 Hno).
Qed.

(** X21.  When [parse_command_line] returns, the global flags say what the
    command line held: [incremental] and [show_stats] are set exactly when
    their option was given, the file name is the positional argument,
    [interactive] is set exactly when its option was given and no file
    name was, and the verbosity is not negative. *)
Theorem parse_command_line_flags
    (elems : list cmdline_elem) (g : globals) :
  Forall (fun e => e <> cmdline_done) elems ->
  parse_command_line elems = Return g ->
  (incremental g = true <->
   exists v, In (cmdline_option incremental_opt v) elems) /\
  (show_stats g = true <->
   exists v, In (cmdline_option show_stats_opt v) elems) /\
  (forall f, filename g = Some f <-> In (cmdline_argument f) elems) /\
  (interactive g = true <->
   (exists v, In (cmdline_option interactive_opt v) elems) /\
   filename g = None) /\
  0 <= verbosity g.
Proof.
  unfold parse_command_line. intros Hnd H.
  destruct (parse_loop_flags elems _ g Hnd H) as (I1 & I2 & I3 & I4 & I5).
  cbn in I1, I2, I3, I4, I5.
  split; [rewrite I1; flag_iff|].
  split; [rewrite I2; flag_iff|].
  split; [intros f; rewrite I3; flag_iff|].
  split; [rewrite I4; flag_iff|].
  apply I5. lia.
Qed.

Lemma parse_command_line_flags_witness :
  let elems := [cmdline_option incremental_opt 0;
                cmdline_option verbosity_opt 3;
                cmdline_argument "bench.smt2"] in
  exists g,
    parse_command_line elems = Return g /\
    (incremental g = true <->
     exists v, In (cmdline_option incremental_opt v) elems).
Proof.
  cbn zeta. eexists. split; [reflexivity|].
  refine (proj1 (parse_command_line_flags
                   [cmdline_option incremental_opt 0;
                    cmdline_option verbosity_opt 3;
                    cmdline_argument "bench.smt2"] _ _ eq_refl)).
  repeat constructor; discriminate.
Defined.

(** X22.  The last verbosity option wins, and the verbosity is 0 when the
    command line has none. *)
Theorem last_verbosity_wins (elems : list cmdline_elem) (g : globals) :
  Forall (fun e => e <> cmdline_done) elems ->
  parse_command_line elems = Return g ->
  (forall pre v post,
     elems = pre ++ cmdline_option verbosity_opt v :: post ->
     (forall w, ~ In (cmdline_option verbosity_opt w) post) ->
     verbosity g = v) /\
  ((forall w, ~ In (cmdline_option verbosity_opt w) elems) ->
   verbosity g = 0).
Proof.
  unfold parse_command_line. intros Hnd H. split.
  - intros pre v post -> Hno.
    apply (parse_loop_verbosity_last pre v post _ g Hnd H Hno).
  - intros Hno.
    rewrite (parse_loop_verbosity_none elems _ g Hnd H Hno). reflexivity.
Qed.

Lemma last_verbosity_wins_witness :
  let elems := [cmdline_option verbosity_opt 1;
                cmdline_option verbosity_opt 4;
                cmdline_argument "bench.smt2"] in
  exists g, parse_command_line elems = Return g /\ verbosity g = 4.
Proof.
  cbn zeta. eexists. split; [reflexivity|].
  refine (proj1 (last_verbosity_wins
                   [cmdline_option verbosity_opt 1;
                    cmdline_option verbosity_opt 4;
                    cmdline_argument "bench.smt2"] _ _ eq_refl)
            [cmdline_option verbosity_opt 1] 4
            [cmdline_argument "bench.smt2"] eq_refl _).
  - repeat constructor; discriminate.
  - intros w [Hw | []]. discriminate.
Defined.

(** X24.  In interactive mode the command loop prints one prompt for each
    command it reads, syntax errors included; otherwise it prints none. *)
Theorem command_loop_prompts (codes : list Z) (n : nat) :
  command_loop true codes n = (n + length codes)%nat /\
  command_loop false codes n = n.
Proof.
  revert n. induction codes as [|c rest IH]; intros n; cbn.
  - split; [lia | reflexivity].
  - destruct (IH (S n)) as [IHt _]. destruct (IH n) as [_ IHf].
    rewrite IHf. split.
    + destruct (c <? 0); rewrite IHt; lia.
    + destruct (c <? 0); reflexivity.
Qed.

End CommandLineFacts.

(** ** Keywords of the SMT-LIB 2 lexer *)

Module Smt2TokenFacts.

Import Smt2Tokens.

(** The check of one entry of the table: a word that is not empty hashes
    to a value between [MIN_HASH_VALUE] and [MAX_HASH_VALUE], the slot of
    that value holds the entry, and [in_smt2_tk] returns it. *)
Lemma table_checked :
  forallb
    (fun kw =>
       let h := hash_tk (word kw) (strlen (word kw)) in
       String.eqb (word kw) "" ||
       ((MIN_HASH_VALUE <=? h) && (h <=? MAX_HASH_VALUE) &&
        bool_decide (smt2_tk !! Z.to_nat h = Some kw) &&
        bool_decide (in_smt2_tk (word kw) (strlen (word kw)) = Some kw)))
    smt2_tk = true.
Proof. vm_compute. reflexivity. Qed.

Lemma keyword_checked kw :
  In kw smt2_tk -> word kw <> ""%string ->
  in_smt2_tk (word kw) (strlen (word kw)) = Some kw.
Proof.
  intros Hin Hw.
  pose proof table_checked as H.
  rewrite forallb_forall in H. specialize (H kw Hin). cbn zeta in H.
  apply orb_prop in H as [H | H].
  - apply String.eqb_eq in H. contradiction.
  - apply andb_prop in H as [_ H]. apply bool_decide_eq_true in H. exact H.
Qed.

(** X25.  The hash is perfect on the table: every keyword hashes to its
    own slot, between [MIN_HASH_VALUE] and [MAX_HASH_VALUE], and
    [in_smt2_tk] finds it there. *)
Theorem keywords_are_found (kw : keyword) :
  In kw smt2_tk -> word kw <> ""%string ->
  MIN_HASH_VALUE <= hash_tk (word kw) (strlen (word kw)) <= MAX_HASH_VALUE /\
  smt2_tk !! Z.to_nat (hash_tk (word kw) (strlen (word kw))) = Some kw /\
  in_smt2_tk (word kw) (strlen (word kw)) = Some kw.
Proof.
  intros Hin Hw.
  pose proof table_checked as H.
  rewrite forallb_forall in H. specialize (H kw Hin). cbn zeta in H.
  apply orb_prop in H as [H | H].
  - apply String.eqb_eq in H. contradiction.
  - apply andb_prop in H as [H Hfound]. apply andb_prop in H as [H Hslot].
    apply andb_prop in H as [Hmin Hmax].
    apply Z.leb_le in Hmin. apply Z.leb_le in Hmax.
    apply bool_decide_eq_true in Hslot. apply bool_decide_eq_true in Hfound.
    split; [lia|]. split; [exact Hslot | exact Hfound].
Qed.

Lemma keywords_are_found_witness :
  let kw := entry "check-sat" SMT2_TK_CHECK_SAT in
  In kw smt2_tk /\
  in_smt2_tk "check-sat" (strlen "check-sat") = Some kw.
Proof.
  cbn zeta.
  assert (Hin : In (entry "check-sat" SMT2_TK_CHECK_SAT) smt2_tk).
  { apply list_elem_of_In. apply (list_elem_of_lookup_2 _ 24). reflexivity. }
  split; [exact Hin|].
  refine (proj2 (proj2 (keywords_are_found
                          (entry "check-sat" SMT2_TK_CHECK_SAT) Hin _))).
  discriminate.
Defined.

(** X26.  [in_smt2_tk] recognizes the words of the table and nothing
    else: it returns an entry exactly when the string is the word of that
    entry and is not empty; for every other string it returns the null
    pointer. *)
Theorem in_smt2_tk_spec (str : string) (kw : keyword) :
  in_smt2_tk str (strlen str) = Some kw <->
  In kw smt2_tk /\ word kw = str /\ str <> ""%string.
Proof.
  split.
  - unfold in_smt2_tk. intros H.
    destruct (Z.leb_spec (strlen str) MAX_WORD_LENGTH) as [Hmax|];
      [|discriminate].
    destruct (Z.leb_spec MIN_WORD_LENGTH (strlen str)) as [Hmin|];
      [|discriminate].
    cbn [andb] in H.
    destruct (hash_tk str (strlen str) <=? MAX_HASH_VALUE); [|discriminate].
    destruct (smt2_tk !! Z.to_nat (hash_tk str (strlen str)))
      as [kw'|] eqn:Hl; [|discriminate].
    destruct (String.eqb_spec str (word kw')) as [E|E]; [|discriminate].
    injection H as <-.
    split; [|split].
    + apply list_elem_of_In. apply (list_elem_of_lookup_2 _ _ _ Hl).
    + symmetry. exact E.
    + intros Hs. rewrite Hs in Hmin. vm_compute in Hmin.
      apply Hmin. reflexivity.
  - intros (Hin & <- & Hne). apply (keyword_checked kw Hin Hne).
Qed.

End Smt2TokenFacts.

(** ** The test driver of the symbol table *)

Module SymbolTableTestFacts.

Import SymbolTable SymbolTableTest.

Section WithHash.

Variable hash : string -> Z.

Lemma stbl_find_add tbl w v name :
  stbl_find hash (stbl_add hash tbl w v) name =
  if String.eqb w name then v else stbl_find hash tbl name.
Proof.
  rewrite !SymbolTableFacts.stbl_find_bindings.
  destruct (String.eqb_spec w name) as [<-|Hne].
  - rewrite SymbolTableFacts.bindings_add. reflexivity.
  - rewrite SymbolTableFacts.bindings_add_other by congruence. reflexivity.
Qed.

Lemma stbl_find_init n name : stbl_find hash (init_stbl n) name = -1.
Proof. reflexivity. Qed.

Lemma build_spec words : forall i tbl,
  0 <= i -> i + Z.of_nat (length words) <= 2 ^ 31 ->
  (forall name, -1 <= stbl_find hash tbl name) ->
  forall tbl' val, build hash words i tbl = (tbl', val) ->
  (forall name,
     stbl_find hash tbl' name =
     if stbl_find hash tbl name <? 0 then first_index name words i
     else stbl_find hash tbl name) /\
  val = List.map (stbl_find hash tbl') words.
Proof.
  induction words as [|w rest IH]; intros i tbl Hi Hlen Hge tbl' val Hb.
  - cbn in Hb. injection Hb as <- <-. split; [|reflexivity].
    intros name. cbn.
    destruct (Z.ltb_spec (stbl_find hash tbl name) 0) as [E|E];
      [|reflexivity].
    specialize (Hge name). lia.
  - cbn [length] in Hlen. cbn [build] in Hb.
    assert (Hs : sint32 i = i).
    { apply sint32_id. unfold is_int32. lia. }
    destruct (Z.ltb_spec (stbl_find hash tbl w) 0) as [Hx|Hx].
    + destruct (build hash rest (i + 1) (stbl_add hash tbl w (sint32 i)))
        as [tbl1 val1] eqn:Hb1.
      injection Hb as <- <-.
      assert (Hge1 : forall name,
                 -1 <= stbl_find hash (stbl_add hash tbl w (sint32 i)) name).
      { intros name. rewrite stbl_find_add, Hs.
        destruct (String.eqb w name); [lia | apply Hge]. }
      assert (Hlen1 : i + 1 + Z.of_nat (length rest) <= 2 ^ 31) by lia.
      destruct (IH (i + 1) _ ltac:(lia) Hlen1 Hge1 _ _ Hb1) as [Hf Hv].
      assert (Hfind : forall name,
                 stbl_find hash tbl1 name =
                 if stbl_find hash tbl name <? 0
                 then first_index name (w :: rest) i
                 else stbl_find hash tbl name).
      { intros name. rewrite Hf, stbl_find_add. cbn [first_index].
        destruct (String.eqb_spec w name) as [<-|Hne].
        - rewrite Hs.
          destruct (Z.ltb_spec i 0); [lia|].
          destruct (Z.ltb_spec (stbl_find hash tbl w) 0); [reflexivity|lia].
        - reflexivity. }
      split; [exact Hfind|].
      cbn [List.map]. rewrite <- Hv. f_equal.
      rewrite Hfind. cbn [first_index]. rewrite String.eqb_refl.
      destruct (Z.ltb_spec (stbl_find hash tbl w) 0); [exact Hs | lia].
    + destruct (build hash rest (i + 1) tbl) as [tbl1 val1] eqn:Hb1.
      injection Hb as <- <-.
      assert (Hlen1 : i + 1 + Z.of_nat (length rest) <= 2 ^ 31) by lia.
      destruct (IH (i + 1) _ ltac:(lia) Hlen1 Hge _ _ Hb1) as [Hf Hv].
      assert (Hfind : forall name,
                 stbl_find hash tbl1 name =
                 if stbl_find hash tbl name <? 0
                 then first_index name (w :: rest) i
                 else stbl_find hash tbl name).
      { intros name. rewrite Hf. cbn [first_index].
        destruct (String.eqb_spec w name) as [<-|Hne]; [|reflexivity].
        destruct (Z.ltb_spec (stbl_find hash tbl w) 0); [lia | reflexivity]. }
      split; [exact Hfind|].
      cbn [List.map]. rewrite <- Hv. f_equal.
      rewrite Hfind.
      destruct (Z.ltb_spec (stbl_find hash tbl w) 0); [lia | reflexivity].
Qed.

Lemma check_loop_map tbl words : forall i,
  check_loop hash tbl words (List.map (stbl_find hash tbl) words) i = [].
Proof.
  induction words as [|w rest IH]; intros i; cbn; [reflexivity|].
  rewrite Z.eqb_refl. apply IH.
Qed.

Lemma first_index_absent name words : forall i,
  ~ In name words -> first_index name words i = -1.
Proof.
  induction words as [|w rest IH]; intros i Hn; cbn; [reflexivity|].
  destruct (String.eqb_spec w name) as [E|E].
  - exfalso. apply Hn. left. exact E.
  - apply IH. intros H. apply Hn. right. exact H.
Qed.

Lemma first_index_present name words : forall i,
  In name words ->
  i <= first_index name words i < i + Z.of_nat (length words) /\
  words !! Z.to_nat (first_index name words i - i) = Some name /\
  forall k, (k < Z.to_nat (first_index name words i - i))%nat ->
            words !! k <> Some name.
Proof.
  induction words as [|w rest IH]; intros i Hin; [destruct Hin|].
  cbn [first_index length].
  destruct (String.eqb_spec w name) as [E|E].
  - subst w. replace (i - i) with 0 by lia. cbn.
    split; [lia|]. split; [reflexivity|]. intros k Hk. lia.
  - destruct Hin as [Hin|Hin]; [contradiction|].
    destruct (IH (i + 1) Hin) as (Hr & Hl & Hfirst).
    split; [lia|].
    replace (Z.to_nat (first_index name rest (i + 1) - i))
      with (S (Z.to_nat (first_index name rest (i + 1) - (i + 1))))
      by lia.
    split; [exact Hl|].
    intros [|k] Hk; cbn.
    + congruence.
    + apply Hfirst. lia.
Qed.

(** X27.  The loop that fills the table binds every word to the position
    of its first occurrence in the list: afterwards [stbl_find] returns
    that position for a word of the list and -1 for any other name,
    [val[i]] is the value found for [words[i]], and the checking loop
    prints no error. *)
Theorem build_then_check (words : list string) (n : Z)
    (tbl : stbl_t) (val : list Z) :
  Z.of_nat (length words) <= 2 ^ 31 ->
  build hash words 0 (init_stbl n) = (tbl, val) ->
  (forall name, stbl_find hash tbl name = first_index name words 0) /\
  (forall name, ~ In name words -> stbl_find hash tbl name = -1) /\
  (forall name, In name words ->
     words !! Z.to_nat (stbl_find hash tbl name) = Some name /\
     forall k, (k < Z.to_nat (stbl_find hash tbl name))%nat ->
               words !! k <> Some name) /\
  val = List.map (stbl_find hash tbl) words /\
  check_loop hash tbl words val 0 = [].
Proof.
  intros Hlen Hb.
  assert (Hge : forall name, -1 <= stbl_find hash (init_stbl n) name).
  { intros name. rewrite stbl_find_init. lia. }
  destruct (build_spec words 0 (init_stbl n) ltac:(lia) Hlen Hge tbl val Hb)
    as [Hf Hv].
  assert (Hfind : forall name,
             stbl_find hash tbl name = first_index name words 0).
  { intros name. rewrite Hf, stbl_find_init. reflexivity. }
  split; [exact Hfind|].
  split; [intros name Hn; rewrite Hfind; apply first_index_absent, Hn|].
  split.
  - intros name Hin. rewrite Hfind.
    destruct (first_index_present name words 0 Hin) as (_ & Hl & Hfirst).
    rewrite Z.sub_0_r in Hl, Hfirst. split; [exact Hl | exact Hfirst].
  - split; [exact Hv|]. rewrite Hv. apply check_loop_map.
Qed.

End WithHash.

Lemma build_then_check_witness :
  let hash := fun _ : string => 5 in
  let words := ["x"; "y"; "x"]%string in
  exists tbl val,
    build hash words 0 (init_stbl 8) = (tbl, val) /\
    val = [0; 1; 0] /\
    check_loop hash tbl words val 0 = [].
Proof.
  cbn zeta. eexists. eexists. split; [reflexivity|].
  split; [reflexivity|].
  refine (proj2 (proj2 (proj2 (proj2
    (build_then_check (fun _ => 5) ["x"; "y"; "x"]%string 8 _ _ _
       eq_refl))))).
  cbn. lia.
Defined.

End SymbolTableTestFacts.

(** ** Model-based projection *)

Module ProjectionFacts.

Import TermOcc Projection.

Section Subst.

Variable apply_term_subst : Z -> Z.

Local Abbreviation keep := (fun t : Z => negb (t =? true_term)).
Local Abbreviation image := (List.map apply_term_subst).
Local Abbreviation loop := (subst_loop apply_term_subst).

(** The loop when no substitution fails: the kept images of the elements
    not yet read are appended to the [j] elements already written. *)
Lemma subst_loop_ok fuel : forall i j data,
  (j <= i)%nat -> (i + fuel)%nat = length data ->
  Forall (fun a => 0 <= apply_term_subst a) (drop i data) ->
  loop fuel i j data =
  (take j data ++ List.filter keep (image (drop i data)), None).
Proof.
  induction fuel as [|fuel IH]; intros i j data Hji Hlen Hok.
  - cbn. rewrite drop_ge by lia. cbn. rewrite app_nil_r. reflexivity.
  - cbn [subst_loop].
    destruct (lookup_lt_is_Some_2 data i ltac:(lia)) as [a Ha].
    rewrite Ha. rewrite (drop_S _ _ _ Ha) in Hok |- *.
    apply Forall_cons in Hok as [Hpos Hok]. cbn zeta.
    destruct (Z.ltb_spec (apply_term_subst a) 0) as [Hneg|_]; [lia|].
    cbn [List.map List.filter].
    destruct (negb (apply_term_subst a =? true_term)) eqn:Hk.
    + rewrite IH.
      * rewrite drop_insert_lt by lia.
        rewrite (take_S_r _ _ (apply_term_subst a)).
        -- rewrite take_insert_ge by lia. rewrite <- app_assoc.
           reflexivity.
        -- apply list_lookup_insert_eq. lia.
      * lia.
      * rewrite length_insert. lia.
      * rewrite drop_insert_lt by lia. exact Hok.
    + rewrite IH by (lia || exact Hok). reflexivity.
Qed.

(** The loop when a substitution fails: it stops at the first element
    whose image is negative, with the array as long as before and the
    elements from there on not touched. *)
Lemma subst_loop_error fuel : forall i j data pre a post,
  (j <= i)%nat -> (i + fuel)%nat = length data ->
  drop i data = pre ++ a :: post ->
  Forall (fun b => 0 <= apply_term_subst b) pre ->
  apply_term_subst a < 0 ->
  exists data',
    loop fuel i j data = (data', Some (apply_term_subst a)) /\
    length data' = length data /\
    drop (i + length pre) data' = a :: post.
Proof.
  induction fuel as [|fuel IH]; intros i j data pre a post Hji Hlen Hd Hok Ha.
  - rewrite drop_ge in Hd by lia. destruct pre; discriminate.
  - cbn [subst_loop].
    destruct (lookup_lt_is_Some_2 data i ltac:(lia)) as [b Hb].
    rewrite Hb. rewrite (drop_S _ _ _ Hb) in Hd. cbn zeta.
    destruct pre as [|b' pre].
    + cbn in Hd. injection Hd as -> Hpost.
      destruct (Z.ltb_spec (apply_term_subst a) 0) as [_|Hge]; [|lia].
      exists data. split; [reflexivity|]. split; [reflexivity|].
      cbn [length]. rewrite Nat.add_0_r, (drop_S _ _ _ Hb), Hpost.
      reflexivity.
    + cbn in Hd. injection Hd as <- Hd.
      apply Forall_cons in Hok as [Hpos Hok].
      destruct (Z.ltb_spec (apply_term_subst b) 0) as [Hneg|_]; [lia|].
      cbn [length]. replace (i + S (length pre))%nat
        with (S i + length pre)%nat by lia.
      destruct (negb (apply_term_subst b =? true_term)).
      * destruct (IH (S i) (S j) (<[j := apply_term_subst b]> data)
                    pre a post) as (data' & Hl & Hn & Hdr).
        -- lia.
        -- rewrite length_insert. lia.
        -- rewrite drop_insert_lt by lia. exact Hd.
        -- exact Hok.
        -- exact Ha.
        -- exists data'. split; [exact Hl|].
           split; [rewrite Hn; apply length_insert | exact Hdr].
      * apply (IH (S i) j data pre a post); (lia || assumption).
Qed.

(** X28.  When the substitution succeeds on every literal of [v],
    [proj_subst_vector] replaces [v] by the images of its literals, in
    order and without those that are [true_term], and it leaves the
    projector as it was. *)
Theorem proj_subst_vector_ok (proj : projector) (v : list Z) :
  Forall (fun a => 0 <= apply_term_subst a) v ->
  proj_subst_vector apply_term_subst proj v =
  (proj,
   List.filter (fun t => negb (t =? true_term))
     (List.map apply_term_subst v)).
Proof.
  intros Hok. unfold proj_subst_vector.
  rewrite (subst_loop_ok (length v) 0 0 v); [reflexivity|lia|lia|exact Hok].
Qed.

(** X29.  When the substitution fails, [proj_subst_vector] stops at the
    first literal whose image is negative: the vector keeps its length and
    the literals from that one on are not touched; the flag becomes
    [PROJ_ERROR_IN_SUBST] with that image as error code, unless the
    projector already holds an error, which is then kept. *)
Theorem proj_subst_vector_error
    (proj : projector) (pre post : list Z) (a : Z) :
  Forall (fun b => 0 <= apply_term_subst b) pre ->
  apply_term_subst a < 0 ->
  exists v',
    proj_subst_vector apply_term_subst proj (pre ++ a :: post) =
      (proj_error proj PROJ_ERROR_IN_SUBST (apply_term_subst a), v') /\
    length v' = length (pre ++ a :: post) /\
    drop (length pre) v' = a :: post /\
    (flag proj = PROJ_NO_ERROR ->
     flag (proj_error proj PROJ_ERROR_IN_SUBST (apply_term_subst a))
       = PROJ_ERROR_IN_SUBST /\
     error_code (proj_error proj PROJ_ERROR_IN_SUBST (apply_term_subst a))
       = apply_term_subst a) /\
    (flag proj <> PROJ_NO_ERROR ->
     proj_error proj PROJ_ERROR_IN_SUBST (apply_term_subst a) = proj).
Proof.
  intros Hok Ha. unfold proj_subst_vector.
  destruct (subst_loop_error (length (pre ++ a :: post)) 0 0
              (pre ++ a :: post) pre a post)
    as (v' & Hl & Hn & Hd); try (lia || assumption || reflexivity).
  exists v'. rewrite Hl. split; [reflexivity|].
  split; [exact Hn|]. split; [exact Hd|].
  unfold proj_error. split.
  - intros Hf. rewrite (bool_decide_eq_true_2 _ Hf). cbn.
    split; reflexivity.
  - intros Hf. rewrite (bool_decide_eq_false_2 _ Hf). reflexivity.
Qed.

End Subst.

Lemma proj_subst_vector_ok_witness :
  let subst := fun t : Z => if t =? 10 then true_term else t + 2 in
  let proj := {| evars := []; gen_literals := []; arith_literals := [];
                 flag := PROJ_NO_ERROR; error_code := 0 |} in
  Forall (fun a => 0 <= subst a) [8; 10; 12] /\
  proj_subst_vector subst proj [8; 10; 12] = (proj, [10; 14]).
Proof.
  cbn zeta.
  assert (H : Forall (fun a => 0 <= (if a =? 10 then true_term else a + 2))
                [8; 10; 12]).
  { repeat constructor; vm_compute; discriminate. }
  split; [exact H|].
  apply (proj_subst_vector_ok
           (fun t => if t =? 10 then true_term else t + 2) _ [8; 10; 12] H).
Defined.

Lemma proj_subst_vector_error_witness :
  let subst := fun t : Z => if t =? 10 then -4 else t + 2 in
  let proj := {| evars := []; gen_literals := []; arith_literals := [];
                 flag := PROJ_NO_ERROR; error_code := 0 |} in
  exists v',
    proj_subst_vector subst proj ([8] ++ 10 :: [12]) =
      (proj_error proj PROJ_ERROR_IN_SUBST (subst 10), v') /\
    length v' = 3%nat.
Proof.
  cbn zeta.
  destruct (proj_subst_vector_error
              (fun t => if t =? 10 then -4 else t + 2)
              {| evars := []; gen_literals := []; arith_literals := [];
                 flag := PROJ_NO_ERROR; error_code := 0 |} [8] [12] 10)
    as (v' & Hp & Hn & _).
  - repeat constructor. vm_compute. discriminate.
  - reflexivity.
  - exists v'. split; [exact Hp | exact Hn].
Defined.

Section Elim.

Variable elim_subst_get_map : Z -> Z.
Variable elim_subst_apply : Z -> Z.

Local Abbreviation unmapped := (fun x : Z => elim_subst_get_map x <? 0).
Local Abbreviation kept := (fun t : Z => negb (t =? true_term)).

(** The two loops compact the array in place: the first [j'] elements of
    the result are the [j] elements already written followed by the
    elements kept among those not yet read. *)
Lemma evars_loop_spec fuel : forall i j data data' j',
  (j <= i)%nat -> (i + fuel)%nat = length data ->
  evars_loop elim_subst_get_map fuel i j data = (data', j') ->
  take j' data' = take j data ++ List.filter unmapped (drop i data).
Proof.
  induction fuel as [|fuel IH]; intros i j data data' j' Hji Hlen Hl.
  - cbn in Hl. injection Hl as <- <-.
    rewrite drop_ge by lia. cbn. rewrite app_nil_r. reflexivity.
  - cbn [evars_loop] in Hl.
    destruct (lookup_lt_is_Some_2 data i ltac:(lia)) as [x Hx].
    rewrite Hx in Hl. cbn zeta in Hl.
    rewrite (drop_S _ _ _ Hx). cbn [List.filter].
    destruct (elim_subst_get_map x <? 0).
    + assert (Hlen' : (S i + fuel)%nat = length (<[j := x]> data))
        by (rewrite length_insert; lia).
      rewrite (IH (S i) (S j) _ data' j' ltac:(lia) Hlen' Hl).
      rewrite drop_insert_lt by lia.
      rewrite (take_S_r _ _ x) by (apply list_lookup_insert_eq; lia).
      rewrite take_insert_ge by lia. rewrite <- app_assoc. reflexivity.
    + assert (Hlen' : (S i + fuel)%nat = length data) by lia.
      apply (IH (S i) j data data' j' ltac:(lia) Hlen' Hl).
Qed.

Lemma literals_loop_spec fuel : forall i j data data' j',
  (j <= i)%nat -> (i + fuel)%nat = length data ->
  literals_loop elim_subst_apply fuel i j data = (data', j') ->
  take j' data' =
  take j data ++ List.filter kept (List.map elim_subst_apply (drop i data)).
Proof.
  induction fuel as [|fuel IH]; intros i j data data' j' Hji Hlen Hl.
  - cbn in Hl. injection Hl as <- <-.
    rewrite drop_ge by lia. cbn. rewrite app_nil_r. reflexivity.
  - cbn [literals_loop] in Hl.
    destruct (lookup_lt_is_Some_2 data i ltac:(lia)) as [a Ha].
    rewrite Ha in Hl. cbn zeta in Hl.
    rewrite (drop_S _ _ _ Ha). cbn [List.map List.filter].
    destruct (negb (elim_subst_apply a =? true_term)).
    + assert (Hlen' : (S i + fuel)%nat =
                      length (<[j := elim_subst_apply a]> data))
        by (rewrite length_insert; lia).
      rewrite (IH (S i) (S j) _ data' j' ltac:(lia) Hlen' Hl).
      rewrite drop_insert_lt by lia.
      rewrite (take_S_r _ _ (elim_subst_apply a))
        by (apply list_lookup_insert_eq; lia).
      rewrite take_insert_ge by lia. rewrite <- app_assoc. reflexivity.
    + assert (Hlen' : (S i + fuel)%nat = length data) by lia.
      apply (IH (S i) j data data' j' ltac:(lia) Hlen' Hl).
Qed.

Lemma evars_loop_count fuel : forall i j data data' j',
  (j <= i)%nat -> (i + fuel)%nat = length data ->
  evars_loop elim_subst_get_map fuel i j data = (data', j') ->
  j' = (j + length (List.filter unmapped (drop i data)))%nat.
Proof.
  induction fuel as [|fuel IH]; intros i j data data' j' Hji Hlen Hl.
  - cbn in Hl. injection Hl as <- <-.
    rewrite drop_ge by lia. cbn. lia.
  - cbn [evars_loop] in Hl.
    destruct (lookup_lt_is_Some_2 data i ltac:(lia)) as [x Hx].
    rewrite Hx in Hl. cbn zeta in Hl.
    rewrite (drop_S _ _ _ Hx). cbn [List.filter].
    destruct (elim_subst_get_map x <? 0).
    + assert (Hlen' : (S i + fuel)%nat = length (<[j := x]> data))
        by (rewrite length_insert; lia).
      rewrite (IH (S i) (S j) _ data' j' ltac:(lia) Hlen' Hl).
      rewrite drop_insert_lt by lia. cbn [length]. lia.
    + assert (Hlen' : (S i + fuel)%nat = length data) by lia.
      apply (IH (S i) j data data' j' ltac:(lia) Hlen' Hl).
Qed.

Lemma filter_length_lt (P : Z -> bool) l :
  (length (List.filter P l) < length l)%nat <->
  exists x, In x l /\ P x = false.
Proof.
  induction l as [|a l IH]; cbn [List.filter length].
  - split; [lia | intros (x & [] & _)].
  - pose proof (List.filter_length_le P l) as Hle.
    destruct (P a) eqn:Ha; cbn [length].
    + rewrite <- Nat.succ_lt_mono, IH. split.
      * intros (x & Hin & Hx). exists x. split; [right; exact Hin | exact Hx].
      * intros (x & [-> | Hin] & Hx); [congruence|].
        exists x. split; assumption.
    + split; [|lia]. intros _. exists a. split; [left; reflexivity | exact Ha].
Qed.

(** X30.  [proj_elim_by_substitution] keeps in [evars], in order, the
    variables that the substitution does not map.  When at least one
    variable is mapped, the generic literals are replaced by their images
    under the substitution, in order and without those equal to
    [true_term]; when none is, they are left as they are.  The arithmetic
    literals, the flag and the error code are not changed. *)
Theorem proj_elim_by_substitution_spec (proj : projector) :
  let proj' :=
    proj_elim_by_substitution elim_subst_get_map elim_subst_apply proj in
  evars proj' =
    List.filter (fun x => elim_subst_get_map x <? 0) (evars proj) /\
  ((exists x, In x (evars proj) /\ 0 <= elim_subst_get_map x) ->
   gen_literals proj' =
     List.filter (fun t => negb (t =? true_term))
       (List.map elim_subst_apply (gen_literals proj))) /\
  ((forall x, In x (evars proj) -> elim_subst_get_map x < 0) ->
   gen_literals proj' = gen_literals proj) /\
  arith_literals proj' = arith_literals proj /\
  flag proj' = flag proj /\
  error_code proj' = error_code proj.
Proof.
  cbn zeta. unfold proj_elim_by_substitution.
  destruct (evars_loop elim_subst_get_map (length (evars proj)) 0 0
              (evars proj)) as [data j] eqn:He.
  pose proof (evars_loop_spec _ 0 0 _ _ _ (le_n 0) eq_refl He) as Ht.
  pose proof (evars_loop_count _ 0 0 _ _ _ (le_n 0) eq_refl He) as Hj.
  cbn in Ht, Hj.
  destruct (literals_loop elim_subst_apply (length (gen_literals proj)) 0 0
              (gen_literals proj)) as [lits k] eqn:Hg.
  pose proof (literals_loop_spec _ 0 0 _ _ _ (le_n 0) eq_refl Hg) as Hk.
  cbn in Hk. cbn [evars gen_literals arith_literals flag error_code].
  split; [exact Ht|].
  split; [|split; [|split; [reflexivity | split; reflexivity]]].
  - intros (x & Hin & Hx).
    assert (Hlt : (j < length (evars proj))%nat).
    { rewrite Hj. apply filter_length_lt. exists x. split; [exact Hin|].
      apply Z.ltb_ge. exact Hx. }
    destruct (Nat.ltb_spec j (length (evars proj))); [exact Hk | lia].
  - intros Hall.
    destruct (Nat.ltb_spec j (length (evars proj))) as [Hlt|_];
      [|reflexivity].
    rewrite Hj in Hlt. apply filter_length_lt in Hlt as (x & Hin & Hx).
    apply Z.ltb_ge in Hx. specialize (Hall x Hin). lia.
Qed.

End Elim.

Lemma proj_elim_by_substitution_spec_witness :
  let get_map := fun x : Z => if x =? 20 then 30 else -1 in
  let apply := fun t : Z => if t =? 40 then true_term else t in
  let proj := {| evars := [18; 20; 22]; gen_literals := [40; 42];
                 arith_literals := []; flag := PROJ_NO_ERROR;
                 error_code := 0 |} in
  evars (proj_elim_by_substitution get_map apply proj) = [18; 22] /\
  gen_literals (proj_elim_by_substitution get_map apply proj) = [42].
Proof.
  cbn zeta.
  destruct (proj_elim_by_substitution_spec
              (fun x => if x =? 20 then 30 else -1)
              (fun t => if t =? 40 then true_term else t)
              {| evars := [18; 20; 22]; gen_literals := [40; 42];
                 arith_literals := []; flag := PROJ_NO_ERROR;
                 error_code := 0 |}) as (He & Hg & _).
  split; [exact He|].
  apply Hg. exists 20. split; [cbn; tauto | vm_compute; discriminate].
Defined.

End ProjectionFacts.
